(** * WordCounter: tokenizer, string pool and word hash table

    A shallow embedding of [src/utils.c], [src/memstructs.c] and
    [src/wordcount.c], and the properties of the word-counting engine
    established (or refuted) over it.

    Modelling conventions.
    - [size_t] and [uint32_t] sizes, cursors, slot indices and counters are
      natural numbers; none of them overflows for tables below [2^31] slots,
      which is the range all statements are about.  The signed probing
      displacement, characters, [char*] addresses and the 64-bit FNV hash
      live in [Z]; the hash wraps around at [2^64] explicitly.
    - A [char*] into the strings pool is an absolute address.  The pool
      records the base address of its block and the bytes of the block, so
      that a [realloc] which moves the block invalidates old addresses.
    - The allocator is part of the environment.  For the hash table every
      [calloc]/[realloc] outcome is an explicit argument ([Alloc]); the
      tokenizer is described for runs in which its allocations succeed.
    - Loops whose termination is not structural carry a fuel argument and
      return [None] when it runs out. *)

From Stdlib Require Import ZArith Lia String Ascii.
From stdpp Require Import base tactics option list.

Local Open Scope Z_scope.
Local Open Scope nat_scope.

(** ** memstructs.h: return status *)

Inductive RetStatus : Set :=
| SUCCESS
| DATA_STRUCT_FULL
| GEN_FAIL.

#[global] Instance RetStatus_eq_dec : EqDecision RetStatus.
Proof. solve_decision. Defined.

(** ** Characters and C strings *)

(** The code of a character literal. *)
Definition chr (a : ascii) : Z := Z.of_N (N_of_ascii a).

(** The bytes of a text, as [fgetc] delivers them. *)
Definition text (s : string) : list Z := map chr (list_ascii_of_string s).

(** [strncpy(dst, src, cnt)]: the [cnt] bytes written to [dst].  Copying
    stops at the first NUL of [src]; the rest is padded with NUL. *)
Fixpoint strncpy (src : list Z) (cnt : nat) : list Z :=
  match cnt with
  | O => []
  | S n =>
      match src with
      | [] => repeat 0%Z (S n)
      | c :: s => if (c =? 0)%Z then repeat 0%Z (S n) else c :: strncpy s n
      end
  end.

(** [strcmp(s1, s2)]: the difference of the first pair of bytes that differ,
    [0] when both strings end together.  The end of the list counts as NUL. *)
Fixpoint strcmp (s1 s2 : list Z) : Z :=
  match s1, s2 with
  | c1 :: r1, c2 :: r2 =>
      if (c1 =? c2)%Z then (if (c1 =? 0)%Z then 0%Z else strcmp r1 r2)
      else (c1 - c2)%Z
  | c1 :: _, [] => c1
  | [], c2 :: _ => (0 - c2)%Z
  | [], [] => 0%Z
  end.

(** The characters of the NUL-terminated string that starts a byte
    sequence (what [printf("%s")] shows). *)
Fixpoint c_string (l : list Z) : list Z :=
  match l with
  | [] => []
  | c :: r => if (c =? 0)%Z then [] else c :: c_string r
  end.

(** [p[i]] for a signed index; a read outside the modelled bytes yields 0. *)
Definition char_at (p : list Z) (i : Z) : Z :=
  if (i <? 0)%Z then 0%Z else nth (Z.to_nat i) p 0%Z.

(** ** utils.c *)

(** [string_copy(dst, src, cnt)]: success flag and the new contents of
    [dst].  Both pointers are non-NULL wherever the program calls it. *)
Definition string_copy (dst src : list Z) (cnt : nat) : bool * list Z :=
  if cnt =? 0 then (false, dst)
  else (true, strncpy src cnt ++ drop cnt dst).

Definition wrap64 (x : Z) : Z := (x mod 2 ^ 64)%Z.

Definition next_2power (num : nat) : nat :=
  if num =? 0 then 1
  else
    let v := wrap64 (Z.of_nat num - 1) in
    let v := Z.lor v (Z.shiftr v 1) in
    let v := Z.lor v (Z.shiftr v 2) in
    let v := Z.lor v (Z.shiftr v 4) in
    let v := Z.lor v (Z.shiftr v 8) in
    let v := Z.lor v (Z.shiftr v 16) in
    let v := Z.lor v (Z.shiftr v 32) in
    Z.to_nat (wrap64 (v + 1)).

Definition FNV_OFFSET : Z := 0xcbf29ce484222325.
Definition FNV_PRIME : Z := 0x100000001b3.

(** [fnvhash(hword, wlen)]: FNV-1a over the first [wlen] bytes at [hword],
    in 64-bit unsigned arithmetic. *)
Definition fnvhash (hword : list Z) (wlen : nat) : Z :=
  fold_left (fun hash b => wrap64 (Z.lxor hash b * FNV_PRIME))
            (take wlen hword) FNV_OFFSET.

(** ** memstructs.c: Word Buffer *)

Module WordBuffer.
Record t : Type := mk {
  letters : list Z;      (* the [capacity] bytes of the string *)
  curPosition : nat;     (* the cursor *)
  capacity : nat
}.
End WordBuffer.
Abbreviation WordBuffer := WordBuffer.t.

(** A buffer as [calloc] leaves it: no string attached. *)
Definition WordBuffer_zero : WordBuffer := WordBuffer.mk [] 0 0.

#[global] Instance WordBuffer_inhabited : Inhabited WordBuffer :=
  populate WordBuffer_zero.

Definition WordBuffer_init (initLen : nat) : RetStatus * WordBuffer :=
  if initLen <? 2 then (GEN_FAIL, WordBuffer_zero)
  else (SUCCESS, WordBuffer.mk (<[0 := 0%Z]> (repeat 0%Z initLen)) 0 initLen).

Definition WordBuffer_create (initLen : nat) : option WordBuffer :=
  if initLen <? 2 then None
  else Some (WordBuffer.mk (<[0 := 0%Z]> (repeat 0%Z initLen)) 0 initLen).

(** [(char) newChar]: the conversion of an [int] to [char], a signed
    8-bit type where the program is built (gcc on x86-64): the value
    modulo 256, taken from -128 to 127.  Values from 0 to 127 are kept. *)
Definition to_char (newChar : Z) : Z := ((newChar + 128) mod 256 - 128)%Z.

(** The bytes [realloc] adds are indeterminate; every one of them is written
    before it is read, and the model fills them with 0.  The reallocation
    is granted.  [len] is the product as a natural number: in the source
    it is a [uint32_t], so from a capacity of [2^31] on the product wraps
    around and [realloc] is asked for no byte or for fewer bytes than the
    buffer holds; statements about buffers of any capacity carry the
    bound. *)
Definition WordBuffer_push_char (wbuf : WordBuffer) (newChar : Z)
  : RetStatus * WordBuffer :=
  let wbuf :=
    if WordBuffer.capacity wbuf - 1 <=? WordBuffer.curPosition wbuf then
      let len := WordBuffer.capacity wbuf * 2 in
      WordBuffer.mk
        (WordBuffer.letters wbuf ++ repeat 0%Z (len - WordBuffer.capacity wbuf))
        (WordBuffer.curPosition wbuf) len
    else wbuf in
  let cur := WordBuffer.curPosition wbuf in
  (SUCCESS,
   WordBuffer.mk
     (<[S cur := 0%Z]> (<[cur := to_char newChar]> (WordBuffer.letters wbuf)))
     (S cur) (WordBuffer.capacity wbuf)).

Definition WordBuffer_backspace (wbuf : WordBuffer) : WordBuffer :=
  if 1 <=? WordBuffer.curPosition wbuf then
    let cur := WordBuffer.curPosition wbuf - 1 in
    WordBuffer.mk (<[cur := 0%Z]> (WordBuffer.letters wbuf)) cur
                  (WordBuffer.capacity wbuf)
  else wbuf.

Definition WordBuffer_clear (wbuf : WordBuffer) : WordBuffer :=
  WordBuffer.mk (<[0 := 0%Z]> (WordBuffer.letters wbuf)) 0
                (WordBuffer.capacity wbuf).

(** ** memstructs.c: Word Buffer Vector *)

Module WordBufferVector.
Record t : Type := mk {
  buffers : list WordBuffer;   (* the [capacity] slots of the array *)
  curPosition : nat;           (* where the next word goes *)
  capacity : nat
}.
End WordBufferVector.
Abbreviation WordBufferVector := WordBufferVector.t.

Definition WordBufferVector_create (initLen : nat) : WordBufferVector :=
  WordBufferVector.mk (repeat WordBuffer_zero initLen) 0 initLen.

Definition WordBufferVector_push (vec : WordBufferVector) (wbuf : WordBuffer)
  : RetStatus * WordBufferVector :=
  let vec :=
    if WordBufferVector.capacity vec - 1 <=? WordBufferVector.curPosition vec
    then
      let newLen := WordBufferVector.capacity vec * 2 in
      WordBufferVector.mk
        (WordBufferVector.buffers vec
           ++ repeat WordBuffer_zero (newLen - WordBufferVector.capacity vec))
        (WordBufferVector.curPosition vec) newLen
    else vec in
  let cur := WordBufferVector.curPosition vec in
  match WordBuffer_init (WordBuffer.curPosition wbuf + 1) with
  | (SUCCESS, slot) =>
      let cap := WordBuffer.curPosition wbuf + 1 in
      let copied :=
        snd (string_copy (WordBuffer.letters slot) (WordBuffer.letters wbuf) cap) in
      let slot := WordBuffer.mk copied (WordBuffer.curPosition wbuf) cap in
      (SUCCESS,
       WordBufferVector.mk (<[cur := slot]> (WordBufferVector.buffers vec))
                           (S cur) (WordBufferVector.capacity vec))
  | _ => (GEN_FAIL, vec)
  end.

Definition WordBufferVector_at (vec : WordBufferVector) (index : nat) : WordBuffer :=
  WordBufferVector.buffers vec !!! index.

Definition WordBufferVector_word_at (vec : WordBufferVector) (index : nat) : list Z :=
  WordBuffer.letters (WordBufferVector.buffers vec !!! index).

Definition WordBufferVector_get_size (vec : WordBufferVector) : nat :=
  WordBufferVector.curPosition vec.

(** ** wordcount.c: the tokenizer *)

Definition to_lowercase (c : Z) : Z := Z.lor c 0x20.

Definition is_letter (ch : Z) : bool :=
  let lowch := to_lowercase ch in
  (chr "a" <=? lowch)%Z && (lowch <=? chr "z")%Z.

Definition is_number (ch : Z) : bool :=
  (chr "0" <=? ch)%Z && (ch <=? chr "9")%Z.

Definition inWrdSymbols : list Z :=
  [chr "-"; chr "'"; chr "%"; chr ","; chr "."; chr "@"].

Definition is_inword_symbol (ch : Z) : bool :=
  fold_left (fun isSym sym => isSym || (ch =? sym)%Z) inWrdSymbols false.

Inductive InputCharType : Set :=
| LETTER
| NUMBER
| IN_WORD_SYMBOL
| OTHER_SYMBOL.

Definition get_char_type (ch : Z) : InputCharType :=
  if is_letter ch then LETTER
  else if is_number ch then NUMBER
  else if is_inword_symbol ch then IN_WORD_SYMBOL
  else OTHER_SYMBOL.

Inductive InputState : Set :=
| BETWEEN_WORDS
| IN_WORD_AFTER_ALPHARITH
| IN_WORD_AFTER_SYMBOL.

Definition INITIAL_WORD_BUFFER_LENGTH : nat := 16.
Definition INITIAL_WORD_VECTOR_LENGTH : nat := 128.

(** The [while((newChar = fgetc(source)) != EOF)] loop of [get_input]
    followed by the [switch(state)] that runs at end of input.  The vector is
    the out-parameter; on [GEN_FAIL] it holds what was pushed so far. *)
Fixpoint get_input_loop (source : list Z) (state : InputState)
    (wbuf : WordBuffer) (vec : WordBufferVector) : RetStatus * WordBufferVector :=
  match source with
  | [] =>
      match state with
      | IN_WORD_AFTER_ALPHARITH =>
          match WordBufferVector_push vec wbuf with
          | (SUCCESS, vec) => (SUCCESS, vec)
          | (_, vec) => (GEN_FAIL, vec)
          end
      | IN_WORD_AFTER_SYMBOL =>
          let wbuf := WordBuffer_backspace wbuf in
          match WordBufferVector_push vec wbuf with
          | (SUCCESS, vec) => (SUCCESS, vec)
          | (_, vec) => (GEN_FAIL, vec)
          end
      | BETWEEN_WORDS => (SUCCESS, vec)
      end
  | newChar :: source =>
      let inpType := get_char_type newChar in
      match state with
      | BETWEEN_WORDS =>
          match inpType with
          | LETTER =>
              match WordBuffer_push_char wbuf (to_lowercase newChar) with
              | (SUCCESS, wbuf) =>
                  get_input_loop source IN_WORD_AFTER_ALPHARITH wbuf vec
              | _ => (GEN_FAIL, vec)
              end
          | NUMBER =>
              match WordBuffer_push_char wbuf newChar with
              | (SUCCESS, wbuf) =>
                  get_input_loop source IN_WORD_AFTER_ALPHARITH wbuf vec
              | _ => (GEN_FAIL, vec)
              end
          | _ => get_input_loop source BETWEEN_WORDS wbuf vec
          end
      | IN_WORD_AFTER_ALPHARITH =>
          match inpType with
          | LETTER =>
              match WordBuffer_push_char wbuf (to_lowercase newChar) with
              | (SUCCESS, wbuf) =>
                  get_input_loop source IN_WORD_AFTER_ALPHARITH wbuf vec
              | _ => (GEN_FAIL, vec)
              end
          | NUMBER =>
              match WordBuffer_push_char wbuf newChar with
              | (SUCCESS, wbuf) =>
                  get_input_loop source IN_WORD_AFTER_ALPHARITH wbuf vec
              | _ => (GEN_FAIL, vec)
              end
          | IN_WORD_SYMBOL =>
              match WordBuffer_push_char wbuf newChar with
              | (SUCCESS, wbuf) =>
                  get_input_loop source IN_WORD_AFTER_SYMBOL wbuf vec
              | _ => (GEN_FAIL, vec)
              end
          | OTHER_SYMBOL =>
              match WordBufferVector_push vec wbuf with
              | (SUCCESS, vec) =>
                  get_input_loop source BETWEEN_WORDS (WordBuffer_clear wbuf) vec
              | (_, vec) => (GEN_FAIL, vec)
              end
          end
      | IN_WORD_AFTER_SYMBOL =>
          match inpType with
          | LETTER =>
              match WordBuffer_push_char wbuf (to_lowercase newChar) with
              | (SUCCESS, wbuf) =>
                  get_input_loop source IN_WORD_AFTER_ALPHARITH wbuf vec
              | _ => (GEN_FAIL, vec)
              end
          | NUMBER =>
              match WordBuffer_push_char wbuf newChar with
              | (SUCCESS, wbuf) =>
                  get_input_loop source IN_WORD_AFTER_ALPHARITH wbuf vec
              | _ => (GEN_FAIL, vec)
              end
          | _ =>
              let wbuf := WordBuffer_backspace wbuf in
              match WordBufferVector_push vec wbuf with
              | (SUCCESS, vec) =>
                  get_input_loop source BETWEEN_WORDS (WordBuffer_clear wbuf) vec
              | (_, vec) => (GEN_FAIL, vec)
              end
          end
      end
  end.

Definition get_input (vec : WordBufferVector) (fp : list Z)
  : RetStatus * WordBufferVector :=
  match WordBuffer_create INITIAL_WORD_BUFFER_LENGTH with
  | None => (GEN_FAIL, vec)
  | Some wbuf => get_input_loop fp BETWEEN_WORDS wbuf vec
  end.

(** The Token List of a vector, and the characters of a token. *)
Definition tokens (vec : WordBufferVector) : list WordBuffer :=
  take (WordBufferVector.curPosition vec) (WordBufferVector.buffers vec).

Definition token_word (wbuf : WordBuffer) : list Z :=
  take (WordBuffer.curPosition wbuf) (WordBuffer.letters wbuf).

(** What [main] hands to the counting phase for an input text. *)
Definition tokenize (fp : list Z) : RetStatus * list WordBuffer :=
  let '(rst, vec) :=
    get_input (WordBufferVector_create INITIAL_WORD_VECTOR_LENGTH) fp in
  (rst, tokens vec).


(** ** The allocator as environment *)

(** What a successful [calloc] or [realloc] returns: the address of the
    block and, for [realloc], the indeterminate contents of the bytes it
    adds (as a function of the byte offset). *)
Record Block : Type := mkBlock {
  block_addr : Z;
  block_junk : nat -> Z
}.

(** [None] is a NULL result. *)
Abbreviation Alloc := (option Block).

Definition NULL : Z := 0%Z.

(** ** memstructs.c: Memory Pool *)

Module MemoryPool.
Record t : Type := mk {
  memSpace : Z;          (* address of the first byte of the block *)
  memory : list Z;       (* the [capacity] bytes of the block *)
  nextChar : nat;
  capacity : nat
}.
End MemoryPool.
Abbreviation MemoryPool := MemoryPool.t.

Definition MemoryPool_zero : MemoryPool := MemoryPool.mk NULL [] 0 0.

Definition MemoryPool_init (initCapacity : nat) (a : Alloc)
  : RetStatus * MemoryPool :=
  match a with
  | None => (GEN_FAIL, MemoryPool_zero)
  | Some b =>
      (SUCCESS, MemoryPool.mk (block_addr b) (repeat 0%Z initCapacity) 0 initCapacity)
  end.

Definition MemoryPool_alloc_block (memp : MemoryPool) (numChars : nat)
  : option Z * MemoryPool :=
  if MemoryPool.nextChar memp + numChars <? MemoryPool.capacity memp then
    let alcdSpace := (MemoryPool.memSpace memp + Z.of_nat (MemoryPool.nextChar memp))%Z in
    (Some alcdSpace,
     MemoryPool.mk (MemoryPool.memSpace memp) (MemoryPool.memory memp)
                   (MemoryPool.nextChar memp + numChars) (MemoryPool.capacity memp))
  else (None, memp).

Definition MemoryPool_size_below (memp : MemoryPool) (limitPrc : nat) : bool :=
  MemoryPool.nextChar memp <? MemoryPool.capacity memp * limitPrc / 100.

Definition MemoryPool_expand (memp : MemoryPool) (a : Alloc)
  : RetStatus * MemoryPool :=
  let newCapacity := 2 * MemoryPool.capacity memp in
  match a with
  | None => (GEN_FAIL, memp)
  | Some extPtr =>
      (SUCCESS,
       MemoryPool.mk (block_addr extPtr)
         (MemoryPool.memory memp
            ++ map (block_junk extPtr)
                   (seq (MemoryPool.capacity memp)
                        (newCapacity - MemoryPool.capacity memp)))
         (MemoryPool.nextChar memp) newCapacity)
  end.

(** The bytes of the pool's block from address [p] to the end of the
    block; nothing when [p] lies before the block. *)
Definition deref (memp : MemoryPool) (p : Z) : list Z :=
  if (MemoryPool.memSpace memp <=? p)%Z
  then drop (Z.to_nat (p - MemoryPool.memSpace memp)) (MemoryPool.memory memp)
  else [].

(** The pool after the bytes from address [p] on were replaced by [bytes]. *)
Definition store (memp : MemoryPool) (p : Z) (bytes : list Z) : MemoryPool :=
  MemoryPool.mk (MemoryPool.memSpace memp)
    (take (Z.to_nat (p - MemoryPool.memSpace memp)) (MemoryPool.memory memp) ++ bytes)
    (MemoryPool.nextChar memp) (MemoryPool.capacity memp).

(** ** memstructs.c: Word Hash Table *)

(** Of [HashStats] the two counters are kept; the mean and median
    displacement are floating-point values computed on demand. *)
Module HashStats.
Record t : Type := mk {
  totalInsertions : nat;
  totalCollisions : nat
}.
End HashStats.
Abbreviation HashStats := HashStats.t.

Module PrintFormatStats.
Record t : Type := mk {
  maxLengthWordIndex : nat;
  maxCountWordIndex : nat
}.
End PrintFormatStats.
Abbreviation PrintFormatStats := PrintFormatStats.t.

Module WordHashTabEntry.
Record t : Type := mk {
  letters : Z;           (* address of the string in the pool *)
  count : nat;
  length : nat;
  displacement : Z
}.
End WordHashTabEntry.
Abbreviation WordHashTabEntry := WordHashTabEntry.t.

Definition WordHashTabEntry_zero : WordHashTabEntry :=
  WordHashTabEntry.mk NULL 0 0 0%Z.

#[global] Instance WordHashTabEntry_inhabited : Inhabited WordHashTabEntry :=
  populate WordHashTabEntry_zero.

Module WordHashTable.
Record t : Type := mk {
  entries : list WordHashTabEntry;
  alphOrderArray : list nat;
  capacity : nat;
  size : nat;
  stringsPool : MemoryPool;
  hstats : HashStats;
  pfstats : PrintFormatStats
}.
End WordHashTable.
Abbreviation WordHashTable := WordHashTable.t.

(** Field updates. *)
Definition set_entries (whtab : WordHashTable) (es : list WordHashTabEntry) :=
  WordHashTable.mk es (WordHashTable.alphOrderArray whtab)
    (WordHashTable.capacity whtab) (WordHashTable.size whtab)
    (WordHashTable.stringsPool whtab) (WordHashTable.hstats whtab)
    (WordHashTable.pfstats whtab).

Definition set_alphOrderArray (whtab : WordHashTable) (arr : list nat) :=
  WordHashTable.mk (WordHashTable.entries whtab) arr
    (WordHashTable.capacity whtab) (WordHashTable.size whtab)
    (WordHashTable.stringsPool whtab) (WordHashTable.hstats whtab)
    (WordHashTable.pfstats whtab).

Definition set_capacity (whtab : WordHashTable) (c : nat) :=
  WordHashTable.mk (WordHashTable.entries whtab)
    (WordHashTable.alphOrderArray whtab) c (WordHashTable.size whtab)
    (WordHashTable.stringsPool whtab) (WordHashTable.hstats whtab)
    (WordHashTable.pfstats whtab).

Definition set_size (whtab : WordHashTable) (n : nat) :=
  WordHashTable.mk (WordHashTable.entries whtab)
    (WordHashTable.alphOrderArray whtab) (WordHashTable.capacity whtab) n
    (WordHashTable.stringsPool whtab) (WordHashTable.hstats whtab)
    (WordHashTable.pfstats whtab).

Definition set_stringsPool (whtab : WordHashTable) (memp : MemoryPool) :=
  WordHashTable.mk (WordHashTable.entries whtab)
    (WordHashTable.alphOrderArray whtab) (WordHashTable.capacity whtab)
    (WordHashTable.size whtab) memp (WordHashTable.hstats whtab)
    (WordHashTable.pfstats whtab).

Definition set_hstats (whtab : WordHashTable) (h : HashStats) :=
  WordHashTable.mk (WordHashTable.entries whtab)
    (WordHashTable.alphOrderArray whtab) (WordHashTable.capacity whtab)
    (WordHashTable.size whtab) (WordHashTable.stringsPool whtab) h
    (WordHashTable.pfstats whtab).

Definition set_pfstats (whtab : WordHashTable) (p : PrintFormatStats) :=
  WordHashTable.mk (WordHashTable.entries whtab)
    (WordHashTable.alphOrderArray whtab) (WordHashTable.capacity whtab)
    (WordHashTable.size whtab) (WordHashTable.stringsPool whtab)
    (WordHashTable.hstats whtab) p.

Definition set_letters (e : WordHashTabEntry) (p : Z) :=
  WordHashTabEntry.mk p (WordHashTabEntry.count e) (WordHashTabEntry.length e)
    (WordHashTabEntry.displacement e).

(** [whtab->entries[i]] and the string its [letters] points to. *)
Definition entry_at (whtab : WordHashTable) (i : nat) : WordHashTabEntry :=
  WordHashTable.entries whtab !!! i.

Definition entry_string (whtab : WordHashTable) (e : WordHashTabEntry) : list Z :=
  deref (WordHashTable.stringsPool whtab) (WordHashTabEntry.letters e).

(** Outcome of a step of [main] that consumes allocator responses:
    [Pending] when the model is given too few of them. *)
Inductive Run (A : Type) : Type :=
| Finished (a : A)
| Failure
| Pending.
Arguments Finished {A} a.
Arguments Failure {A}.
Arguments Pending {A}.

(** One allocator call whose block is held as a Rocq list: only whether it
    returned NULL matters. *)
Definition calloc {A} (heap : list Alloc) (k : list Alloc -> Run A) : Run A :=
  match heap with
  | [] => Pending
  | None :: _ => Failure
  | Some _ :: heap => k heap
  end.

(** [WordHashTable_create]: four [calloc]s (the table, the entries, the
    order array, the pool), [Failure] being the NULL result. *)
Definition WordHashTable_create (initCapacity : nat) (heap : list Alloc)
  : Run (WordHashTable * list Alloc) :=
  calloc heap (fun heap =>
  calloc heap (fun heap =>
  calloc heap (fun heap =>
  match heap with
  | [] => Pending
  | aPool :: heap =>
      match MemoryPool_init (6 * initCapacity) aPool with
      | (SUCCESS, memp) =>
          Finished
            (WordHashTable.mk (repeat WordHashTabEntry_zero initCapacity)
               (repeat 0 initCapacity) initCapacity 0 memp
               (HashStats.mk 0 0) (PrintFormatStats.mk 0 0), heap)
      | _ => Failure
      end
  end))).

(** The backward scan of [orderArray_insert]: [n] is [i + 1] for the loop
    variable [i]; the result is the array after the shifts and the final
    value of [i + 1]. *)
Fixpoint orderArray_shift (whtab : WordHashTable) (newWord : list Z)
    (n : nat) (arr : list nat) : list nat * nat :=
  match n with
  | O => (arr, 0)
  | S i =>
      if (strcmp newWord (entry_string whtab (entry_at whtab (arr !!! i))) <=? 0)%Z
      then orderArray_shift whtab newWord i (<[S i := arr !!! i]> arr)
      else (arr, S i)
  end.

Definition orderArray_insert (whtab : WordHashTable) (newWord : Z) (ind : nat)
  : WordHashTable :=
  if WordHashTable.size whtab =? 0 then
    set_alphOrderArray whtab (<[0 := ind]> (WordHashTable.alphOrderArray whtab))
  else
    let '(arr, pos) :=
      orderArray_shift whtab (deref (WordHashTable.stringsPool whtab) newWord)
        (WordHashTable.size whtab) (WordHashTable.alphOrderArray whtab) in
    set_alphOrderArray whtab (<[pos := ind]> arr).

(** The cheap comparison of an occupied slot with the word to add. *)
Definition entry_matches (whtab : WordHashTable) (curEntry : WordHashTabEntry)
    (buf : WordBuffer) (displ : Z) : bool :=
  (WordHashTabEntry.length curEntry =? WordBuffer.curPosition buf + 1)
  && (WordHashTabEntry.displacement curEntry =? displ)%Z
  && (char_at (entry_string whtab curEntry) 0
      =? char_at (WordBuffer.letters buf) 0)%Z
  && (char_at (entry_string whtab curEntry)
              (Z.of_nat (WordHashTabEntry.length curEntry) - 2)
      =? char_at (WordBuffer.letters buf)
                 (Z.of_nat (WordBuffer.curPosition buf) - 1))%Z.

(** What [WordHashTable_add_word] does at slot [curIndex], reached with
    signed displacement [displ] ([newDispl] in absolute value).  The source
    has this block twice, once per probing direction.  [None]: no [return]
    was executed. *)
Definition add_word_at (whtab : WordHashTable) (buf : WordBuffer)
    (curIndex : nat) (displ : Z) (newDispl : nat)
  : option (RetStatus * WordHashTable) :=
  let curEntry := entry_at whtab curIndex in
  if WordHashTabEntry.count curEntry =? 0 then
    match MemoryPool_alloc_block (WordHashTable.stringsPool whtab)
            (WordBuffer.curPosition buf + 1) with
    | (None, _) =>
        Some (DATA_STRUCT_FULL,
              set_entries whtab
                (<[curIndex := set_letters curEntry NULL]> (WordHashTable.entries whtab)))
    | (Some p, memp) =>
        let len := WordBuffer.curPosition buf + 1 in
        match string_copy (deref memp p) (WordBuffer.letters buf) len with
        | (false, _) =>
            Some (GEN_FAIL,
                  set_stringsPool
                    (set_entries whtab
                       (<[curIndex := WordHashTabEntry.mk p
                                        (WordHashTabEntry.count curEntry) len
                                        (WordHashTabEntry.displacement curEntry)]>
                          (WordHashTable.entries whtab)))
                    memp)
        | (true, bytes) =>
            let curEntry :=
              WordHashTabEntry.mk p (WordHashTabEntry.count curEntry + 1) len displ in
            let whtab :=
              set_stringsPool
                (set_entries whtab (<[curIndex := curEntry]> (WordHashTable.entries whtab)))
                (store memp p bytes) in
            let whtab := orderArray_insert whtab p curIndex in
            let hs := WordHashTable.hstats whtab in
            let whtab :=
              set_hstats whtab
                (HashStats.mk (HashStats.totalInsertions hs + 1)
                   (if 0 <? newDispl then HashStats.totalCollisions hs + newDispl
                    else HashStats.totalCollisions hs)) in
            let whtab :=
              if WordHashTable.size whtab =? 0 then
                set_pfstats whtab (PrintFormatStats.mk curIndex curIndex)
              else
                let maxLengthWord :=
                  entry_at whtab
                    (PrintFormatStats.maxLengthWordIndex (WordHashTable.pfstats whtab)) in
                if WordHashTabEntry.length maxLengthWord <? WordHashTabEntry.length curEntry
                then set_pfstats whtab
                       (PrintFormatStats.mk curIndex
                          (PrintFormatStats.maxCountWordIndex (WordHashTable.pfstats whtab)))
                else whtab in
            Some (SUCCESS, set_size whtab (WordHashTable.size whtab + 1))
        end
    end
  else if entry_matches whtab curEntry buf displ then
    let curEntry :=
      WordHashTabEntry.mk (WordHashTabEntry.letters curEntry)
        (WordHashTabEntry.count curEntry + 1) (WordHashTabEntry.length curEntry)
        (WordHashTabEntry.displacement curEntry) in
    let whtab :=
      set_entries whtab (<[curIndex := curEntry]> (WordHashTable.entries whtab)) in
    let maxCountWord :=
      entry_at whtab
        (PrintFormatStats.maxCountWordIndex (WordHashTable.pfstats whtab)) in
    Some (SUCCESS,
          if WordHashTabEntry.count maxCountWord <? WordHashTabEntry.count curEntry
          then set_pfstats whtab
                 (PrintFormatStats.mk
                    (PrintFormatStats.maxLengthWordIndex (WordHashTable.pfstats whtab))
                    curIndex)
          else whtab)
  else None.

(** One pass through the body of the [do ... while] of
    [WordHashTable_add_word], before [newDispl++]. *)
Definition add_word_body (whtab : WordHashTable) (buf : WordBuffer)
    (hashIndex newDispl : nat) : option (RetStatus * WordHashTable) :=
  let curIndex := hashIndex + newDispl in
  match
    (if curIndex <? WordHashTable.capacity whtab
     then add_word_at whtab buf curIndex (Z.of_nat newDispl) newDispl
     else None)
  with
  | Some r => Some r
  | None =>
      if (newDispl <=? hashIndex) && (0 <? newDispl)
      then add_word_at whtab buf (hashIndex - newDispl) (- Z.of_nat newDispl) newDispl
      else None
  end.

(** The loop condition, evaluated after [newDispl++]. *)
Definition probe_more (capacity hashIndex newDispl : nat) : bool :=
  (hashIndex + newDispl <? capacity) || (newDispl <=? hashIndex).

Fixpoint add_word_loop (fuel : nat) (whtab : WordHashTable) (buf : WordBuffer)
    (hashIndex newDispl : nat) : option (RetStatus * WordHashTable) :=
  match fuel with
  | O => None
  | S fuel =>
      match add_word_body whtab buf hashIndex newDispl with
      | Some r => Some r
      | None =>
          let newDispl := S newDispl in
          if probe_more (WordHashTable.capacity whtab) hashIndex newDispl
          then add_word_loop fuel whtab buf hashIndex newDispl
          else Some (GEN_FAIL, whtab)
      end
  end.

(** The slot a string hashes to in a table of [capacity] slots. *)
Definition hash_slot (hword : list Z) (wlen capacity : nat) : nat :=
  Z.to_nat (fnvhash hword wlen mod Z.of_nat capacity).

Definition WordHashTable_add_word (whtab : WordHashTable) (buf : WordBuffer)
  : option (RetStatus * WordHashTable) :=
  let hashIndex :=
    hash_slot (WordBuffer.letters buf) (WordBuffer.curPosition buf + 1)
              (WordHashTable.capacity whtab) in
  add_word_loop (WordHashTable.capacity whtab + hashIndex + 1) whtab buf hashIndex 0.

Definition WordHashTable_size_below (whtab : WordHashTable) (limitPrc : nat) : bool :=
  WordHashTable.size whtab <? WordHashTable.capacity whtab * limitPrc / 100.

Definition stringPointers_update (whtab : WordHashTable) (prevPoolBasePtr : Z)
  : WordHashTable :=
  set_entries whtab
    (fold_left
       (fun es i =>
          let validIndex := WordHashTable.alphOrderArray whtab !!! i in
          let oldEntry := es !!! validIndex in
          <[validIndex :=
              set_letters oldEntry
                (WordHashTabEntry.letters oldEntry - prevPoolBasePtr
                 + MemoryPool.memSpace (WordHashTable.stringsPool whtab))%Z]> es)
       (seq 0 (WordHashTable.size whtab))
       (WordHashTable.entries whtab)).

Definition WordHashTable_MemoryPool_expand (whtab : WordHashTable) (a : Alloc)
  : RetStatus * WordHashTable :=
  let prevPoolPtr := MemoryPool.memSpace (WordHashTable.stringsPool whtab) in
  match MemoryPool_expand (WordHashTable.stringsPool whtab) a with
  | (SUCCESS, memp) =>
      let whtab := set_stringsPool whtab memp in
      (SUCCESS,
       if (prevPoolPtr =? MemoryPool.memSpace memp)%Z then whtab
       else stringPointers_update whtab prevPoolPtr)
  | (_, _) => (GEN_FAIL, whtab)
  end.

(** What [WordHashTable_migrate] does at slot [curIndex] of the extended
    array for the entry at position [i] of the order array (the source has
    this block twice).  [None]: the slot is taken. *)
Definition migrate_at (whtab : WordHashTable) (extEntTab : list WordHashTabEntry)
    (i oldIndex : nat) (oldEntry : WordHashTabEntry)
    (curIndex : nat) (displ : Z) (newDispl : nat)
  : option (WordHashTable * list WordHashTabEntry) :=
  let curEntry := extEntTab !!! curIndex in
  if WordHashTabEntry.count curEntry =? 0 then
    let extEntTab :=
      <[curIndex := WordHashTabEntry.mk (WordHashTabEntry.letters oldEntry)
                      (WordHashTabEntry.count oldEntry)
                      (WordHashTabEntry.length oldEntry) displ]> extEntTab in
    let whtab :=
      set_alphOrderArray whtab (<[i := curIndex]> (WordHashTable.alphOrderArray whtab)) in
    let whtab :=
      if oldIndex =? PrintFormatStats.maxCountWordIndex (WordHashTable.pfstats whtab)
      then set_pfstats whtab
             (PrintFormatStats.mk
                (PrintFormatStats.maxLengthWordIndex (WordHashTable.pfstats whtab))
                curIndex)
      else whtab in
    let whtab :=
      if oldIndex =? PrintFormatStats.maxLengthWordIndex (WordHashTable.pfstats whtab)
      then set_pfstats whtab
             (PrintFormatStats.mk curIndex
                (PrintFormatStats.maxCountWordIndex (WordHashTable.pfstats whtab)))
      else whtab in
    let hs := WordHashTable.hstats whtab in
    let whtab :=
      set_hstats whtab
        (HashStats.mk (HashStats.totalInsertions hs + 1)
           (if 0 <? newDispl then HashStats.totalCollisions hs + newDispl
            else HashStats.totalCollisions hs)) in
    Some (whtab, extEntTab)
  else None.

Definition migrate_body (whtab : WordHashTable) (extEntTab : list WordHashTabEntry)
    (i oldIndex : nat) (oldEntry : WordHashTabEntry) (hashIndex newDispl : nat)
  : option (WordHashTable * list WordHashTabEntry) :=
  let curIndex := hashIndex + newDispl in
  match
    (if curIndex <? WordHashTable.capacity whtab
     then migrate_at whtab extEntTab i oldIndex oldEntry curIndex
            (Z.of_nat newDispl) newDispl
     else None)
  with
  | Some r => Some r
  | None =>
      if (newDispl <=? hashIndex) && (0 <? newDispl)
      then migrate_at whtab extEntTab i oldIndex oldEntry (hashIndex - newDispl)
             (- Z.of_nat newDispl) newDispl
      else None
  end.

(** The inner [do ... while] of [WordHashTable_migrate] (release build:
    when no slot is free the entry is left out and the outer loop goes on). *)
Fixpoint migrate_loop (fuel : nat) (whtab : WordHashTable)
    (extEntTab : list WordHashTabEntry) (i oldIndex : nat)
    (oldEntry : WordHashTabEntry) (hashIndex newDispl : nat)
  : option (WordHashTable * list WordHashTabEntry) :=
  match fuel with
  | O => None
  | S fuel =>
      match migrate_body whtab extEntTab i oldIndex oldEntry hashIndex newDispl with
      | Some r => Some r
      | None =>
          let newDispl := S newDispl in
          if probe_more (WordHashTable.capacity whtab) hashIndex newDispl
          then migrate_loop fuel whtab extEntTab i oldIndex oldEntry hashIndex newDispl
          else Some (whtab, extEntTab)
      end
  end.

(** The outer [for] of [WordHashTable_migrate] over the positions [idxs] of
    the order array. *)
Fixpoint migrate_entries (idxs : list nat) (whtab : WordHashTable)
    (extEntTab : list WordHashTabEntry)
  : option (WordHashTable * list WordHashTabEntry) :=
  match idxs with
  | [] => Some (whtab, extEntTab)
  | i :: idxs =>
      let oldIndex := WordHashTable.alphOrderArray whtab !!! i in
      let oldEntry := entry_at whtab oldIndex in
      let hashIndex :=
        hash_slot (entry_string whtab oldEntry) (WordHashTabEntry.length oldEntry)
                  (WordHashTable.capacity whtab) in
      match migrate_loop (WordHashTable.capacity whtab + hashIndex + 1)
              whtab extEntTab i oldIndex oldEntry hashIndex 0 with
      | None => None
      | Some (whtab, extEntTab) => migrate_entries idxs whtab extEntTab
      end
  end.

Definition WordHashTable_migrate (whtab : WordHashTable)
    (extEntTab : list WordHashTabEntry)
  : option (WordHashTable * list WordHashTabEntry) :=
  migrate_entries (seq 0 (WordHashTable.size whtab)) whtab extEntTab.

(** [WordHashTable_expand] with the allocator responses it consumes, in
    call order: the [calloc] of the new entries, the [realloc] of the order
    array and, when the pool is at least 80% full, the [realloc] of the
    pool.  [None]: too few responses, or no fuel. *)
Definition WordHashTable_expand (whtab : WordHashTable) (heap : list Alloc)
  : option (RetStatus * WordHashTable * list Alloc) :=
  let newCapacity := WordHashTable.capacity whtab * 2 in
  match heap with
  | [] => None
  | None :: heap => Some (GEN_FAIL, whtab, heap)
  | Some _ :: heap =>
      let extEntries := repeat WordHashTabEntry_zero newCapacity in
      match heap with
      | [] => None
      | None :: heap => Some (GEN_FAIL, whtab, heap)
      | Some extOutOrder :: heap =>
          let whtab :=
            set_alphOrderArray (set_capacity whtab newCapacity)
              (WordHashTable.alphOrderArray whtab
                 ++ map (fun k => Z.to_nat (block_junk extOutOrder k))
                        (seq (WordHashTable.capacity whtab)
                             (newCapacity - WordHashTable.capacity whtab))) in
          let migrate whtab heap :=
            match WordHashTable_migrate whtab extEntries with
            | None => None
            | Some (whtab, extEntries) =>
                Some (SUCCESS, set_entries whtab extEntries, heap)
            end in
          if negb (MemoryPool_size_below (WordHashTable.stringsPool whtab) 80) then
            match heap with
            | [] => None
            | a :: heap =>
                match WordHashTable_MemoryPool_expand whtab a with
                | (SUCCESS, whtab) => migrate whtab heap
                | (_, whtab) => Some (GEN_FAIL, whtab, heap)
                end
            end
          else migrate whtab heap
      end
  end.

(** The rows [WordHashTable_count_print] prints, in order: word and count. *)
Definition WordHashTable_count_print (whtab : WordHashTable)
  : list (list Z * nat) :=
  if WordHashTable.size whtab =? 0 then []
  else
    map (fun i =>
           let curEntry :=
             entry_at whtab (WordHashTable.alphOrderArray whtab !!! i) in
           (c_string (entry_string whtab curEntry), WordHashTabEntry.count curEntry))
        (seq 0 (WordHashTable.size whtab)).

(** ** wordcount.c: main *)

(** The initial capacity [main] derives from the number of tokens. *)
Definition wtabInitSize (inputSize : nat) : nat :=
  let ceilSize := next_2power inputSize in
  let floorSize := ceilSize / 2 in
  if floorSize / 2 <=? inputSize - floorSize then ceilSize else floorSize.

(** The [while] around [WordHashTable_add_word] in [main]: as long as the
    pool is full, expand it and try again.  Each round takes one allocator
    response. *)
Fixpoint add_word_retry (heap : list Alloc) (hashTable : WordHashTable)
    (buf : WordBuffer) : Run (RetStatus * WordHashTable * list Alloc) :=
  match WordHashTable_add_word hashTable buf with
  | None => Pending
  | Some (DATA_STRUCT_FULL, hashTable) =>
      match heap with
      | [] => Pending
      | a :: heap =>
          match WordHashTable_MemoryPool_expand hashTable a with
          | (SUCCESS, hashTable) => add_word_retry heap hashTable buf
          | (_, _) => Failure
          end
      end
  | Some (rst, hashTable) => Finished (rst, hashTable, heap)
  end.

(** The [for] loop of [main]; [inputVector] lists the buffers
    [WordBufferVector_at(inputVector, i)] for [i] from [0] to
    [inputSize - 1]. *)
Fixpoint count_words (inputVector : list WordBuffer) (heap : list Alloc)
    (hashTable : WordHashTable) : Run (WordHashTable * list Alloc) :=
  match inputVector with
  | [] => Finished (hashTable, heap)
  | buf :: inputVector =>
      match add_word_retry heap hashTable buf with
      | Finished (SUCCESS, hashTable, heap) =>
          if negb (WordHashTable_size_below hashTable 70) then
            match WordHashTable_expand hashTable heap with
            | None => Pending
            | Some (SUCCESS, hashTable, heap) => count_words inputVector heap hashTable
            | Some (_, _, _) => Failure
            end
          else count_words inputVector heap hashTable
      | Finished (_, _, _) => Failure
      | Failure => Failure
      | Pending => Pending
      end
  end.

(** [main] from the input text to the printed rows ([Failure] is
    [EXIT_FAILURE]); the final table is returned with them. *)
Definition main (fp : list Z) (heap : list Alloc)
  : Run (WordHashTable * list (list Z * nat)) :=
  match get_input (WordBufferVector_create INITIAL_WORD_VECTOR_LENGTH) fp with
  | (SUCCESS, inputVector) =>
      let inputSize := WordBufferVector_get_size inputVector in
      match WordHashTable_create (wtabInitSize inputSize) heap with
      | Finished (hashTable, heap) =>
          match count_words
                  (map (WordBufferVector_at inputVector) (seq 0 inputSize))
                  heap hashTable with
          | Finished (hashTable, _) =>
              Finished (hashTable, WordHashTable_count_print hashTable)
          | Failure => Failure
          | Pending => Pending
          end
      | Failure => Failure
      | Pending => Pending
      end
  | (_, _) => Failure
  end.

(** An allocator that never fails: block [k] is placed at address
    [4096 * (k + 1)] and every new byte reads [170]. *)
Definition plenty (n : nat) : list Alloc :=
  map (fun k => Some (mkBlock (4096 * (Z.of_nat k + 1)) (fun _ => 170%Z))) (seq 0 n).

(** * Predicates, invariants and sample data *)

(** The token the vector stores for a word [w]. *)
Definition token_of (w : list Z) : WordBuffer :=
  WordBuffer.mk (w ++ [0%Z]) (length w) (length w + 1).

(** A word as the tokenizer produces it: not empty and free of NUL. *)
Definition word_ok (w : list Z) : Prop :=
  w ≠ [] ∧ Forall (fun c => c ≠ 0%Z) w.

(** The Token Buffer holds the (partial) word [w]. *)
Definition wbuf_holds (wbuf : WordBuffer) (w : list Z) : Prop :=
  (∃ rest, WordBuffer.letters wbuf = w ++ 0%Z :: rest)
  ∧ WordBuffer.curPosition wbuf = length w
  ∧ WordBuffer.capacity wbuf = length (WordBuffer.letters wbuf)
  ∧ 2 <= WordBuffer.capacity wbuf.

(** The Token List holds the words [ws]. *)
Definition vec_holds (vec : WordBufferVector) (ws : list (list Z)) : Prop :=
  (∃ rest, WordBufferVector.buffers vec = map token_of ws ++ rest)
  ∧ WordBufferVector.curPosition vec = length ws
  ∧ WordBufferVector.capacity vec = length (WordBufferVector.buffers vec)
  ∧ WordBufferVector.curPosition vec < WordBufferVector.capacity vec.

Ltac wb_simpl :=
  cbn [WordBuffer.letters WordBuffer.curPosition WordBuffer.capacity
       WordBufferVector.buffers WordBufferVector.curPosition
       WordBufferVector.capacity].

Ltac list_len :=
  repeat first
    [ rewrite length_app | rewrite length_insert | rewrite repeat_length
    | rewrite length_map | rewrite length_seq | progress cbn [length] ].

Ltac list_len_in H :=
  repeat first
    [ rewrite length_app in H | rewrite length_insert in H
    | rewrite repeat_length in H | rewrite length_map in H
    | rewrite length_seq in H | progress cbn [length] in H ].

(** What the tokenizer state says about the partial word in the buffer. *)
Definition state_holds (state : InputState) (w : list Z) : Prop :=
  match state with
  | BETWEEN_WORDS => w = []
  | IN_WORD_AFTER_ALPHARITH => word_ok w
  | IN_WORD_AFTER_SYMBOL => ∃ w' c, w = w' ++ [c] ∧ word_ok w' ∧ c ≠ 0%Z
  end.

(** A signed index that addresses one of the [n] bytes of an array. *)
Definition in_bounds (n : nat) (i : Z) : Prop := (0 <= i < Z.of_nat n)%Z.

(** The shape shared by the [do ... while] loops of
    [WordHashTable_add_word] and [WordHashTable_migrate]: [body] may
    return, otherwise the displacement grows by one and the loop goes on
    while [probe_more] holds; [after] is what follows the loop. *)
Fixpoint probe {R : Type} (fuel : nat) (body : nat -> option R)
    (capacity hashIndex : nat) (after : R) (newDispl : nat) : option R :=
  match fuel with
  | O => None
  | S fuel =>
      match body newDispl with
      | Some r => Some r
      | None =>
          if probe_more capacity hashIndex (S newDispl)
          then probe fuel body capacity hashIndex after (S newDispl)
          else Some after
      end
  end.

(** The displacements the loop reaches from [d]: [d] itself and every later
    one for which the loop condition still holds. *)
Definition probed (capacity hashIndex d d' : nat) : Prop :=
  d' = d ∨ (d < d' ∧ probe_more capacity hashIndex d' = true).

Ltac ht_simpl :=
  cbn [WordHashTable.entries WordHashTable.alphOrderArray WordHashTable.capacity
       WordHashTable.size WordHashTable.stringsPool WordHashTable.hstats
       WordHashTable.pfstats
       WordHashTabEntry.letters WordHashTabEntry.count WordHashTabEntry.length
       WordHashTabEntry.displacement
       MemoryPool.memSpace MemoryPool.memory MemoryPool.nextChar
       MemoryPool.capacity] in *.

Ltac ht_unfold :=
  unfold set_entries, set_alphOrderArray, set_capacity, set_size,
    set_stringsPool, set_hstats, set_pfstats, set_letters in *;
  ht_simpl.

(** The slots the alphabetical index lists. *)
Definition live (whtab : WordHashTable) : list nat :=
  take (WordHashTable.size whtab) (WordHashTable.alphOrderArray whtab).

(** The entry [e] points at a copy of the word [w] inside the allocated
    part of the pool: [length e] bytes, the characters of [w] and the
    terminator. *)
Definition stored (memp : MemoryPool) (e : WordHashTabEntry) (w : list Z) : Prop :=
  ∃ off : nat,
    WordHashTabEntry.letters e = (MemoryPool.memSpace memp + Z.of_nat off)%Z
    ∧ WordHashTabEntry.length e = S (length w)
    ∧ off + WordHashTabEntry.length e <= MemoryPool.nextChar memp
    ∧ take (WordHashTabEntry.length e) (drop off (MemoryPool.memory memp))
      = w ++ [0%Z]
    ∧ Forall (fun c => c ≠ 0%Z) w.

Definition pool_ok (memp : MemoryPool) : Prop :=
  length (MemoryPool.memory memp) = MemoryPool.capacity memp
  ∧ MemoryPool.nextChar memp <= MemoryPool.capacity memp
  ∧ 0 < MemoryPool.capacity memp.

(** The word printed for slot [i]. *)
Definition word_of (whtab : WordHashTable) (i : nat) : list Z :=
  c_string (entry_string whtab (entry_at whtab i)).

(** Adjacent words are in [strcmp] order. *)
Definition sorted_words (ws : list (list Z)) : Prop :=
  ∀ i a b, ws !! i = Some a -> ws !! S i = Some b -> (strcmp a b <= 0)%Z.

Record wf (whtab : WordHashTable) : Prop := mk_wf {
  wf_capacity : 0 < WordHashTable.capacity whtab;
  wf_entries : length (WordHashTable.entries whtab) = WordHashTable.capacity whtab;
  wf_order : length (WordHashTable.alphOrderArray whtab) = WordHashTable.capacity whtab;
  wf_size : WordHashTable.size whtab <= WordHashTable.capacity whtab;
  wf_nodup : NoDup (live whtab);
  wf_live : ∀ i, i ∈ live whtab
                 <-> i < WordHashTable.capacity whtab
                     ∧ WordHashTabEntry.count (entry_at whtab i) ≠ 0;
  wf_pool : pool_ok (WordHashTable.stringsPool whtab);
  wf_stored : ∀ i, i ∈ live whtab ->
                   ∃ w, stored (WordHashTable.stringsPool whtab) (entry_at whtab i) w;
  wf_sorted : sorted_words (map (word_of whtab) (live whtab))
}.

(** The rows of the report as a function of the live slots. *)
Definition report (whtab : WordHashTable) : list (list Z * nat) :=
  map (fun i => (word_of whtab i, WordHashTabEntry.count (entry_at whtab i)))
      (live whtab).

(** The caller's buffer holds the word [w], NUL-terminated. *)
Definition holds_word (buf : WordBuffer) (w : list Z) : Prop :=
  (∃ rest, WordBuffer.letters buf = w ++ 0%Z :: rest)
  ∧ WordBuffer.curPosition buf = length w
  ∧ Forall (fun c => c ≠ 0%Z) w.

(** The pool after a block of [S (length w)] bytes was allocated and the
    word of [buf] copied into it. *)
Definition pool_with_word (memp : MemoryPool) (buf : WordBuffer) : MemoryPool :=
  let len := WordBuffer.curPosition buf + 1 in
  let memp1 := snd (MemoryPool_alloc_block memp len) in
  let p := (MemoryPool.memSpace memp + Z.of_nat (MemoryPool.nextChar memp))%Z in
  store memp1 p (snd (string_copy (deref memp1 p) (WordBuffer.letters buf) len)).

(** The sum of the counts in the printed rows. *)
Definition total_count (whtab : WordHashTable) : nat :=
  sum_list (map snd (WordHashTable_count_print whtab)).

(** Two tables with the same live entries, counts, size, index, statistics
    and pool; they may differ in the [letters] of empty slots. *)
Definition same_observable (whtab whtab' : WordHashTable) : Prop :=
  WordHashTable.alphOrderArray whtab' = WordHashTable.alphOrderArray whtab
  ∧ WordHashTable.capacity whtab' = WordHashTable.capacity whtab
  ∧ WordHashTable.size whtab' = WordHashTable.size whtab
  ∧ WordHashTable.stringsPool whtab' = WordHashTable.stringsPool whtab
  ∧ WordHashTable.hstats whtab' = WordHashTable.hstats whtab
  ∧ WordHashTable.pfstats whtab' = WordHashTable.pfstats whtab
  ∧ length (WordHashTable.entries whtab') = length (WordHashTable.entries whtab)
  ∧ ∀ i, WordHashTabEntry.count (entry_at whtab' i)
         = WordHashTabEntry.count (entry_at whtab i)
         ∧ (WordHashTabEntry.count (entry_at whtab i) ≠ 0 ->
            entry_at whtab' i = entry_at whtab i).

(** The row of slot [i] after the count of slot [k] went up by one. *)
Definition bumped_row (whtab : WordHashTable) (k i : nat) : list Z * nat :=
  (word_of whtab i,
   if decide (i = k) then S (WordHashTabEntry.count (entry_at whtab i))
   else WordHashTabEntry.count (entry_at whtab i)).

(** What a call for the word [w] can do to a well-formed table. *)
Inductive add_effect (whtab : WordHashTable) (buf : WordBuffer) (w : list Z)
  : RetStatus -> WordHashTable -> Prop :=
| add_inserted whtab' pos :
    wf whtab' ->
    report whtab' = take pos (report whtab) ++ (w, 1) :: drop pos (report whtab) ->
    WordHashTable.capacity whtab' = WordHashTable.capacity whtab ->
    WordHashTable.size whtab' = S (WordHashTable.size whtab) ->
    MemoryPool.nextChar (WordHashTable.stringsPool whtab')
    = MemoryPool.nextChar (WordHashTable.stringsPool whtab)
      + (WordBuffer.curPosition buf + 1) ->
    MemoryPool.capacity (WordHashTable.stringsPool whtab')
    = MemoryPool.capacity (WordHashTable.stringsPool whtab) ->
    add_effect whtab buf w SUCCESS whtab'
| add_counted whtab' k :
    wf whtab' -> k ∈ live whtab ->
    report whtab' = map (bumped_row whtab k) (live whtab) ->
    WordHashTable.capacity whtab' = WordHashTable.capacity whtab ->
    WordHashTable.size whtab' = WordHashTable.size whtab ->
    WordHashTable.stringsPool whtab' = WordHashTable.stringsPool whtab ->
    add_effect whtab buf w SUCCESS whtab'
| add_pool_full whtab' :
    wf whtab' -> same_observable whtab whtab' ->
    MemoryPool.capacity (WordHashTable.stringsPool whtab)
    <= MemoryPool.nextChar (WordHashTable.stringsPool whtab)
       + (WordBuffer.curPosition buf + 1) ->
    WordHashTable.size whtab < WordHashTable.capacity whtab ->
    add_effect whtab buf w DATA_STRUCT_FULL whtab'.

Definition add_word_hashIndex (whtab : WordHashTable) (buf : WordBuffer) : nat :=
  hash_slot (WordBuffer.letters buf) (WordBuffer.curPosition buf + 1)
            (WordHashTable.capacity whtab).

(** The address [p] seen from the new base of a block that moved from
    [prev] to [base]. *)
Definition rebase (prev base : Z) (e : WordHashTabEntry) : WordHashTabEntry :=
  set_letters e (WordHashTabEntry.letters e - prev + base)%Z.

(** Reading the [length e] bytes at [letters e]: the bytes when the whole
    range lies in the pool's block, nothing otherwise. *)
Definition read_back (memp : MemoryPool) (e : WordHashTabEntry) : option (list Z) :=
  if (MemoryPool.memSpace memp <=? WordHashTabEntry.letters e)%Z
     && (WordHashTabEntry.letters e + Z.of_nat (WordHashTabEntry.length e)
         <=? MemoryPool.memSpace memp + Z.of_nat (MemoryPool.capacity memp))%Z
  then Some (take (WordHashTabEntry.length e)
               (deref memp (WordHashTabEntry.letters e)))
  else None.

(** Two entries for the same block with the same count (the displacement
    may differ). *)
Definition same_block (e' e : WordHashTabEntry) : Prop :=
  WordHashTabEntry.letters e' = WordHashTabEntry.letters e
  ∧ WordHashTabEntry.count e' = WordHashTabEntry.count e
  ∧ WordHashTabEntry.length e' = WordHashTabEntry.length e.

(** The state of [WordHashTable_migrate] after the first [i] positions of
    the order array of [whtab0] were moved to the extended array [ext]. *)
Record migrating (whtab0 : WordHashTable) (i : nat)
    (whtab : WordHashTable) (ext : list WordHashTabEntry) : Prop := mk_migrating {
  mg_entries : WordHashTable.entries whtab = WordHashTable.entries whtab0;
  mg_capacity : WordHashTable.capacity whtab = WordHashTable.capacity whtab0;
  mg_size : WordHashTable.size whtab = WordHashTable.size whtab0;
  mg_pool : WordHashTable.stringsPool whtab = WordHashTable.stringsPool whtab0;
  mg_order_length :
    length (WordHashTable.alphOrderArray whtab)
    = length (WordHashTable.alphOrderArray whtab0);
  mg_order_rest :
    ∀ j, i <= j ->
      WordHashTable.alphOrderArray whtab !! j
      = WordHashTable.alphOrderArray whtab0 !! j;
  mg_ext_length : length ext = WordHashTable.capacity whtab0;
  mg_nodup : NoDup (take i (WordHashTable.alphOrderArray whtab));
  mg_used :
    ∀ k, k < WordHashTable.capacity whtab0 ->
      (WordHashTabEntry.count (ext !!! k) ≠ 0
       <-> k ∈ take i (WordHashTable.alphOrderArray whtab));
  mg_moved :
    ∀ j, j < i ->
      WordHashTable.alphOrderArray whtab !!! j < WordHashTable.capacity whtab0
      ∧ same_block (ext !!! (WordHashTable.alphOrderArray whtab !!! j))
          (entry_at whtab0 (WordHashTable.alphOrderArray whtab0 !!! j))
}.

(** The table between the reallocation of the order array and the
    rehash: capacity doubled, order array extended by [x], entries still
    the old array. *)
Definition expanding (whtab0 : WordHashTable) (x : list nat) : WordHashTable :=
  set_alphOrderArray
    (set_capacity whtab0 (WordHashTable.capacity whtab0 * 2))
    (WordHashTable.alphOrderArray whtab0 ++ x).

(** The tables that arise from a created table by calls of
    [WordHashTable_add_word] (whatever they return), successful expansions
    of the pool and successful expansions of the table.  A failed expansion
    is fatal: the program destroys the table. *)
Inductive reachable : WordHashTable -> Prop :=
| reach_create initCapacity heap whtab heap' :
    0 < initCapacity ->
    WordHashTable_create initCapacity heap = Finished (whtab, heap') ->
    reachable whtab
| reach_add_word whtab buf w st whtab' :
    reachable whtab -> holds_word buf w ->
    WordHashTable_add_word whtab buf = Some (st, whtab') ->
    reachable whtab'
| reach_pool_expand whtab a whtab' :
    reachable whtab ->
    WordHashTable_MemoryPool_expand whtab a = (SUCCESS, whtab') ->
    reachable whtab'
| reach_expand whtab heap whtab' heap' :
    reachable whtab ->
    WordHashTable_expand whtab heap = Some (SUCCESS, whtab', heap') ->
    reachable whtab'.

(** The sum of the counts over the live slots. *)
Definition total_report (whtab : WordHashTable) : nat :=
  sum_list (map snd (report whtab)).

(** How many doublings of the pool certainly make room for the word of
    [buf]: each one adds at least one byte. *)
Definition rounds_needed (whtab : WordHashTable) (buf : WordBuffer) : nat :=
  MemoryPool.nextChar (WordHashTable.stringsPool whtab)
  + (WordBuffer.curPosition buf + 1) + 1
  - MemoryPool.capacity (WordHashTable.stringsPool whtab).

(** The counting phase on a table created with a chosen capacity instead
    of the one [main] derives from the number of tokens. *)
Definition run_with_capacity (initCapacity : nat) (fp : list Z) (heap : list Alloc)
  : Run (WordHashTable * list (list Z * nat)) :=
  match WordHashTable_create initCapacity heap with
  | Finished (hashTable, heap) =>
      match count_words (snd (tokenize fp)) heap hashTable with
      | Finished (hashTable, _) =>
          Finished (hashTable, WordHashTable_count_print hashTable)
      | Failure => Failure
      | Pending => Pending
      end
  | Failure => Failure
  | Pending => Pending
  end.

(** The printed rows and the final capacity of a finished run. *)
Definition rows_of (r : Run (WordHashTable * list (list Z * nat)))
  : option (list (list Z * nat) * nat) :=
  match r with
  | Finished (whtab, rows) => Some (rows, WordHashTable.capacity whtab)
  | _ => None
  end.

(** The occupied slots of the final table with word, count and length, and
    the two extreme-word indices. *)
Definition extremes_of (r : Run (WordHashTable * list (list Z * nat)))
  : option (list (nat * list Z * nat * nat) * nat * nat) :=
  match r with
  | Finished (whtab, _) =>
      Some (map (fun i => (i, word_of whtab i,
                           WordHashTabEntry.count (entry_at whtab i),
                           WordHashTabEntry.length (entry_at whtab i)))
                (live whtab),
            PrintFormatStats.maxCountWordIndex (WordHashTable.pfstats whtab),
            PrintFormatStats.maxLengthWordIndex (WordHashTable.pfstats whtab))
  | _ => None
  end.

Definition WordHashTable_zero : WordHashTable :=
  WordHashTable.mk [] [] 0 0 MemoryPool_zero (HashStats.mk 0 0)
    (PrintFormatStats.mk 0 0).

(** The table a call leaves behind, whatever the status. *)
Definition after_add_word (whtab : WordHashTable) (w : list Z) : WordHashTable :=
  match WordHashTable_add_word whtab (token_of w) with
  | Some (_, whtab') => whtab'
  | None => whtab
  end.

Definition created (initCapacity : nat) : WordHashTable :=
  match WordHashTable_create initCapacity (plenty 4) with
  | Finished (whtab, _) => whtab
  | _ => WordHashTable_zero
  end.

(** Four slots holding ["b"] and ["a"]. *)
Definition sample_table : WordHashTable :=
  after_add_word (after_add_word (created 4) (text "b")) (text "a").

(** One slot, holding ["a"]: no slot is free. *)
Definition full_table : WordHashTable := after_add_word (created 1) (text "a").

(** The pool of [sample_table] moves from address 16384 to 100000. *)
Definition moved_block : Block := mkBlock 100000 (fun _ => 85%Z).

Definition sample_table_moved : WordHashTable :=
  snd (WordHashTable_MemoryPool_expand sample_table (Some moved_block)).

(** The bytes the tokens take in the pool. *)
Definition pool_bytes (inputVector : list WordBuffer) : nat :=
  sum_list (map (fun buf => WordBuffer.curPosition buf + 1) inputVector).

(** Allocator responses that certainly suffice for [main] on the text. *)
Definition main_budget (fp : list Z) : nat :=
  4 + length (snd (tokenize fp)) * (pool_bytes (snd (tokenize fp)) + 4).

Definition smeared (v m x : Z) : Prop :=
  ∀ i, (0 <= i)%Z ->
    Z.testbit x i = true <-> ∃ j, (0 <= j < m)%Z ∧ Z.testbit v (i + j) = true.

(** The capacity after pushes into a buffer created with [initLen] bytes:
    [initLen] doubled as often as needed to exceed the cursor. *)
Definition grown (initLen cur capacity : nat) : Prop :=
  ∃ k, capacity = initLen * 2 ^ k ∧ (k = 0 ∨ capacity <= 2 * cur).

(** The words [get_input] pushes to the vector, with the Token Buffer
    reduced to the characters it holds: the same state machine over
    lists. *)
Fixpoint get_input_words (source : list Z) (state : InputState) (w : list Z)
  : list (list Z) :=
  match source with
  | [] =>
      match state with
      | IN_WORD_AFTER_ALPHARITH => [w]
      | IN_WORD_AFTER_SYMBOL => [removelast w]
      | BETWEEN_WORDS => []
      end
  | newChar :: source =>
      match state, get_char_type newChar with
      | BETWEEN_WORDS, LETTER
      | IN_WORD_AFTER_ALPHARITH, LETTER
      | IN_WORD_AFTER_SYMBOL, LETTER =>
          get_input_words source IN_WORD_AFTER_ALPHARITH (w ++ [to_lowercase newChar])
      | BETWEEN_WORDS, NUMBER
      | IN_WORD_AFTER_ALPHARITH, NUMBER
      | IN_WORD_AFTER_SYMBOL, NUMBER =>
          get_input_words source IN_WORD_AFTER_ALPHARITH (w ++ [newChar])
      | BETWEEN_WORDS, _ => get_input_words source BETWEEN_WORDS w
      | IN_WORD_AFTER_ALPHARITH, IN_WORD_SYMBOL =>
          get_input_words source IN_WORD_AFTER_SYMBOL (w ++ [newChar])
      | IN_WORD_AFTER_ALPHARITH, OTHER_SYMBOL =>
          w :: get_input_words source BETWEEN_WORDS []
      | IN_WORD_AFTER_SYMBOL, _ =>
          removelast w :: get_input_words source BETWEEN_WORDS []
      end
  end.

(** A lowercase letter or a digit. *)
Definition alnum (c : Z) : Prop := (97 <= c <= 122 ∨ 48 <= c <= 57)%Z.

(** The words the tokenizer can build: alphanumerics, with single in-word
    symbols between them. *)
Inductive shaped : list Z -> Prop :=
| shaped_one c : alnum c -> shaped [c]
| shaped_alnum w c : shaped w -> alnum c -> shaped (w ++ [c])
| shaped_symbol w s c :
    shaped w -> s ∈ inWrdSymbols -> alnum c -> shaped (w ++ [s; c]).

(** What the state says about the characters collected so far. *)
Definition collected (state : InputState) (w : list Z) : Prop :=
  match state with
  | BETWEEN_WORDS => w = []
  | IN_WORD_AFTER_ALPHARITH => shaped w
  | IN_WORD_AFTER_SYMBOL => ∃ w' s, w = w' ++ [s] ∧ shaped w' ∧ s ∈ inWrdSymbols
  end.

(** Inputs that differ in the case of letters only. *)
Definition same_up_to_case (a b : Z) : Prop :=
  a = b ∨ (is_letter a = true ∧ is_letter b = true ∧ to_lowercase a = to_lowercase b).

(** The bytes the words of the rows take in the pool, terminators
    included. *)
Definition pool_use (rows : list (list Z * nat)) : nat :=
  sum_list (map (fun row => S (length (fst row))) rows).

(** What the loop of [main] keeps true of the table between two words:
    a slot is free, and the load is below 70% but for one entry. *)
Definition load_ok (whtab : WordHashTable) : Prop :=
  WordHashTable.size whtab < WordHashTable.capacity whtab
  ∧ 100 * WordHashTable.size whtab < 70 * WordHashTable.capacity whtab + 100.

(** The table a call of [add_word_at] leaves behind, field by field. *)
Inductive add_shape (whtab : WordHashTable) (buf : WordBuffer)
    (curIndex : nat) (displ : Z) (newDispl : nat)
  : RetStatus -> WordHashTable -> Prop :=
| shape_inserted whtab' pos :
    WordHashTabEntry.count (entry_at whtab curIndex) = 0 ->
    MemoryPool.nextChar (WordHashTable.stringsPool whtab)
    + (WordBuffer.curPosition buf + 1)
    < MemoryPool.capacity (WordHashTable.stringsPool whtab) ->
    WordHashTable.entries whtab'
    = <[curIndex :=
          WordHashTabEntry.mk
            (MemoryPool.memSpace (WordHashTable.stringsPool whtab)
             + Z.of_nat (MemoryPool.nextChar (WordHashTable.stringsPool whtab)))%Z
            1 (WordBuffer.curPosition buf + 1) displ]> (WordHashTable.entries whtab) ->
    live whtab' = take pos (live whtab) ++ curIndex :: drop pos (live whtab) ->
    WordHashTable.capacity whtab' = WordHashTable.capacity whtab ->
    WordHashTable.size whtab' = S (WordHashTable.size whtab) ->
    WordHashTable.stringsPool whtab' = pool_with_word (WordHashTable.stringsPool whtab) buf ->
    WordHashTable.hstats whtab'
    = HashStats.mk (S (HashStats.totalInsertions (WordHashTable.hstats whtab)))
        (HashStats.totalCollisions (WordHashTable.hstats whtab) + newDispl) ->
    WordHashTable.pfstats whtab'
    = (if WordHashTable.size whtab =? 0
       then PrintFormatStats.mk curIndex curIndex
       else if WordHashTabEntry.length
                 (entry_at whtab'
                    (PrintFormatStats.maxLengthWordIndex (WordHashTable.pfstats whtab)))
               <? WordBuffer.curPosition buf + 1
            then PrintFormatStats.mk curIndex
                   (PrintFormatStats.maxCountWordIndex (WordHashTable.pfstats whtab))
            else WordHashTable.pfstats whtab) ->
    add_shape whtab buf curIndex displ newDispl SUCCESS whtab'
| shape_counted whtab' :
    WordHashTabEntry.count (entry_at whtab curIndex) ≠ 0 ->
    entry_matches whtab (entry_at whtab curIndex) buf displ = true ->
    WordHashTable.entries whtab'
    = <[curIndex :=
          WordHashTabEntry.mk
            (WordHashTabEntry.letters (entry_at whtab curIndex))
            (S (WordHashTabEntry.count (entry_at whtab curIndex)))
            (WordHashTabEntry.length (entry_at whtab curIndex))
            (WordHashTabEntry.displacement (entry_at whtab curIndex))]>
        (WordHashTable.entries whtab) ->
    WordHashTable.alphOrderArray whtab' = WordHashTable.alphOrderArray whtab ->
    WordHashTable.capacity whtab' = WordHashTable.capacity whtab ->
    WordHashTable.size whtab' = WordHashTable.size whtab ->
    WordHashTable.stringsPool whtab' = WordHashTable.stringsPool whtab ->
    WordHashTable.hstats whtab' = WordHashTable.hstats whtab ->
    WordHashTable.pfstats whtab'
    = (if WordHashTabEntry.count
            (entry_at whtab'
               (PrintFormatStats.maxCountWordIndex (WordHashTable.pfstats whtab)))
          <? S (WordHashTabEntry.count (entry_at whtab curIndex))
       then PrintFormatStats.mk
              (PrintFormatStats.maxLengthWordIndex (WordHashTable.pfstats whtab)) curIndex
       else WordHashTable.pfstats whtab) ->
    add_shape whtab buf curIndex displ newDispl SUCCESS whtab'
| shape_full :
    WordHashTabEntry.count (entry_at whtab curIndex) = 0 ->
    MemoryPool.capacity (WordHashTable.stringsPool whtab)
    <= MemoryPool.nextChar (WordHashTable.stringsPool whtab)
       + (WordBuffer.curPosition buf + 1) ->
    add_shape whtab buf curIndex displ newDispl DATA_STRUCT_FULL
      (set_entries whtab
         (<[curIndex := set_letters (entry_at whtab curIndex) NULL]>
            (WordHashTable.entries whtab))).

(** The slot the word [w] hashes to in a table of [capacity] slots: the
    hash covers the terminator. *)
Definition word_slot (w : list Z) (capacity : nat) : nat :=
  hash_slot (w ++ [0%Z]) (S (length w)) capacity.

(** The probe at signed displacement [z'] is made before the one at [z]:
    a smaller distance first, and at equal distance the slot above the
    hash slot first. *)
Definition probed_before (z' z : Z) : Prop :=
  (Z.abs z' < Z.abs z)%Z ∨ (0 < z' ∧ z = - z')%Z.

(** Where the entry of slot [s] sits: at its displacement from the slot
    its word hashes to, with every slot probed before it taken. *)
Definition placed_at (whtab : WordHashTable) (s : nat) : Prop :=
  let h := Z.of_nat (word_slot (word_of whtab s) (WordHashTable.capacity whtab)) in
  let z := WordHashTabEntry.displacement (entry_at whtab s) in
  Z.of_nat s = (h + z)%Z
  ∧ ∀ z', probed_before z' z ->
      (0 <= h + z' < Z.of_nat (WordHashTable.capacity whtab))%Z ->
      WordHashTabEntry.count (entry_at whtab (Z.to_nat (h + z'))) ≠ 0.

Definition placed (whtab : WordHashTable) : Prop :=
  ∀ s, s ∈ live whtab -> placed_at whtab s.

(** The step of [WordHashTable_migrate] for position [i] of the order
    array found slot [curIndex] free at distance [d] from the hash slot,
    after every slot probed before it was found taken. *)
Definition migrate_found (whtab : WordHashTable) (ext : list WordHashTabEntry)
    (i d curIndex : nat) (displ : Z)
    (whtab' : WordHashTable) (ext' : list WordHashTabEntry) : Prop :=
  let oldIndex := WordHashTable.alphOrderArray whtab !!! i in
  let oldEntry := entry_at whtab oldIndex in
  let h :=
    hash_slot (entry_string whtab oldEntry) (WordHashTabEntry.length oldEntry)
              (WordHashTable.capacity whtab) in
  (∀ k, k < d ->
     (h + k < WordHashTable.capacity whtab -> WordHashTabEntry.count (ext !!! (h + k)) ≠ 0)
     ∧ (k <= h -> 0 < k -> WordHashTabEntry.count (ext !!! (h - k)) ≠ 0))
  ∧ curIndex < WordHashTable.capacity whtab
  ∧ Z.of_nat curIndex = (Z.of_nat h + displ)%Z
  ∧ Z.abs displ = Z.of_nat d
  ∧ ((displ < 0)%Z -> h + d < WordHashTable.capacity whtab ->
     WordHashTabEntry.count (ext !!! (h + d)) ≠ 0)
  ∧ migrate_at whtab ext i oldIndex oldEntry curIndex displ d = Some (whtab', ext').

(** Placement in the extended array during the rehash. *)
Definition placed_in (memp : MemoryPool) (capacity : nat)
    (ext : list WordHashTabEntry) (s : nat) : Prop :=
  let e := ext !!! s in
  let h :=
    Z.of_nat (hash_slot (deref memp (WordHashTabEntry.letters e))
                (WordHashTabEntry.length e) capacity) in
  Z.of_nat s = (h + WordHashTabEntry.displacement e)%Z
  ∧ ∀ z', probed_before z' (WordHashTabEntry.displacement e) ->
      (0 <= h + z' < Z.of_nat capacity)%Z ->
      WordHashTabEntry.count (ext !!! Z.to_nat (h + z')) ≠ 0.

(** How often the word [w] occurs in a list of words. *)
Definition occurrences (w : list Z) (ws : list (list Z)) : nat :=
  length (filter (fun x => x = w) ws).

(** The sum of the counts of the rows that carry the word [w]. *)
Definition count_for (w : list Z) (rows : list (list Z * nat)) : nat :=
  sum_list (map (fun row => if decide (fst row = w) then snd row else 0) rows).

(** The counts of the rows after the words [done], drawn from [all], were
    counted. *)
Definition tallied (all done : list (list Z)) (whtab : WordHashTable) : Prop :=
  (∀ x, x ∈ done -> x ∈ all)
  ∧ ∀ x, count_for x (report whtab) = occurrences x done.

(** Each word compares strictly below the next one. *)
Definition ascending (ws : list (list Z)) : Prop :=
  ∀ i a b, ws !! i = Some a -> ws !! S i = Some b -> (strcmp a b < 0)%Z.

(** What [WordHashTable_count_print] reads for the widths of its columns:
    [maxWordLength], and the count whose number of digits is
    [maxDigitsCount].  Nothing is read for an empty table. *)
Definition count_print_widths (whtab : WordHashTable) : option (nat * nat) :=
  if WordHashTable.size whtab =? 0 then None
  else
    Some (WordHashTabEntry.length
            (entry_at whtab
               (PrintFormatStats.maxLengthWordIndex (WordHashTable.pfstats whtab))),
          WordHashTabEntry.count
            (entry_at whtab
               (PrintFormatStats.maxCountWordIndex (WordHashTable.pfstats whtab)))).

(** Both indices of the print statistics name live slots. *)
Definition pfstats_live (whtab : WordHashTable) : Prop :=
  0 < WordHashTable.size whtab ->
  PrintFormatStats.maxLengthWordIndex (WordHashTable.pfstats whtab) ∈ live whtab
  ∧ PrintFormatStats.maxCountWordIndex (WordHashTable.pfstats whtab) ∈ live whtab.

(** The entries the print statistics name carry the largest count and the
    largest stored length among the live entries. *)
Definition extremes_exact (whtab : WordHashTable) : Prop :=
  ∀ s, s ∈ live whtab ->
    WordHashTabEntry.count (entry_at whtab s)
    <= WordHashTabEntry.count
         (entry_at whtab (PrintFormatStats.maxCountWordIndex (WordHashTable.pfstats whtab)))
    ∧ WordHashTabEntry.length (entry_at whtab s)
      <= WordHashTabEntry.length
           (entry_at whtab
              (PrintFormatStats.maxLengthWordIndex (WordHashTable.pfstats whtab))).

(** [abs(whtab->entries[whtab->alphOrderArray[i]].displacement)]. *)
Definition abs_displacement (whtab : WordHashTable) (i : nat) : nat :=
  Z.to_nat
    (Z.abs (WordHashTabEntry.displacement
              (entry_at whtab (WordHashTable.alphOrderArray whtab !!! i)))).

(** The inner loop of the insertion sort of [WordHashTable_hstats_update]
    and the store after it; [k] is [j + 1] of the source, so the loop
    ends at [k = 0]. *)
Fixpoint displ_insert (displOrderedArray : list nat) (k newAbsDispl : nat) : list nat :=
  match k with
  | S j =>
      if displOrderedArray !!! j <? newAbsDispl
      then displ_insert (<[S j := displOrderedArray !!! j]> displOrderedArray) j newAbsDispl
      else <[S j := newAbsDispl]> displOrderedArray
  | O => <[0 := newAbsDispl]> displOrderedArray
  end.

(** The outer loop over the given positions of the order array: the array
    and the sum accumulated in [meanDisplacement]. *)
Fixpoint hstats_update_loop (whtab : WordHashTable) (positions : list nat)
    (displOrderedArray : list nat) (sum : nat) : list nat * nat :=
  match positions with
  | [] => (displOrderedArray, sum)
  | i :: positions =>
      let newAbsDispl := abs_displacement whtab i in
      hstats_update_loop whtab positions (displ_insert displOrderedArray i newAbsDispl)
        (sum + newAbsDispl)
  end.

(** What [WordHashTable_hstats_update] stores in [meanDisplacement] and
    [medianDisplacement], each as the exact fraction (numerator,
    denominator) the source divides in floating point; nothing is stored
    for an empty table.  The array is granted by the allocator. *)
Definition WordHashTable_hstats_update (whtab : WordHashTable)
  : option ((nat * nat) * (nat * nat)) :=
  let size := WordHashTable.size whtab in
  if size =? 0 then None
  else
    let '(displOrderedArray, sum) :=
      hstats_update_loop whtab (seq 0 size) (repeat 0 size) 0 in
    Some ((sum, size),
          if size mod 2 =? 0
          then (displOrderedArray !!! (size / 2 - 1) + displOrderedArray !!! (size / 2), 2)
          else (displOrderedArray !!! (size / 2), 1)).

(** No element is larger than one before it. *)
Fixpoint descending (l : list nat) : Prop :=
  match l with
  | [] => True
  | x :: r => Forall (fun y => y <= x) r ∧ descending r
  end.

(** The sum of the absolute displacements of the live entries: the
    numerator of the mean displacement. *)
Definition displ_sum (whtab : WordHashTable) : nat :=
  sum_list (map (abs_displacement whtab) (seq 0 (WordHashTable.size whtab))).

(** * Properties *)

(** ** C strings *)

Lemma strncpy_word (w rest : list Z) :
  Forall (fun c => c ≠ 0%Z) w ->
  strncpy (w ++ 0%Z :: rest) (S (length w)) = w ++ [0%Z].
Proof.
  induction 1 as [|c w Hc _ IH]; [reflexivity|].
  cbn [app length strncpy].
  destruct (Z.eqb_spec c 0); [contradiction|].
  rewrite IH. reflexivity.
Qed.

Lemma c_string_word (w rest : list Z) :
  Forall (fun c => c ≠ 0%Z) w ->
  c_string (w ++ 0%Z :: rest) = w.
Proof.
  induction 1 as [|c w Hc _ IH]; [reflexivity|].
  cbn [app c_string].
  destruct (Z.eqb_spec c 0); [contradiction|].
  rewrite IH. reflexivity.
Qed.

Lemma strcmp_word (w1 w2 rest1 rest2 : list Z) :
  Forall (fun c => c ≠ 0%Z) w1 ->
  Forall (fun c => c ≠ 0%Z) w2 ->
  strcmp (w1 ++ 0%Z :: rest1) (w2 ++ 0%Z :: rest2) = strcmp w1 w2.
Proof.
  intros H1. revert w2.
  induction H1 as [|c1 w1 Hc1 _ IH]; intros w2 H2.
  - destruct H2 as [|c2 w2 Hc2 _]; cbn [app strcmp].
    + reflexivity.
    + destruct (Z.eqb_spec 0 c2); [congruence|reflexivity].
  - destruct H2 as [|c2 w2 Hc2 H2]; cbn [app strcmp].
    + destruct (Z.eqb_spec c1 0); [contradiction|lia].
    + destruct (Z.eqb_spec c1 c2); [|reflexivity].
      destruct (Z.eqb_spec c1 0); [contradiction|].
      apply IH, H2.
Qed.

Lemma strcmp_antisym (s1 s2 : list Z) : strcmp s2 s1 = (- strcmp s1 s2)%Z.
Proof.
  revert s2.
  induction s1 as [|c1 r1 IH]; intros [|c2 r2]; cbn [strcmp]; try lia.
  destruct (Z.eqb_spec c1 c2) as [->|Hne].
  - rewrite Z.eqb_refl. destruct (c2 =? 0)%Z; [reflexivity|apply IH].
  - destruct (Z.eqb_spec c2 c1); [congruence|lia].
Qed.

(** ** The tokenizer *)

Lemma insert_middle {A} (l1 l2 : list A) (x y : A) :
  <[length l1 := y]> (l1 ++ x :: l2) = l1 ++ y :: l2.
Proof.
  rewrite insert_app_r_alt by lia.
  replace (length l1 - length l1) with 0 by lia. reflexivity.
Qed.

Lemma WordBuffer_create_holds :
  ∃ wbuf, WordBuffer_create INITIAL_WORD_BUFFER_LENGTH = Some wbuf
          ∧ wbuf_holds wbuf [].
Proof.
  eexists. split; [reflexivity|].
  split; [exists (repeat 0%Z 15); reflexivity|].
  vm_compute. repeat split; lia.
Qed.

Lemma to_char_small c : (0 <= c < 128)%Z -> to_char c = c.
Proof. intros Hc. unfold to_char. rewrite Z.mod_small by lia. lia. Qed.

Lemma WordBuffer_push_char_holds wbuf w c :
  wbuf_holds wbuf w ->
  ∃ wbuf', WordBuffer_push_char wbuf c = (SUCCESS, wbuf')
           ∧ wbuf_holds wbuf' (w ++ [to_char c]).
Proof.
  intros ([rest Hl] & Hcur & Hcap & H2).
  unfold WordBuffer_push_char. eexists. split; [reflexivity|].
  generalize (to_char c). clear c. intros c.
  assert (Hlen : length (WordBuffer.letters wbuf) = length w + S (length rest))
    by (rewrite Hl; list_len; reflexivity).
  assert (Hc : length (w ++ [c]) = S (length w)) by (list_len; lia).
  destruct (Nat.leb_spec (WordBuffer.capacity wbuf - 1) (WordBuffer.curPosition wbuf))
    as [Hfull|Hroom]; cbn [WordBuffer.letters WordBuffer.curPosition WordBuffer.capacity].
  - replace (WordBuffer.capacity wbuf * 2 - WordBuffer.capacity wbuf)
      with (S (WordBuffer.capacity wbuf - 1)) by lia.
    cbn [repeat]. rewrite Hl, Hcur, <- app_assoc. cbn [app].
    rewrite insert_middle.
    replace (w ++ c :: rest ++ 0%Z :: repeat 0%Z (WordBuffer.capacity wbuf - 1))
      with ((w ++ [c]) ++ (rest ++ [0%Z]) ++ repeat 0%Z (WordBuffer.capacity wbuf - 1))
      by (rewrite <- !app_assoc; reflexivity).
    destruct (rest ++ [0%Z]) as [|r0 rest'] eqn:Hr;
      [destruct rest; discriminate|].
    apply (f_equal length) in Hr. list_len_in Hr.
    rewrite <- Hc. cbn [app]. rewrite insert_middle.
    split_and!; wb_simpl.
    + eexists; reflexivity.
    + reflexivity.
    + list_len. lia.
    + lia.
  - rewrite Hl, Hcur. rewrite insert_middle.
    destruct rest as [|r0 rest']; [cbn in Hlen; lia|].
    replace (w ++ c :: r0 :: rest') with ((w ++ [c]) ++ r0 :: rest')
      by (rewrite <- app_assoc; reflexivity).
    rewrite <- Hc. rewrite insert_middle.
    split_and!; wb_simpl.
    + eexists; reflexivity.
    + reflexivity.
    + rewrite Hcap, Hlen. list_len. lia.
    + lia.
Qed.

Lemma WordBuffer_backspace_holds wbuf w c :
  wbuf_holds wbuf (w ++ [c]) -> wbuf_holds (WordBuffer_backspace wbuf) w.
Proof.
  intros ([rest Hl] & Hcur & Hcap & H2).
  unfold WordBuffer_backspace. list_len_in Hcur.
  destruct (Nat.leb_spec 1 (WordBuffer.curPosition wbuf)); [|lia].
  rewrite Hcap. rewrite Hl, Hcur, <- app_assoc. cbn [app].
  replace (length w + 1 - 1) with (length w) by lia.
  rewrite insert_middle.
  split_and!; wb_simpl.
  - eexists; reflexivity.
  - reflexivity.
  - list_len. reflexivity.
  - rewrite Hcap, Hl in H2. list_len_in H2. list_len. lia.
Qed.

Lemma WordBuffer_clear_holds wbuf w :
  wbuf_holds wbuf w -> wbuf_holds (WordBuffer_clear wbuf) [].
Proof.
  intros ([rest Hl] & Hcur & Hcap & H2).
  unfold WordBuffer_clear.
  split_and!; wb_simpl.
  - rewrite Hl. destruct w; cbn; eexists; reflexivity.
  - reflexivity.
  - list_len. exact Hcap.
  - lia.
Qed.

Lemma WordBufferVector_create_holds :
  vec_holds (WordBufferVector_create INITIAL_WORD_VECTOR_LENGTH) [].
Proof.
  unfold WordBufferVector_create, INITIAL_WORD_VECTOR_LENGTH.
  split_and!; wb_simpl.
  - eexists; reflexivity.
  - reflexivity.
  - list_len. reflexivity.
  - lia.
Qed.

Lemma WordBufferVector_push_holds vec ws wbuf w :
  vec_holds vec ws -> wbuf_holds wbuf w -> word_ok w ->
  ∃ vec', WordBufferVector_push vec wbuf = (SUCCESS, vec')
          ∧ vec_holds vec' (ws ++ [w]).
Proof.
  intros ([rest Hb] & Hcur & Hcap & Hlt) ([lrest Hl] & Hwcur & Hwcap & Hw2) [Hne Hnz].
  unfold WordBufferVector_push, WordBuffer_init.
  assert (Hlenw : 1 <= length w) by (destruct w; [congruence|cbn; lia]).
  destruct (Nat.ltb_spec (WordBuffer.curPosition wbuf + 1) 2); [lia|].
  eexists. split; [reflexivity|].
  assert (Hcopy :
    snd (string_copy
           (<[0:=0%Z]> (repeat 0%Z (WordBuffer.curPosition wbuf + 1)))
           (WordBuffer.letters wbuf) (WordBuffer.curPosition wbuf + 1))
    = w ++ [0%Z]).
  { unfold string_copy.
    destruct (Nat.eqb_spec (WordBuffer.curPosition wbuf + 1) 0); [lia|].
    cbn [snd]. rewrite drop_ge by (rewrite length_insert, repeat_length; lia).
    rewrite app_nil_r, Hl, Hwcur.
    replace (length w + 1) with (S (length w)) by lia.
    apply strncpy_word, Hnz. }
  cbn [WordBuffer.letters]. rewrite Hcopy, Hwcur.
  fold (token_of w).
  assert (Hlen : length (WordBufferVector.buffers vec) = length ws + length rest)
    by (rewrite Hb, length_app, length_map; reflexivity).
  destruct (Nat.leb_spec (WordBufferVector.capacity vec - 1)
                         (WordBufferVector.curPosition vec)) as [Hfull|Hroom];
    cbn [WordBufferVector.buffers WordBufferVector.curPosition WordBufferVector.capacity].
  - rewrite Hb, Hcur, <- app_assoc.
    destruct (rest ++ repeat WordBuffer_zero
                (WordBufferVector.capacity vec * 2 - WordBufferVector.capacity vec))
      as [|r0 rest'] eqn:Hr.
    { apply (f_equal length) in Hr. rewrite length_app, repeat_length in Hr.
      cbn in Hr. lia. }
    replace (length ws) with (length (map token_of ws)) at 1 by apply length_map.
    rewrite insert_middle.
    split_and!; wb_simpl.
    + exists rest'. rewrite map_app, <- app_assoc. reflexivity.
    + rewrite length_app. cbn. lia.
    + apply (f_equal length) in Hr. rewrite length_app, repeat_length in Hr.
      cbn in Hr. rewrite length_app, length_map. cbn. lia.
    + lia.
  - rewrite Hb, Hcur.
    destruct rest as [|r0 rest']; [cbn in Hlen; lia|].
    replace (length ws) with (length (map token_of ws)) at 1 by apply length_map.
    rewrite insert_middle.
    split_and!; wb_simpl.
    + exists rest'. rewrite map_app, <- app_assoc. reflexivity.
    + rewrite length_app. cbn. lia.
    + rewrite Hcap, Hb, !length_app. reflexivity.
    + cbn in Hlen. lia.
Qed.

Lemma map_lookup_total_seq {A} `{!Inhabited A} (l : list A) n :
  n <= length l -> map (fun i => l !!! i) (seq 0 n) = take n l.
Proof.
  intros Hn. apply list_eq. intros i.
  rewrite list_lookup_fmap.
  destruct (decide (i < n)) as [Hi|Hi].
  - rewrite lookup_seq_lt by lia. cbn.
    rewrite lookup_take_lt by lia.
    symmetry. apply list_lookup_lookup_total_lt. lia.
  - rewrite lookup_seq_ge by lia. rewrite lookup_take_ge by lia. reflexivity.
Qed.

(** Reading the vector slot by slot gives the Token List. *)
Lemma WordBufferVector_at_tokens vec ws :
  vec_holds vec ws ->
  map (WordBufferVector_at vec) (seq 0 (WordBufferVector_get_size vec)) = tokens vec.
Proof.
  intros (_ & _ & Hcap & Hlt). unfold WordBufferVector_at, WordBufferVector_get_size, tokens.
  apply map_lookup_total_seq. lia.
Qed.

Lemma vec_holds_tokens vec ws : vec_holds vec ws -> tokens vec = map token_of ws.
Proof.
  intros ([rest Hb] & Hcur & _). unfold tokens.
  rewrite Hb, Hcur, take_app_length'; [reflexivity|symmetry; apply length_map].
Qed.

(** The characters the tokenizer appends are never NUL. *)
Lemma letter_nonzero ch : is_letter ch = true -> to_lowercase ch ≠ 0%Z.
Proof.
  unfold is_letter. intros H. apply andb_prop in H as [H _].
  apply Z.leb_le in H. change (chr "a") with 97%Z in H. lia.
Qed.

Lemma number_nonzero ch : is_number ch = true -> ch ≠ 0%Z.
Proof.
  unfold is_number. intros H. apply andb_prop in H as [H _].
  apply Z.leb_le in H. change (chr "0") with 48%Z in H. lia.
Qed.

Lemma inword_symbol_nonzero ch : is_inword_symbol ch = true -> ch ≠ 0%Z.
Proof.
  unfold is_inword_symbol, inWrdSymbols. cbn [fold_left orb].
  intros H ->. vm_compute in H. discriminate.
Qed.

(** The characters the tokenizer appends are in the range that the
    conversion to [char] keeps. *)
Lemma letter_char ch : is_letter ch = true -> (0 < to_lowercase ch < 128)%Z.
Proof.
  unfold is_letter. intros H. apply andb_prop in H as [H1 H2].
  apply Z.leb_le in H1, H2.
  change (chr "a") with 97%Z in H1. change (chr "z") with 122%Z in H2. lia.
Qed.

Lemma number_char ch : is_number ch = true -> (0 < ch < 128)%Z.
Proof.
  unfold is_number. intros H. apply andb_prop in H as [H1 H2].
  apply Z.leb_le in H1, H2.
  change (chr "0") with 48%Z in H1. change (chr "9") with 57%Z in H2. lia.
Qed.

Lemma inword_symbol_char ch : is_inword_symbol ch = true -> (0 < ch < 128)%Z.
Proof.
  unfold is_inword_symbol, inWrdSymbols. cbn [fold_left orb].
  rewrite !orb_true_iff, !Z.eqb_eq.
  intros [[[[[H|H]|H]|H]|H]|H]; subst ch; vm_compute; split; reflexivity.
Qed.

Lemma get_char_type_cases ch :
  match get_char_type ch with
  | LETTER => is_letter ch = true
  | NUMBER => is_letter ch = false ∧ is_number ch = true
  | IN_WORD_SYMBOL =>
      is_letter ch = false ∧ is_number ch = false ∧ is_inword_symbol ch = true
  | OTHER_SYMBOL => is_letter ch = false ∧ is_number ch = false
  end.
Proof.
  unfold get_char_type.
  destruct (is_letter ch), (is_number ch), (is_inword_symbol ch); auto.
Qed.

Lemma word_ok_snoc w c :
  Forall (fun c => c ≠ 0%Z) w -> c ≠ 0%Z -> word_ok (w ++ [c]).
Proof.
  intros Hw Hc. split.
  - destruct w; discriminate.
  - apply Forall_app. split; [exact Hw|]. constructor; [exact Hc|constructor].
Qed.

Lemma state_holds_nonzero state w :
  state_holds state w -> Forall (fun c => c ≠ 0%Z) w.
Proof.
  destruct state; cbn.
  - intros ->. constructor.
  - intros [_ H]. exact H.
  - intros (w' & c & -> & [_ H] & Hc). apply Forall_app. split; [exact H|].
    constructor; [exact Hc|constructor].
Qed.

Lemma get_input_loop_holds source :
  ∀ state wbuf vec w ws,
    wbuf_holds wbuf w -> vec_holds vec ws -> state_holds state w ->
    Forall word_ok ws ->
    ∃ vec' ws',
      get_input_loop source state wbuf vec = (SUCCESS, vec')
      ∧ vec_holds vec' ws' ∧ Forall word_ok ws'.
Proof.
  induction source as [|newChar source IH];
    intros state wbuf vec w ws Hwb Hvec Hst Hws.
  - destruct state; cbn [get_input_loop].
    + eauto.
    + destruct (WordBufferVector_push_holds _ _ _ _ Hvec Hwb Hst) as (vec' & -> & Hv').
      exists vec', (ws ++ [w]). split_and!; [reflexivity|exact Hv'|].
      apply Forall_app. split; [exact Hws|]. constructor; [exact Hst|constructor].
    + destruct Hst as (w' & c & -> & Hw' & Hc).
      apply WordBuffer_backspace_holds in Hwb.
      destruct (WordBufferVector_push_holds _ _ _ _ Hvec Hwb Hw') as (vec' & -> & Hv').
      exists vec', (ws ++ [w']). split_and!; [reflexivity|exact Hv'|].
      apply Forall_app. split; [exact Hws|]. constructor; [exact Hw'|constructor].
  - pose proof (get_char_type_cases newChar) as Hty.
    pose proof (state_holds_nonzero _ _ Hst) as Hnz.
    assert (Hpush : ∀ c state',
      (0 < c < 128)%Z ->
      (state' = IN_WORD_AFTER_ALPHARITH
       ∨ state' = IN_WORD_AFTER_SYMBOL ∧ word_ok w) ->
      ∃ vec' ws',
        match WordBuffer_push_char wbuf c with
        | (SUCCESS, wbuf) => get_input_loop source state' wbuf vec
        | _ => (GEN_FAIL, vec)
        end = (SUCCESS, vec')
        ∧ vec_holds vec' ws' ∧ Forall word_ok ws').
    { intros c state' Hrange Hs'.
      assert (Hc : c ≠ 0%Z) by lia.
      destruct (WordBuffer_push_char_holds _ _ c Hwb) as (wbuf' & -> & Hwb').
      rewrite (to_char_small c) in Hwb' by lia.
      apply (IH state' wbuf' vec (w ++ [c]) ws Hwb' Hvec); [|exact Hws].
      destruct Hs' as [->|[-> Hw]]; cbn.
      - apply word_ok_snoc; assumption.
      - exists w, c. auto. }
    assert (Hflush : ∀ wbuf0 w0,
      wbuf_holds wbuf0 w0 -> word_ok w0 ->
      ∃ vec' ws',
        match WordBufferVector_push vec wbuf0 with
        | (SUCCESS, vec) =>
            get_input_loop source BETWEEN_WORDS (WordBuffer_clear wbuf0) vec
        | (_, vec) => (GEN_FAIL, vec)
        end = (SUCCESS, vec')
        ∧ vec_holds vec' ws' ∧ Forall word_ok ws').
    { intros wbuf0 w0 Hwb0 Hw0.
      destruct (WordBufferVector_push_holds _ _ _ _ Hvec Hwb0 Hw0) as (vec' & -> & Hv').
      apply (IH BETWEEN_WORDS _ vec' [] (ws ++ [w0])
               (WordBuffer_clear_holds _ _ Hwb0) Hv'); [reflexivity|].
      apply Forall_app. split; [exact Hws|]. constructor; [exact Hw0|constructor]. }
    destruct state; cbn [get_input_loop];
      destruct (get_char_type newChar); cbn beta iota.
    + apply Hpush; [apply letter_char, Hty|auto].
    + apply Hpush; [apply number_char, Hty|auto].
    + apply (IH BETWEEN_WORDS wbuf vec w ws); assumption.
    + apply (IH BETWEEN_WORDS wbuf vec w ws); assumption.
    + apply Hpush; [apply letter_char, Hty|auto].
    + apply Hpush; [apply number_char, Hty|auto].
    + apply Hpush; [apply inword_symbol_char, Hty|auto].
    + apply (Hflush wbuf w); assumption.
    + apply Hpush; [apply letter_char, Hty|auto].
    + apply Hpush; [apply number_char, Hty|auto].
    + destruct Hst as (w' & c & -> & Hw' & Hc).
      apply (Hflush _ w'); [apply WordBuffer_backspace_holds with c, Hwb|exact Hw'].
    + destruct Hst as (w' & c & -> & Hw' & Hc).
      apply (Hflush _ w'); [apply WordBuffer_backspace_holds with c, Hwb|exact Hw'].
Qed.

(** The tokenizer always succeeds (its allocations granted), and its
    Token List consists of well-formed, non-empty words. *)
Lemma tokenize_words fp :
  ∃ ws, tokenize fp = (SUCCESS, map token_of ws) ∧ Forall word_ok ws.
Proof.
  unfold tokenize, get_input.
  destruct WordBuffer_create_holds as (wbuf & -> & Hwb).
  destruct (get_input_loop_holds fp BETWEEN_WORDS wbuf _ [] []
              Hwb WordBufferVector_create_holds eq_refl (Forall_nil_2 _))
    as (vec' & ws' & -> & Hv & Hws).
  exists ws'. rewrite (vec_holds_tokens _ _ Hv). auto.
Qed.

(** Characters that are neither letters nor digits never start a word. *)
Lemma get_input_loop_between fp wbuf vec :
  Forall (fun ch => is_letter ch = false ∧ is_number ch = false) fp ->
  get_input_loop fp BETWEEN_WORDS wbuf vec = (SUCCESS, vec).
Proof.
  induction 1 as [|ch fp [Hl Hn] _ IH]; [reflexivity|].
  cbn [get_input_loop]. unfold get_char_type. rewrite Hl, Hn.
  destruct (is_inword_symbol ch); exact IH.
Qed.

(** C4 (as amended): the boundary cases of the tokenizer.  The words
    ["it's"] and ["end."] give one token each (["it's"], ["end"]); both
    ["a--b"] and ["a-- b"] give the two tokens ["a"] and ["b"]; the empty
    input, and any input without letters and digits, gives no token. *)
Theorem tokenizer_boundary_cases :
  tokenize (text "it's") = (SUCCESS, [token_of (text "it's")])
  ∧ tokenize (text "end.") = (SUCCESS, [token_of (text "end")])
  ∧ tokenize (text "a--b") = (SUCCESS, [token_of (text "a"); token_of (text "b")])
  ∧ tokenize (text "a-- b") = (SUCCESS, [token_of (text "a"); token_of (text "b")])
  ∧ tokenize [] = (SUCCESS, [])
  ∧ (∀ fp, Forall (fun ch => is_letter ch = false ∧ is_number ch = false) fp ->
           tokenize fp = (SUCCESS, [])).
Proof.
  split_and!; try (vm_compute; reflexivity).
  intros fp Hfp. unfold tokenize, get_input.
  destruct WordBuffer_create_holds as (wbuf & -> & _).
  rewrite (get_input_loop_between _ _ _ Hfp). reflexivity.
Qed.

Lemma tokenizer_boundary_cases_witness :
  Forall (fun ch => is_letter ch = false ∧ is_number ch = false) (text "-- ,. @")
  ∧ tokenize (text "-- ,. @") = (SUCCESS, []).
Proof.
  assert (H : Forall (fun ch => is_letter ch = false ∧ is_number ch = false)
                     (text "-- ,. @")).
  { repeat constructor. }
  split; [exact H|].
  exact (proj2 (proj2 (proj2 (proj2 (proj2 tokenizer_boundary_cases)))) _ H).
Defined.

(** C4 as stated fails: ["a--b"] is not kept as the single token ["a--b"];
    the second hyphen ends the word. *)
Lemma tokenizer_double_symbol_splits :
  tokenize (text "a--b") ≠ (SUCCESS, [token_of (text "a--b")]).
Proof. vm_compute. discriminate. Qed.

(** C10: every token in the Token List is non-empty, so the accesses
    [letters[0]] and [letters[curPosition - 1]] of the match pre-check of
    [WordHashTable_add_word] address bytes of the token, and the accesses
    [letters[0]] and [letters[length - 2]] address bytes of any entry of
    the same length. *)
Theorem tokens_nonempty fp buf :
  buf ∈ snd (tokenize fp) ->
  1 <= WordBuffer.curPosition buf
  ∧ token_word buf ≠ []
  ∧ length (WordBuffer.letters buf) = WordBuffer.capacity buf
  ∧ in_bounds (WordBuffer.capacity buf) 0
  ∧ in_bounds (WordBuffer.capacity buf) (Z.of_nat (WordBuffer.curPosition buf) - 1)
  ∧ (∀ curEntry,
       WordHashTabEntry.length curEntry = WordBuffer.curPosition buf + 1 ->
       in_bounds (WordHashTabEntry.length curEntry) 0
       ∧ in_bounds (WordHashTabEntry.length curEntry)
                   (Z.of_nat (WordHashTabEntry.length curEntry) - 2)).
Proof.
  destruct (tokenize_words fp) as (ws & -> & Hws). cbn [snd].
  intros Hin. apply list_elem_of_fmap in Hin as (w & -> & Hw).
  rewrite Forall_forall in Hws. destruct (Hws w Hw) as [Hne _].
  assert (1 <= length w) by (destruct w; [congruence|cbn; lia]).
  unfold token_of, token_word, in_bounds; wb_simpl.
  split_and!; try lia.
  - rewrite take_app_length. exact Hne.
  - list_len. reflexivity.
Qed.

Lemma tokens_nonempty_witness :
  token_of (text "end") ∈ snd (tokenize (text "The end."))
  ∧ 1 <= WordBuffer.curPosition (token_of (text "end")).
Proof.
  assert (H : token_of (text "end") ∈ snd (tokenize (text "The end."))).
  { vm_compute. apply list_elem_of_further, list_elem_of_here. }
  split; [exact H|].
  exact (proj1 (tokens_nonempty _ _ H)).
Defined.

(** ** Bidirectional probing *)

Lemma add_word_loop_probe fuel whtab buf hashIndex newDispl :
  add_word_loop fuel whtab buf hashIndex newDispl
  = probe fuel (add_word_body whtab buf hashIndex)
      (WordHashTable.capacity whtab) hashIndex (GEN_FAIL, whtab) newDispl.
Proof.
  revert newDispl. induction fuel as [|fuel IH]; intros d; [reflexivity|].
  cbn [add_word_loop probe]. destruct (add_word_body _ _ _ _); [reflexivity|].
  rewrite IH. reflexivity.
Qed.

Lemma migrate_loop_probe fuel whtab ext i oldIndex oldEntry hashIndex newDispl :
  migrate_loop fuel whtab ext i oldIndex oldEntry hashIndex newDispl
  = probe fuel (migrate_body whtab ext i oldIndex oldEntry hashIndex)
      (WordHashTable.capacity whtab) hashIndex (whtab, ext) newDispl.
Proof.
  revert newDispl. induction fuel as [|fuel IH]; intros d; [reflexivity|].
  cbn [migrate_loop probe]. destruct (migrate_body _ _ _ _ _ _ _); [reflexivity|].
  rewrite IH. reflexivity.
Qed.

Lemma probe_more_spec capacity hashIndex d :
  probe_more capacity hashIndex d = false
  <-> capacity <= hashIndex + d ∧ hashIndex < d.
Proof.
  unfold probe_more. rewrite orb_false_iff, Nat.ltb_ge, Nat.leb_gt. reflexivity.
Qed.

Lemma probe_more_true capacity hashIndex d :
  probe_more capacity hashIndex d = true
  <-> hashIndex + d < capacity ∨ d <= hashIndex.
Proof.
  unfold probe_more. rewrite orb_true_iff, Nat.ltb_lt, Nat.leb_le. reflexivity.
Qed.

(** With fuel for every displacement up to [capacity + hashIndex] the loop
    finishes: it returns from the body at the first displacement where the
    body returns, and runs into [after] when the body returns at none of the
    displacements it reaches. *)
Lemma probe_result {R} (body : nat -> option R) capacity hashIndex (after : R) :
  ∀ fuel d,
    d <= capacity + hashIndex -> capacity + hashIndex + 1 <= fuel + d ->
    (∃ d' r, probe fuel body capacity hashIndex after d = Some r
             ∧ probed capacity hashIndex d d' ∧ body d' = Some r
             ∧ ∀ k, d <= k < d' -> body k = None)
    ∨ (probe fuel body capacity hashIndex after d = Some after
       ∧ ∀ d', probed capacity hashIndex d d' -> body d' = None).
Proof.
  induction fuel as [|fuel IH]; intros d Hd Hfuel; [lia|].
  cbn [probe]. destruct (body d) as [r|] eqn:Hbody.
  - left. exists d, r. split_and!; [reflexivity|left; reflexivity|exact Hbody|lia].
  - destruct (probe_more capacity hashIndex (S d)) eqn:Hmore.
    + pose proof (proj1 (probe_more_true _ _ _) Hmore) as Hrange.
      destruct (IH (S d)) as [(d' & r & Hp & Hprobed & Hb & Hbefore)|[Hp Hnone]];
        [lia|lia| |].
      * left. exists d', r. split_and!; [exact Hp| |exact Hb|].
        -- right. destruct Hprobed as [->|[Hlt Hm]]; [split; [lia|exact Hmore]|].
           split; [lia|exact Hm].
        -- intros k Hk. destruct (decide (k = d)) as [->|]; [exact Hbody|].
           apply Hbefore. destruct Hprobed as [->|[Hlt _]]; lia.
      * right. split; [exact Hp|].
        intros d' [->|[Hlt Hm]]; [exact Hbody|].
        apply Hnone. destruct (decide (d' = S d)) as [->|]; [left; reflexivity|].
        right. split; [lia|exact Hm].
    + right. split; [reflexivity|].
      intros d' [->|[Hlt Hm]]; [exact Hbody|].
      apply probe_more_spec in Hmore. apply probe_more_true in Hm. lia.
Qed.

(** Every slot of the table is reached: slot [k] at displacement [|k - h|]. *)
Lemma probed_slot capacity hashIndex k :
  k < capacity -> hashIndex < capacity ->
  probed capacity hashIndex 0
    (if hashIndex <=? k then k - hashIndex else hashIndex - k).
Proof.
  intros Hk Hh. unfold probed.
  destruct (Nat.leb_spec hashIndex k).
  - destruct (decide (k - hashIndex = 0)); [left; assumption|].
    right. split; [lia|]. apply probe_more_true. lia.
  - right. split; [lia|]. apply probe_more_true. lia.
Qed.

Lemma hash_slot_lt hword wlen capacity :
  0 < capacity -> hash_slot hword wlen capacity < capacity.
Proof.
  intros Hc. unfold hash_slot.
  pose proof (Z.mod_pos_bound (fnvhash hword wlen) (Z.of_nat capacity)).
  lia.
Qed.

(** ** Well-formed tables *)

Lemma count_print_report whtab :
  WordHashTable.size whtab <= length (WordHashTable.alphOrderArray whtab) ->
  WordHashTable_count_print whtab = report whtab.
Proof.
  intros Hsz. unfold WordHashTable_count_print, report, live.
  destruct (Nat.eqb_spec (WordHashTable.size whtab) 0) as [->|_]; [reflexivity|].
  rewrite <- (map_lookup_total_seq (WordHashTable.alphOrderArray whtab)) by exact Hsz.
  rewrite map_map. reflexivity.
Qed.

Lemma wf_count_print whtab :
  wf whtab -> WordHashTable_count_print whtab = report whtab.
Proof.
  intros H. apply count_print_report. rewrite (wf_order _ H). apply (wf_size _ H).
Qed.

Lemma live_length whtab :
  wf whtab -> length (live whtab) = WordHashTable.size whtab.
Proof.
  intros H. unfold live. rewrite length_take_le; [reflexivity|].
  rewrite (wf_order _ H). apply (wf_size _ H).
Qed.

(** Well-formedness does not look at the statistics. *)
Lemma wf_same_core whtab whtab' :
  WordHashTable.entries whtab' = WordHashTable.entries whtab ->
  WordHashTable.alphOrderArray whtab' = WordHashTable.alphOrderArray whtab ->
  WordHashTable.capacity whtab' = WordHashTable.capacity whtab ->
  WordHashTable.size whtab' = WordHashTable.size whtab ->
  WordHashTable.stringsPool whtab' = WordHashTable.stringsPool whtab ->
  wf whtab -> wf whtab' ∧ report whtab' = report whtab.
Proof.
  destruct whtab, whtab'. cbn. intros -> -> -> -> -> H.
  split; [|reflexivity]. destruct H. constructor; assumption.
Qed.

(** ** Counting slots *)

Lemma pigeonhole (l : list nat) n :
  NoDup l -> (∀ x, x ∈ l -> x < n) -> length l <= n.
Proof.
  intros Hnd Hlt.
  assert (Hsub : l ⊆+ seq 0 n).
  { apply NoDup_submseteq; [exact Hnd|].
    intros x Hx. apply elem_of_seq. specialize (Hlt x Hx). lia. }
  apply submseteq_length in Hsub. rewrite length_seq in Hsub. exact Hsub.
Qed.

Lemma free_slot (l : list nat) n :
  NoDup l -> (∀ x, x ∈ l -> x < n) -> length l < n -> ∃ k, k < n ∧ k ∉ l.
Proof.
  intros Hnd Hlt Hlen.
  destruct (decide (Forall (fun k => k ∈ l) (seq 0 n))) as [Hall|Hex].
  - exfalso.
    assert (Hsub : seq 0 n ⊆+ l).
    { apply NoDup_submseteq; [apply NoDup_seq|].
      intros x Hx. rewrite Forall_forall in Hall. apply Hall, Hx. }
    apply submseteq_length in Hsub. rewrite length_seq in Hsub. lia.
  - apply not_Forall_Exists in Hex; [|intros x; apply _].
    apply Exists_exists in Hex as (k & Hk & Hnot).
    exists k. apply elem_of_seq in Hk. split; [lia|exact Hnot].
Qed.

Lemma wf_free_slot_size whtab k :
  wf whtab -> k < WordHashTable.capacity whtab ->
  WordHashTabEntry.count (entry_at whtab k) = 0 ->
  WordHashTable.size whtab < WordHashTable.capacity whtab.
Proof.
  intros H Hk Hc.
  assert (Hnot : k ∉ live whtab).
  { intros Hin. apply (wf_live _ H) in Hin. lia. }
  assert (Hlen : length (k :: live whtab) <= WordHashTable.capacity whtab).
  { apply pigeonhole.
    - constructor; [exact Hnot|apply (wf_nodup _ H)].
    - intros x Hx. apply elem_of_cons in Hx as [->|Hx]; [exact Hk|].
      apply (wf_live _ H) in Hx. lia. }
  cbn in Hlen. rewrite (live_length _ H) in Hlen. lia.
Qed.

(** ** Sorted insertion *)

Lemma sorted_words_insert (ws : list (list Z)) (w : list Z) pos :
  sorted_words ws -> pos <= length ws ->
  (∀ x, ws !! pos = Some x -> (strcmp w x <= 0)%Z) ->
  (∀ j y, pos = S j -> ws !! j = Some y -> (strcmp y w <= 0)%Z) ->
  sorted_words (take pos ws ++ w :: drop pos ws).
Proof.
  intros Hs Hpos Hafter Hbefore i a b Ha Hb.
  assert (Hlen : length (take pos ws) = pos) by (apply length_take_le; lia).
  destruct (Nat.lt_trichotomy (S i) pos) as [Hlt|[Heq|Hgt]].
  - rewrite lookup_app_l in Ha by lia. rewrite lookup_app_l in Hb by lia.
    rewrite lookup_take_lt in Ha by lia. rewrite lookup_take_lt in Hb by lia.
    eapply Hs; eassumption.
  - rewrite lookup_app_l in Ha by lia. rewrite lookup_take_lt in Ha by lia.
    rewrite lookup_app_r in Hb by lia.
    replace (S i - length (take pos ws)) with 0 in Hb by lia.
    rewrite lookup_cons in Hb. inversion Hb; subst b.
    eapply Hbefore; [symmetry; exact Heq|exact Ha].
  - rewrite lookup_app_r in Ha by lia. rewrite lookup_app_r in Hb by lia.
    rewrite Hlen in Ha, Hb.
    destruct (decide (i = pos)) as [->|Hne].
    + replace (pos - pos) with 0 in Ha by lia.
      replace (S pos - pos) with 1 in Hb by lia.
      rewrite lookup_cons in Ha. rewrite !lookup_cons in Hb.
      inversion Ha; subst a.
      rewrite lookup_drop in Hb. replace (pos + 0) with pos in Hb by lia.
      apply Hafter, Hb.
    + replace (i - pos) with (S (i - pos - 1)) in Ha by lia.
      replace (S i - pos) with (S (S (i - pos - 1))) in Hb by lia.
      rewrite lookup_cons in Ha. rewrite lookup_cons in Hb.
      rewrite lookup_drop in Ha, Hb.
      eapply Hs; [exact Ha|].
      replace (S (pos + (i - pos - 1))) with (pos + S (i - pos - 1)) by lia.
      exact Hb.
Qed.

(** ** The alphabetical index *)

Lemma orderArray_shift_spec whtab newWord :
  ∀ n arr arr' pos,
    n < length arr ->
    orderArray_shift whtab newWord n arr = (arr', pos) ->
    pos <= n ∧ length arr' = length arr
    ∧ (∀ j, j < pos -> arr' !! j = arr !! j)
    ∧ (∀ j, pos <= j < n ->
         arr' !! S j = arr !! j
         ∧ (strcmp newWord (entry_string whtab (entry_at whtab (arr !!! j))) <= 0)%Z)
    ∧ (∀ j, n < j -> arr' !! j = arr !! j)
    ∧ (∀ j, pos = S j ->
         (0 < strcmp newWord (entry_string whtab (entry_at whtab (arr !!! j))))%Z).
Proof.
  induction n as [|i IH]; intros arr arr' pos Hlen Hshift; cbn [orderArray_shift] in Hshift.
  - inversion Hshift; subst. split_and!; try reflexivity; try (intros; lia); auto.
  - destruct (Z.leb_spec
                (strcmp newWord (entry_string whtab (entry_at whtab (arr !!! i)))) 0)
      as [Hle|Hgt].
    + apply IH in Hshift as (Hpos & Hl & Hlow & Hmid & Hhigh & Hstop);
        [|rewrite length_insert; lia].
      rewrite length_insert in Hl.
      split_and!.
      * lia.
      * exact Hl.
      * intros j Hj. rewrite (Hlow j Hj). apply list_lookup_insert_ne. lia.
      * intros j Hj. destruct (decide (j = i)) as [->|Hne].
        -- split; [|exact Hle].
           rewrite Hhigh by lia. rewrite list_lookup_insert_eq by lia.
           symmetry. apply list_lookup_lookup_total_lt. lia.
        -- destruct (Hmid j) as [Hm1 Hm2]; [lia|].
           rewrite list_lookup_total_insert_ne in Hm2 by lia.
           split; [|exact Hm2].
           rewrite Hm1. apply list_lookup_insert_ne. lia.
      * intros j Hj. rewrite Hhigh by lia. apply list_lookup_insert_ne. lia.
      * intros j Hj. specialize (Hstop j Hj).
        rewrite list_lookup_total_insert_ne in Hstop by lia. exact Hstop.
    + inversion Hshift; subst.
      split_and!; try reflexivity; try (intros; lia); auto.
      intros j Hj. inversion Hj; subst. lia.
Qed.

Lemma orderArray_insert_spec whtab newWord ind :
  WordHashTable.size whtab < length (WordHashTable.alphOrderArray whtab) ->
  ∃ arr pos,
    orderArray_insert whtab newWord ind = set_alphOrderArray whtab arr
    ∧ length arr = length (WordHashTable.alphOrderArray whtab)
    ∧ pos <= WordHashTable.size whtab
    ∧ take (S (WordHashTable.size whtab)) arr
      = take pos (live whtab) ++ ind :: drop pos (live whtab)
    ∧ (∀ x, live whtab !! pos = Some x ->
         (strcmp (deref (WordHashTable.stringsPool whtab) newWord)
                 (entry_string whtab (entry_at whtab x)) <= 0)%Z)
    ∧ (∀ j y, pos = S j -> live whtab !! j = Some y ->
         (0 < strcmp (deref (WordHashTable.stringsPool whtab) newWord)
                     (entry_string whtab (entry_at whtab y)))%Z).
Proof.
  intros Hsz. unfold orderArray_insert, live.
  set (n := WordHashTable.size whtab) in *.
  set (aoa := WordHashTable.alphOrderArray whtab) in *.
  destruct (Nat.eqb_spec n 0) as [Hz|Hnz].
  - exists (<[0 := ind]> aoa), 0. rewrite Hz.
    split_and!; try reflexivity; try lia.
    + apply length_insert.
    + destruct aoa; [cbn in Hsz; lia|reflexivity].
    + intros x Hx. rewrite take_0 in Hx. discriminate.
  - destruct (orderArray_shift whtab (deref (WordHashTable.stringsPool whtab) newWord)
                n aoa) as [arr pos] eqn:Hshift.
    apply orderArray_shift_spec in Hshift
      as (Hpos & Hl & Hlow & Hmid & Hhigh & Hstop); [|exact Hsz].
    exists (<[pos := ind]> arr), pos.
    split_and!; try reflexivity.
    + rewrite length_insert. exact Hl.
    + exact Hpos.
    + apply list_eq. intros j.
      assert (Hlt : length (take pos (take n aoa)) = pos).
      { rewrite length_take_le; [reflexivity|]. rewrite length_take_le; lia. }
      destruct (decide (j < S n)) as [Hj|Hj].
      * rewrite lookup_take_lt by lia.
        destruct (Nat.lt_trichotomy j pos) as [Hjp|[->|Hjp]].
        -- rewrite list_lookup_insert_ne by lia.
           rewrite lookup_app_l by lia.
           rewrite !lookup_take_lt by lia. apply Hlow. lia.
        -- rewrite list_lookup_insert_eq by lia.
           rewrite lookup_app_r by lia. rewrite Hlt.
           replace (pos - pos) with 0 by lia. reflexivity.
        -- rewrite list_lookup_insert_ne by lia.
           rewrite lookup_app_r by lia. rewrite Hlt.
           destruct j as [|j]; [lia|].
           replace (S j - pos) with (S (j - pos)) by lia.
           rewrite lookup_cons, lookup_drop.
           replace (pos + (j - pos)) with j by lia.
           rewrite lookup_take_lt by lia.
           apply Hmid. lia.
      * rewrite lookup_take_ge by lia. symmetry.
        apply lookup_ge_None. rewrite length_app. cbn [length].
        rewrite length_drop, Hlt, length_take_le; lia.
    + intros x Hx.
      assert (Hpn : pos < n).
      { pose proof (lookup_lt_Some _ _ _ Hx) as Hlt.
        rewrite length_take_le in Hlt; lia. }
      rewrite lookup_take_lt in Hx by lia.
      destruct (Hmid pos) as [_ Hcmp]; [lia|].
      rewrite (list_lookup_total_correct _ _ _ Hx) in Hcmp. exact Hcmp.
    + intros j y Hj Hy. subst pos. rewrite lookup_take_lt in Hy by lia.
      specialize (Hstop j eq_refl).
      rewrite (list_lookup_total_correct _ _ _ Hy) in Hstop. exact Hstop.
Qed.

(** ** Strings in the pool *)

Lemma token_of_holds_word w : Forall (fun c => c ≠ 0%Z) w -> holds_word (token_of w) w.
Proof.
  intros Hw. unfold token_of. split_and!; wb_simpl; [|reflexivity|exact Hw].
  exists []. reflexivity.
Qed.

Lemma stored_string memp e w :
  stored memp e w ->
  ∃ rest, deref memp (WordHashTabEntry.letters e) = w ++ 0%Z :: rest.
Proof.
  intros (off & Hp & Hlen & Hle & Hbytes & Hnz).
  unfold deref. rewrite Hp.
  destruct (Z.leb_spec (MemoryPool.memSpace memp)
              (MemoryPool.memSpace memp + Z.of_nat off)); [|lia].
  replace (Z.to_nat (MemoryPool.memSpace memp + Z.of_nat off - MemoryPool.memSpace memp))
    with off by lia.
  exists (drop (WordHashTabEntry.length e) (drop off (MemoryPool.memory memp))).
  rewrite <- (take_drop (WordHashTabEntry.length e) (drop off (MemoryPool.memory memp)))
    at 1.
  rewrite Hbytes, <- app_assoc. reflexivity.
Qed.

Lemma stored_word_of whtab i w :
  stored (WordHashTable.stringsPool whtab) (entry_at whtab i) w ->
  word_of whtab i = w.
Proof.
  intros Hst. unfold word_of, entry_string.
  destruct (stored_string _ _ _ Hst) as [rest ->].
  destruct Hst as (_ & _ & _ & _ & _ & Hnz).
  apply c_string_word, Hnz.
Qed.

Lemma stored_strcmp memp e1 w1 e2 w2 :
  stored memp e1 w1 -> stored memp e2 w2 ->
  strcmp (deref memp (WordHashTabEntry.letters e1))
         (deref memp (WordHashTabEntry.letters e2)) = strcmp w1 w2.
Proof.
  intros H1 H2.
  destruct (stored_string _ _ _ H1) as [r1 ->].
  destruct (stored_string _ _ _ H2) as [r2 ->].
  destruct H1 as (_ & _ & _ & _ & _ & Hnz1), H2 as (_ & _ & _ & _ & _ & Hnz2).
  apply strcmp_word; assumption.
Qed.

(** Bytes below the allocation mark are not touched by a write at the mark. *)
Lemma take_drop_prefix {A} (m x : list A) n off k :
  off + k <= n -> n <= length m ->
  take k (drop off (take n m ++ x)) = take k (drop off m).
Proof.
  intros Hk Hn.
  rewrite drop_app_le by (rewrite length_take_le; lia).
  rewrite take_app_le by (rewrite length_drop, length_take_le; lia).
  rewrite !take_drop_commute, take_take.
  replace (min (off + k) n) with (off + k) by lia. reflexivity.
Qed.

Lemma pool_with_word_spec memp buf w :
  pool_ok memp -> holds_word buf w ->
  MemoryPool.nextChar memp + (WordBuffer.curPosition buf + 1) < MemoryPool.capacity memp ->
  let memp' := pool_with_word memp buf in
  MemoryPool.memSpace memp' = MemoryPool.memSpace memp
  ∧ MemoryPool.nextChar memp' = MemoryPool.nextChar memp + S (length w)
  ∧ MemoryPool.capacity memp' = MemoryPool.capacity memp
  ∧ pool_ok memp'
  ∧ take (S (length w)) (drop (MemoryPool.nextChar memp) (MemoryPool.memory memp'))
    = w ++ [0%Z]
  ∧ (∀ off k, off + k <= MemoryPool.nextChar memp ->
       take k (drop off (MemoryPool.memory memp'))
       = take k (drop off (MemoryPool.memory memp))).
Proof.
  intros (Hmem & Hnext & Hcap) ([rest Hl] & Hcur & Hnz) Hroom.
  unfold pool_with_word, MemoryPool_alloc_block, string_copy, store, deref.
  destruct (Nat.ltb_spec
              (MemoryPool.nextChar memp + (WordBuffer.curPosition buf + 1))
              (MemoryPool.capacity memp)); [|lia].
  cbn [snd]. ht_simpl.
  destruct (Nat.eqb_spec (WordBuffer.curPosition buf + 1) 0) as [|_]; [lia|].
  cbn [snd].
  destruct (Z.leb_spec (MemoryPool.memSpace memp)
              (MemoryPool.memSpace memp + Z.of_nat (MemoryPool.nextChar memp))); [|lia].
  replace (Z.to_nat (MemoryPool.memSpace memp + Z.of_nat (MemoryPool.nextChar memp)
                     - MemoryPool.memSpace memp))
    with (MemoryPool.nextChar memp) by lia.
  rewrite Hcur, Hl.
  replace (length w + 1) with (S (length w)) by lia.
  rewrite strncpy_word by exact Hnz.
  set (nc := MemoryPool.nextChar memp) in *.
  set (m := MemoryPool.memory memp) in *.
  assert (Hw1 : length (w ++ [0%Z]) = S (length w)) by (list_len; lia).
  split_and!.
  - reflexivity.
  - reflexivity.
  - reflexivity.
  - split_and!; ht_simpl; [|lia|lia].
    rewrite !length_app, length_take_le, !length_drop by lia.
    cbn [length]. lia.
  - rewrite drop_app_length' by (rewrite length_take_le; lia).
    apply take_app_length'. rewrite Hw1. reflexivity.
  - intros off k Hk. apply take_drop_prefix; lia.
Qed.

Lemma stored_frame memp memp' e w :
  MemoryPool.memSpace memp' = MemoryPool.memSpace memp ->
  MemoryPool.nextChar memp <= MemoryPool.nextChar memp' ->
  (∀ off k, off + k <= MemoryPool.nextChar memp ->
     take k (drop off (MemoryPool.memory memp'))
     = take k (drop off (MemoryPool.memory memp))) ->
  stored memp e w -> stored memp' e w.
Proof.
  intros Hbase Hnext Hframe (off & Hp & Hlen & Hle & Hbytes & Hnz).
  exists off. rewrite Hbase. split_and!; try assumption; [lia|].
  rewrite Hframe by lia. exact Hbytes.
Qed.

(** ** Sums of counts *)

Lemma sum_list_insert_middle (l1 l2 : list nat) x :
  sum_list (l1 ++ x :: l2) = x + sum_list (l1 ++ l2).
Proof. rewrite !sum_list_with_app. cbn. lia. Qed.

Lemma sum_list_bump (f : nat -> nat) (l : list nat) k :
  NoDup l -> k ∈ l ->
  sum_list (map (fun i => if decide (i = k) then S (f i) else f i) l)
  = S (sum_list (map f l)).
Proof.
  induction 1 as [|x l Hx Hnd IH]; intros Hin; [inversion Hin|].
  cbn. destruct (decide (x = k)) as [->|Hne].
  - assert (Heq : map (fun i => if decide (i = k) then S (f i) else f i) l = map f l).
    { apply map_ext_in. intros i Hi.
      destruct (decide (i = k)) as [->|]; [|reflexivity].
      apply list_elem_of_In in Hi. contradiction. }
    rewrite Heq. lia.
  - apply elem_of_cons in Hin as [->|Hin]; [congruence|].
    rewrite IH by exact Hin. lia.
Qed.

(** ** Updating one slot *)

Lemma middle_Permutation {A} (l : list A) pos k :
  take pos l ++ k :: drop pos l ≡ₚ k :: l.
Proof.
  rewrite <- Permutation_middle. rewrite take_drop. reflexivity.
Qed.

Lemma map_insert_middle {A B} (g g' : A -> B) (l : list A) pos k :
  (∀ i, i ∈ l -> g' i = g i) ->
  map g' (take pos l ++ k :: drop pos l)
  = take pos (map g l) ++ g' k :: drop pos (map g l).
Proof.
  intros Hg.
  assert (Heq : map g' l = map g l).
  { apply map_ext_in. intros i Hi. apply Hg, list_elem_of_In, Hi. }
  rewrite map_app. cbn [map].
  rewrite <- Heq, <- firstn_map, <- skipn_map. reflexivity.
Qed.

Lemma stored_same_block memp e e' w :
  WordHashTabEntry.letters e' = WordHashTabEntry.letters e ->
  WordHashTabEntry.length e' = WordHashTabEntry.length e ->
  stored memp e w -> stored memp e' w.
Proof.
  intros Hp Hl (off & H1 & H2 & H3 & H4 & H5).
  exists off. rewrite Hp, Hl. auto.
Qed.

(** Replacing the entry of slot [k] by one that is empty exactly when the
    old one is and, if the slot is live, points at the same block. *)
Lemma wf_update_entry whtab k e' hs pf :
  wf whtab -> k < WordHashTable.capacity whtab ->
  (WordHashTabEntry.count e' ≠ 0 <-> WordHashTabEntry.count (entry_at whtab k) ≠ 0) ->
  (k ∈ live whtab ->
   WordHashTabEntry.letters e' = WordHashTabEntry.letters (entry_at whtab k)
   ∧ WordHashTabEntry.length e' = WordHashTabEntry.length (entry_at whtab k)) ->
  let whtab' :=
    WordHashTable.mk (<[k := e']> (WordHashTable.entries whtab))
      (WordHashTable.alphOrderArray whtab) (WordHashTable.capacity whtab)
      (WordHashTable.size whtab) (WordHashTable.stringsPool whtab) hs pf in
  wf whtab'
  ∧ report whtab'
    = map (fun i => (word_of whtab i,
                     if decide (i = k) then WordHashTabEntry.count e'
                     else WordHashTabEntry.count (entry_at whtab i)))
          (live whtab).
Proof.
  intros H Hk Hcount Hblock whtab'.
  assert (Hlive : live whtab' = live whtab) by reflexivity.
  assert (Hentry : ∀ i, entry_at whtab' i
                        = if decide (i = k) then e' else entry_at whtab i).
  { intros i. unfold entry_at, whtab'. ht_simpl.
    destruct (decide (i = k)) as [->|Hne].
    - apply list_lookup_total_insert_eq. rewrite (wf_entries _ H). exact Hk.
    - apply list_lookup_total_insert_ne. congruence. }
  assert (Hword : ∀ i, i ∈ live whtab -> word_of whtab' i = word_of whtab i).
  { intros i Hi. unfold word_of, entry_string. rewrite Hentry.
    destruct (decide (i = k)) as [->|]; [|reflexivity].
    destruct (Hblock Hi) as [-> _]. reflexivity. }
  split.
  - constructor.
    + apply (wf_capacity _ H).
    + change (length (<[k := e']> (WordHashTable.entries whtab))
              = WordHashTable.capacity whtab).
      rewrite length_insert. apply (wf_entries _ H).
    + apply (wf_order _ H).
    + apply (wf_size _ H).
    + rewrite Hlive. apply (wf_nodup _ H).
    + intros i. rewrite Hlive, Hentry, (wf_live _ H i).
      change (WordHashTable.capacity whtab') with (WordHashTable.capacity whtab).
      destruct (decide (i = k)) as [->|]; [|reflexivity].
      rewrite Hcount. reflexivity.
    + apply (wf_pool _ H).
    + intros i Hi. rewrite Hlive in Hi.
      change (WordHashTable.stringsPool whtab') with (WordHashTable.stringsPool whtab).
      destruct (wf_stored _ H i Hi) as [w Hw]. exists w.
      rewrite Hentry. destruct (decide (i = k)) as [->|]; [|exact Hw].
      destruct (Hblock Hi) as [Hp Hl].
      eapply stored_same_block; eassumption.
    + rewrite Hlive.
      rewrite (map_ext_in _ (word_of whtab)); [apply (wf_sorted _ H)|].
      intros i Hi. apply Hword, list_elem_of_In, Hi.
  - unfold report. rewrite Hlive. apply map_ext_in. intros i Hi.
    rewrite Hword by (apply list_elem_of_In, Hi). rewrite Hentry.
    destruct (decide (i = k)); reflexivity.
Qed.

(** Filling the free slot [k] with an entry for the word [w], stored in
    the pool [memp'], and listing [k] at position [pos] of the index. *)
Lemma wf_insert_entry whtab k e w arr pos memp' hs pf :
  wf whtab -> k < WordHashTable.capacity whtab ->
  WordHashTabEntry.count (entry_at whtab k) = 0 ->
  WordHashTabEntry.count e ≠ 0 ->
  length arr = WordHashTable.capacity whtab ->
  take (S (WordHashTable.size whtab)) arr
  = take pos (live whtab) ++ k :: drop pos (live whtab) ->
  pos <= WordHashTable.size whtab ->
  pool_ok memp' ->
  stored memp' e w ->
  (∀ i w', i ∈ live whtab ->
     stored (WordHashTable.stringsPool whtab) (entry_at whtab i) w' ->
     stored memp' (entry_at whtab i) w') ->
  (∀ x, live whtab !! pos = Some x -> (strcmp w (word_of whtab x) <= 0)%Z) ->
  (∀ j y, pos = S j -> live whtab !! j = Some y ->
     (0 < strcmp w (word_of whtab y))%Z) ->
  let whtab' :=
    WordHashTable.mk (<[k := e]> (WordHashTable.entries whtab)) arr
      (WordHashTable.capacity whtab) (S (WordHashTable.size whtab)) memp' hs pf in
  wf whtab'
  ∧ report whtab'
    = take pos (report whtab) ++ (w, WordHashTabEntry.count e) :: drop pos (report whtab).
Proof.
  intros H Hk Hfree He Harr Htake Hpos Hpool Hnew Hframe Hafter Hbefore whtab'.
  assert (Hnot : k ∉ live whtab).
  { intros Hin. apply (wf_live _ H) in Hin. lia. }
  assert (Hlive : live whtab' = take pos (live whtab) ++ k :: drop pos (live whtab))
    by exact Htake.
  assert (Hentry : ∀ i, entry_at whtab' i
                        = if decide (i = k) then e else entry_at whtab i).
  { intros i. unfold entry_at, whtab'. ht_simpl.
    destruct (decide (i = k)) as [->|Hne].
    - apply list_lookup_total_insert_eq. rewrite (wf_entries _ H). exact Hk.
    - apply list_lookup_total_insert_ne. congruence. }
  assert (Hkeep : ∀ i, i ∈ live whtab -> entry_at whtab' i = entry_at whtab i).
  { intros i Hi. rewrite Hentry. destruct (decide (i = k)) as [->|]; [contradiction|].
    reflexivity. }
  assert (Hstored : ∀ i, i ∈ live whtab ->
            ∃ w', stored (WordHashTable.stringsPool whtab) (entry_at whtab i) w'
                  ∧ stored memp' (entry_at whtab' i) w').
  { intros i Hi. destruct (wf_stored _ H i Hi) as [w' Hw']. exists w'.
    split; [exact Hw'|]. rewrite Hkeep by exact Hi. apply Hframe; assumption. }
  assert (Hword : ∀ i, i ∈ live whtab -> word_of whtab' i = word_of whtab i).
  { intros i Hi. destruct (Hstored i Hi) as (w' & Hold & Hnew').
    rewrite (stored_word_of whtab i w' Hold).
    apply (stored_word_of whtab' i w'). exact Hnew'. }
  assert (Hwordk : word_of whtab' k = w).
  { apply (stored_word_of whtab' k w).
    change (WordHashTable.stringsPool whtab') with memp'.
    rewrite Hentry. destruct (decide (k = k)); [exact Hnew|congruence]. }
  split.
  - constructor.
    + apply (wf_capacity _ H).
    + change (length (<[k := e]> (WordHashTable.entries whtab))
              = WordHashTable.capacity whtab).
      rewrite length_insert. apply (wf_entries _ H).
    + exact Harr.
    + pose proof (wf_free_slot_size _ _ H Hk Hfree).
      change (S (WordHashTable.size whtab) <= WordHashTable.capacity whtab). lia.
    + rewrite Hlive, middle_Permutation. constructor; [exact Hnot|apply (wf_nodup _ H)].
    + intros i. rewrite Hlive, middle_Permutation, elem_of_cons, Hentry.
      rewrite (wf_live _ H i).
      change (WordHashTable.capacity whtab') with (WordHashTable.capacity whtab).
      destruct (decide (i = k)) as [->|Hne]; [intuition|].
      intuition.
    + exact Hpool.
    + intros i. rewrite Hlive, middle_Permutation, elem_of_cons.
      change (WordHashTable.stringsPool whtab') with memp'.
      intros [->|Hi].
      * exists w. rewrite Hentry. destruct (decide (k = k)); [exact Hnew|congruence].
      * destruct (Hstored i Hi) as (w' & _ & Hw'). exists w'. exact Hw'.
    + rewrite Hlive, (map_insert_middle (word_of whtab)) by exact Hword.
      rewrite Hwordk.
      apply sorted_words_insert.
      * apply (wf_sorted _ H).
      * rewrite length_map, (live_length _ H). exact Hpos.
      * intros x' Hx'. rewrite list_lookup_fmap in Hx'.
        destruct (live whtab !! pos) as [x|] eqn:Hx; [|discriminate].
        inversion Hx'; subst x'. apply Hafter. reflexivity.
      * intros j y' Hj Hy'. rewrite list_lookup_fmap in Hy'.
        destruct (live whtab !! j) as [y|] eqn:Hy; [|discriminate].
        inversion Hy'; subst y'.
        specialize (Hbefore j y Hj Hy). rewrite strcmp_antisym. lia.
  - unfold report. rewrite Hlive.
    rewrite (map_insert_middle
               (fun i => (word_of whtab i, WordHashTabEntry.count (entry_at whtab i)))).
    + rewrite Hwordk, Hentry. destruct (decide (k = k)); [reflexivity|congruence].
    + intros i Hi. rewrite Hword, Hkeep by exact Hi. reflexivity.
Qed.

(** ** The effect of [WordHashTable_add_word] *)

Lemma same_observable_refl whtab : same_observable whtab whtab.
Proof. unfold same_observable. split_and!; try reflexivity. intros i. auto. Qed.

Lemma add_word_at_effect whtab buf w curIndex displ newDispl st whtab' :
  wf whtab -> holds_word buf w -> curIndex < WordHashTable.capacity whtab ->
  add_word_at whtab buf curIndex displ newDispl = Some (st, whtab') ->
  add_effect whtab buf w st whtab'.
Proof.
  intros H Hbuf Hk. unfold add_word_at.
  set (curEntry := entry_at whtab curIndex).
  destruct (Nat.eqb_spec (WordHashTabEntry.count curEntry) 0) as [Hfree|Hused].
  - unfold MemoryPool_alloc_block.
    set (memp := WordHashTable.stringsPool whtab).
    destruct (Nat.ltb_spec (MemoryPool.nextChar memp + (WordBuffer.curPosition buf + 1))
                           (MemoryPool.capacity memp)) as [Hroom|Hfull].
    + (* a new entry *)
      set (p := (MemoryPool.memSpace memp + Z.of_nat (MemoryPool.nextChar memp))%Z).
      set (memp1 := MemoryPool.mk _ _ _ _).
      assert (Hpw : store memp1 p
                (snd (string_copy (deref memp1 p) (WordBuffer.letters buf)
                        (WordBuffer.curPosition buf + 1)))
              = pool_with_word memp buf).
      { unfold pool_with_word, MemoryPool_alloc_block.
        destruct (Nat.ltb_spec (MemoryPool.nextChar memp + (WordBuffer.curPosition buf + 1))
                    (MemoryPool.capacity memp)); [reflexivity|lia]. }
      destruct (string_copy (deref memp1 p) (WordBuffer.letters buf)
                  (WordBuffer.curPosition buf + 1)) as [ok bytes] eqn:Hcopy.
      assert (ok = true) as ->.
      { unfold string_copy in Hcopy.
        destruct (Nat.eqb_spec (WordBuffer.curPosition buf + 1) 0); [lia|].
        inversion Hcopy. reflexivity. }
      cbn [snd] in Hpw. rewrite Hpw. clear Hcopy Hpw bytes.
      destruct (pool_with_word_spec memp buf w (wf_pool _ H) Hbuf Hroom)
        as (Hbase & Hnext & Hpcap & Hpool' & Hnew & Hframe).
      set (memp' := pool_with_word memp buf) in *.
      destruct Hbuf as (_ & Hcur & Hnz).
      set (e := WordHashTabEntry.mk p (WordHashTabEntry.count curEntry + 1)
                  (WordBuffer.curPosition buf + 1) displ).
      set (whtab1 := set_stringsPool (set_entries whtab _) memp').
      assert (Hsz := wf_free_slot_size _ _ H Hk Hfree).
      destruct (orderArray_insert_spec whtab1 p curIndex)
        as (arr & pos & -> & Harr & Hpos & Htake & Hafter & Hbefore).
      { change (WordHashTable.size whtab
                < length (WordHashTable.alphOrderArray whtab)).
        rewrite (wf_order _ H). exact Hsz. }
      change (live whtab1) with (live whtab) in *.
      change (WordHashTable.size whtab1) with (WordHashTable.size whtab) in *.
      change (WordHashTable.stringsPool whtab1) with memp' in *.
      change (WordHashTable.alphOrderArray whtab1)
        with (WordHashTable.alphOrderArray whtab) in *.
      assert (Hnot : curIndex ∉ live whtab).
      { intros Hin. apply (wf_live _ H) in Hin. fold curEntry in Hin. lia. }
      assert (Hstored_e : stored memp' e w).
      { exists (MemoryPool.nextChar memp). unfold e. ht_simpl.
        rewrite Hbase, Hnext, Hcur.
        replace (length w + 1) with (S (length w)) by lia.
        split_and!; [reflexivity|reflexivity|lia|exact Hnew|exact Hnz]. }
      assert (Hkeep : ∀ i w', i ∈ live whtab ->
                stored memp (entry_at whtab i) w' -> stored memp' (entry_at whtab i) w').
      { intros i w' _. apply stored_frame; [exact Hbase|lia|exact Hframe]. }
      assert (Hentry1 : ∀ i, i ∈ live whtab -> entry_at whtab1 i = entry_at whtab i).
      { intros i Hi. unfold entry_at, whtab1. ht_unfold.
        apply list_lookup_total_insert_ne. intros ->. contradiction. }
      assert (Hcmp : ∀ x, x ∈ live whtab ->
                strcmp (deref memp' p) (entry_string whtab1 (entry_at whtab1 x))
                = strcmp w (word_of whtab x)).
      { intros x Hx. rewrite (Hentry1 x Hx).
        destruct (wf_stored _ H x Hx) as [w' Hw'].
        rewrite (stored_word_of _ _ _ Hw').
        apply (stored_strcmp memp' e w (entry_at whtab x) w' Hstored_e).
        apply Hkeep; assumption. }
      intros Hres.
      assert (Hshape : ∃ hs pf,
        whtab' = WordHashTable.mk (<[curIndex := e]> (WordHashTable.entries whtab)) arr
                   (WordHashTable.capacity whtab) (S (WordHashTable.size whtab))
                   memp' hs pf ∧ st = SUCCESS).
      { revert Hres. unfold whtab1. ht_unfold.
        destruct (WordHashTable.size whtab =? 0);
          [|destruct (_ <? _)]; intros Hres; inversion Hres; subst;
          rewrite Nat.add_1_r; eauto. }
      destruct Hshape as (hs & pf & -> & ->).
      destruct (wf_insert_entry whtab curIndex e w arr pos memp' hs pf H Hk Hfree)
        as [Hwf Hrep].
      * unfold e. ht_simpl. lia.
      * rewrite Harr. apply (wf_order _ H).
      * exact Htake.
      * exact Hpos.
      * exact Hpool'.
      * exact Hstored_e.
      * exact Hkeep.
      * intros x Hx. rewrite <- Hcmp by (eapply list_elem_of_lookup_2, Hx).
        apply Hafter, Hx.
      * intros j y Hj Hy. rewrite <- Hcmp by (eapply list_elem_of_lookup_2, Hy).
        eapply Hbefore; eassumption.
      * eapply (add_inserted _ _ _ _ pos);
          [exact Hwf| |reflexivity|reflexivity| |exact Hpcap].
        -- rewrite Hrep. unfold e. ht_simpl. fold curEntry. rewrite Hfree. reflexivity.
        -- ht_simpl. rewrite Hnext, Hcur. fold memp. lia.
    + (* the pool is full *)
      intros Hres. inversion Hres; subst st whtab'. clear Hres.
      destruct (wf_update_entry whtab curIndex (set_letters curEntry NULL)
                  (WordHashTable.hstats whtab) (WordHashTable.pfstats whtab) H Hk)
        as [Hwf Hrep].
      * reflexivity.
      * intros Hin. apply (wf_live _ H) in Hin. fold curEntry in Hin. lia.
      * apply add_pool_full;
          [exact Hwf| |fold memp; lia|apply (wf_free_slot_size _ _ H Hk Hfree)].
        unfold same_observable, set_entries. ht_simpl.
        split_and!; try reflexivity; [apply length_insert|].
        intros i. unfold entry_at. ht_simpl.
        destruct (decide (i = curIndex)) as [->|Hne].
        -- rewrite list_lookup_total_insert_eq by (rewrite (wf_entries _ H); exact Hk).
           fold (entry_at whtab curIndex). fold curEntry.
           split; [reflexivity|]. intros Hc. contradiction.
        -- rewrite list_lookup_total_insert_ne by congruence. auto.
  - destruct (entry_matches whtab curEntry buf displ); [|discriminate].
    set (e := WordHashTabEntry.mk _ _ _ _).
    intros Hres.
    assert (Hshape : ∃ pf,
      whtab' = WordHashTable.mk (<[curIndex := e]> (WordHashTable.entries whtab))
                 (WordHashTable.alphOrderArray whtab) (WordHashTable.capacity whtab)
                 (WordHashTable.size whtab) (WordHashTable.stringsPool whtab)
                 (WordHashTable.hstats whtab) pf ∧ st = SUCCESS).
    { revert Hres. ht_unfold. destruct (_ <? _); intros Hres; inversion Hres; eauto. }
    destruct Hshape as (pf & -> & ->).
    destruct (wf_update_entry whtab curIndex e (WordHashTable.hstats whtab) pf H Hk)
      as [Hwf Hrep].
    + unfold e. ht_simpl. fold curEntry. lia.
    + intros _. split; reflexivity.
    + apply (add_counted _ _ _ _ curIndex); try reflexivity; [exact Hwf| |].
      * apply (wf_live _ H). fold curEntry. auto.
      * rewrite Hrep. apply map_ext_in. intros i _. unfold bumped_row, e. ht_simpl.
        destruct (decide (i = curIndex)) as [->|]; [|reflexivity].
        fold curEntry. rewrite Nat.add_1_r. reflexivity.
Qed.

Lemma add_word_at_free whtab buf curIndex displ newDispl :
  WordHashTabEntry.count (entry_at whtab curIndex) = 0 ->
  add_word_at whtab buf curIndex displ newDispl ≠ None.
Proof.
  intros Hfree. unfold add_word_at. rewrite Hfree. cbn [Nat.eqb].
  destruct (MemoryPool_alloc_block _ _) as [[p|] memp]; [|discriminate].
  destruct (string_copy _ _ _) as [[|] bytes]; discriminate.
Qed.

Lemma add_word_body_effect whtab buf w hashIndex newDispl st whtab' :
  wf whtab -> holds_word buf w -> hashIndex < WordHashTable.capacity whtab ->
  add_word_body whtab buf hashIndex newDispl = Some (st, whtab') ->
  add_effect whtab buf w st whtab'.
Proof.
  intros H Hbuf Hh. unfold add_word_body.
  destruct (Nat.ltb_spec (hashIndex + newDispl) (WordHashTable.capacity whtab))
    as [Hin|Hout].
  - destruct (add_word_at whtab buf (hashIndex + newDispl) _ _) as [r|] eqn:Hfirst.
    + intros Hr. inversion Hr; subst r.
      eapply add_word_at_effect; eassumption.
    + destruct (_ && _); [|discriminate].
      apply add_word_at_effect; [assumption|assumption|lia].
  - destruct (_ && _); [|discriminate].
    apply add_word_at_effect; [assumption|assumption|lia].
Qed.

(** A free slot makes the body return at the displacement that reaches it,
    if not before. *)
Lemma add_word_body_free whtab buf hashIndex k :
  k < WordHashTable.capacity whtab ->
  WordHashTabEntry.count (entry_at whtab k) = 0 ->
  add_word_body whtab buf hashIndex
    (if hashIndex <=? k then k - hashIndex else hashIndex - k) ≠ None.
Proof.
  intros Hk Hfree. unfold add_word_body.
  destruct (Nat.leb_spec hashIndex k) as [Hle|Hgt].
  - replace (hashIndex + (k - hashIndex)) with k by lia.
    destruct (Nat.ltb_spec k (WordHashTable.capacity whtab)); [|lia].
    pose proof (add_word_at_free whtab buf k (Z.of_nat (k - hashIndex))
                  (k - hashIndex) Hfree) as Hsome.
    destruct (add_word_at whtab buf k _ _); [discriminate|contradiction].
  - destruct (if hashIndex + (hashIndex - k) <? WordHashTable.capacity whtab
              then _ else None); [discriminate|].
    destruct (Nat.leb_spec (hashIndex - k) hashIndex); [|lia].
    destruct (Nat.ltb_spec 0 (hashIndex - k)); [|lia].
    cbn [andb].
    replace (hashIndex - (hashIndex - k)) with k by lia.
    apply add_word_at_free, Hfree.
Qed.

Lemma WordHashTable_add_word_cases whtab buf :
  let h := add_word_hashIndex whtab buf in
  (∃ d r, WordHashTable_add_word whtab buf = Some r
          ∧ add_word_body whtab buf h d = Some r)
  ∨ (WordHashTable_add_word whtab buf = Some (GEN_FAIL, whtab)
     ∧ ∀ d, probed (WordHashTable.capacity whtab) h 0 d ->
            add_word_body whtab buf h d = None).
Proof.
  intros h. unfold WordHashTable_add_word. fold (add_word_hashIndex whtab buf). fold h.
  rewrite add_word_loop_probe.
  destruct (probe_result (add_word_body whtab buf h) (WordHashTable.capacity whtab)
              h (GEN_FAIL, whtab) (WordHashTable.capacity whtab + h + 1) 0)
    as [(d & r & Hp & _ & Hb & _)|[Hp Hnone]]; [lia|lia| |].
  - left. eauto.
  - right. auto.
Qed.

(** On a well-formed table the call returns; it reports [GEN_FAIL] only
    when no slot is free, and leaves the table alone then. *)
Lemma WordHashTable_add_word_effect whtab buf w :
  wf whtab -> holds_word buf w ->
  ∃ st whtab',
    WordHashTable_add_word whtab buf = Some (st, whtab')
    ∧ (add_effect whtab buf w st whtab'
       ∨ (st = GEN_FAIL ∧ whtab' = whtab
          ∧ ∀ k, k < WordHashTable.capacity whtab ->
                 WordHashTabEntry.count (entry_at whtab k) ≠ 0)).
Proof.
  intros H Hbuf.
  assert (Hh : add_word_hashIndex whtab buf < WordHashTable.capacity whtab)
    by apply hash_slot_lt, (wf_capacity _ H).
  destruct (WordHashTable_add_word_cases whtab buf)
    as [(d & [st whtab'] & Hr & Hb)|[Hr Hnone]].
  - exists st, whtab'. split; [exact Hr|]. left.
    eapply add_word_body_effect; eassumption.
  - exists GEN_FAIL, whtab. split; [exact Hr|]. right.
    split_and!; try reflexivity.
    intros k Hk Hfree.
    apply (add_word_body_free whtab buf (add_word_hashIndex whtab buf) k Hk Hfree).
    apply Hnone, probed_slot; assumption.
Qed.

(** C9: the probing loop of [WordHashTable_add_word] terminates.  Every
    call returns; an iteration that does not return moves on to the next
    displacement; the loop stops as soon as [hashIndex + newDispl] is past
    the table and [hashIndex - newDispl] is negative; and a call that finds
    neither the word nor a free slot at any displacement it reaches returns
    [GEN_FAIL] with the table as it was. *)
Theorem add_word_probing_terminates whtab buf :
  let h := add_word_hashIndex whtab buf in
  let capacity := WordHashTable.capacity whtab in
  (∃ st whtab', WordHashTable_add_word whtab buf = Some (st, whtab'))
  ∧ (∀ fuel d,
       add_word_body whtab buf h d = None ->
       add_word_loop (S fuel) whtab buf h d
       = if probe_more capacity h (S d)
         then add_word_loop fuel whtab buf h (S d)
         else Some (GEN_FAIL, whtab))
  ∧ (∀ d, probe_more capacity h d = false <-> capacity <= h + d ∧ h < d)
  ∧ ((∀ d, probed capacity h 0 d -> add_word_body whtab buf h d = None) ->
     WordHashTable_add_word whtab buf = Some (GEN_FAIL, whtab)).
Proof.
  intros h capacity. split_and!.
  - destruct (WordHashTable_add_word_cases whtab buf)
      as [(d & [st whtab'] & Hr & _)|[Hr _]]; eauto.
  - intros fuel d Hnone. cbn [add_word_loop]. fold h. rewrite Hnone. reflexivity.
  - intros d. apply probe_more_spec.
  - intros Hnone.
    destruct (WordHashTable_add_word_cases whtab buf)
      as [(d & r & Hr & Hb)|[Hr _]]; [|exact Hr].
    exfalso. fold h in Hb.
    unfold WordHashTable_add_word in Hr. fold (add_word_hashIndex whtab buf) in Hr.
    fold h in Hr. rewrite add_word_loop_probe in Hr.
    destruct (probe_result (add_word_body whtab buf h) capacity h (GEN_FAIL, whtab)
                (capacity + h + 1) 0)
      as [(d' & r' & Hp & Hprobed & Hb' & _)|[_ Hn]]; [lia|lia| |].
    + rewrite (Hnone d' Hprobed) in Hb'. discriminate.
    + rewrite (Hn d) in Hb; [discriminate|].
      (* [d] is probed because the body returned there *)
      destruct (decide (d = 0)) as [->|Hd]; [left; reflexivity|].
      right. split; [lia|].
      destruct (probe_more capacity h d) eqn:Hm; [reflexivity|].
      apply probe_more_spec in Hm.
      unfold add_word_body in Hb. fold capacity in Hb.
      destruct (Nat.ltb_spec (h + d) capacity); [lia|].
      destruct (Nat.leb_spec d h); [lia|]. discriminate.
Qed.

(** ** Expanding the strings pool *)

Lemma rebase_same base e : rebase base base e = e.
Proof.
  destruct e. unfold rebase, set_letters. ht_simpl. f_equal. lia.
Qed.

Lemma fold_left_lookup_total {A B} `{!Inhabited B} (g : A -> B -> A)
    (arr : list B) n (a : A) :
  n <= length arr ->
  fold_left (fun acc i => g acc (arr !!! i)) (seq 0 n) a
  = fold_left g (take n arr) a.
Proof.
  intros Hn. rewrite <- (map_lookup_total_seq arr n Hn).
  generalize (seq 0 n). intros l. revert a.
  induction l as [|x l IH]; intros a; [reflexivity|].
  cbn [map fold_left]. apply IH.
Qed.

Lemma rebase_all_spec prev base (l : list nat) :
  ∀ es : list WordHashTabEntry,
    NoDup l -> (∀ x, x ∈ l -> x < length es) ->
    let es' := fold_left (fun es i => <[i := rebase prev base (es !!! i)]> es) l es in
    length es' = length es
    ∧ ∀ i, es' !!! i = if decide (i ∈ l) then rebase prev base (es !!! i) else es !!! i.
Proof.
  induction l as [|x l IH]; intros es Hnd Hlt; cbn [fold_left].
  - split; [reflexivity|]. intros i. destruct (decide (i ∈ [])) as [Hin|]; [|reflexivity].
    inversion Hin.
  - apply NoDup_cons in Hnd as [Hx Hnd].
    destruct (IH (<[x := rebase prev base (es !!! x)]> es) Hnd) as [Hlen Hval].
    { intros y Hy. rewrite length_insert. apply Hlt. right. exact Hy. }
    rewrite length_insert in Hlen. split; [exact Hlen|].
    intros i. rewrite Hval.
    assert (Hxlt : x < length es) by (apply Hlt; left).
    destruct (decide (i ∈ l)) as [Hil|Hil].
    + rewrite list_lookup_total_insert_ne by (intros ->; contradiction).
      destruct (decide (i ∈ x :: l)) as [|Hn]; [reflexivity|].
      exfalso. apply Hn. right. exact Hil.
    + destruct (decide (i = x)) as [->|Hne].
      * rewrite list_lookup_total_insert_eq by exact Hxlt.
        destruct (decide (x ∈ x :: l)) as [|Hn]; [reflexivity|].
        exfalso. apply Hn. left.
      * rewrite list_lookup_total_insert_ne by congruence.
        destruct (decide (i ∈ x :: l)) as [Hin|]; [|reflexivity].
        apply elem_of_cons in Hin as [->|Hin]; [congruence|contradiction].
Qed.

Lemma stringPointers_update_spec whtab prev :
  NoDup (live whtab) ->
  WordHashTable.size whtab <= length (WordHashTable.alphOrderArray whtab) ->
  (∀ x, x ∈ live whtab -> x < length (WordHashTable.entries whtab)) ->
  let base := MemoryPool.memSpace (WordHashTable.stringsPool whtab) in
  ∃ es',
    stringPointers_update whtab prev = set_entries whtab es'
    ∧ length es' = length (WordHashTable.entries whtab)
    ∧ ∀ i, es' !!! i
           = if decide (i ∈ live whtab) then rebase prev base (entry_at whtab i)
             else entry_at whtab i.
Proof.
  intros Hnd Hsz Hlt base. unfold stringPointers_update.
  eexists. split; [reflexivity|].
  rewrite (fold_left_lookup_total
             (fun es validIndex =>
                <[validIndex := set_letters (es !!! validIndex)
                    (WordHashTabEntry.letters (es !!! validIndex) - prev
                     + MemoryPool.memSpace (WordHashTable.stringsPool whtab))%Z]> es))
    by exact Hsz.
  apply (rebase_all_spec prev base (live whtab) (WordHashTable.entries whtab) Hnd Hlt).
Qed.

Lemma take_drop_app_l {A} (m x : list A) off k :
  off + k <= length m -> take k (drop off (m ++ x)) = take k (drop off m).
Proof.
  intros Hk. rewrite drop_app_le by lia.
  apply take_app_le. rewrite length_drop. lia.
Qed.

Lemma stored_read_back memp e w :
  pool_ok memp -> stored memp e w -> read_back memp e = Some (w ++ [0%Z]).
Proof.
  intros (Hmem & Hnext & Hcap) Hst.
  pose proof Hst as (off & Hp & Hlen & Hle & Hbytes & Hnz).
  unfold read_back, deref. rewrite Hp.
  destruct (Z.leb_spec (MemoryPool.memSpace memp)
              (MemoryPool.memSpace memp + Z.of_nat off)); [|lia].
  destruct (Z.leb_spec
              (MemoryPool.memSpace memp + Z.of_nat off
               + Z.of_nat (WordHashTabEntry.length e))
              (MemoryPool.memSpace memp + Z.of_nat (MemoryPool.capacity memp))); [|lia].
  cbn [andb].
  replace (Z.to_nat (MemoryPool.memSpace memp + Z.of_nat off - MemoryPool.memSpace memp))
    with off by lia.
  rewrite Hbytes. reflexivity.
Qed.

Lemma WordHashTable_MemoryPool_expand_fail whtab :
  WordHashTable_MemoryPool_expand whtab None = (GEN_FAIL, whtab).
Proof. reflexivity. Qed.

Lemma WordHashTable_MemoryPool_expand_spec whtab b :
  wf whtab ->
  ∃ whtab',
    WordHashTable_MemoryPool_expand whtab (Some b) = (SUCCESS, whtab')
    ∧ wf whtab'
    ∧ report whtab' = report whtab
    ∧ live whtab' = live whtab
    ∧ WordHashTable.alphOrderArray whtab' = WordHashTable.alphOrderArray whtab
    ∧ WordHashTable.capacity whtab' = WordHashTable.capacity whtab
    ∧ WordHashTable.size whtab' = WordHashTable.size whtab
    ∧ WordHashTable.hstats whtab' = WordHashTable.hstats whtab
    ∧ WordHashTable.pfstats whtab' = WordHashTable.pfstats whtab
    ∧ MemoryPool.memSpace (WordHashTable.stringsPool whtab') = block_addr b
    ∧ MemoryPool.nextChar (WordHashTable.stringsPool whtab')
      = MemoryPool.nextChar (WordHashTable.stringsPool whtab)
    ∧ MemoryPool.capacity (WordHashTable.stringsPool whtab')
      = 2 * MemoryPool.capacity (WordHashTable.stringsPool whtab)
    ∧ (∀ i, entry_at whtab' i
            = if decide (i ∈ live whtab)
              then rebase (MemoryPool.memSpace (WordHashTable.stringsPool whtab))
                          (block_addr b) (entry_at whtab i)
              else entry_at whtab i)
    ∧ (∀ i w, i ∈ live whtab ->
         stored (WordHashTable.stringsPool whtab) (entry_at whtab i) w ->
         stored (WordHashTable.stringsPool whtab') (entry_at whtab' i) w).
Proof.
  intros H.
  set (memp := WordHashTable.stringsPool whtab).
  set (prev := MemoryPool.memSpace memp).
  set (memp' := MemoryPool.mk (block_addr b)
       (MemoryPool.memory memp
          ++ map (block_junk b)
               (seq (MemoryPool.capacity memp)
                    (2 * MemoryPool.capacity memp - MemoryPool.capacity memp)))
       (MemoryPool.nextChar memp) (2 * MemoryPool.capacity memp)).
  destruct (wf_pool _ H) as (Hmem & Hnext & Hcap). fold memp in Hmem, Hnext, Hcap.
  assert (Hlt : ∀ x, x ∈ live whtab -> x < length (WordHashTable.entries whtab)).
  { intros x Hx. rewrite (wf_entries _ H). apply (wf_live _ H), Hx. }
  assert (Hshape : ∃ es',
    WordHashTable_MemoryPool_expand whtab (Some b)
    = (SUCCESS, set_entries (set_stringsPool whtab memp') es')
    ∧ length es' = length (WordHashTable.entries whtab)
    ∧ ∀ i, es' !!! i = if decide (i ∈ live whtab)
                       then rebase prev (block_addr b) (entry_at whtab i)
                       else entry_at whtab i).
  { unfold WordHashTable_MemoryPool_expand, MemoryPool_expand.
    fold memp. fold memp'. fold prev. ht_simpl.
    change (MemoryPool.memSpace memp') with (block_addr b).
    destruct (Z.eqb_spec prev (block_addr b)) as [Heq|Hne].
    - exists (WordHashTable.entries whtab). split_and!.
      + destruct whtab. reflexivity.
      + reflexivity.
      + intros i. rewrite <- Heq, rebase_same.
        destruct (decide (i ∈ live whtab)); reflexivity.
    - destruct (stringPointers_update_spec (set_stringsPool whtab memp') prev)
        as (es' & -> & Hlen & Hval).
      + apply (wf_nodup _ H).
      + change (WordHashTable.size whtab <= length (WordHashTable.alphOrderArray whtab)).
        rewrite (wf_order _ H). apply (wf_size _ H).
      + exact Hlt.
      + exists es'. split_and!; [destruct whtab; reflexivity|exact Hlen|exact Hval]. }
  destruct Hshape as (es' & Heq & Hlen & Hval).
  set (whtab' := set_entries (set_stringsPool whtab memp') es') in *.
  assert (Hentry : ∀ i, entry_at whtab' i
                        = if decide (i ∈ live whtab)
                          then rebase prev (block_addr b) (entry_at whtab i)
                          else entry_at whtab i) by exact Hval.
  assert (Hstored : ∀ i w, i ∈ live whtab ->
            stored memp (entry_at whtab i) w -> stored memp' (entry_at whtab' i) w).
  { intros i w Hi (off & Hp & Hl & Hle & Hbytes & Hnz).
    rewrite Hentry. destruct (decide (i ∈ live whtab)); [|contradiction].
    exists off. unfold rebase, set_letters, memp'. ht_simpl.
    split_and!; try assumption.
    - rewrite Hp. fold prev. lia.
    - rewrite take_drop_app_l by lia. exact Hbytes. }
  assert (Hword : ∀ i, i ∈ live whtab -> word_of whtab' i = word_of whtab i).
  { intros i Hi. destruct (wf_stored _ H i Hi) as [w Hw].
    rewrite (stored_word_of whtab i w Hw).
    apply (stored_word_of whtab' i w). apply Hstored; assumption. }
  assert (Hcount : ∀ i, WordHashTabEntry.count (entry_at whtab' i)
                        = WordHashTabEntry.count (entry_at whtab i)).
  { intros i. rewrite Hentry. destruct (decide (i ∈ live whtab)); reflexivity. }
  exists whtab'. split; [exact Heq|].
  split_and!; try reflexivity.
  - constructor.
    + apply (wf_capacity _ H).
    + change (length es' = WordHashTable.capacity whtab).
      rewrite Hlen. apply (wf_entries _ H).
    + apply (wf_order _ H).
    + apply (wf_size _ H).
    + apply (wf_nodup _ H).
    + intros i. rewrite Hcount. apply (wf_live _ H).
    + unfold pool_ok, whtab', memp'. ht_unfold. split_and!; [|lia|lia].
      rewrite length_app, length_map, length_seq. lia.
    + intros i Hi. destruct (wf_stored _ H i Hi) as [w Hw].
      exists w. apply Hstored; assumption.
    + change (live whtab') with (live whtab).
      rewrite (map_ext_in _ (word_of whtab)); [apply (wf_sorted _ H)|].
      intros i Hi. apply Hword, list_elem_of_In, Hi.
  - unfold report. change (live whtab') with (live whtab).
    apply map_ext_in. intros i Hi.
    rewrite Hword by (apply list_elem_of_In, Hi). rewrite Hcount. reflexivity.
  - exact Hentry.
  - exact Hstored.
Qed.

(** ** Rehashing *)

Lemma migrate_at_spec whtab ext i oldIndex oldEntry curIndex displ newDispl whtab' ext' :
  migrate_at whtab ext i oldIndex oldEntry curIndex displ newDispl = Some (whtab', ext') ->
  WordHashTabEntry.count (ext !!! curIndex) = 0
  ∧ ext' = <[curIndex := WordHashTabEntry.mk (WordHashTabEntry.letters oldEntry)
                           (WordHashTabEntry.count oldEntry)
                           (WordHashTabEntry.length oldEntry) displ]> ext
  ∧ WordHashTable.entries whtab' = WordHashTable.entries whtab
  ∧ WordHashTable.alphOrderArray whtab'
    = <[i := curIndex]> (WordHashTable.alphOrderArray whtab)
  ∧ WordHashTable.capacity whtab' = WordHashTable.capacity whtab
  ∧ WordHashTable.size whtab' = WordHashTable.size whtab
  ∧ WordHashTable.stringsPool whtab' = WordHashTable.stringsPool whtab.
Proof.
  unfold migrate_at.
  destruct (Nat.eqb_spec (WordHashTabEntry.count (ext !!! curIndex)) 0) as [Hfree|];
    [|discriminate].
  intros Hres. inversion Hres; subst. clear Hres.
  split; [exact Hfree|]. split; [reflexivity|].
  ht_unfold.
  destruct (oldIndex =? _); ht_simpl; destruct (oldIndex =? _); ht_simpl;
    split_and!; reflexivity.
Qed.

Lemma migrate_at_free whtab ext i oldIndex oldEntry curIndex displ newDispl :
  WordHashTabEntry.count (ext !!! curIndex) = 0 ->
  migrate_at whtab ext i oldIndex oldEntry curIndex displ newDispl ≠ None.
Proof.
  intros Hfree. unfold migrate_at. rewrite Hfree. discriminate.
Qed.

Lemma migrate_body_spec whtab ext i oldIndex oldEntry hashIndex newDispl r :
  hashIndex < WordHashTable.capacity whtab ->
  migrate_body whtab ext i oldIndex oldEntry hashIndex newDispl = Some r ->
  ∃ curIndex displ,
    curIndex < WordHashTable.capacity whtab
    ∧ migrate_at whtab ext i oldIndex oldEntry curIndex displ newDispl = Some r.
Proof.
  intros Hh. unfold migrate_body.
  destruct (Nat.ltb_spec (hashIndex + newDispl) (WordHashTable.capacity whtab))
    as [Hin|Hout].
  - destruct (migrate_at whtab ext i oldIndex oldEntry (hashIndex + newDispl) _ _)
      as [r'|] eqn:Hfirst.
    + intros Hr. inversion Hr; subst r'. eauto.
    + destruct (_ && _); [|discriminate].
      intros Hr. eexists _, _. split; [|exact Hr]. lia.
  - destruct (_ && _); [|discriminate].
    intros Hr. eexists _, _. split; [|exact Hr]. lia.
Qed.

Lemma migrate_body_free whtab ext i oldIndex oldEntry hashIndex k :
  k < WordHashTable.capacity whtab ->
  WordHashTabEntry.count (ext !!! k) = 0 ->
  migrate_body whtab ext i oldIndex oldEntry hashIndex
    (if hashIndex <=? k then k - hashIndex else hashIndex - k) ≠ None.
Proof.
  intros Hk Hfree. unfold migrate_body.
  destruct (Nat.leb_spec hashIndex k) as [Hle|Hgt].
  - replace (hashIndex + (k - hashIndex)) with k by lia.
    destruct (Nat.ltb_spec k (WordHashTable.capacity whtab)); [|lia].
    pose proof (migrate_at_free whtab ext i oldIndex oldEntry k
                  (Z.of_nat (k - hashIndex)) (k - hashIndex) Hfree) as Hsome.
    destruct (migrate_at whtab ext i oldIndex oldEntry k _ _);
      [discriminate|contradiction].
  - destruct (if hashIndex + (hashIndex - k) <? WordHashTable.capacity whtab
              then _ else None); [discriminate|].
    destruct (Nat.leb_spec (hashIndex - k) hashIndex); [|lia].
    destruct (Nat.ltb_spec 0 (hashIndex - k)); [|lia].
    cbn [andb].
    replace (hashIndex - (hashIndex - k)) with k by lia.
    apply migrate_at_free, Hfree.
Qed.

Lemma migrate_step whtab0 i whtab ext :
  migrating whtab0 i whtab ext ->
  i < WordHashTable.size whtab0 ->
  WordHashTable.size whtab0 < WordHashTable.capacity whtab0 ->
  WordHashTable.size whtab0 <= length (WordHashTable.alphOrderArray whtab0) ->
  WordHashTabEntry.count
    (entry_at whtab0 (WordHashTable.alphOrderArray whtab0 !!! i)) ≠ 0 ->
  let oldIndex := WordHashTable.alphOrderArray whtab !!! i in
  let oldEntry := entry_at whtab oldIndex in
  let hashIndex :=
    hash_slot (entry_string whtab oldEntry) (WordHashTabEntry.length oldEntry)
              (WordHashTable.capacity whtab) in
  ∃ whtab' ext',
    migrate_loop (WordHashTable.capacity whtab + hashIndex + 1)
      whtab ext i oldIndex oldEntry hashIndex 0 = Some (whtab', ext')
    ∧ migrating whtab0 (S i) whtab' ext'.
Proof.
  intros M Hi Hsz Horder Hlive oldIndex oldEntry hashIndex.
  set (C := WordHashTable.capacity whtab0) in *.
  assert (HC : WordHashTable.capacity whtab = C) by apply (mg_capacity _ _ _ _ M).
  assert (Hh : hashIndex < WordHashTable.capacity whtab).
  { apply hash_slot_lt. lia. }
  assert (Hilen : i < length (WordHashTable.alphOrderArray whtab)).
  { rewrite (mg_order_length _ _ _ _ M). lia. }
  assert (Hold : oldIndex = WordHashTable.alphOrderArray whtab0 !!! i).
  { unfold oldIndex. rewrite !list_lookup_total_alt.
    rewrite (mg_order_rest _ _ _ _ M i) by lia. reflexivity. }
  assert (HoldE : oldEntry = entry_at whtab0 oldIndex).
  { unfold oldEntry, entry_at. rewrite (mg_entries _ _ _ _ M). reflexivity. }
  set (used := take i (WordHashTable.alphOrderArray whtab)) in *.
  assert (Hused_len : length used = i) by (apply length_take_le; lia).
  assert (Hused_lt : ∀ x, x ∈ used -> x < C).
  { intros x Hx. apply list_elem_of_lookup in Hx as [j Hj].
    assert (Hji : j < i).
    { pose proof (lookup_lt_Some _ _ _ Hj) as Hlt. lia. }
    unfold used in Hj. rewrite lookup_take_lt in Hj by exact Hji.
    destruct (mg_moved _ _ _ _ M j Hji) as [Hlt _].
    rewrite (list_lookup_total_correct _ _ _ Hj) in Hlt. exact Hlt. }
  destruct (free_slot used C (mg_nodup _ _ _ _ M) Hused_lt) as (k & Hk & Hknot);
    [lia|].
  assert (Hkfree : WordHashTabEntry.count (ext !!! k) = 0).
  { destruct (decide (WordHashTabEntry.count (ext !!! k) = 0)) as [|Hne];
      [assumption|].
    exfalso. apply Hknot, (mg_used _ _ _ _ M k Hk), Hne. }
  rewrite migrate_loop_probe.
  destruct (probe_result (migrate_body whtab ext i oldIndex oldEntry hashIndex)
              (WordHashTable.capacity whtab) hashIndex (whtab, ext)
              (WordHashTable.capacity whtab + hashIndex + 1) 0)
    as [(d & [whtab' ext'] & Hp & _ & Hb & _)|[_ Hnone]]; [lia|lia| |].
  - exists whtab', ext'. split; [exact Hp|].
    apply migrate_body_spec in Hb as (c & displ & Hc & Hat); [|exact Hh].
    apply migrate_at_spec in Hat as (Hcfree & -> & He & Ha & Hcap & Hsize & Hpool).
    assert (Hcnot : c ∉ used).
    { intros Hin. apply (mg_used _ _ _ _ M c) in Hin; [|lia]. contradiction. }
    assert (Htake : take (S i) (WordHashTable.alphOrderArray whtab') = used ++ [c]).
    { rewrite Ha. rewrite (take_S_r _ _ c) by (apply list_lookup_insert_eq; exact Hilen).
      rewrite take_insert_ge by lia. reflexivity. }
    constructor.
    + rewrite He. apply (mg_entries _ _ _ _ M).
    + rewrite Hcap. exact HC.
    + rewrite Hsize. apply (mg_size _ _ _ _ M).
    + rewrite Hpool. apply (mg_pool _ _ _ _ M).
    + rewrite Ha, length_insert. apply (mg_order_length _ _ _ _ M).
    + intros j Hj. rewrite Ha, list_lookup_insert_ne by lia.
      apply (mg_order_rest _ _ _ _ M). lia.
    + rewrite length_insert. apply (mg_ext_length _ _ _ _ M).
    + rewrite Htake. apply NoDup_app. split_and!.
      * apply (mg_nodup _ _ _ _ M).
      * intros x Hx Hxc. apply list_elem_of_singleton in Hxc. subst x. contradiction.
      * apply NoDup_singleton.
    + intros k' Hk'. rewrite Htake, elem_of_app, list_elem_of_singleton.
      destruct (decide (k' = c)) as [->|Hne].
      * rewrite list_lookup_total_insert_eq
          by (rewrite (mg_ext_length _ _ _ _ M); lia).
        ht_simpl. rewrite HoldE, Hold. intuition.
      * rewrite list_lookup_total_insert_ne by congruence.
        rewrite (mg_used _ _ _ _ M k' Hk'). intuition.
    + intros j Hj. rewrite Ha.
      destruct (decide (j = i)) as [->|Hne].
      * rewrite list_lookup_total_insert_eq by exact Hilen.
        split; [lia|].
        rewrite list_lookup_total_insert_eq
          by (rewrite (mg_ext_length _ _ _ _ M); lia).
        unfold same_block. ht_simpl. rewrite HoldE, Hold. auto.
      * rewrite list_lookup_total_insert_ne by congruence.
        destruct (mg_moved _ _ _ _ M j) as [Hlt Hsame]; [lia|].
        split; [exact Hlt|].
        rewrite list_lookup_total_insert_ne; [exact Hsame|].
        intros Hcj. apply Hcnot. rewrite Hcj.
        apply list_elem_of_lookup. exists j. unfold used.
        rewrite lookup_take_lt by lia.
        apply list_lookup_lookup_total_lt. lia.
  - exfalso.
    apply (migrate_body_free whtab ext i oldIndex oldEntry hashIndex k);
      [lia|exact Hkfree|].
    apply Hnone, probed_slot; lia.
Qed.

Lemma migrate_entries_spec whtab0 :
  WordHashTable.size whtab0 < WordHashTable.capacity whtab0 ->
  WordHashTable.size whtab0 <= length (WordHashTable.alphOrderArray whtab0) ->
  (∀ j, j < WordHashTable.size whtab0 ->
     WordHashTabEntry.count
       (entry_at whtab0 (WordHashTable.alphOrderArray whtab0 !!! j)) ≠ 0) ->
  ∀ m i whtab ext,
    i + m = WordHashTable.size whtab0 ->
    migrating whtab0 i whtab ext ->
    ∃ whtab' ext',
      migrate_entries (seq i m) whtab ext = Some (whtab', ext')
      ∧ migrating whtab0 (WordHashTable.size whtab0) whtab' ext'.
Proof.
  intros Hsz Horder Hlive.
  induction m as [|m IH]; intros i whtab ext Him M; cbn [seq migrate_entries].
  - replace (WordHashTable.size whtab0) with i by lia. eauto.
  - destruct (migrate_step whtab0 i whtab ext M) as (whtab1 & ext1 & -> & M1);
      [lia|exact Hsz|exact Horder|apply Hlive; lia|].
    apply IH; [lia|exact M1].
Qed.

Lemma lookup_total_repeat {A} `{!Inhabited A} (x : A) n k :
  k < n -> repeat x n !!! k = x.
Proof.
  revert k. induction n as [|n IH]; intros k Hk; [lia|].
  destruct k as [|k]; [reflexivity|]. cbn [repeat].
  rewrite lookup_total_cons_ne_0 by lia. apply IH. lia.
Qed.

Lemma map_pointwise {A B C} (f : A -> C) (g : B -> C) (l : list A) (l' : list B) :
  length l = length l' ->
  (∀ j x y, l !! j = Some x -> l' !! j = Some y -> f x = g y) ->
  map f l = map g l'.
Proof.
  revert l'. induction l as [|x l IH]; intros [|y l'] Hlen Hpt; try discriminate.
  - reflexivity.
  - cbn [map]. f_equal.
    + apply (Hpt 0); reflexivity.
    + apply IH; [cbn in Hlen; lia|].
      intros j a b Ha Hb. apply (Hpt (S j)); assumption.
Qed.

Lemma WordHashTable_migrate_spec whtab0 x :
  wf whtab0 -> length x = WordHashTable.capacity whtab0 ->
  ∃ whtab3 ext,
    WordHashTable_migrate (expanding whtab0 x)
      (repeat WordHashTabEntry_zero (WordHashTable.capacity whtab0 * 2))
    = Some (whtab3, ext)
    ∧ wf (set_entries whtab3 ext)
    ∧ report (set_entries whtab3 ext) = report whtab0
    ∧ WordHashTable.capacity whtab3 = WordHashTable.capacity whtab0 * 2
    ∧ WordHashTable.size whtab3 = WordHashTable.size whtab0
    ∧ WordHashTable.stringsPool whtab3 = WordHashTable.stringsPool whtab0.
Proof.
  intros H Hx.
  set (whtab2 := expanding whtab0 x).
  set (C := WordHashTable.capacity whtab0 * 2).
  set (n := WordHashTable.size whtab0).
  pose proof (wf_capacity _ H) as Hc0.
  pose proof (wf_size _ H) as Hn0. fold n in Hn0.
  pose proof (wf_order _ H) as Ho0.
  assert (Hold : ∀ j, j < n ->
            WordHashTable.alphOrderArray whtab2 !!! j
            = WordHashTable.alphOrderArray whtab0 !!! j).
  { intros j Hj. unfold whtab2, expanding. ht_unfold.
    apply lookup_total_app_l. lia. }
  assert (Hlive0 : ∀ j, j < n ->
            WordHashTable.alphOrderArray whtab0 !!! j ∈ live whtab0).
  { intros j Hj. apply list_elem_of_lookup. exists j. unfold live. fold n.
    rewrite lookup_take_lt by exact Hj.
    apply list_lookup_lookup_total_lt. lia. }
  assert (M0 : migrating whtab2 0 whtab2 (repeat WordHashTabEntry_zero C)).
  { constructor; try reflexivity.
    - rewrite repeat_length. reflexivity.
    - rewrite take_0. constructor.
    - intros k Hk. rewrite take_0.
      rewrite lookup_total_repeat by exact Hk. cbn. split; [congruence|].
      intros Hin. inversion Hin.
    - intros j Hj. lia. }
  destruct (migrate_entries_spec whtab2) with (m := n) (i := 0)
      (whtab := whtab2) (ext := repeat WordHashTabEntry_zero C)
    as (whtab3 & ext & Hmig & M).
  { change (n < C). unfold C. lia. }
  { change (n <= length (WordHashTable.alphOrderArray whtab0 ++ x)).
    rewrite length_app. lia. }
  { intros j Hj. change (WordHashTable.size whtab2) with n in Hj.
    rewrite (Hold j Hj). apply (wf_live _ H), Hlive0, Hj. }
  { reflexivity. }
  { exact M0. }
  change (WordHashTable.size whtab2) with n in M.
  exists whtab3, ext. split; [exact Hmig|].
  set (whtab' := set_entries whtab3 ext).
  set (aoa3 := WordHashTable.alphOrderArray whtab3).
  assert (Hcap3 : WordHashTable.capacity whtab3 = C) by apply (mg_capacity _ _ _ _ M).
  assert (Hsize3 : WordHashTable.size whtab3 = n) by apply (mg_size _ _ _ _ M).
  assert (Hpool3 : WordHashTable.stringsPool whtab3 = WordHashTable.stringsPool whtab0)
    by apply (mg_pool _ _ _ _ M).
  assert (Hlen3 : length aoa3 = C).
  { unfold aoa3. rewrite (mg_order_length _ _ _ _ M).
    change (length (WordHashTable.alphOrderArray whtab0 ++ x) = C).
    rewrite length_app. unfold C. lia. }
  assert (Hlive' : live whtab' = take n aoa3).
  { unfold live, whtab'. ht_unfold. rewrite Hsize3. reflexivity. }
  assert (Hmoved : ∀ j, j < n ->
            aoa3 !!! j < C
            ∧ same_block (entry_at whtab' (aoa3 !!! j))
                (entry_at whtab0 (WordHashTable.alphOrderArray whtab0 !!! j))).
  { intros j Hj. destruct (mg_moved _ _ _ _ M j Hj) as [Hlt Hsame].
    split; [exact Hlt|]. rewrite (Hold j Hj) in Hsame. exact Hsame. }
  assert (Hpos : ∀ s, s ∈ take n aoa3 -> ∃ j, j < n ∧ s = aoa3 !!! j).
  { intros s Hs. apply list_elem_of_lookup in Hs as [j Hj].
    assert (j < n).
    { pose proof (lookup_lt_Some _ _ _ Hj) as Hlt.
      rewrite length_take_le in Hlt; lia. }
    rewrite lookup_take_lt in Hj by lia.
    exists j. split; [lia|]. symmetry. apply list_lookup_total_correct, Hj. }
  assert (Hstored : ∀ j, j < n ->
            ∃ w, stored (WordHashTable.stringsPool whtab0)
                   (entry_at whtab0 (WordHashTable.alphOrderArray whtab0 !!! j)) w
                 ∧ stored (WordHashTable.stringsPool whtab')
                     (entry_at whtab' (aoa3 !!! j)) w).
  { intros j Hj. destruct (wf_stored _ H _ (Hlive0 j Hj)) as [w Hw].
    exists w. split; [exact Hw|].
    destruct (Hmoved j Hj) as [_ (Hp & _ & Hl)].
    change (WordHashTable.stringsPool whtab') with (WordHashTable.stringsPool whtab3).
    rewrite Hpool3. eapply stored_same_block; eassumption. }
  assert (Hrows : ∀ j s o, take n aoa3 !! j = Some s -> live whtab0 !! j = Some o ->
            word_of whtab' s = word_of whtab0 o
            ∧ WordHashTabEntry.count (entry_at whtab' s)
              = WordHashTabEntry.count (entry_at whtab0 o)).
  { intros j s o Hs Ho.
    assert (Hj : j < n).
    { pose proof (lookup_lt_Some _ _ _ Hs) as Hlt.
      rewrite length_take_le in Hlt; lia. }
    rewrite lookup_take_lt in Hs by exact Hj.
    unfold live in Ho. fold n in Ho. rewrite lookup_take_lt in Ho by exact Hj.
    apply list_lookup_total_correct in Hs, Ho. subst s o.
    destruct (Hstored j Hj) as (w & Hw0 & Hw').
    rewrite (stored_word_of _ _ _ Hw0), (stored_word_of _ _ _ Hw').
    destruct (Hmoved j Hj) as [_ (_ & Hcount & _)]. auto. }
  assert (Hlenlive : length (take n aoa3) = length (live whtab0)).
  { rewrite (live_length _ H). apply length_take_le. lia. }
  split_and!.
  - constructor.
    + change (0 < WordHashTable.capacity whtab3). lia.
    + change (length ext = WordHashTable.capacity whtab3).
      rewrite Hcap3. apply (mg_ext_length _ _ _ _ M).
    + change (length aoa3 = WordHashTable.capacity whtab3). lia.
    + change (WordHashTable.size whtab3 <= WordHashTable.capacity whtab3).
      unfold C in Hcap3. lia.
    + rewrite Hlive'. apply (mg_nodup _ _ _ _ M).
    + intros s. rewrite Hlive'.
      change (WordHashTable.capacity whtab') with (WordHashTable.capacity whtab3).
      change (entry_at whtab' s) with (ext !!! s). rewrite Hcap3.
      split.
      * intros Hs. destruct (Hpos s Hs) as (j & Hj & ->).
        destruct (Hmoved j Hj) as [Hlt _]. split; [exact Hlt|].
        apply (mg_used _ _ _ _ M); [exact Hlt|].
        apply list_elem_of_lookup. exists j. rewrite lookup_take_lt by exact Hj.
        apply list_lookup_lookup_total_lt. fold aoa3. lia.
      * intros [Hlt Hc]. apply (mg_used _ _ _ _ M s Hlt), Hc.
    + change (pool_ok (WordHashTable.stringsPool whtab3)).
      rewrite Hpool3. apply (wf_pool _ H).
    + intros s. rewrite Hlive'. intros Hs.
      destruct (Hpos s Hs) as (j & Hj & ->).
      destruct (Hstored j Hj) as (w & _ & Hw). exists w. exact Hw.
    + rewrite Hlive'.
      rewrite (map_pointwise (word_of whtab') (word_of whtab0) _ (live whtab0));
        [apply (wf_sorted _ H)|exact Hlenlive|].
      intros j s o Hs Ho. apply (Hrows j s o Hs Ho).
  - unfold report. rewrite Hlive'.
    apply map_pointwise; [exact Hlenlive|].
    intros j s o Hs Ho. destruct (Hrows j s o Hs Ho) as [-> ->]. reflexivity.
  - exact Hcap3.
  - exact Hsize3.
  - exact Hpool3.
Qed.

(** ** Expanding the table *)

Lemma fold_left_ext_in {A B} (f g : A -> B -> A) (l : list B) :
  (∀ a x, x ∈ l -> f a x = g a x) ->
  ∀ a, fold_left f l a = fold_left g l a.
Proof.
  induction l as [|x l IH]; intros Hfg a; [reflexivity|].
  cbn [fold_left]. rewrite Hfg by left.
  apply IH. intros a' y Hy. apply Hfg. right. exact Hy.
Qed.

(** Expanding the pool does not look at the capacity or at the part of the
    order array beyond [size]. *)
Lemma WordHashTable_MemoryPool_expand_expanding whtab x a :
  WordHashTable.size whtab <= length (WordHashTable.alphOrderArray whtab) ->
  WordHashTable_MemoryPool_expand (expanding whtab x) a
  = (fst (WordHashTable_MemoryPool_expand whtab a),
     expanding (snd (WordHashTable_MemoryPool_expand whtab a)) x).
Proof.
  intros Hsz. unfold WordHashTable_MemoryPool_expand, MemoryPool_expand.
  destruct a as [b|]; [|reflexivity].
  unfold expanding at 1 2. ht_unfold.
  destruct (_ =? _)%Z; cbn [fst snd]; [reflexivity|].
  unfold stringPointers_update, expanding. ht_unfold.
  do 2 f_equal.
  apply fold_left_ext_in. intros es i Hi.
  apply elem_of_seq in Hi.
  rewrite lookup_total_app_l by lia. reflexivity.
Qed.

Lemma WordHashTable_expand_spec whtab heap whtab' heap' :
  wf whtab ->
  WordHashTable_expand whtab heap = Some (SUCCESS, whtab', heap') ->
  wf whtab'
  ∧ report whtab' = report whtab
  ∧ WordHashTable.capacity whtab' = WordHashTable.capacity whtab * 2
  ∧ WordHashTable.size whtab' = WordHashTable.size whtab.
Proof.
  intros H. unfold WordHashTable_expand.
  destruct heap as [|[b1|] heap]; [discriminate| |discriminate].
  destruct heap as [|[b2|] heap]; [discriminate| |discriminate].
  set (x := map (fun k => Z.to_nat (block_junk b2 k))
              (seq (WordHashTable.capacity whtab)
                   (WordHashTable.capacity whtab * 2 - WordHashTable.capacity whtab))).
  fold (expanding whtab x).
  assert (Hx : length x = WordHashTable.capacity whtab).
  { unfold x. rewrite length_map, length_seq. lia. }
  assert (Hsz : WordHashTable.size whtab <= length (WordHashTable.alphOrderArray whtab)).
  { rewrite (wf_order _ H). apply (wf_size _ H). }
  assert (Hmig : ∀ whtab0 heap0,
    wf whtab0 -> report whtab0 = report whtab ->
    WordHashTable.capacity whtab0 = WordHashTable.capacity whtab ->
    WordHashTable.size whtab0 = WordHashTable.size whtab ->
    match WordHashTable_migrate (expanding whtab0 x)
            (repeat WordHashTabEntry_zero (WordHashTable.capacity whtab * 2)) with
    | Some (whtab1, extEntries) => Some (SUCCESS, set_entries whtab1 extEntries, heap0)
    | None => None
    end = Some (SUCCESS, whtab', heap') ->
    wf whtab' ∧ report whtab' = report whtab
    ∧ WordHashTable.capacity whtab' = WordHashTable.capacity whtab * 2
    ∧ WordHashTable.size whtab' = WordHashTable.size whtab).
  { intros whtab0 heap0 H0 Hrep Hcap Hsize.
    destruct (WordHashTable_migrate_spec whtab0 x H0) as
      (whtab3 & ext & Hm & Hwf & Hrep3 & Hcap3 & Hsize3 & _); [lia|].
    rewrite Hcap in Hm. rewrite Hm. intros Hres. inversion Hres; subst.
    split_and!; [exact Hwf|congruence| |].
    - change (WordHashTable.capacity whtab3 = WordHashTable.capacity whtab * 2). lia.
    - change (WordHashTable.size whtab3 = WordHashTable.size whtab). lia. }
  change (WordHashTable.stringsPool (expanding whtab x))
    with (WordHashTable.stringsPool whtab).
  destruct (MemoryPool_size_below (WordHashTable.stringsPool whtab) 80); cbn [negb].
  - apply Hmig; auto.
  - destruct heap as [|a heap]; [discriminate|].
    rewrite WordHashTable_MemoryPool_expand_expanding by exact Hsz.
    destruct a as [b|]; [|cbn; discriminate].
    destruct (WordHashTable_MemoryPool_expand_spec whtab b H)
      as (whtabp & -> & Hwfp & Hrepp & _ & _ & Hcapp & Hsizep & _).
    cbn [fst snd]. apply Hmig; auto.
Qed.

(** With three allocator responses at hand the expansion returns. *)
Lemma WordHashTable_expand_returns whtab heap :
  wf whtab -> 3 <= length heap ->
  ∃ r, WordHashTable_expand whtab heap = Some r.
Proof.
  intros H Hheap. unfold WordHashTable_expand.
  destruct heap as [|[b1|] heap]; [cbn in Hheap; lia| |eauto].
  destruct heap as [|[b2|] heap]; [cbn in Hheap; lia| |eauto].
  set (x := map (fun k => Z.to_nat (block_junk b2 k))
              (seq (WordHashTable.capacity whtab)
                   (WordHashTable.capacity whtab * 2 - WordHashTable.capacity whtab))).
  fold (expanding whtab x).
  assert (Hx : length x = WordHashTable.capacity whtab).
  { unfold x. rewrite length_map, length_seq. lia. }
  assert (Hsz : WordHashTable.size whtab <= length (WordHashTable.alphOrderArray whtab)).
  { rewrite (wf_order _ H). apply (wf_size _ H). }
  change (WordHashTable.stringsPool (expanding whtab x))
    with (WordHashTable.stringsPool whtab).
  destruct (MemoryPool_size_below (WordHashTable.stringsPool whtab) 80); cbn [negb].
  - destruct (WordHashTable_migrate_spec whtab x H Hx) as (whtab3 & ext & -> & _).
    eauto.
  - destruct heap as [|a heap]; [cbn in Hheap; lia|].
    rewrite WordHashTable_MemoryPool_expand_expanding by exact Hsz.
    destruct a as [b|]; [|cbn; eauto].
    destruct (WordHashTable_MemoryPool_expand_spec whtab b H)
      as (whtabp & -> & Hwfp & _ & _ & _ & Hcapp & _).
    cbn [fst snd].
    destruct (WordHashTable_migrate_spec whtabp x Hwfp) as (whtab3 & ext & Hm & _);
      [lia|].
    rewrite Hcapp in Hm. rewrite Hm. eauto.
Qed.

(** ** Tables the program can reach *)

Lemma WordHashTable_create_wf initCapacity heap whtab heap' :
  0 < initCapacity ->
  WordHashTable_create initCapacity heap = Finished (whtab, heap') ->
  wf whtab ∧ report whtab = [] ∧ WordHashTable.capacity whtab = initCapacity.
Proof.
  intros Hc. unfold WordHashTable_create, calloc, MemoryPool_init.
  destruct heap as [|[b1|] heap]; try discriminate.
  destruct heap as [|[b2|] heap]; try discriminate.
  destruct heap as [|[b3|] heap]; try discriminate.
  destruct heap as [|[b4|] heap]; try discriminate.
  intros Heq. inversion Heq; subst. clear Heq.
  split_and!; [|reflexivity|reflexivity].
  constructor; ht_simpl.
  - exact Hc.
  - apply repeat_length.
  - apply repeat_length.
  - lia.
  - constructor.
  - intros i. unfold live, entry_at. ht_simpl. rewrite take_0. split.
    + intros Hin. inversion Hin.
    + intros [Hi Hcount]. rewrite lookup_total_repeat in Hcount by exact Hi.
      cbn in Hcount. congruence.
  - unfold pool_ok. ht_simpl. rewrite repeat_length. lia.
  - intros i Hin. inversion Hin.
  - intros i a b Ha. discriminate.
Qed.

Lemma add_effect_wf whtab buf w st whtab' :
  add_effect whtab buf w st whtab' -> wf whtab'.
Proof. destruct 1; assumption. Qed.

Lemma reachable_wf whtab : reachable whtab -> wf whtab.
Proof.
  induction 1 as [c heap whtab heap' Hc Hcreate
                 |whtab buf w st whtab' _ IH Hbuf Hadd
                 |whtab a whtab' _ IH Hexp
                 |whtab heap whtab' heap' _ IH Hexp].
  - apply (WordHashTable_create_wf _ _ _ _ Hc Hcreate).
  - destruct (WordHashTable_add_word_effect whtab buf w IH Hbuf)
      as (st' & whtab'' & Heq & [Heff|(_ & -> & _)]);
      rewrite Hadd in Heq; inversion Heq; subst.
    + eapply add_effect_wf, Heff.
    + exact IH.
  - destruct a as [b|]; [|discriminate].
    destruct (WordHashTable_MemoryPool_expand_spec whtab b IH) as (whtab'' & Heq & Hwf & _).
    rewrite Hexp in Heq. inversion Heq; subst. exact Hwf.
  - apply (WordHashTable_expand_spec _ _ _ _ IH Hexp).
Qed.

(** ** Counting all tokens *)

Lemma total_count_report whtab :
  wf whtab -> total_count whtab = total_report whtab.
Proof.
  intros H. unfold total_count, total_report. rewrite (wf_count_print _ H). reflexivity.
Qed.

Lemma same_observable_report whtab whtab' :
  wf whtab -> same_observable whtab whtab' -> report whtab' = report whtab.
Proof.
  intros H (Ha & Hc & Hs & Hp & _ & _ & _ & He).
  assert (Hlive : live whtab' = live whtab).
  { unfold live. rewrite Ha, Hs. reflexivity. }
  unfold report. rewrite Hlive. apply map_ext_in. intros i Hi.
  apply list_elem_of_In, (wf_live _ H) in Hi. destruct Hi as [_ Hi].
  destruct (He i) as [Hcount Hsame].
  unfold word_of, entry_string. rewrite Hp, (Hsame Hi). reflexivity.
Qed.

Lemma add_effect_total whtab buf w st whtab' :
  wf whtab -> add_effect whtab buf w st whtab' ->
  total_report whtab'
  = match st with SUCCESS => S (total_report whtab) | _ => total_report whtab end.
Proof.
  intros H Heff. unfold total_report.
  destruct Heff as [whtab' pos Hwf Hrep _ _ _ _
                   |whtab' k Hwf Hk Hrep _ _ _
                   |whtab' Hwf Hsame _ _].
  - rewrite Hrep, map_app. cbn [map snd].
    rewrite sum_list_insert_middle, <- map_app, take_drop. reflexivity.
  - rewrite Hrep. unfold report. rewrite !map_map. unfold bumped_row. cbn [snd].
    rewrite <- (sum_list_bump
                  (fun i => WordHashTabEntry.count (entry_at whtab i))
                  (live whtab) k (wf_nodup _ H) Hk).
    reflexivity.
  - rewrite (same_observable_report _ _ H Hsame). reflexivity.
Qed.

(** A table in which every slot is taken has [size = capacity]. *)
Lemma wf_full_size whtab :
  wf whtab ->
  (∀ k, k < WordHashTable.capacity whtab ->
        WordHashTabEntry.count (entry_at whtab k) ≠ 0) ->
  WordHashTable.capacity whtab <= WordHashTable.size whtab.
Proof.
  intros H Hall.
  assert (Hsub : seq 0 (WordHashTable.capacity whtab) ⊆+ live whtab).
  { apply NoDup_submseteq; [apply NoDup_seq|].
    intros k Hk. apply elem_of_seq in Hk. apply (wf_live _ H).
    split; [lia|]. apply Hall. lia. }
  apply submseteq_length in Hsub.
  rewrite length_seq, (live_length _ H) in Hsub. exact Hsub.
Qed.

(** Every call on a reachable table returns, with one of three effects or
    with [GEN_FAIL] on a table without free slot. *)
Lemma reachable_add_word whtab buf w :
  reachable whtab -> holds_word buf w ->
  ∃ st whtab',
    WordHashTable_add_word whtab buf = Some (st, whtab')
    ∧ reachable whtab'
    ∧ total_report whtab'
      = match st with SUCCESS => S (total_report whtab) | _ => total_report whtab end
    ∧ (add_effect whtab buf w st whtab'
       ∨ (st = GEN_FAIL ∧ whtab' = whtab
          ∧ WordHashTable.capacity whtab <= WordHashTable.size whtab)).
Proof.
  intros Hr Hbuf. pose proof (reachable_wf _ Hr) as H.
  destruct (WordHashTable_add_word_effect whtab buf w H Hbuf)
    as (st & whtab' & Heq & Hcases).
  exists st, whtab'. split; [exact Heq|].
  split; [eapply reach_add_word; eassumption|].
  destruct Hcases as [Heff|(-> & -> & Hfull)].
  - split; [apply (add_effect_total _ _ _ _ _ H Heff)|left; exact Heff].
  - split; [reflexivity|]. right. split_and!; try reflexivity.
    apply wf_full_size; assumption.
Qed.

Lemma add_word_retry_finished buf w :
  holds_word buf w ->
  ∀ heap whtab st whtab' heap',
    reachable whtab ->
    add_word_retry heap whtab buf = Finished (st, whtab', heap') ->
    reachable whtab'
    ∧ st ≠ DATA_STRUCT_FULL
    ∧ total_report whtab'
      = match st with SUCCESS => S (total_report whtab) | _ => total_report whtab end.
Proof.
  intros Hbuf. induction heap as [|a heap IH]; intros whtab st whtab' heap' Hr;
    destruct (reachable_add_word whtab buf w Hr Hbuf)
      as (st1 & whtab1 & Hadd & Hr1 & Htot & _);
    cbn [add_word_retry]; rewrite Hadd.
  - destruct st1; intros Heq; inversion Heq; subst; split_and!; auto; discriminate.
  - destruct st1; try (intros Heq; inversion Heq; subst; split_and!; auto; discriminate).
    destruct a as [b|]; [|rewrite WordHashTable_MemoryPool_expand_fail; discriminate].
    destruct (WordHashTable_MemoryPool_expand_spec whtab1 b (reachable_wf _ Hr1))
      as (whtab2 & Hexp & _ & Hrep & _).
    rewrite Hexp. intros Hres.
    apply IH in Hres as (Hr' & Hst & Htot');
      [|eapply reach_pool_expand; eassumption].
    split_and!; [exact Hr'|exact Hst|].
    rewrite Htot'. unfold total_report. rewrite Hrep.
    fold (total_report whtab1). rewrite Htot. reflexivity.
Qed.

Lemma count_words_finished :
  ∀ inputVector heap whtab whtab' heap',
    reachable whtab ->
    Forall (fun buf => ∃ w, holds_word buf w) inputVector ->
    count_words inputVector heap whtab = Finished (whtab', heap') ->
    reachable whtab'
    ∧ total_report whtab' = total_report whtab + length inputVector.
Proof.
  induction inputVector as [|buf inputVector IH];
    intros heap whtab whtab' heap' Hr Hbufs; cbn [count_words].
  - intros Heq. inversion Heq; subst. split; [exact Hr|]. cbn. lia.
  - apply Forall_cons in Hbufs as [[w Hbuf] Hbufs].
    destruct (add_word_retry heap whtab buf) as [[[st whtab1] heap1]| |] eqn:Hretry;
      try discriminate.
    apply (add_word_retry_finished buf w Hbuf) in Hretry as (Hr1 & _ & Htot);
      [|exact Hr].
    destruct st; try discriminate.
    destruct (WordHashTable_size_below whtab1 70); cbn [negb].
    + intros Hres. apply IH in Hres as [Hr' Htot']; [|exact Hr1|exact Hbufs].
      split; [exact Hr'|]. rewrite Htot', Htot. cbn [length]. lia.
    + destruct (WordHashTable_expand whtab1 heap1) as [[[st2 whtab2] heap2]|] eqn:Hexp;
        [|discriminate].
      destruct st2; try discriminate.
      destruct (WordHashTable_expand_spec _ _ _ _ (reachable_wf _ Hr1) Hexp)
        as (_ & Hrep & _).
      intros Hres. apply IH in Hres as [Hr' Htot'];
        [|eapply reach_expand; eassumption|exact Hbufs].
      split; [exact Hr'|]. rewrite Htot'. unfold total_report at 1. rewrite Hrep.
      fold (total_report whtab1). rewrite Htot. cbn [length]. lia.
Qed.

(** ** The initial capacity *)

Lemma log2_below (a : Z) : (0 <= a < 2 ^ 63)%Z -> (Z.log2 a < 63)%Z.
Proof.
  intros [Ha Hlt]. destruct (Z.eq_dec a 0%Z) as [->|Hne]; [reflexivity|].
  apply Z.log2_lt_pow2; lia.
Qed.

Lemma smear_below (v k : Z) :
  (0 <= v < 2 ^ 63)%Z -> (0 <= k)%Z ->
  (0 <= Z.lor v (Z.shiftr v k) < 2 ^ 63)%Z.
Proof.
  intros Hv Hk.
  assert (Hs : (0 <= Z.shiftr v k < 2 ^ 63)%Z).
  { rewrite Z.shiftr_div_pow2 by exact Hk.
    assert (0 < 2 ^ k)%Z by (apply Z.pow_pos_nonneg; lia).
    split; [apply Z.div_pos; lia|].
    apply Z.le_lt_trans with v; [|lia].
    apply Z.div_le_upper_bound; [lia|]. nia. }
  assert (Hnn : (0 <= Z.lor v (Z.shiftr v k))%Z) by (apply Z.lor_nonneg; lia).
  split; [exact Hnn|].
  destruct (Z.eq_dec (Z.lor v (Z.shiftr v k)) 0%Z) as [->|Hne]; [reflexivity|].
  apply Z.log2_lt_pow2; [lia|].
  rewrite Z.log2_lor by lia.
  pose proof (log2_below v Hv). pose proof (log2_below _ Hs). lia.
Qed.

Lemma next_2power_pos num : (Z.of_nat num <= 2 ^ 63)%Z -> 0 < next_2power num.
Proof.
  intros Hnum. unfold next_2power.
  destruct (Nat.eqb_spec num 0); [lia|].
  assert (H0 : (0 <= wrap64 (Z.of_nat num - 1) < 2 ^ 63)%Z).
  { unfold wrap64. rewrite Z.mod_small; lia. }
  set (v0 := wrap64 (Z.of_nat num - 1)) in *.
  pose proof (smear_below v0 1%Z H0 ltac:(lia)) as H1.
  set (v1 := Z.lor v0 (Z.shiftr v0 1)) in *.
  pose proof (smear_below v1 2%Z H1 ltac:(lia)) as H2.
  set (v2 := Z.lor v1 (Z.shiftr v1 2)) in *.
  pose proof (smear_below v2 4%Z H2 ltac:(lia)) as H3.
  set (v3 := Z.lor v2 (Z.shiftr v2 4)) in *.
  pose proof (smear_below v3 8%Z H3 ltac:(lia)) as H4.
  set (v4 := Z.lor v3 (Z.shiftr v3 8)) in *.
  pose proof (smear_below v4 16%Z H4 ltac:(lia)) as H5.
  set (v5 := Z.lor v4 (Z.shiftr v4 16)) in *.
  pose proof (smear_below v5 32%Z H5 ltac:(lia)) as H6.
  set (v6 := Z.lor v5 (Z.shiftr v5 32)) in *.
  unfold wrap64. rewrite Z.mod_small by lia. lia.
Qed.

Lemma wtabInitSize_pos inputSize :
  (Z.of_nat inputSize <= 2 ^ 63)%Z -> 0 < wtabInitSize inputSize.
Proof.
  intros Hn. unfold wtabInitSize.
  pose proof (next_2power_pos inputSize Hn) as Hc.
  set (ceilSize := next_2power inputSize) in *.
  destruct (Nat.leb_spec (ceilSize / 2 / 2) (inputSize - ceilSize / 2)) as [|Hlt];
    [exact Hc|].
  destruct (ceilSize / 2) as [|f]; [cbn in Hlt; lia|lia].
Qed.

(** ** The whole run *)

Lemma get_input_holds fp :
  ∃ vec ws,
    get_input (WordBufferVector_create INITIAL_WORD_VECTOR_LENGTH) fp = (SUCCESS, vec)
    ∧ vec_holds vec ws ∧ Forall word_ok ws.
Proof.
  unfold get_input.
  destruct WordBuffer_create_holds as (wbuf & -> & Hwb).
  apply (get_input_loop_holds fp BETWEEN_WORDS wbuf _ [] []
           Hwb WordBufferVector_create_holds eq_refl (Forall_nil_2 _)).
Qed.

Lemma main_finished fp heap whtab rows :
  (Z.of_nat (length (snd (tokenize fp))) <= 2 ^ 63)%Z ->
  main fp heap = Finished (whtab, rows) ->
  reachable whtab
  ∧ rows = report whtab
  ∧ total_report whtab = length (snd (tokenize fp)).
Proof.
  unfold main, tokenize.
  destruct (get_input_holds fp) as (vec & ws & -> & Hvec & Hws).
  cbn [snd]. rewrite (WordBufferVector_at_tokens _ _ Hvec).
  rewrite (vec_holds_tokens _ _ Hvec).
  intros Hbound.
  assert (Hsize : WordBufferVector_get_size vec = length (map token_of ws)).
  { destruct Hvec as (_ & Hcur & _). unfold WordBufferVector_get_size.
    rewrite Hcur, length_map. reflexivity. }
  rewrite Hsize.
  destruct (WordHashTable_create _ heap) as [[whtab0 heap0]| |] eqn:Hcreate;
    try discriminate.
  destruct (count_words _ heap0 whtab0) as [[whtab1 heap1]| |] eqn:Hcount;
    try discriminate.
  intros Heq. inversion Heq; subst. clear Heq.
  assert (Hr0 : reachable whtab0).
  { eapply reach_create; [|exact Hcreate]. apply wtabInitSize_pos, Hbound. }
  destruct (WordHashTable_create_wf _ _ _ _ (wtabInitSize_pos _ Hbound) Hcreate)
    as (_ & Hrep0 & _).
  apply count_words_finished in Hcount as [Hr Htot]; [|exact Hr0|].
  - split_and!; [exact Hr|apply wf_count_print, reachable_wf, Hr|].
    rewrite Htot. unfold total_report. rewrite Hrep0. reflexivity.
  - apply Forall_forall. intros buf Hin.
    apply list_elem_of_fmap in Hin as (w & -> & Hw).
    rewrite Forall_forall in Hws. exists w.
    apply token_of_holds_word, (Hws w Hw).
Qed.

(** C3: in every reachable table the alphabetical index lists exactly the
    occupied slots, [size] of them and each once, and the printed rows are
    in non-decreasing [strcmp] order. *)
Theorem alphabetical_index_sorted whtab :
  reachable whtab ->
  length (live whtab) = WordHashTable.size whtab
  ∧ NoDup (live whtab)
  ∧ (∀ i, i ∈ live whtab
          <-> i < WordHashTable.capacity whtab
              ∧ WordHashTabEntry.count (entry_at whtab i) ≠ 0)
  ∧ (∀ i w1 n1 w2 n2,
       WordHashTable_count_print whtab !! i = Some (w1, n1) ->
       WordHashTable_count_print whtab !! S i = Some (w2, n2) ->
       (strcmp w1 w2 <= 0)%Z).
Proof.
  intros Hr. pose proof (reachable_wf _ Hr) as H.
  split_and!.
  - apply live_length, H.
  - apply (wf_nodup _ H).
  - apply (wf_live _ H).
  - intros i w1 n1 w2 n2. rewrite (wf_count_print _ H). unfold report.
    rewrite !list_lookup_fmap.
    destruct (live whtab !! i) as [a|] eqn:Ha; [|discriminate].
    destruct (live whtab !! S i) as [b|] eqn:Hb; [|discriminate].
    cbn. intros H1 H2. inversion H1; inversion H2; subst.
    apply (wf_sorted _ H i); rewrite list_lookup_fmap.
    + rewrite Ha. reflexivity.
    + rewrite Hb. reflexivity.
Qed.

(** C6: after a successful expansion of the strings pool every live entry
    still reads back the word stored for it.  Its address is the old offset
    from the old base added to the new base, the block lies inside the
    allocated part of the new pool, and the bytes are the same. *)
Theorem pool_expansion_keeps_words whtab a whtab' :
  reachable whtab ->
  WordHashTable_MemoryPool_expand whtab a = (SUCCESS, whtab') ->
  ∀ i, i ∈ live whtab ->
    i ∈ live whtab'
    ∧ WordHashTabEntry.letters (entry_at whtab' i)
      = (WordHashTabEntry.letters (entry_at whtab i)
         - MemoryPool.memSpace (WordHashTable.stringsPool whtab)
         + MemoryPool.memSpace (WordHashTable.stringsPool whtab'))%Z
    ∧ ∃ w,
        stored (WordHashTable.stringsPool whtab) (entry_at whtab i) w
        ∧ stored (WordHashTable.stringsPool whtab') (entry_at whtab' i) w
        ∧ read_back (WordHashTable.stringsPool whtab) (entry_at whtab i)
          = Some (w ++ [0%Z])
        ∧ read_back (WordHashTable.stringsPool whtab') (entry_at whtab' i)
          = Some (w ++ [0%Z])
        ∧ word_of whtab' i = w.
Proof.
  intros Hr Hexp i Hi. pose proof (reachable_wf _ Hr) as H.
  destruct a as [b|]; [|discriminate].
  destruct (WordHashTable_MemoryPool_expand_spec whtab b H)
    as (whtab1 & Heq & Hwf & _ & Hlive & _ & _ & _ & _ & _ & Hbase & _ & _
        & Hentry & Hstored).
  rewrite Hexp in Heq. inversion Heq; subst whtab1. clear Heq.
  split_and!.
  - rewrite Hlive. exact Hi.
  - rewrite Hentry, Hbase. destruct (decide (i ∈ live whtab)); [|contradiction].
    reflexivity.
  - destruct (wf_stored _ H i Hi) as [w Hw]. exists w.
    pose proof (Hstored i w Hi Hw) as Hw'.
    split_and!; [exact Hw|exact Hw'| | |].
    + apply stored_read_back; [apply (wf_pool _ H)|exact Hw].
    + apply stored_read_back; [apply (wf_pool _ Hwf)|exact Hw'].
    + apply stored_word_of, Hw'.
Qed.

(** ** A full pool *)

Lemma add_word_retry_returns buf w :
  holds_word buf w ->
  ∀ heap whtab,
    reachable whtab ->
    WordHashTable.size whtab < WordHashTable.capacity whtab ->
    rounds_needed whtab buf <= length heap ->
    (add_word_retry heap whtab buf = Failure ∧ None ∈ heap)
    ∨ (∃ whtab' heap',
         add_word_retry heap whtab buf = Finished (SUCCESS, whtab', heap')
         ∧ reachable whtab').
Proof.
  intros Hbuf. unfold rounds_needed.
  induction heap as [|a heap IH]; intros whtab Hr Hfree Hneed;
    destruct (reachable_add_word whtab buf w Hr Hbuf)
      as (st & whtab1 & Hadd & Hr1 & _ & Hcases);
    cbn [add_word_retry]; rewrite Hadd;
    (destruct Hcases as [Heff|(-> & _ & Hfull)]; [|lia]);
    destruct Heff as [whtab1 pos _ _ _ _ _ _|whtab1 k _ _ _ _ _ _
                     |whtab1 Hwf1 Hsame Hpool _];
    try (right; eauto; fail).
  - cbn [length] in Hneed. lia.
  - destruct a as [b|];
      [|rewrite WordHashTable_MemoryPool_expand_fail; left; split;
        [reflexivity|left]].
    destruct (WordHashTable_MemoryPool_expand_spec whtab1 b Hwf1)
      as (whtab2 & Hexp & _ & _ & _ & _ & Hcap2 & Hsize2 & _ & _ & _ & Hnext2 & Hpcap2 & _).
    rewrite Hexp.
    destruct Hsame as (_ & Hcap1 & Hsize1 & Hpool1 & _).
    pose proof (wf_pool _ Hwf1) as (_ & _ & Hpos).
    destruct (IH whtab2) as [[Hfail Hin]|Hdone].
    + eapply reach_pool_expand; eassumption.
    + lia.
    + rewrite Hnext2, Hpcap2, Hpool1. cbn [length] in Hneed.
      rewrite Hpool1 in Hpos. lia.
    + left. split; [exact Hfail|right; exact Hin].
    + right. exact Hdone.
Qed.

Lemma map_bump_insert {A B} `{!EqDecision A} (f g : A -> B) (l : list A) j k :
  NoDup l -> l !! j = Some k ->
  map (fun i => if decide (i = k) then g i else f i) l = <[j := g k]> (map f l).
Proof.
  intros Hnd Hj. apply list_eq. intros i.
  rewrite list_lookup_fmap.
  destruct (decide (i = j)) as [->|Hne].
  - rewrite list_lookup_insert_eq by (rewrite length_map; eapply lookup_lt_Some, Hj).
    rewrite Hj. cbn. destruct (decide (k = k)); [reflexivity|contradiction].
  - rewrite list_lookup_insert_ne by congruence. rewrite list_lookup_fmap.
    destruct (l !! i) as [x|] eqn:Hi; [|reflexivity]. cbn.
    destruct (decide (x = k)) as [->|]; [|reflexivity].
    exfalso. apply Hne. eapply NoDup_lookup; eassumption.
Qed.

(** The rows before and after a call, for each of its outcomes. *)
Lemma add_effect_rows whtab buf w st whtab' :
  wf whtab -> add_effect whtab buf w st whtab' ->
  match st with
  | SUCCESS =>
      (∃ pos, report whtab' = take pos (report whtab) ++ (w, 1) :: drop pos (report whtab)
              ∧ WordHashTable.size whtab' = S (WordHashTable.size whtab))
      ∨ (∃ j word n, report whtab !! j = Some (word, n)
                     ∧ report whtab' = <[j := (word, S n)]> (report whtab)
                     ∧ WordHashTable.size whtab' = WordHashTable.size whtab)
  | _ => report whtab' = report whtab
         ∧ WordHashTable.size whtab' = WordHashTable.size whtab
  end.
Proof.
  intros H Heff.
  destruct Heff as [whtab' pos Hwf Hrep _ Hsize _ _
                   |whtab' k Hwf Hk Hrep _ Hsize _
                   |whtab' Hwf Hsame _ _].
  - left. exists pos. auto.
  - right. apply list_elem_of_lookup in Hk as [j Hj].
    exists j, (word_of whtab k), (WordHashTabEntry.count (entry_at whtab k)).
    split_and!; [|rewrite Hrep|exact Hsize].
    + unfold report. rewrite list_lookup_fmap, Hj. reflexivity.
    + unfold report, bumped_row.
      rewrite <- (map_bump_insert
                    (fun i => (word_of whtab i, WordHashTabEntry.count (entry_at whtab i)))
                    (fun i => (word_of whtab i, S (WordHashTabEntry.count (entry_at whtab i))))
                    (live whtab) j k (wf_nodup _ H) Hj).
      apply map_ext. intros i. destruct (decide (i = k)); reflexivity.
  - split; [apply (same_observable_report _ _ H Hsame)|apply Hsame].
Qed.

(** What the loop of [main] around [WordHashTable_add_word] has done when
    it ends with [SUCCESS]: the rounds that found the pool full and the
    expansions of the pool left the rows alone, and the last call put the
    row of [w] in or added one to the count of a row. *)
Lemma add_word_retry_rows buf w :
  holds_word buf w ->
  ∀ heap whtab whtab' heap',
    reachable whtab ->
    add_word_retry heap whtab buf = Finished (SUCCESS, whtab', heap') ->
    heap' `suffix_of` heap
    ∧ WordHashTable.capacity whtab' = WordHashTable.capacity whtab
    ∧ ((∃ pos, report whtab'
               = take pos (report whtab) ++ (w, 1) :: drop pos (report whtab)
               ∧ WordHashTable.size whtab' = S (WordHashTable.size whtab))
       ∨ (∃ j word n, report whtab !! j = Some (word, n)
                      ∧ report whtab' = <[j := (word, S n)]> (report whtab)
                      ∧ WordHashTable.size whtab' = WordHashTable.size whtab)).
Proof.
  intros Hbuf. induction heap as [|a heap IH]; intros whtab whtab' heap' Hr;
    destruct (reachable_add_word whtab buf w Hr Hbuf)
      as (st1 & whtab1 & Hadd & Hr1 & _ & Hcases);
    cbn [add_word_retry]; rewrite Hadd;
    (destruct Hcases as [Heff|(-> & _ & _)]; [|discriminate]);
    pose proof (add_effect_rows _ _ _ _ _ (reachable_wf _ Hr) Heff) as Hrows;
    assert (Hcap : WordHashTable.capacity whtab1 = WordHashTable.capacity whtab)
      by (destruct Heff as [? ? _ _ Hc _ _ _|? ? _ _ _ Hc _ _|? _ Hsame _ _];
          [exact Hc|exact Hc|apply Hsame]);
    destruct st1; try discriminate;
    try (intros Heq; inversion Heq; subst; split_and!; [reflexivity|exact Hcap|exact Hrows]).
  destruct a as [b|]; [|rewrite WordHashTable_MemoryPool_expand_fail; discriminate].
  destruct (WordHashTable_MemoryPool_expand_spec whtab1 b (reachable_wf _ Hr1))
    as (whtab2 & Hexp & _ & Hrep2 & _ & _ & Hcap2 & Hsize2 & _).
  rewrite Hexp. intros Hres.
  apply IH in Hres as (Hsuf & Hcap' & Hrows');
    [|eapply reach_pool_expand; eassumption].
  destruct Hrows as [Hrep1 Hsize1].
  rewrite Hrep2, Hrep1, Hsize2, Hsize1 in Hrows'.
  split_and!; [apply suffix_cons_r, Hsuf|lia|exact Hrows'].
Qed.

(** C8: a call that fails with [DATA_STRUCT_FULL] leaves the observable
    state of the table and the printed rows as they were, and the caller's
    loop (expand the pool, call again) ends after at most [rounds_needed]
    rounds: with a failure caused by an allocation that returned NULL, or
    with [SUCCESS], and then the word has been taken in: the table is
    that of the same capacity whose rows are the old ones with the row of
    [w] put in or with one added to the count of a single row, so the
    counts sum to one more than before. *)
Theorem pool_full_is_recoverable whtab buf w whtab1 :
  reachable whtab -> holds_word buf w ->
  WordHashTable_add_word whtab buf = Some (DATA_STRUCT_FULL, whtab1) ->
  same_observable whtab whtab1
  ∧ WordHashTable_count_print whtab1 = WordHashTable_count_print whtab
  ∧ ∀ heap, rounds_needed whtab buf <= length heap ->
      (add_word_retry heap whtab buf = Failure ∧ None ∈ heap)
      ∨ (∃ whtab' heap',
           add_word_retry heap whtab buf = Finished (SUCCESS, whtab', heap')
           ∧ reachable whtab'
           ∧ heap' `suffix_of` heap
           ∧ WordHashTable.capacity whtab' = WordHashTable.capacity whtab
           ∧ (let rows := WordHashTable_count_print whtab in
              let rows' := WordHashTable_count_print whtab' in
              (∃ pos, rows' = take pos rows ++ (w, 1) :: drop pos rows
                      ∧ WordHashTable.size whtab' = S (WordHashTable.size whtab))
              ∨ (∃ j word n, rows !! j = Some (word, n)
                             ∧ rows' = <[j := (word, S n)]> rows
                             ∧ WordHashTable.size whtab' = WordHashTable.size whtab))
           ∧ total_count whtab' = S (total_count whtab)).
Proof.
  intros Hr Hbuf Hadd.
  pose proof (reachable_wf _ Hr) as H.
  destruct (reachable_add_word whtab buf w Hr Hbuf)
    as (st & whtab2 & Heq & Hr1 & _ & Hcases).
  rewrite Hadd in Heq. inversion Heq; subst st whtab2. clear Heq.
  destruct Hcases as [Heff|(Hst & _)]; [|discriminate].
  inversion Heff as [| |whtab2 _ Hsame _ Hfree]; subst.
  split; [exact Hsame|]. split.
  { rewrite (wf_count_print _ H), (wf_count_print _ (reachable_wf _ Hr1)).
    apply (same_observable_report _ _ H Hsame). }
  intros heap Hheap.
  destruct (add_word_retry_returns buf w Hbuf heap whtab Hr Hfree Hheap)
    as [Hfail|(whtab' & heap' & Hdone & Hr')]; [left; exact Hfail|right].
  exists whtab', heap'.
  destruct (add_word_retry_rows buf w Hbuf _ _ _ _ Hr Hdone) as (Hsuf & Hcap & Hrows).
  destruct (add_word_retry_finished buf w Hbuf _ _ _ _ _ Hr Hdone) as (_ & _ & Htot).
  pose proof (reachable_wf _ Hr') as H'.
  split_and!; [exact Hdone|exact Hr'|exact Hsuf|exact Hcap| |].
  - cbv zeta. rewrite (wf_count_print _ H), (wf_count_print _ H'). exact Hrows.
  - rewrite (total_count_report _ H), (total_count_report _ H'). exact Htot.
Qed.

(** ** Runs with a generous allocator *)

Lemma WordHashTable_expand_succeeds whtab heap :
  wf whtab -> 3 <= length heap -> Forall is_Some heap ->
  ∃ whtab' heap',
    WordHashTable_expand whtab heap = Some (SUCCESS, whtab', heap')
    ∧ length heap <= length heap' + 3
    ∧ Forall is_Some heap'
    ∧ MemoryPool.nextChar (WordHashTable.stringsPool whtab')
      = MemoryPool.nextChar (WordHashTable.stringsPool whtab).
Proof.
  intros H Hlen Hsome. unfold WordHashTable_expand.
  destruct heap as [|a1 heap]; [cbn in Hlen; lia|].
  apply Forall_cons in Hsome as [[b1 ->] Hsome].
  destruct heap as [|a2 heap]; [cbn in Hlen; lia|].
  apply Forall_cons in Hsome as [[b2 ->] Hsome].
  set (x := map (fun k => Z.to_nat (block_junk b2 k))
              (seq (WordHashTable.capacity whtab)
                   (WordHashTable.capacity whtab * 2 - WordHashTable.capacity whtab))).
  fold (expanding whtab x).
  assert (Hx : length x = WordHashTable.capacity whtab).
  { unfold x. rewrite length_map, length_seq. lia. }
  assert (Hsz : WordHashTable.size whtab <= length (WordHashTable.alphOrderArray whtab)).
  { rewrite (wf_order _ H). apply (wf_size _ H). }
  change (WordHashTable.stringsPool (expanding whtab x))
    with (WordHashTable.stringsPool whtab).
  destruct (MemoryPool_size_below (WordHashTable.stringsPool whtab) 80); cbn [negb].
  - destruct (WordHashTable_migrate_spec whtab x H Hx)
      as (whtab3 & ext & -> & _ & _ & _ & _ & Hpool).
    eexists _, _. split; [reflexivity|].
    split_and!.
    + cbn [length]. lia.
    + exact Hsome.
    + change (MemoryPool.nextChar (WordHashTable.stringsPool whtab3)
              = MemoryPool.nextChar (WordHashTable.stringsPool whtab)).
      rewrite Hpool. reflexivity.
  - destruct heap as [|a heap]; [cbn in Hlen; lia|].
    apply Forall_cons in Hsome as [[b ->] Hsome].
    rewrite WordHashTable_MemoryPool_expand_expanding by exact Hsz.
    destruct (WordHashTable_MemoryPool_expand_spec whtab b H)
      as (whtabp & -> & Hwfp & _ & _ & _ & Hcapp & _ & _ & _ & _ & Hnextp & _).
    cbn [fst snd].
    destruct (WordHashTable_migrate_spec whtabp x Hwfp)
      as (whtab3 & ext & Hm & _ & _ & _ & _ & Hpool); [lia|].
    rewrite Hcapp in Hm. rewrite Hm.
    eexists _, _. split; [reflexivity|].
    split_and!; [cbn [length]; lia|exact Hsome|].
    change (MemoryPool.nextChar (WordHashTable.stringsPool whtab3)
            = MemoryPool.nextChar (WordHashTable.stringsPool whtab)).
    rewrite Hpool. exact Hnextp.
Qed.

Lemma add_word_retry_succeeds buf w :
  holds_word buf w ->
  ∀ heap whtab,
    reachable whtab ->
    WordHashTable.size whtab < WordHashTable.capacity whtab ->
    rounds_needed whtab buf <= length heap ->
    Forall is_Some heap ->
    ∃ whtab' heap',
      add_word_retry heap whtab buf = Finished (SUCCESS, whtab', heap')
      ∧ reachable whtab'
      ∧ length heap <= length heap' + rounds_needed whtab buf
      ∧ Forall is_Some heap'
      ∧ WordHashTable.capacity whtab' = WordHashTable.capacity whtab
      ∧ WordHashTable.size whtab' <= S (WordHashTable.size whtab)
      ∧ MemoryPool.nextChar (WordHashTable.stringsPool whtab')
        <= MemoryPool.nextChar (WordHashTable.stringsPool whtab)
           + (WordBuffer.curPosition buf + 1).
Proof.
  intros Hbuf. unfold rounds_needed.
  induction heap as [|a heap IH]; intros whtab Hr Hfree Hneed Hsome;
    destruct (reachable_add_word whtab buf w Hr Hbuf)
      as (st & whtab1 & Hadd & Hr1 & _ & Hcases);
    cbn [add_word_retry]; rewrite Hadd;
    (destruct Hcases as [Heff|(-> & _ & Hfull)]; [|lia]);
    destruct Heff as [whtab1 pos _ _ Hc Hs Hn Hpc|whtab1 k _ _ _ Hc Hs Hp
                     |whtab1 Hwf1 Hsame Hpool _];
    try (eexists _, _; split; [reflexivity|];
         split_and!; try assumption; try rewrite ?Hp; lia).
  - cbn [length] in Hneed. lia.
  - apply Forall_cons in Hsome as [[b ->] Hsome].
    destruct (WordHashTable_MemoryPool_expand_spec whtab1 b Hwf1)
      as (whtab2 & Hexp & _ & _ & _ & _ & Hcap2 & Hsize2 & _ & _ & _ & Hnext2 & Hpcap2 & _).
    rewrite Hexp.
    destruct Hsame as (_ & Hcap1 & Hsize1 & Hpool1 & _).
    pose proof (wf_pool _ Hwf1) as (_ & _ & Hpos).
    rewrite Hpool1 in Hpos. cbn [length] in Hneed.
    destruct (IH whtab2) as (whtab' & heap' & Hret & Hr' & Hlen & Hs' & Hc' & Hz' & Hn').
    + eapply reach_pool_expand; eassumption.
    + lia.
    + rewrite Hnext2, Hpcap2, Hpool1. lia.
    + exact Hsome.
    + exists whtab', heap'. split; [exact Hret|].
      rewrite Hnext2, Hpcap2, Hpool1 in Hlen. rewrite Hnext2, Hpool1 in Hn'.
      split_and!; try assumption; cbn [length]; lia.
Qed.

Lemma size_below_70 whtab :
  WordHashTable_size_below whtab 70 = true ->
  WordHashTable.size whtab < WordHashTable.capacity whtab.
Proof.
  unfold WordHashTable_size_below. intros Hlt. apply Nat.ltb_lt in Hlt.
  apply Nat.lt_le_trans with (1 := Hlt).
  apply Nat.Div0.div_le_upper_bound. lia.
Qed.

Lemma count_words_succeeds :
  ∀ inputVector heap whtab,
    reachable whtab ->
    WordHashTable.size whtab < WordHashTable.capacity whtab ->
    Forall (fun buf => ∃ w, holds_word buf w) inputVector ->
    Forall is_Some heap ->
    length inputVector
    * (MemoryPool.nextChar (WordHashTable.stringsPool whtab)
       + pool_bytes inputVector + 4) <= length heap ->
    ∃ whtab' heap', count_words inputVector heap whtab = Finished (whtab', heap').
Proof.
  induction inputVector as [|buf inputVector IH];
    intros heap whtab Hr Hfree Hbufs Hsome Hheap; cbn [count_words]; [eauto|].
  apply Forall_cons in Hbufs as [[w Hbuf] Hbufs].
  unfold pool_bytes in Hheap. cbn [map sum_list_with length] in Hheap.
  fold (pool_bytes inputVector) in Hheap.
  set (len := WordBuffer.curPosition buf + 1) in *.
  set (nc := MemoryPool.nextChar (WordHashTable.stringsPool whtab)) in *.
  set (budget := nc + (len + pool_bytes inputVector) + 4) in *.
  assert (Hrounds : rounds_needed whtab buf + 3 <= budget).
  { unfold rounds_needed, budget. fold nc. fold len. lia. }
  assert (Hb : budget + length inputVector * budget <= length heap)
    by (cbn in Hheap; lia).
  destruct (add_word_retry_succeeds buf w Hbuf heap whtab Hr Hfree)
    as (whtab1 & heap1 & -> & Hr1 & Hlen1 & Hsome1 & Hcap1 & Hsize1 & Hnext1);
    [lia|exact Hsome|].
  fold len in Hnext1. fold nc in Hnext1.
  assert (Hnext : ∀ nc',
    nc' <= nc + len ->
    length inputVector * (nc' + pool_bytes inputVector + 4)
    <= length inputVector * budget).
  { intros nc' Hnc. apply Nat.mul_le_mono_l. unfold budget. lia. }
  destruct (WordHashTable_size_below whtab1 70) eqn:Hbelow; cbn [negb].
  - apply IH; [exact Hr1|apply size_below_70, Hbelow|exact Hbufs|exact Hsome1|].
    specialize (Hnext _ Hnext1). lia.
  - destruct (WordHashTable_expand_succeeds whtab1 heap1 (reachable_wf _ Hr1))
      as (whtab2 & heap2 & Hexp & Hlen2 & Hsome2 & Hnext2); [lia|exact Hsome1|].
    rewrite Hexp.
    destruct (WordHashTable_expand_spec _ _ _ _ (reachable_wf _ Hr1) Hexp)
      as (_ & _ & Hcap2 & Hsize2).
    pose proof (wf_capacity _ (reachable_wf _ Hr)) as Hpos.
    apply IH; [eapply reach_expand; eassumption|lia|exact Hbufs|exact Hsome2|].
    rewrite Hnext2. specialize (Hnext _ Hnext1). lia.
Qed.

Lemma main_returns fp heap :
  (Z.of_nat (length (snd (tokenize fp))) <= 2 ^ 63)%Z ->
  Forall is_Some heap -> main_budget fp <= length heap ->
  ∃ whtab rows, main fp heap = Finished (whtab, rows).
Proof.
  unfold main_budget, main, tokenize.
  destruct (get_input_holds fp) as (vec & ws & -> & Hvec & Hws).
  cbn [snd]. rewrite (WordBufferVector_at_tokens _ _ Hvec).
  rewrite (vec_holds_tokens _ _ Hvec).
  intros Hbound Hsome Hheap.
  assert (Hsize : WordBufferVector_get_size vec = length (map token_of ws)).
  { destruct Hvec as (_ & Hcur & _). unfold WordBufferVector_get_size.
    rewrite Hcur, length_map. reflexivity. }
  rewrite Hsize.
  pose proof (wtabInitSize_pos _ Hbound) as Hpos.
  set (c := wtabInitSize (length (map token_of ws))) in *.
  destruct heap as [|a1 heap]; [cbn in Hheap; lia|].
  apply Forall_cons in Hsome as [[b1 ->] Hsome].
  destruct heap as [|a2 heap]; [cbn in Hheap; lia|].
  apply Forall_cons in Hsome as [[b2 ->] Hsome].
  destruct heap as [|a3 heap]; [cbn in Hheap; lia|].
  apply Forall_cons in Hsome as [[b3 ->] Hsome].
  destruct heap as [|a4 heap]; [cbn in Hheap; lia|].
  apply Forall_cons in Hsome as [[b4 ->] Hsome].
  destruct (WordHashTable_create c (Some b1 :: Some b2 :: Some b3 :: Some b4 :: heap))
    as [[whtab0 heap0]| |] eqn:Hcreate; try discriminate.
  assert (Hr0 : reachable whtab0) by (eapply reach_create; eassumption).
  inversion Hcreate; subst whtab0 heap0.
  destruct (count_words_succeeds (map token_of ws) heap _ Hr0)
    as (whtab1 & heap1 & ->).
  - ht_simpl. exact Hpos.
  - apply Forall_forall. intros buf Hin.
    apply list_elem_of_fmap in Hin as (w & -> & Hw).
    rewrite Forall_forall in Hws. exists w.
    apply token_of_holds_word, (Hws w Hw).
  - exact Hsome.
  - ht_simpl. cbn [length] in Hheap. lia.
  - eauto.
Qed.


(** C2: the counts of the printed rows add up to the number of tokens.
    With an allocator that grants [main_budget] requests the run finishes
    and the sum is the number of tokens; the same holds for every finished
    run; and every successful [WordHashTable_add_word] raises the sum of the
    counts by exactly one, whether it inserts or matches. *)
Theorem counts_sum_to_tokens :
  (∀ fp heap,
     (Z.of_nat (length (snd (tokenize fp))) <= 2 ^ 63)%Z ->
     Forall is_Some heap -> main_budget fp <= length heap ->
     ∃ whtab rows,
       main fp heap = Finished (whtab, rows)
       ∧ sum_list (map snd rows) = length (snd (tokenize fp)))
  ∧ (∀ fp heap whtab rows,
       (Z.of_nat (length (snd (tokenize fp))) <= 2 ^ 63)%Z ->
       main fp heap = Finished (whtab, rows) ->
       sum_list (map snd rows) = length (snd (tokenize fp)))
  ∧ (∀ whtab buf w whtab',
       reachable whtab -> holds_word buf w ->
       WordHashTable_add_word whtab buf = Some (SUCCESS, whtab') ->
       total_count whtab' = S (total_count whtab)).
Proof.
  split_and!.
  - intros fp heap Hbound Hsome Hheap.
    destruct (main_returns fp heap Hbound Hsome Hheap) as (whtab & rows & Hmain).
    exists whtab, rows. split; [exact Hmain|].
    destruct (main_finished _ _ _ _ Hbound Hmain) as (_ & -> & Htot). exact Htot.
  - intros fp heap whtab rows Hbound Hmain.
    destruct (main_finished _ _ _ _ Hbound Hmain) as (_ & -> & Htot). exact Htot.
  - intros whtab buf w whtab' Hr Hbuf Hadd.
    destruct (reachable_add_word whtab buf w Hr Hbuf)
      as (st & whtab1 & Heq & Hr1 & Htot & _).
    rewrite Hadd in Heq. inversion Heq; subst.
    rewrite !total_count_report by (apply reachable_wf; assumption).
    exact Htot.
Qed.

(** ** Concrete runs *)

(** C1 (the code departs from the claim): on the text ["aba ara"] the
    tokenizer yields the two distinct words ["aba"] and ["ara"], one token
    each, but the report has the single row ["aba"] with count 2: the second
    word hashes to the slot of the first and passes the comparison of
    length, displacement, first and last character. *)
Theorem fingerprint_match_merges_words :
  tokenize (text "aba ara") = (SUCCESS, [token_of (text "aba"); token_of (text "ara")])
  ∧ rows_of (main (text "aba ara") (plenty 7)) = Some ([(text "aba", 2)], 4).
Proof. split; vm_compute; reflexivity. Qed.

(** C5 (the code departs from the claim): the same text gives different
    rows in a table that was resized on the way (capacity 2, then 4) and in
    a table created with 32 slots, which is never resized. *)
Theorem resized_and_presized_runs_differ :
  rows_of (main (text "aba ara") (plenty 7)) = Some ([(text "aba", 2)], 4)
  ∧ rows_of (run_with_capacity 32 (text "aba ara") (plenty 4))
    = Some ([(text "aba", 1); (text "ara", 1)], 32).
Proof. split; vm_compute; reflexivity. Qed.

(** C7 (the code departs from the claim): after the expansions that the
    texts below trigger, [maxLengthWordIndex] names the slot of ["d"]
    (length 2) although ["abc"] (length 4) is in the table, and
    [maxCountWordIndex] names the slot of ["cd"] (count 1) although ["c"]
    has count 2. *)
Theorem extremes_lost_in_rehash :
  extremes_of (main (text "d abc") (plenty 10))
  = Some ([(1, text "abc", 1, 4); (2, text "d", 1, 2)], 2, 2)
  ∧ extremes_of (main (text "cd c p j c a") (plenty 12))
    = Some ([(4, text "a", 1, 2); (6, text "c", 2, 2); (7, text "cd", 1, 3);
             (8, text "j", 1, 2); (13, text "p", 1, 2)], 7, 7).
Proof. split; vm_compute; reflexivity. Qed.

(** *** Instances of the conditional theorems *)

Lemma plenty_is_Some n : Forall is_Some (plenty n).
Proof.
  unfold plenty. apply Forall_forall. intros a Ha.
  apply list_elem_of_fmap in Ha as (k & -> & _). eexists. reflexivity.
Qed.

Lemma counts_sum_to_tokens_witness :
  ∃ whtab rows,
    main (text "b a b") (plenty 34) = Finished (whtab, rows)
    ∧ sum_list (map snd rows) = 3.
Proof.
  destruct (proj1 counts_sum_to_tokens (text "b a b") (plenty 34))
    as (whtab & rows & Hmain & Hsum).
  - vm_compute. discriminate.
  - apply plenty_is_Some.
  - vm_compute. lia.
  - exists whtab, rows. split; [exact Hmain|].
    rewrite Hsum. vm_compute. reflexivity.
Defined.

Lemma text_nonzero_b : Forall (fun c => c ≠ 0%Z) (text "b").
Proof. repeat constructor; discriminate. Qed.

Lemma text_nonzero_a : Forall (fun c => c ≠ 0%Z) (text "a").
Proof. repeat constructor; discriminate. Qed.

Lemma reachable_created_4 : reachable (created 4).
Proof. eapply (reach_create 4 (plenty 4)); [lia|vm_compute; reflexivity]. Defined.

Lemma reachable_created_1 : reachable (created 1).
Proof. eapply (reach_create 1 (plenty 4)); [lia|vm_compute; reflexivity]. Defined.

Lemma reachable_sample : reachable sample_table.
Proof.
  eapply reach_add_word;
    [eapply reach_add_word;
       [exact reachable_created_4
       |apply (token_of_holds_word (text "b")), text_nonzero_b
       |vm_compute; reflexivity]
    |apply (token_of_holds_word (text "a")), text_nonzero_a
    |vm_compute; reflexivity].
Defined.

Lemma reachable_full : reachable full_table.
Proof.
  eapply reach_add_word;
    [exact reachable_created_1
    |apply (token_of_holds_word (text "a")), text_nonzero_a
    |vm_compute; reflexivity].
Defined.

Lemma alphabetical_index_sorted_witness :
  reachable sample_table
  ∧ WordHashTable_count_print sample_table = [(text "a", 1); (text "b", 1)]
  ∧ length (live sample_table) = WordHashTable.size sample_table.
Proof.
  split_and!; [exact reachable_sample|vm_compute; reflexivity|].
  exact (proj1 (alphabetical_index_sorted sample_table reachable_sample)).
Defined.

Lemma pool_expansion_keeps_words_witness :
  reachable sample_table
  ∧ WordHashTable_MemoryPool_expand sample_table (Some moved_block)
    = (SUCCESS, sample_table_moved)
  ∧ 3 ∈ live sample_table
  ∧ word_of sample_table 3 = text "b"
  ∧ 3 ∈ live sample_table_moved
  ∧ word_of sample_table_moved 3 = text "b"
  ∧ WordHashTabEntry.letters (entry_at sample_table 3) = 16384%Z
  ∧ WordHashTabEntry.letters (entry_at sample_table_moved 3) = 100000%Z.
Proof.
  assert (Hexp : WordHashTable_MemoryPool_expand sample_table (Some moved_block)
                 = (SUCCESS, sample_table_moved)) by (vm_compute; reflexivity).
  assert (Hin : 3 ∈ live sample_table).
  { vm_compute. apply list_elem_of_further, list_elem_of_here. }
  destruct (pool_expansion_keeps_words sample_table (Some moved_block)
              sample_table_moved reachable_sample Hexp 3 Hin)
    as (Hin' & _ & _).
  split_and!; try (vm_compute; reflexivity); try assumption.
  exact reachable_sample.
Defined.

Lemma pool_full_is_recoverable_witness :
  ∃ whtab1 whtab' heap',
    WordHashTable_add_word (created 1) (token_of (text "abcdefgh"))
    = Some (DATA_STRUCT_FULL, whtab1)
    ∧ same_observable (created 1) whtab1
    ∧ add_word_retry (plenty 4) (created 1) (token_of (text "abcdefgh"))
      = Finished (SUCCESS, whtab', heap')
    ∧ WordHashTable_count_print whtab' = [(text "abcdefgh", 1)].
Proof.
  assert (Hbuf : holds_word (token_of (text "abcdefgh")) (text "abcdefgh")).
  { apply token_of_holds_word. repeat constructor; discriminate. }
  remember (WordHashTable_add_word (created 1) (token_of (text "abcdefgh")))
    as r eqn:Hadd.
  destruct r as [[[| |] whtab1]|]; try (vm_compute in Hadd; discriminate Hadd).
  symmetry in Hadd.
  destruct (pool_full_is_recoverable (created 1) _ _ whtab1
              reachable_created_1 Hbuf Hadd) as (Hsame & _ & Hloop).
  destruct (Hloop (plenty 4) ltac:(vm_compute; lia))
    as [[Hfail _]|(whtab' & heap' & Hdone & _ & _ & _ & Hrows & _)].
  { vm_compute in Hfail. discriminate Hfail. }
  exists whtab1, whtab', heap'. split_and!; [reflexivity|exact Hsame|exact Hdone|].
  cbv zeta in Hrows.
  replace (WordHashTable_count_print (created 1)) with (@nil (list Z * nat)) in Hrows
    by (vm_compute; reflexivity).
  destruct Hrows as [(pos & Hrows & _)|(j & word & n & Hj & _)].
  - rewrite Hrows, take_nil, drop_nil. reflexivity.
  - rewrite lookup_nil in Hj. discriminate Hj.
Defined.

Lemma add_word_probing_terminates_witness :
  WordHashTable_add_word full_table (token_of (text "bb")) = Some (GEN_FAIL, full_table).
Proof.
  apply (proj2 (proj2 (proj2
           (add_word_probing_terminates full_table (token_of (text "bb")))))).
  intros d Hd.
  replace (add_word_hashIndex full_table (token_of (text "bb"))) with 0 in *
    by (vm_compute; reflexivity).
  change (WordHashTable.capacity full_table) with 1 in Hd.
  destruct Hd as [->|[Hlt Hm]]; [vm_compute; reflexivity|].
  destruct d as [|d]; [lia|]. cbn in Hm. discriminate.
Defined.


(** * Further properties of the code *)

(** ** utils.c and the initial capacity *)

Lemma smeared_start v : smeared v 1 v.
Proof.
  intros i Hi. split.
  - intros H. exists 0%Z. rewrite Z.add_0_r. split; [lia|exact H].
  - intros (j & Hj & H). replace j with 0%Z in H by lia.
    rewrite Z.add_0_r in H. exact H.
Qed.

Lemma smeared_step v m x :
  (0 < m)%Z -> smeared v m x -> smeared v (2 * m) (Z.lor x (Z.shiftr x m)).
Proof.
  intros Hm Hx i Hi.
  rewrite Z.lor_spec, Z.shiftr_spec by lia.
  rewrite orb_true_iff, (Hx i Hi), (Hx (i + m)%Z) by lia. split.
  - intros [(j & Hj & H)|(j & Hj & H)].
    + exists j. split; [lia|exact H].
    + exists (m + j)%Z. split; [lia|].
      replace (i + (m + j))%Z with (i + m + j)%Z by lia. exact H.
  - intros (j & Hj & H). destruct (Z.lt_ge_cases j m).
    + left. exists j. split; [lia|exact H].
    + right. exists (j - m)%Z. split; [lia|].
      replace (i + m + (j - m))%Z with (i + j)%Z by lia. exact H.
Qed.

Lemma smeared_ones v x :
  (0 < v < 2 ^ 64)%Z -> (0 <= x)%Z -> smeared v 64 x ->
  x = (2 ^ (Z.log2 v + 1) - 1)%Z.
Proof.
  intros Hv Hx0 Hx.
  assert (HL : (0 <= Z.log2 v < 64)%Z).
  { split; [apply Z.log2_nonneg|apply Z.log2_lt_pow2; lia]. }
  replace (2 ^ (Z.log2 v + 1) - 1)%Z with (Z.ones (Z.log2 v + 1))
    by (rewrite Z.ones_equiv; lia).
  apply Z.bits_inj'. intros i Hi.
  destruct (Z.lt_ge_cases i (Z.log2 v + 1)) as [Hlow|Hhigh].
  - rewrite Z.ones_spec_low by lia. apply Hx; [exact Hi|].
    exists (Z.log2 v - i)%Z. split; [lia|].
    replace (i + (Z.log2 v - i))%Z with (Z.log2 v) by lia.
    apply Z.bit_log2. lia.
  - rewrite Z.ones_spec_high by lia.
    destruct (Z.testbit x i) eqn:Hb; [|reflexivity].
    apply Hx in Hb as (j & Hj & Hb); [|exact Hi].
    rewrite Z.bits_above_log2 in Hb by lia. discriminate.
Qed.

Lemma smear_nonneg (v k : Z) : (0 <= v)%Z -> (0 <= Z.lor v (Z.shiftr v k))%Z.
Proof. intros Hv. apply Z.lor_nonneg. split; [exact Hv|apply Z.shiftr_nonneg, Hv]. Qed.

Lemma next_2power_log2 num :
  2 <= num -> (Z.of_nat num <= 2 ^ 64)%Z ->
  Z.of_nat (next_2power num) = wrap64 (2 ^ (Z.log2 (Z.of_nat num - 1) + 1)).
Proof.
  intros Hnum Hmax. unfold next_2power.
  destruct (Nat.eqb_spec num 0); [lia|].
  assert (Hv0 : wrap64 (Z.of_nat num - 1) = (Z.of_nat num - 1)%Z).
  { unfold wrap64. rewrite Z.mod_small; lia. }
  set (v0 := wrap64 (Z.of_nat num - 1)) in *.
  assert (H0 : (0 <= v0)%Z) by lia.
  pose proof (smeared_start v0) as S0.
  pose proof (smear_nonneg v0 1%Z H0) as H1.
  set (v1 := Z.lor v0 (Z.shiftr v0 1)) in *.
  assert (S1 : smeared v0 2 v1) by (apply (smeared_step v0 1 v0); [lia|exact S0]).
  pose proof (smear_nonneg v1 2%Z H1) as H2.
  set (v2 := Z.lor v1 (Z.shiftr v1 2)) in *.
  assert (S2 : smeared v0 4 v2) by (apply (smeared_step v0 2 v1); [lia|exact S1]).
  pose proof (smear_nonneg v2 4%Z H2) as H3.
  set (v3 := Z.lor v2 (Z.shiftr v2 4)) in *.
  assert (S3 : smeared v0 8 v3) by (apply (smeared_step v0 4 v2); [lia|exact S2]).
  pose proof (smear_nonneg v3 8%Z H3) as H4.
  set (v4 := Z.lor v3 (Z.shiftr v3 8)) in *.
  assert (S4 : smeared v0 16 v4) by (apply (smeared_step v0 8 v3); [lia|exact S3]).
  pose proof (smear_nonneg v4 16%Z H4) as H5.
  set (v5 := Z.lor v4 (Z.shiftr v4 16)) in *.
  assert (S5 : smeared v0 32 v5) by (apply (smeared_step v0 16 v4); [lia|exact S4]).
  pose proof (smear_nonneg v5 32%Z H5) as H6.
  set (v6 := Z.lor v5 (Z.shiftr v5 32)) in *.
  assert (S6 : smeared v0 64 v6) by (apply (smeared_step v0 32 v5); [lia|exact S5]).
  apply smeared_ones in S6; [|lia|lia].
  rewrite S6, Hv0.
  replace (2 ^ (Z.log2 (Z.of_nat num - 1) + 1) - 1 + 1)%Z
    with (2 ^ (Z.log2 (Z.of_nat num - 1) + 1))%Z by lia.
  apply Z2Nat.id. unfold wrap64. apply Z.mod_pos_bound. lia.
Qed.

Lemma next_2power_spec num :
  1 <= num -> (Z.of_nat num <= 2 ^ 63)%Z ->
  ∃ k, next_2power num = 2 ^ k ∧ num <= 2 ^ k ∧ 2 ^ k < 2 * num.
Proof.
  intros H1 Hmax.
  destruct (decide (num = 1)) as [->|Hne].
  { exists 0. split; [reflexivity|cbn; lia]. }
  pose proof (next_2power_log2 num ltac:(lia) ltac:(lia)) as Hp.
  set (L := Z.log2 (Z.of_nat num - 1)) in *.
  assert (HL : (0 <= L < 63)%Z).
  { split; [apply Z.log2_nonneg|apply Z.log2_lt_pow2; lia]. }
  pose proof (Z.log2_spec (Z.of_nat num - 1) ltac:(lia)) as [Hlo Hhi]. fold L in Hlo, Hhi.
  replace (Z.succ L) with (L + 1)%Z in Hhi by lia.
  assert (Hpow : (2 ^ (L + 1) = 2 * 2 ^ L)%Z)
    by (rewrite Z.pow_add_r by lia; lia).
  assert (Hle : (2 ^ (L + 1) <= 2 ^ 63)%Z) by (apply Z.pow_le_mono_r; lia).
  unfold wrap64 in Hp. rewrite Z.mod_small in Hp by lia.
  exists (Z.to_nat (L + 1)).
  assert (Hk : Z.of_nat (2 ^ Z.to_nat (L + 1)) = (2 ^ (L + 1))%Z).
  { rewrite Nat2Z.inj_pow, Z2Nat.id by lia. reflexivity. }
  split_and!; lia.
Qed.

(** X1: [next_2power] rounds its argument up to a power of two: the
    result is the power of two [p] with [num <= p < 2 * num].  For 0 it is
    1, and above [2^63] the increment wraps around to 0. *)
Theorem next_2power_rounds_up :
  next_2power 0 = 1
  ∧ (∀ num, 1 <= num -> (Z.of_nat num <= 2 ^ 63)%Z ->
       ∃ k, next_2power num = 2 ^ k ∧ num <= 2 ^ k ∧ 2 ^ k < 2 * num)
  ∧ (∀ num, (2 ^ 63 < Z.of_nat num <= 2 ^ 64)%Z -> next_2power num = 0).
Proof.
  split_and!.
  - reflexivity.
  - apply next_2power_spec.
  - intros num Hnum.
    pose proof (next_2power_log2 num ltac:(lia) ltac:(lia)) as Hp.
    replace (Z.log2 (Z.of_nat num - 1)) with 63%Z in Hp.
    + change (wrap64 (2 ^ (63 + 1))) with 0%Z in Hp. lia.
    + symmetry. apply Z.log2_unique; [lia|].
      change (2 ^ Z.succ 63)%Z with (2 ^ 64)%Z. lia.
Qed.

Lemma next_2power_rounds_up_witness :
  ∃ k, next_2power 100 = 2 ^ k ∧ 100 <= 2 ^ k ∧ 2 ^ k < 2 * 100.
Proof.
  apply (proj1 (proj2 next_2power_rounds_up) 100); [lia|vm_compute; discriminate].
Defined.

(** X2: the initial capacity [main] computes from the number of tokens is
    a power of two [p] with [2/3 n < p <= 4/3 n]; without tokens it is 1. *)
Theorem wtabInitSize_closest_power :
  wtabInitSize 0 = 1
  ∧ ∀ inputSize, 1 <= inputSize -> (Z.of_nat inputSize <= 2 ^ 63)%Z ->
      ∃ k, wtabInitSize inputSize = 2 ^ k
           ∧ 2 * inputSize < 3 * 2 ^ k ∧ 3 * 2 ^ k <= 4 * inputSize.
Proof.
  split; [reflexivity|].
  intros n H1 Hmax. unfold wtabInitSize.
  destruct (next_2power_spec n H1 Hmax) as (k & -> & Hle & Hlt).
  destruct k as [|k].
  { exists 0. cbn in *. assert (n = 1) as -> by lia. cbn. lia. }
  replace (2 ^ S k / 2) with (2 ^ k)
    by (rewrite Nat.pow_succ_r', Nat.mul_comm, Nat.div_mul; lia).
  rewrite Nat.pow_succ_r' in Hle, Hlt.
  destruct (Nat.leb_spec (2 ^ k / 2) (n - 2 ^ k)) as [Hc|Hc].
  - exists (S k). rewrite Nat.pow_succ_r'. split; [reflexivity|].
    destruct k as [|k]; [cbn in *; lia|].
    rewrite Nat.pow_succ_r' in *.
    replace (2 * 2 ^ k / 2) with (2 ^ k) in Hc
      by (rewrite (Nat.mul_comm 2), Nat.div_mul; lia).
    lia.
  - exists k. split; [reflexivity|].
    pose proof (Nat.Div0.mul_div_le (2 ^ k) 2). lia.
Qed.

Lemma wtabInitSize_closest_power_witness :
  ∃ k, wtabInitSize 11 = 2 ^ k ∧ 2 * 11 < 3 * 2 ^ k ∧ 3 * 2 ^ k <= 4 * 11.
Proof.
  apply (proj2 wtabInitSize_closest_power 11); [lia|vm_compute; discriminate].
Defined.

Lemma c_string_nonzero l : Forall (fun c => c ≠ 0%Z) (c_string l).
Proof.
  induction l as [|c l IH]; cbn [c_string]; [constructor|].
  destruct (Z.eqb_spec c 0); [constructor|]. constructor; assumption.
Qed.

Lemma strncpy_length src cnt : length (strncpy src cnt) = cnt.
Proof.
  revert src. induction cnt as [|n IH]; intros [|c s]; cbn [strncpy];
    [reflexivity|reflexivity|apply repeat_length|].
  destruct (c =? 0)%Z; [apply repeat_length|]. cbn [length]. rewrite IH. reflexivity.
Qed.

(** [strncpy] in closed form: the characters of the source string, cut at
    [cnt], then NUL up to [cnt]. *)
Lemma strncpy_c_string src cnt :
  strncpy src cnt
  = take cnt (c_string src) ++ repeat 0%Z (cnt - length (c_string src)).
Proof.
  revert src. induction cnt as [|n IH]; intros [|c s];
    [reflexivity|reflexivity|reflexivity|].
  cbn [strncpy].
  cbn [c_string]. destruct (c =? 0)%Z; [reflexivity|].
  cbn [take length app]. rewrite IH. reflexivity.
Qed.

(** X3: [string_copy] refuses a count of 0 and otherwise
    behaves as [strncpy]: it writes exactly [cnt] bytes and leaves the rest
    of the destination alone.  A source string shorter than [cnt] arrives
    complete and NUL-terminated; a source string of [cnt] characters or more
    is cut after [cnt] characters and no terminator is written. *)
Theorem string_copy_is_strncpy dst src cnt :
  (cnt = 0 -> string_copy dst src cnt = (false, dst))
  ∧ (0 < cnt -> cnt <= length dst ->
     ∃ dst', string_copy dst src cnt = (true, dst')
       ∧ length dst' = length dst
       ∧ drop cnt dst' = drop cnt dst
       ∧ (length (c_string src) < cnt -> c_string dst' = c_string src)
       ∧ (cnt <= length (c_string src) ->
          take cnt dst' = take cnt (c_string src)
          ∧ Forall (fun c => c ≠ 0%Z) (take cnt dst'))).
Proof.
  split.
  - intros ->. reflexivity.
  - intros Hpos Hlen. unfold string_copy.
    destruct (Nat.eqb_spec cnt 0); [lia|].
    eexists. split; [reflexivity|].
    pose proof (strncpy_length src cnt) as Hn.
    split_and!.
    + rewrite length_app, Hn, length_drop. lia.
    + rewrite drop_app_length'; [reflexivity|symmetry; exact Hn].
    + intros Hshort. rewrite strncpy_c_string.
      rewrite take_ge by lia.
      destruct (cnt - length (c_string src)) as [|k] eqn:Hk; [lia|].
      cbn [repeat]. rewrite <- app_assoc. cbn [app].
      apply c_string_word, c_string_nonzero.
    + intros Hlong.
      assert (Ht : take cnt (strncpy src cnt ++ drop cnt dst)
                   = take cnt (c_string src)).
      { rewrite take_app_length'; [|symmetry; exact Hn].
        rewrite strncpy_c_string.
        replace (cnt - length (c_string src)) with 0 by lia.
        apply app_nil_r. }
      split; [exact Ht|]. rewrite Ht.
      apply Forall_take, c_string_nonzero.
Qed.

Lemma string_copy_is_strncpy_witness :
  ∃ dst', string_copy (text "XXXXXX") (text "ab") 4 = (true, dst')
          ∧ c_string dst' = text "ab".
Proof.
  destruct (proj2 (string_copy_is_strncpy (text "XXXXXX") (text "ab") 4))
    as (dst' & Heq & _ & _ & Hs & _); [lia|cbn; lia|].
  exists dst'. split; [exact Heq|].
  rewrite Hs; [reflexivity|vm_compute; lia].
Defined.

Lemma fnvhash_range hword wlen : (0 <= fnvhash hword wlen < 2 ^ 64)%Z.
Proof.
  unfold fnvhash. generalize (take wlen hword). intros l.
  assert (H0 : (0 <= FNV_OFFSET < 2 ^ 64)%Z) by (vm_compute; split; congruence).
  revert H0. generalize FNV_OFFSET.
  induction l as [|b l IH]; intros h Hh; [exact Hh|].
  cbn [fold_left]. apply IH. unfold wrap64. apply Z.mod_pos_bound. lia.
Qed.

(** X4: [fnvhash] is FNV-1a: it starts from the offset basis,
    folds in one byte per step by xor and multiplication with the prime
    modulo [2^64], and reads only the first [wlen] bytes.  The result is a
    64-bit value, the published test vector for ["foobar"] comes out, and
    the slot derived from it lies inside every non-empty table. *)
Theorem fnvhash_is_fnv1a :
  (∀ hword, fnvhash hword 0 = FNV_OFFSET)
  ∧ (∀ w b rest,
       fnvhash (w ++ b :: rest) (S (length w))
       = wrap64 (Z.lxor (fnvhash (w ++ b :: rest) (length w)) b * FNV_PRIME))
  ∧ (∀ w rest rest',
       fnvhash (w ++ rest) (length w) = fnvhash (w ++ rest') (length w))
  ∧ (∀ hword wlen, (0 <= fnvhash hword wlen < 2 ^ 64)%Z)
  ∧ fnvhash (text "foobar") 6 = 0x85944171f73967e8%Z
  ∧ (∀ hword wlen capacity, 0 < capacity -> hash_slot hword wlen capacity < capacity).
Proof.
  split_and!.
  - intros hword. unfold fnvhash. rewrite take_0. reflexivity.
  - intros w b rest. unfold fnvhash.
    replace (take (S (length w)) (w ++ b :: rest)) with (w ++ [b]).
    + rewrite take_app_length, fold_left_app. reflexivity.
    + replace (w ++ b :: rest) with ((w ++ [b]) ++ rest)
        by (rewrite <- app_assoc; reflexivity).
      rewrite take_app_length'; [reflexivity|]. rewrite length_app. cbn. lia.
  - intros w rest rest'. unfold fnvhash. rewrite !take_app_length. reflexivity.
  - apply fnvhash_range.
  - vm_compute. reflexivity.
  - intros hword wlen capacity Hc. apply hash_slot_lt, Hc.
Qed.

Lemma fnvhash_is_fnv1a_witness :
  hash_slot (text "word") 4 8 < 8.
Proof.
  apply (proj2 (proj2 (proj2 (proj2 (proj2 fnvhash_is_fnv1a))))). lia.
Defined.

(** ** Word Buffer and Word Buffer Vector *)

Lemma WordBuffer_create_holds_any initLen :
  2 <= initLen ->
  ∃ wbuf, WordBuffer_create initLen = Some wbuf
          ∧ WordBuffer_init initLen = (SUCCESS, wbuf)
          ∧ wbuf_holds wbuf [] ∧ WordBuffer.capacity wbuf = initLen.
Proof.
  intros H2. unfold WordBuffer_create, WordBuffer_init.
  destruct (Nat.ltb_spec initLen 2); [lia|].
  eexists. split_and!; try reflexivity.
  destruct initLen as [|n]; [lia|]. cbn [repeat].
  split_and!; wb_simpl.
  - eexists. reflexivity.
  - reflexivity.
  - cbn. rewrite repeat_length. reflexivity.
  - lia.
Qed.

Lemma wbuf_holds_read wbuf w :
  wbuf_holds wbuf w ->
  token_word wbuf = w
  ∧ char_at (WordBuffer.letters wbuf) (Z.of_nat (WordBuffer.curPosition wbuf)) = 0%Z
  ∧ WordBuffer.curPosition wbuf < WordBuffer.capacity wbuf
  ∧ (Forall (fun c => c ≠ 0%Z) w -> c_string (WordBuffer.letters wbuf) = w).
Proof.
  intros ([rest Hl] & Hcur & Hcap & H2). unfold token_word, char_at.
  rewrite Hl, Hcur. split_and!.
  - apply take_app_length.
  - destruct (Z.ltb_spec (Z.of_nat (length w)) 0); [lia|].
    rewrite Nat2Z.id. rewrite app_nth2 by lia.
    replace (length w - length w) with 0 by lia. reflexivity.
  - rewrite Hcap, Hl, length_app. cbn. lia.
  - apply c_string_word.
Qed.

Lemma WordBuffer_push_char_grown initLen wbuf c :
  WordBuffer.curPosition wbuf < WordBuffer.capacity wbuf ->
  grown initLen (WordBuffer.curPosition wbuf) (WordBuffer.capacity wbuf) ->
  let wbuf' := snd (WordBuffer_push_char wbuf c) in
  grown initLen (WordBuffer.curPosition wbuf') (WordBuffer.capacity wbuf')
  ∧ WordBuffer.capacity wbuf'
    = if WordBuffer.capacity wbuf - 1 <=? WordBuffer.curPosition wbuf
      then 2 * WordBuffer.capacity wbuf else WordBuffer.capacity wbuf.
Proof.
  intros Hlt (k & Hk & Hmin). unfold WordBuffer_push_char.
  destruct (Nat.leb_spec (WordBuffer.capacity wbuf - 1) (WordBuffer.curPosition wbuf));
    cbn [snd]; wb_simpl.
  - split; [|lia]. exists (S k). rewrite Nat.pow_succ_r'. split; [lia|right; lia].
  - split; [|reflexivity]. exists k. split; [exact Hk|].
    destruct Hmin; [left; assumption|right; lia].
Qed.

Lemma WordBuffer_push_chars initLen (w : list Z) :
  ∀ wbuf w0,
    wbuf_holds wbuf w0 ->
    grown initLen (WordBuffer.curPosition wbuf) (WordBuffer.capacity wbuf) ->
    let wbuf' := fold_left (fun b c => snd (WordBuffer_push_char b c)) w wbuf in
    wbuf_holds wbuf' (w0 ++ map to_char w)
    ∧ grown initLen (WordBuffer.curPosition wbuf') (WordBuffer.capacity wbuf').
Proof.
  induction w as [|c w IH]; intros wbuf w0 Hh Hg; cbn [fold_left map].
  - rewrite app_nil_r. split; assumption.
  - destruct (WordBuffer_push_char_holds wbuf w0 c Hh) as (wbuf1 & Heq & Hh1).
    pose proof (wbuf_holds_read _ _ Hh) as (_ & _ & Hlt & _).
    pose proof (WordBuffer_push_char_grown initLen wbuf c Hlt Hg) as [Hg1 _].
    rewrite Heq in *. cbn [snd] in *.
    replace (w0 ++ to_char c :: map to_char w) with ((w0 ++ [to_char c]) ++ map to_char w)
      by (rewrite <- app_assoc; reflexivity).
    apply IH; assumption.
Qed.

Lemma to_char_range c :
  (-128 <= to_char c < 128)%Z ∧ ((to_char c - c) mod 256 = 0)%Z.
Proof.
  unfold to_char. pose proof (Z.mod_pos_bound (c + 128) 256 eq_refl) as Hb.
  split; [lia|].
  rewrite (Z.mod_eq (c + 128) 256) by lia.
  replace (c + 128 - 256 * ((c + 128) / 256) - 128 - c)%Z
    with (- ((c + 128) / 256) * 256)%Z by lia.
  apply Z_mod_mult.
Qed.

(** X5: a Word Buffer cannot be created with fewer than
    two bytes.  With the allocations granted, an initial length that fits
    [uint32_t] and a word [w] of fewer than [2^31] characters: no capacity
    on the way wraps around, and after the characters of [w] were pushed
    into the new buffer it holds exactly what the conversion to [char]
    makes of them, NUL-terminated at the cursor, inside its [capacity]
    bytes; the capacity is the initial length doubled as often as needed
    to exceed the length of [w], and no further. *)
Theorem WordBuffer_holds_pushed_chars initLen (w : list Z) :
  (Z.of_nat initLen < 2 ^ 32)%Z ->
  (initLen < 2 ->
   WordBuffer_create initLen = None ∧ fst (WordBuffer_init initLen) = GEN_FAIL)
  ∧ (2 <= initLen -> (2 * Z.of_nat (length w) < 2 ^ 32)%Z ->
     ∃ wbuf0, WordBuffer_create initLen = Some wbuf0
       ∧ (∀ n, (Z.of_nat
                  (WordBuffer.capacity
                     (fold_left (fun b c => snd (WordBuffer_push_char b c))
                                (take n w) wbuf0)) < 2 ^ 32)%Z)
       ∧ let wbuf := fold_left (fun b c => snd (WordBuffer_push_char b c)) w wbuf0 in
         token_word wbuf = map to_char w
         ∧ WordBuffer.curPosition wbuf = length w
         ∧ char_at (WordBuffer.letters wbuf) (Z.of_nat (length w)) = 0%Z
         ∧ (Forall (fun c => to_char c ≠ 0%Z) w ->
            c_string (WordBuffer.letters wbuf) = map to_char w)
         ∧ length (WordBuffer.letters wbuf) = WordBuffer.capacity wbuf
         ∧ length w < WordBuffer.capacity wbuf
         ∧ ∃ k, WordBuffer.capacity wbuf = initLen * 2 ^ k
                ∧ (k = 0 ∨ WordBuffer.capacity wbuf <= 2 * length w)).
Proof.
  intros Hinit. split.
  - intros Hlt. unfold WordBuffer_create, WordBuffer_init.
    destruct (Nat.ltb_spec initLen 2); [split; reflexivity|lia].
  - intros H2 Hw.
    destruct (WordBuffer_create_holds_any initLen H2) as (wbuf0 & Hc & _ & Hh0 & Hcap0).
    exists wbuf0. split; [exact Hc|].
    assert (Hg0 : grown initLen (WordBuffer.curPosition wbuf0) (WordBuffer.capacity wbuf0)).
    { exists 0. rewrite Hcap0. cbn. split; [lia|left; reflexivity]. }
    split.
    { intros n.
      destruct (WordBuffer_push_chars initLen (take n w) wbuf0 [] Hh0 Hg0)
        as [Hh (k & Hk & Hmin)].
      destruct Hh as (_ & Hcur & _). cbn [app] in Hcur.
      rewrite length_map, length_take in Hcur.
      destruct Hmin as [->|Hle].
      - rewrite Hk, Nat.pow_0_r, Nat.mul_1_r. exact Hinit.
      - lia. }
    destruct (WordBuffer_push_chars initLen w wbuf0 [] Hh0 Hg0) as [Hh Hg].
    cbn [app] in Hh.
    pose proof (wbuf_holds_read _ _ Hh) as (Htok & Hnul & Hlt & Hstr).
    destruct Hh as (_ & Hcur & Hcap & _).
    rewrite length_map in Hcur.
    cbv zeta. rewrite Hcur in *.
    split_and!; try assumption; try reflexivity; try (symmetry; exact Hcap).
    intros Hnz. apply Hstr. apply Forall_fmap. exact Hnz.
Qed.

Lemma WordBuffer_holds_pushed_chars_witness :
  ∃ wbuf0, WordBuffer_create 2 = Some wbuf0
    ∧ let wbuf := fold_left (fun b c => snd (WordBuffer_push_char b c))
                            (text "hello" ++ [353%Z]) wbuf0 in
      token_word wbuf = text "helloa" ∧ WordBuffer.capacity wbuf = 8.
Proof.
  destruct (proj2 (WordBuffer_holds_pushed_chars 2 (text "hello" ++ [353%Z])
                     ltac:(vm_compute; reflexivity)))
    as (wbuf0 & Hc & _ & Htok & _); [lia|vm_compute; reflexivity|].
  exists wbuf0. split; [exact Hc|]. split; [exact Htok|].
  injection Hc as <-. vm_compute. reflexivity.
Defined.

(** X6: editing a Word Buffer that holds [w], with the
    reallocation granted and a capacity below [2^31], so that its double
    fits [uint32_t].  Pushing [c] appends [(char) c], the value of [c]
    modulo 256 taken from -128 to 127 (so [c] itself from 0 to 127), and
    doubles the capacity exactly when the cursor was at the last byte but
    one; a backspace takes the character off again without shrinking the
    buffer; a backspace on an empty buffer changes nothing; clearing
    leaves the empty word in a buffer of the same capacity. *)
Theorem WordBuffer_edit_laws wbuf w c :
  wbuf_holds wbuf w ->
  (2 * Z.of_nat (WordBuffer.capacity wbuf) < 2 ^ 32)%Z ->
  (∃ wbuf', WordBuffer_push_char wbuf c = (SUCCESS, wbuf')
      ∧ wbuf_holds wbuf' (w ++ [to_char c])
      ∧ wbuf_holds (WordBuffer_backspace wbuf') w
      ∧ WordBuffer.capacity (WordBuffer_backspace wbuf') = WordBuffer.capacity wbuf'
      ∧ WordBuffer.capacity wbuf'
        = (if WordBuffer.capacity wbuf - 1 <=? WordBuffer.curPosition wbuf
           then 2 * WordBuffer.capacity wbuf else WordBuffer.capacity wbuf)
      ∧ (Z.of_nat (WordBuffer.capacity wbuf') < 2 ^ 32)%Z)
  ∧ ((-128 <= to_char c < 128)%Z
     ∧ ((to_char c - c) mod 256 = 0)%Z
     ∧ ((0 <= c < 128)%Z -> to_char c = c))
  ∧ (w = [] -> WordBuffer_backspace wbuf = wbuf)
  ∧ wbuf_holds (WordBuffer_clear wbuf) []
  ∧ WordBuffer.capacity (WordBuffer_clear wbuf) = WordBuffer.capacity wbuf.
Proof.
  intros Hh Hbound. split_and!.
  - destruct (WordBuffer_push_char_holds wbuf w c Hh) as (wbuf' & Heq & Hh').
    assert (Hcap : WordBuffer.capacity wbuf'
                   = (if WordBuffer.capacity wbuf - 1 <=? WordBuffer.curPosition wbuf
                      then 2 * WordBuffer.capacity wbuf else WordBuffer.capacity wbuf)).
    { rewrite <- (f_equal snd Heq : snd (WordBuffer_push_char wbuf c) = wbuf').
      unfold WordBuffer_push_char.
      destruct (WordBuffer.capacity wbuf - 1 <=? WordBuffer.curPosition wbuf);
        cbn [snd]; wb_simpl; lia. }
    exists wbuf'. split_and!; [exact Heq|exact Hh'| | |exact Hcap|].
    + apply (WordBuffer_backspace_holds _ _ (to_char c)), Hh'.
    + unfold WordBuffer_backspace.
      destruct (1 <=? WordBuffer.curPosition wbuf'); reflexivity.
    + rewrite Hcap.
      destruct (WordBuffer.capacity wbuf - 1 <=? WordBuffer.curPosition wbuf); lia.
  - apply (to_char_range c).
  - apply (to_char_range c).
  - apply (to_char_range c).
  - apply to_char_small.
  - intros ->. destruct Hh as (_ & Hcur & _). unfold WordBuffer_backspace.
    rewrite Hcur. reflexivity.
  - apply (WordBuffer_clear_holds _ w), Hh.
  - reflexivity.
Qed.

Lemma WordBuffer_edit_laws_witness :
  ∃ wbuf wbuf',
    WordBuffer_create 2 = Some wbuf
    ∧ WordBuffer_push_char wbuf 353%Z = (SUCCESS, wbuf')
    ∧ wbuf_holds wbuf' [chr "a"]
    ∧ wbuf_holds (WordBuffer_backspace wbuf') [].
Proof.
  destruct (WordBuffer_create_holds_any 2) as (wbuf & Hc & _ & Hh & Hcap); [lia|].
  destruct (proj1 (WordBuffer_edit_laws wbuf [] 353%Z Hh
                     ltac:(rewrite Hcap; vm_compute; reflexivity)))
    as (wbuf' & Heq & Hh' & Hb & _).
  exists wbuf, wbuf'. split_and!; assumption.
Defined.

Lemma vec_holds_at vec ws i w :
  vec_holds vec ws -> ws !! i = Some w ->
  WordBufferVector_at vec i = token_of w
  ∧ c_string (WordBufferVector_word_at vec i) = c_string (w ++ [0%Z]).
Proof.
  intros ([rest Hb] & _) Hi.
  assert (H : WordBufferVector.buffers vec !!! i = token_of w).
  { apply list_lookup_total_correct. rewrite Hb.
    apply lookup_app_l_Some. rewrite list_lookup_fmap, Hi. reflexivity. }
  unfold WordBufferVector_at, WordBufferVector_word_at. rewrite H.
  split; reflexivity.
Qed.

(** X7: pushing a buffer that holds [w] onto a
    vector.  An empty buffer is refused with [GEN_FAIL] (a copy would need
    a one-byte Word Buffer) and the stored words stay as they were.  A
    non-empty word is appended as an exact-size, NUL-terminated copy: the
    size grows by one, the new slot reads back [w], the earlier slots are
    untouched, and the capacity doubles exactly when the vector was at its
    last slot but one. *)
Theorem WordBufferVector_push_appends vec ws wbuf w :
  vec_holds vec ws -> wbuf_holds wbuf w ->
  (w = [] ->
   fst (WordBufferVector_push vec wbuf) = GEN_FAIL
   ∧ WordBufferVector_get_size (snd (WordBufferVector_push vec wbuf))
     = WordBufferVector_get_size vec
   ∧ tokens (snd (WordBufferVector_push vec wbuf)) = tokens vec)
  ∧ (word_ok w ->
     ∃ vec', WordBufferVector_push vec wbuf = (SUCCESS, vec')
       ∧ WordBufferVector_get_size vec' = S (WordBufferVector_get_size vec)
       ∧ tokens vec' = tokens vec ++ [token_of w]
       ∧ WordBufferVector_at vec' (WordBufferVector_get_size vec) = token_of w
       ∧ c_string (WordBufferVector_word_at vec' (WordBufferVector_get_size vec)) = w
       ∧ (∀ i, i < WordBufferVector_get_size vec ->
            WordBufferVector_at vec' i = WordBufferVector_at vec i)
       ∧ WordBufferVector.capacity vec'
         = if WordBufferVector.capacity vec - 1 <=? WordBufferVector.curPosition vec
           then 2 * WordBufferVector.capacity vec
           else WordBufferVector.capacity vec).
Proof.
  intros Hv Hw. split.
  - intros ->. destruct Hw as (_ & Hcur & _). cbn [length] in Hcur.
    unfold WordBufferVector_push, WordBuffer_init. rewrite Hcur. cbn [Nat.add Nat.ltb Nat.leb].
    cbn [fst snd]. unfold WordBufferVector_get_size, tokens.
    destruct Hv as (_ & _ & Hcap & Hlt).
    destruct (WordBufferVector.capacity vec - 1 <=? WordBufferVector.curPosition vec);
      wb_simpl; split_and!; try reflexivity.
    rewrite take_app_le by lia. reflexivity.
  - intros Hok.
    destruct (WordBufferVector_push_holds vec ws wbuf w Hv Hw Hok) as (vec' & Heq & Hv').
    exists vec'. split; [exact Heq|].
    pose proof (vec_holds_tokens _ _ Hv) as Ht.
    pose proof (vec_holds_tokens _ _ Hv') as Ht'.
    assert (Hsz : WordBufferVector_get_size vec = length ws) by apply Hv.
    assert (Hsz' : WordBufferVector_get_size vec' = length (ws ++ [w])) by apply Hv'.
    rewrite length_app in Hsz'. cbn [length] in Hsz'.
    assert (Hlast : (ws ++ [w]) !! length ws = Some w).
    { rewrite lookup_app_r by lia. replace (length ws - length ws) with 0 by lia.
      reflexivity. }
    destruct (vec_holds_at vec' (ws ++ [w]) (length ws) w Hv' Hlast) as [Hat Hstr].
    split_and!.
    + lia.
    + rewrite Ht, Ht', map_app. reflexivity.
    + rewrite Hsz. exact Hat.
    + rewrite Hsz, Hstr. destruct Hok as [_ Hnz].
      apply c_string_word, Hnz.
    + intros i Hi. rewrite Hsz in Hi.
      destruct (lookup_lt_is_Some_2 ws i Hi) as [wi Hwi].
      rewrite (proj1 (vec_holds_at vec ws i wi Hv Hwi)).
      apply (vec_holds_at vec' (ws ++ [w]) i wi Hv').
      apply lookup_app_l_Some, Hwi.
    + rewrite <- (f_equal snd Heq : snd (WordBufferVector_push vec wbuf) = vec').
      unfold WordBufferVector_push, WordBuffer_init.
      destruct (WordBuffer.curPosition wbuf + 1 <? 2);
        destruct (WordBufferVector.capacity vec - 1 <=? WordBufferVector.curPosition vec);
        cbn [snd]; wb_simpl; lia.
Qed.

Lemma WordBufferVector_push_appends_witness :
  ∃ vec',
    WordBufferVector_push (WordBufferVector_create 2)
      (WordBuffer.mk (text "ab" ++ [0%Z; 0%Z]) 2 4) = (SUCCESS, vec')
    ∧ tokens vec' = [token_of (text "ab")]
    ∧ WordBufferVector.capacity vec' = 2.
Proof.
  assert (Hv : vec_holds (WordBufferVector_create 2) []).
  { unfold WordBufferVector_create.
    split_and!; wb_simpl; [eexists; reflexivity|reflexivity|reflexivity|lia]. }
  assert (Hw : wbuf_holds (WordBuffer.mk (text "ab" ++ [0%Z; 0%Z]) 2 4) (text "ab")).
  { split_and!; wb_simpl; [exists [0%Z]; reflexivity|reflexivity|reflexivity|lia]. }
  assert (Hok : word_ok (text "ab")).
  { split; [discriminate|repeat constructor; discriminate]. }
  destruct (proj2 (WordBufferVector_push_appends _ _ _ _ Hv Hw) Hok)
    as (vec' & Heq & _ & Htok & _ & _ & _ & Hcap).
  exists vec'. split_and!; [exact Heq|exact Htok|exact Hcap].
Defined.

(** ** The tokenizer as a state machine over words *)

Lemma get_input_loop_words source :
  ∀ state wbuf vec w ws,
    wbuf_holds wbuf w -> vec_holds vec ws -> state_holds state w ->
    ∃ vec',
      get_input_loop source state wbuf vec = (SUCCESS, vec')
      ∧ vec_holds vec' (ws ++ get_input_words source state w).
Proof.
  induction source as [|newChar source IH];
    intros state wbuf vec w ws Hwb Hvec Hst.
  - destruct state; cbn [get_input_loop get_input_words].
    + exists vec. rewrite app_nil_r. auto.
    + destruct (WordBufferVector_push_holds _ _ _ _ Hvec Hwb Hst) as (vec' & -> & Hv').
      exists vec'. auto.
    + destruct Hst as (w' & c & -> & Hw' & Hc).
      apply WordBuffer_backspace_holds in Hwb.
      destruct (WordBufferVector_push_holds _ _ _ _ Hvec Hwb Hw') as (vec' & -> & Hv').
      exists vec'. rewrite removelast_last. auto.
  - pose proof (get_char_type_cases newChar) as Hty.
    pose proof (state_holds_nonzero _ _ Hst) as Hnz.
    assert (Hpush : ∀ c state',
      (0 < c < 128)%Z ->
      (state' = IN_WORD_AFTER_ALPHARITH
       ∨ state' = IN_WORD_AFTER_SYMBOL ∧ word_ok w) ->
      ∃ vec',
        match WordBuffer_push_char wbuf c with
        | (SUCCESS, wbuf) => get_input_loop source state' wbuf vec
        | _ => (GEN_FAIL, vec)
        end = (SUCCESS, vec')
        ∧ vec_holds vec' (ws ++ get_input_words source state' (w ++ [c]))).
    { intros c state' Hrange Hs'.
      assert (Hc : c ≠ 0%Z) by lia.
      destruct (WordBuffer_push_char_holds _ _ c Hwb) as (wbuf' & -> & Hwb').
      rewrite (to_char_small c) in Hwb' by lia.
      apply (IH state' wbuf' vec (w ++ [c]) ws Hwb' Hvec).
      destruct Hs' as [->|[-> Hw]]; cbn.
      - apply word_ok_snoc; assumption.
      - exists w, c. auto. }
    assert (Hflush : ∀ wbuf0 w0,
      wbuf_holds wbuf0 w0 -> word_ok w0 ->
      ∃ vec',
        match WordBufferVector_push vec wbuf0 with
        | (SUCCESS, vec) =>
            get_input_loop source BETWEEN_WORDS (WordBuffer_clear wbuf0) vec
        | (_, vec) => (GEN_FAIL, vec)
        end = (SUCCESS, vec')
        ∧ vec_holds vec' (ws ++ w0 :: get_input_words source BETWEEN_WORDS [])).
    { intros wbuf0 w0 Hwb0 Hw0.
      destruct (WordBufferVector_push_holds _ _ _ _ Hvec Hwb0 Hw0) as (vec' & -> & Hv').
      destruct (IH BETWEEN_WORDS _ vec' [] (ws ++ [w0])
                  (WordBuffer_clear_holds _ _ Hwb0) Hv' eq_refl) as (vec'' & Heq & Hv'').
      exists vec''. split; [exact Heq|].
      rewrite <- app_assoc in Hv''. exact Hv''. }
    destruct state; cbn [get_input_loop get_input_words];
      destruct (get_char_type newChar); cbn beta iota.
    + apply Hpush; [apply letter_char, Hty|auto].
    + apply Hpush; [apply number_char, Hty|auto].
    + apply (IH BETWEEN_WORDS wbuf vec w ws); assumption.
    + apply (IH BETWEEN_WORDS wbuf vec w ws); assumption.
    + apply Hpush; [apply letter_char, Hty|auto].
    + apply Hpush; [apply number_char, Hty|auto].
    + apply Hpush; [apply inword_symbol_char, Hty|auto].
    + apply (Hflush wbuf w); assumption.
    + apply Hpush; [apply letter_char, Hty|auto].
    + apply Hpush; [apply number_char, Hty|auto].
    + destruct Hst as (w' & c & -> & Hw' & Hc). rewrite removelast_last.
      apply (Hflush _ w'); [apply WordBuffer_backspace_holds with c, Hwb|exact Hw'].
    + destruct Hst as (w' & c & -> & Hw' & Hc). rewrite removelast_last.
      apply (Hflush _ w'); [apply WordBuffer_backspace_holds with c, Hwb|exact Hw'].
Qed.

Lemma tokenize_get_input_words fp :
  tokenize fp = (SUCCESS, map token_of (get_input_words fp BETWEEN_WORDS [])).
Proof.
  unfold tokenize, get_input.
  destruct WordBuffer_create_holds as (wbuf & -> & Hwb).
  destruct (get_input_loop_words fp BETWEEN_WORDS wbuf _ [] []
              Hwb WordBufferVector_create_holds eq_refl)
    as (vec' & -> & Hv).
  rewrite (vec_holds_tokens _ _ Hv). reflexivity.
Qed.

Lemma land_32 ch : Z.land ch 32 = if Z.testbit ch 5 then 32%Z else 0%Z.
Proof.
  apply Z.bits_inj'. intros n Hn. rewrite Z.land_spec.
  change 32%Z with (2 ^ 5)%Z at 1. rewrite Z.pow2_bits_eqb by lia.
  destruct (Z.eqb_spec 5 n) as [<-|Hne].
  - destruct (Z.testbit ch 5); reflexivity.
  - rewrite andb_false_r. destruct (Z.testbit ch 5).
    + change 32%Z with (2 ^ 5)%Z. rewrite Z.pow2_bits_eqb by lia.
      symmetry. apply Z.eqb_neq, Hne.
    + symmetry. apply Z.bits_0.
Qed.

(** [let | 0x20] sets bit 5: it adds 32 to a value in which the bit is
    clear and leaves every other value alone. *)
Lemma to_lowercase_bit ch :
  to_lowercase ch = if Z.testbit ch 5 then ch else (ch + 32)%Z.
Proof.
  unfold to_lowercase. pose proof (Z.add_lor_land ch 32) as H.
  rewrite land_32 in H. change 0x20%Z with 32%Z.
  destruct (Z.testbit ch 5); lia.
Qed.

Lemma testbit_5 ch q :
  (64 * q <= ch < 64 * q + 64)%Z ->
  Z.testbit ch 5 = (64 * q + 32 <=? ch)%Z.
Proof.
  intros Hr.
  destruct (Z.leb_spec (64 * q + 32) ch) as [Hhi|Hlo].
  - apply Z.testbit_true; [lia|]. change (2 ^ 5)%Z with 32%Z.
    rewrite <- (Z.div_unique ch 32 (2 * q + 1) (ch - 32 * (2 * q + 1))) by lia.
    rewrite Z.add_comm, Z.mul_comm, Z.mod_add by lia. reflexivity.
  - apply Z.testbit_false; [lia|]. change (2 ^ 5)%Z with 32%Z.
    rewrite <- (Z.div_unique ch 32 (2 * q) (ch - 32 * (2 * q))) by lia.
    rewrite Z.mul_comm, Z.mod_mul by lia. reflexivity.
Qed.

Lemma is_letter_spec ch :
  is_letter ch = true <-> (65 <= ch <= 90 ∨ 97 <= ch <= 122)%Z.
Proof.
  unfold is_letter. cbv zeta. change (chr "a") with 97%Z. change (chr "z") with 122%Z.
  rewrite andb_true_iff, Z.leb_le, Z.leb_le, to_lowercase_bit.
  split.
  - destruct (Z.testbit ch 5) eqn:Hb; [lia|]. intros H. left.
    rewrite (testbit_5 ch 1) in Hb by lia. lia.
  - intros [H|H].
    + rewrite (testbit_5 ch 1) by lia.
      destruct (Z.leb_spec (64 * 1 + 32) ch); lia.
    + rewrite (testbit_5 ch 1) by lia.
      destruct (Z.leb_spec (64 * 1 + 32) ch); lia.
Qed.

Lemma to_lowercase_letter ch :
  ((65 <= ch <= 90)%Z -> to_lowercase ch = (ch + 32)%Z)
  ∧ ((97 <= ch <= 122)%Z -> to_lowercase ch = ch)
  ∧ ((48 <= ch <= 57)%Z -> to_lowercase ch = ch).
Proof.
  rewrite to_lowercase_bit. split_and!; intros H.
  - rewrite (testbit_5 ch 1) by lia. destruct (Z.leb_spec (64 * 1 + 32) ch); lia.
  - rewrite (testbit_5 ch 1) by lia. destruct (Z.leb_spec (64 * 1 + 32) ch); lia.
  - rewrite (testbit_5 ch 0) by lia. destruct (Z.leb_spec (64 * 0 + 32) ch); lia.
Qed.

Lemma is_number_spec ch : is_number ch = true <-> (48 <= ch <= 57)%Z.
Proof.
  unfold is_number. change (chr "0") with 48%Z. change (chr "9") with 57%Z.
  rewrite andb_true_iff, Z.leb_le, Z.leb_le. reflexivity.
Qed.

Lemma is_inword_symbol_spec ch : is_inword_symbol ch = true <-> ch ∈ inWrdSymbols.
Proof.
  unfold is_inword_symbol, inWrdSymbols. cbn [fold_left orb].
  rewrite !orb_true_iff, !Z.eqb_eq. rewrite !elem_of_cons, elem_of_nil. tauto.
Qed.

(** X8: the character classes of the tokenizer.
    [is_letter] accepts exactly the 52 ASCII letters; [to_lowercase] maps
    an upper-case letter to its lower-case form, leaves lower-case letters
    alone and is idempotent on letters; [is_number] accepts exactly the ten
    digits and [is_inword_symbol] exactly the six characters [-'%,.@];
    [get_char_type] sorts every character accordingly. *)
Theorem character_classes ch :
  (is_letter ch = true <-> (65 <= ch <= 90 ∨ 97 <= ch <= 122)%Z)
  ∧ ((65 <= ch <= 90)%Z -> to_lowercase ch = (ch + 32)%Z)
  ∧ ((97 <= ch <= 122)%Z -> to_lowercase ch = ch)
  ∧ (is_letter ch = true ->
     (97 <= to_lowercase ch <= 122)%Z
     ∧ to_lowercase (to_lowercase ch) = to_lowercase ch)
  ∧ (is_number ch = true <-> (48 <= ch <= 57)%Z)
  ∧ (is_inword_symbol ch = true <-> ch ∈ text "-'%,.@")
  ∧ (get_char_type ch = LETTER <-> (65 <= ch <= 90 ∨ 97 <= ch <= 122)%Z)
  ∧ (get_char_type ch = NUMBER <-> (48 <= ch <= 57)%Z)
  ∧ (get_char_type ch = IN_WORD_SYMBOL <-> ch ∈ text "-'%,.@").
Proof.
  pose proof (is_letter_spec ch) as HL.
  pose proof (is_number_spec ch) as HN.
  pose proof (is_inword_symbol_spec ch) as HS.
  pose proof (to_lowercase_letter ch) as (Hup & Hlow & _).
  change inWrdSymbols with (text "-'%,.@") in HS.
  assert (Hsym : ch ∈ text "-'%,.@" ->
                 ¬ (65 <= ch <= 90 ∨ 97 <= ch <= 122)%Z ∧ ¬ (48 <= ch <= 57)%Z).
  { intros Hin. vm_compute in Hin.
    repeat (apply elem_of_cons in Hin as [->|Hin]; [lia|]).
    apply elem_of_nil in Hin. contradiction. }
  split_and!; try assumption.
  - intros Hl. apply HL in Hl as [Hl|Hl].
    + rewrite (Hup Hl). split; [lia|].
      apply (proj1 (proj2 (to_lowercase_letter (ch + 32)))). lia.
    + rewrite (Hlow Hl). split; [lia|]. apply Hlow, Hl.
  - unfold get_char_type. rewrite <- HL.
    destruct (is_letter ch), (is_number ch), (is_inword_symbol ch);
      split; congruence.
  - unfold get_char_type. rewrite <- HN.
    destruct (is_letter ch);
      [|destruct (is_number ch), (is_inword_symbol ch); split; congruence].
    pose proof (proj1 HL eq_refl) as El.
    split; [discriminate|]. intros Hn. apply HN in Hn. lia.
  - unfold get_char_type. rewrite <- HS.
    destruct (is_letter ch).
    { pose proof (proj1 HL eq_refl) as El.
      split; [discriminate|]. intros Hin. apply HS, Hsym in Hin. tauto. }
    destruct (is_number ch).
    { pose proof (proj1 HN eq_refl) as En.
      split; [discriminate|]. intros Hin. apply HS, Hsym in Hin. tauto. }
    destruct (is_inword_symbol ch); split; congruence.
Qed.

Lemma character_classes_witness :
  to_lowercase (chr "Q") = chr "q" ∧ get_char_type (chr "Q") = LETTER.
Proof.
  pose proof (character_classes (chr "Q"))
    as (_ & Hup & _ & _ & _ & _ & Hty & _).
  split.
  - rewrite Hup; [reflexivity|vm_compute; split; discriminate].
  - apply Hty. left. vm_compute. split; discriminate.
Defined.

Lemma letter_alnum ch : is_letter ch = true -> alnum (to_lowercase ch).
Proof.
  intros H. apply is_letter_spec in H.
  pose proof (to_lowercase_letter ch) as (Hup & Hlow & _).
  destruct H as [H|H]; [rewrite (Hup H)|rewrite (Hlow H)]; left; lia.
Qed.

Lemma number_alnum ch : is_number ch = true -> alnum ch.
Proof. intros H. apply is_number_spec in H. right. exact H. Qed.

Lemma alnum_type c :
  alnum c ->
  to_lowercase c = c
  ∧ (get_char_type c = LETTER ∨ get_char_type c = NUMBER).
Proof.
  intros Hc. pose proof (to_lowercase_letter c) as (_ & Hlow & Hdig).
  unfold get_char_type. destruct Hc as [Hc|Hc].
  - split; [apply Hlow, Hc|]. left.
    rewrite (proj2 (is_letter_spec c)) by lia. reflexivity.
  - split; [apply Hdig, Hc|].
    destruct (is_letter c); [left; reflexivity|]. right.
    rewrite (proj2 (is_number_spec c) Hc). reflexivity.
Qed.

Lemma symbol_type s : s ∈ inWrdSymbols -> get_char_type s = IN_WORD_SYMBOL.
Proof.
  intros Hin. vm_compute in Hin.
  repeat (apply elem_of_cons in Hin as [->|Hin]; [reflexivity|]).
  apply elem_of_nil in Hin. contradiction.
Qed.

Lemma get_input_words_shaped source :
  ∀ state w, collected state w -> Forall shaped (get_input_words source state w).
Proof.
  induction source as [|newChar source IH]; intros state w Hst.
  - destruct state; cbn [get_input_words]; cbn in Hst.
    + constructor.
    + constructor; [exact Hst|constructor].
    + destruct Hst as (w' & s & -> & Hw' & _). rewrite removelast_last.
      constructor; [exact Hw'|constructor].
  - pose proof (get_char_type_cases newChar) as Hty.
    destruct state; cbn [get_input_words]; cbn in Hst;
      destruct (get_char_type newChar).
    + subst w. apply IH. cbn. constructor. apply letter_alnum, Hty.
    + subst w. apply IH. cbn. constructor. apply number_alnum, Hty.
    + apply IH, Hst.
    + apply IH, Hst.
    + apply IH. cbn. constructor; [exact Hst|apply letter_alnum, Hty].
    + apply IH. cbn. constructor; [exact Hst|apply number_alnum, Hty].
    + apply IH. cbn. exists w, newChar. split_and!; [reflexivity|exact Hst|].
      apply is_inword_symbol_spec, Hty.
    + constructor; [exact Hst|]. apply IH. reflexivity.
    + destruct Hst as (w' & s & -> & Hw' & Hs). apply IH. cbn.
      rewrite <- app_assoc. constructor; [exact Hw'|exact Hs|apply letter_alnum, Hty].
    + destruct Hst as (w' & s & -> & Hw' & Hs). apply IH. cbn.
      rewrite <- app_assoc. constructor; [exact Hw'|exact Hs|apply number_alnum, Hty].
    + destruct Hst as (w' & s & -> & Hw' & Hs). rewrite removelast_last.
      constructor; [exact Hw'|]. apply IH. reflexivity.
    + destruct Hst as (w' & s & -> & Hw' & Hs). rewrite removelast_last.
      constructor; [exact Hw'|]. apply IH. reflexivity.
Qed.

Lemma shaped_facts w :
  shaped w ->
  (∃ c, head w = Some c ∧ alnum c)
  ∧ (∃ c, last w = Some c ∧ alnum c)
  ∧ Forall (fun c => alnum c ∨ c ∈ inWrdSymbols) w
  ∧ (∀ i a b, w !! i = Some a -> w !! S i = Some b -> alnum a ∨ alnum b).
Proof.
  induction 1 as [c Hc|w c Hw (Hh & Hl & Hall & Hadj) Hc
                 |w s c Hw (Hh & Hl & Hall & Hadj) Hs Hc].
  - split_and!.
    + exists c. auto.
    + exists c. auto.
    + constructor; [left; exact Hc|constructor].
    + intros [|i] a b Ha Hb; discriminate.
  - split_and!.
    + destruct Hh as (h & Hh & Halh). exists h. split; [|exact Halh].
      destruct w; [discriminate|exact Hh].
    + exists c. split; [apply last_snoc|exact Hc].
    + apply Forall_app. split; [exact Hall|]. constructor; [left; exact Hc|constructor].
    + intros i a b Ha Hb.
      destruct (decide (S i < length w)) as [Hi|Hi].
      * rewrite lookup_app_l in Ha, Hb by lia. eapply Hadj; eassumption.
      * right. rewrite lookup_app_r in Hb by lia.
        destruct (S i - length w) as [|k]; [|destruct k; discriminate].
        cbn in Hb. congruence.
  - split_and!.
    + destruct Hh as (h & Hh & Halh). exists h. split; [|exact Halh].
      destruct w; [discriminate|exact Hh].
    + exists c. split; [|exact Hc].
      replace (w ++ [s; c]) with ((w ++ [s]) ++ [c])
        by (rewrite <- app_assoc; reflexivity).
      apply last_snoc.
    + apply Forall_app. split; [exact Hall|].
      constructor; [right; exact Hs|]. constructor; [left; exact Hc|constructor].
    + intros i a b Ha Hb.
      destruct (decide (S i < length w)) as [Hi|Hi].
      * rewrite lookup_app_l in Ha, Hb by lia. eapply Hadj; eassumption.
      * destruct (decide (S i = length w)) as [He|He].
        -- left. rewrite lookup_app_l in Ha by lia.
           destruct Hl as (l & Hl & Hal). rewrite last_lookup in Hl.
           replace (pred (length w)) with i in Hl by lia. congruence.
        -- right. rewrite lookup_app_r in Hb by lia.
           destruct (S i - length w) as [|[|k]] eqn:Hk; [lia| |destruct k; discriminate].
           cbn in Hb. congruence.
Qed.

(** A shaped word at the start of the input is collected unchanged. *)
Lemma get_input_words_collect w :
  shaped w ->
  ∀ rest, get_input_words (w ++ rest) BETWEEN_WORDS []
          = get_input_words rest IN_WORD_AFTER_ALPHARITH w.
Proof.
  induction 1 as [c Hc|w c Hw IH Hc|w s c Hw IH Hs Hc]; intros rest.
  - destruct (alnum_type c Hc) as [Hlow [Hty|Hty]];
      cbn [app get_input_words]; rewrite Hty, ?Hlow; reflexivity.
  - rewrite <- app_assoc, IH. cbn [app get_input_words].
    destruct (alnum_type c Hc) as [Hlow [Hty|Hty]]; rewrite Hty, ?Hlow; reflexivity.
  - rewrite <- app_assoc, IH. cbn [app get_input_words].
    rewrite (symbol_type s Hs).
    destruct (alnum_type c Hc) as [Hlow [Hty|Hty]]; rewrite Hty, ?Hlow;
      rewrite <- app_assoc; reflexivity.
Qed.

(** The words before and after a character that cannot be part of a word
    are found independently. *)
Lemma get_input_words_split sep b :
  get_char_type sep = OTHER_SYMBOL ->
  ∀ a state w,
    (state = BETWEEN_WORDS -> w = []) ->
    get_input_words (a ++ sep :: b) state w
    = get_input_words a state w ++ get_input_words b BETWEEN_WORDS [].
Proof.
  intros Hsep. induction a as [|x a IH]; intros state w Hw.
  - cbn [app get_input_words]. rewrite Hsep.
    destruct state; [rewrite Hw by reflexivity|..]; reflexivity.
  - cbn [app get_input_words].
    destruct state, (get_char_type x);
      try (apply IH; intros; discriminate);
      try (apply IH; intros; auto; fail);
      try (cbn [app]; f_equal; apply IH; reflexivity).
Qed.

Lemma get_input_words_case fp fp' :
  Forall2 same_up_to_case fp fp' ->
  ∀ state w, get_input_words fp state w = get_input_words fp' state w.
Proof.
  induction 1 as [|a b fp fp' Hab _ IH]; intros state w; [reflexivity|].
  cbn [get_input_words].
  destruct Hab as [->|(Ha & Hb & Hlow)].
  - destruct state, (get_char_type b); rewrite ?IH; reflexivity.
  - assert (Hta : get_char_type a = LETTER) by (unfold get_char_type; rewrite Ha; reflexivity).
    assert (Htb : get_char_type b = LETTER) by (unfold get_char_type; rewrite Hb; reflexivity).
    rewrite Hta, Htb, Hlow. destruct state; apply IH.
Qed.

Lemma token_word_token_of w : token_word (token_of w) = w.
Proof. unfold token_word, token_of; wb_simpl. apply take_app_length. Qed.

Lemma tokenize_shaped fp buf :
  buf ∈ snd (tokenize fp) -> buf = token_of (token_word buf) ∧ shaped (token_word buf).
Proof.
  rewrite tokenize_get_input_words. cbn [snd]. intros Hin.
  apply list_elem_of_fmap in Hin as (w & -> & Hw).
  rewrite token_word_token_of. split; [reflexivity|].
  pose proof (get_input_words_shaped fp BETWEEN_WORDS [] eq_refl) as Hall.
  rewrite Forall_forall in Hall. apply Hall, Hw.
Qed.

(** X10: every token starts and ends with a lower-case letter
    or a digit, consists of lower-case letters, digits and in-word symbols
    only, never has two in-word symbols in a row, and is stored as an
    exact-size NUL-terminated copy of its characters. *)
Theorem tokens_are_shaped fp buf :
  buf ∈ snd (tokenize fp) ->
  let w := token_word buf in
  (∃ c, head w = Some c ∧ alnum c)
  ∧ (∃ c, last w = Some c ∧ alnum c)
  ∧ Forall (fun c => alnum c ∨ c ∈ text "-'%,.@") w
  ∧ (∀ i a b, w !! i = Some a -> w !! S i = Some b -> alnum a ∨ alnum b)
  ∧ buf = token_of w.
Proof.
  intros Hin. destruct (tokenize_shaped fp buf Hin) as [Heq Hsh].
  destruct (shaped_facts _ Hsh) as (Hh & Hl & Hall & Hadj).
  split_and!; assumption.
Qed.

Lemma tokens_are_shaped_witness :
  token_of (text "it's") ∈ snd (tokenize (text "It's 9.30, e-mail--me!"))
  ∧ ∃ c, last (token_word (token_of (text "it's"))) = Some c ∧ alnum c.
Proof.
  assert (H : token_of (text "it's") ∈ snd (tokenize (text "It's 9.30, e-mail--me!"))).
  { vm_compute. apply list_elem_of_here. }
  split; [exact H|].
  exact (proj1 (proj2 (tokens_are_shaped _ _ H))).
Defined.

(** X11: tokenizing is idempotent on tokens: the
    characters of any token, read again as input, give that one token. *)
Theorem tokens_retokenize fp buf :
  buf ∈ snd (tokenize fp) ->
  tokenize (token_word buf) = (SUCCESS, [buf]).
Proof.
  intros Hin. destruct (tokenize_shaped fp buf Hin) as [Heq Hsh].
  rewrite tokenize_get_input_words.
  pose proof (get_input_words_collect _ Hsh []) as Hc.
  rewrite app_nil_r in Hc. rewrite Hc. cbn [get_input_words map].
  rewrite <- Heq. reflexivity.
Qed.

Lemma tokens_retokenize_witness :
  tokenize (text "e-mail") = (SUCCESS, [token_of (text "e-mail")]).
Proof.
  assert (H : token_of (text "e-mail") ∈ snd (tokenize (text "It's 9.30, e-mail--me!"))).
  { vm_compute. do 2 apply list_elem_of_further. apply list_elem_of_here. }
  pose proof (tokens_retokenize _ _ H) as Hr.
  rewrite token_word_token_of in Hr. exact Hr.
Defined.

(** X12: a character that is neither alphanumeric nor
    an in-word symbol cuts the input into two independent pieces: the
    tokens of the whole text are the tokens before it followed by the tokens
    after it. *)
Theorem tokenize_at_separator a sep b :
  get_char_type sep = OTHER_SYMBOL ->
  tokenize (a ++ sep :: b) = (SUCCESS, snd (tokenize a) ++ snd (tokenize b)).
Proof.
  intros Hsep. rewrite !tokenize_get_input_words. cbn [snd].
  rewrite (get_input_words_split sep b Hsep a BETWEEN_WORDS []) by reflexivity.
  rewrite map_app. reflexivity.
Qed.

Lemma tokenize_at_separator_witness :
  get_char_type (chr " ") = OTHER_SYMBOL
  ∧ tokenize (text "one" ++ chr " " :: text "two")
    = (SUCCESS, [token_of (text "one"); token_of (text "two")]).
Proof.
  assert (H : get_char_type (chr " ") = OTHER_SYMBOL) by reflexivity.
  split; [exact H|].
  rewrite (tokenize_at_separator (text "one") (chr " ") (text "two") H).
  vm_compute. reflexivity.
Defined.

(** X13: two inputs that differ only in the case of letters
    give the same Token List. *)
Theorem tokenize_ignores_case fp fp' :
  Forall2 same_up_to_case fp fp' -> tokenize fp = tokenize fp'.
Proof.
  intros H. rewrite !tokenize_get_input_words.
  rewrite (get_input_words_case fp fp' H). reflexivity.
Qed.

Lemma tokenize_ignores_case_witness :
  tokenize (text "The END") = tokenize (text "tHE end").
Proof.
  apply tokenize_ignores_case.
  repeat constructor; first [left; reflexivity | right; vm_compute; auto].
Defined.

(** X9: [get_input], with its growing Token Buffer and
    vector, returns [SUCCESS] and leaves in the vector exactly the words of
    the state machine run over plain character lists: slot [i] is an
    exact-size copy of word [i] and reads back as that word. *)
Theorem get_input_fills_vector fp :
  let ws := get_input_words fp BETWEEN_WORDS [] in
  ∃ vec,
    get_input (WordBufferVector_create INITIAL_WORD_VECTOR_LENGTH) fp = (SUCCESS, vec)
    ∧ WordBufferVector_get_size vec = length ws
    ∧ WordBufferVector_get_size vec < WordBufferVector.capacity vec
    ∧ ∀ i w, ws !! i = Some w ->
        WordBufferVector_at vec i = token_of w
        ∧ c_string (WordBufferVector_word_at vec i) = w.
Proof.
  intros ws. unfold get_input.
  destruct WordBuffer_create_holds as (wbuf & -> & Hwb).
  destruct (get_input_loop_words fp BETWEEN_WORDS wbuf _ [] []
              Hwb WordBufferVector_create_holds eq_refl)
    as (vec & -> & Hv).
  cbn [app] in Hv. fold ws in Hv.
  exists vec. split; [reflexivity|].
  split; [apply Hv|]. split; [apply Hv|].
  intros i w Hi. destruct (vec_holds_at vec ws i w Hv Hi) as [Hat Hstr].
  split; [exact Hat|]. rewrite Hstr.
  rewrite <- (app_nil_r (w ++ [0%Z])), <- app_assoc. cbn [app].
  apply c_string_word.
  pose proof (get_input_words_shaped fp BETWEEN_WORDS [] eq_refl) as Hall.
  rewrite Forall_forall in Hall.
  destruct (shaped_facts w (Hall w (list_elem_of_lookup_2 _ _ _ Hi))) as (_ & _ & Hchars & _).
  eapply Forall_impl; [exact Hchars|]. intros c [[Hc|Hc]|Hc]; try lia.
  intros ->. vm_compute in Hc.
  repeat (apply elem_of_cons in Hc as [Hc|Hc]; [discriminate|]).
  apply elem_of_nil in Hc. contradiction.
Qed.

Lemma get_input_fills_vector_witness :
  ∃ vec,
    get_input (WordBufferVector_create INITIAL_WORD_VECTOR_LENGTH) (text "a b") = (SUCCESS, vec)
    ∧ c_string (WordBufferVector_word_at vec 1) = text "b".
Proof.
  destruct (get_input_fills_vector (text "a b")) as (vec & Heq & _ & _ & Hat).
  exists vec. split; [exact Heq|].
  apply (Hat 1 (text "b")). reflexivity.
Defined.

(** ** The hash table: creation, rows, expansion and the pool *)

(** X14: [WordHashTable_create] makes four allocations.  When the
    first four responses of the allocator are blocks, the result is an
    empty table of the requested capacity: nothing is printed, every slot
    is free, the statistics are zero and the strings pool has [6 *
    initCapacity] bytes, none of them used; for a positive capacity the
    table is well formed.  A NULL among the four responses makes the
    creation fail. *)
Theorem WordHashTable_create_empty initCapacity heap :
  4 <= length heap ->
  (Forall is_Some (take 4 heap) ->
   ∃ whtab,
     WordHashTable_create initCapacity heap = Finished (whtab, drop 4 heap)
     ∧ WordHashTable.capacity whtab = initCapacity
     ∧ WordHashTable.size whtab = 0
     ∧ WordHashTable_count_print whtab = []
     ∧ (∀ i, i < initCapacity -> WordHashTabEntry.count (entry_at whtab i) = 0)
     ∧ WordHashTable.hstats whtab = HashStats.mk 0 0
     ∧ MemoryPool.capacity (WordHashTable.stringsPool whtab) = 6 * initCapacity
     ∧ MemoryPool.nextChar (WordHashTable.stringsPool whtab) = 0
     ∧ (0 < initCapacity -> wf whtab ∧ reachable whtab))
  ∧ (None ∈ take 4 heap -> WordHashTable_create initCapacity heap = Failure).
Proof.
  intros Hlen.
  destruct heap as [|a1 [|a2 [|a3 [|a4 heap]]]]; cbn [length] in Hlen; try lia.
  cbn [take drop]. split.
  - intros Hsome.
    apply Forall_cons in Hsome as [[b1 ->] Hsome].
    apply Forall_cons in Hsome as [[b2 ->] Hsome].
    apply Forall_cons in Hsome as [[b3 ->] Hsome].
    apply Forall_cons in Hsome as [[b4 ->] _].
    eexists. split; [reflexivity|]. ht_simpl.
    split_and!; try reflexivity.
    + intros i Hi. unfold entry_at. ht_simpl.
      rewrite lookup_total_repeat by exact Hi. reflexivity.
    + intros Hpos.
      assert (Hc : WordHashTable_create initCapacity
                     (Some b1 :: Some b2 :: Some b3 :: Some b4 :: heap)
                   = Finished (WordHashTable.mk (repeat WordHashTabEntry_zero initCapacity)
                                 (repeat 0 initCapacity) initCapacity 0
                                 (MemoryPool.mk (block_addr b4)
                                    (repeat 0%Z (6 * initCapacity)) 0 (6 * initCapacity))
                                 (HashStats.mk 0 0) (PrintFormatStats.mk 0 0), heap))
        by reflexivity.
      split.
      * apply (WordHashTable_create_wf _ _ _ _ Hpos Hc).
      * apply (reach_create _ _ _ _ Hpos Hc).
  - intros Hin. unfold WordHashTable_create, calloc, MemoryPool_init.
    destruct a1 as [b1|]; [|reflexivity].
    destruct a2 as [b2|]; [|reflexivity].
    destruct a3 as [b3|]; [|reflexivity].
    destruct a4 as [b4|]; [|reflexivity].
    exfalso. repeat (apply elem_of_cons in Hin as [Hin|Hin]; [discriminate|]).
    apply elem_of_nil in Hin. exact Hin.
Qed.

Lemma WordHashTable_create_empty_witness :
  ∃ whtab,
    WordHashTable_create 8 (plenty 5) = Finished (whtab, drop 4 (plenty 5))
    ∧ WordHashTable_count_print whtab = [].
Proof.
  destruct (proj1 (WordHashTable_create_empty 8 (plenty 5) ltac:(cbn; lia)))
    as (whtab & Hc & _ & _ & Hp & _).
  - apply Forall_take, plenty_is_Some.
  - exists whtab. split; [exact Hc|exact Hp].
Defined.

(** X15: what a call of [WordHashTable_add_word] does to the
    printed rows of a reachable table.  A successful call either puts the
    new row [(w, 1)] between the rows that were there, or adds one to the
    count of a single row; all other rows keep their word, count and order.
    A call that reports a full pool leaves the rows alone, and [GEN_FAIL]
    is reported only by a table without free slot, which is returned as it
    was. *)
Theorem add_word_rows whtab buf w :
  reachable whtab -> holds_word buf w ->
  ∃ st whtab',
    WordHashTable_add_word whtab buf = Some (st, whtab')
    ∧ let rows := WordHashTable_count_print whtab in
      let rows' := WordHashTable_count_print whtab' in
      match st with
      | SUCCESS =>
          (∃ pos, rows' = take pos rows ++ (w, 1) :: drop pos rows
                  ∧ WordHashTable.size whtab' = S (WordHashTable.size whtab))
          ∨ (∃ j word n, rows !! j = Some (word, n)
                         ∧ rows' = <[j := (word, S n)]> rows
                         ∧ WordHashTable.size whtab' = WordHashTable.size whtab)
      | DATA_STRUCT_FULL =>
          rows' = rows ∧ WordHashTable.size whtab' = WordHashTable.size whtab
      | GEN_FAIL =>
          whtab' = whtab ∧ WordHashTable.capacity whtab <= WordHashTable.size whtab
      end.
Proof.
  intros Hr Hbuf. pose proof (reachable_wf _ Hr) as H.
  destruct (reachable_add_word whtab buf w Hr Hbuf)
    as (st & whtab' & Heq & Hr' & _ & Hcases).
  exists st, whtab'. split; [exact Heq|]. cbv zeta.
  rewrite (wf_count_print _ H), (wf_count_print _ (reachable_wf _ Hr')).
  destruct Hcases as [Heff|(-> & -> & Hfull)]; [|auto].
  pose proof (add_effect_rows _ _ _ _ _ H Heff) as Hrows.
  destruct Heff; exact Hrows.
Qed.

Lemma add_word_rows_witness :
  ∃ st whtab',
    WordHashTable_add_word sample_table (token_of (text "b")) = Some (st, whtab')
    ∧ WordHashTable_count_print sample_table = [(text "a", 1); (text "b", 1)].
Proof.
  destruct (add_word_rows sample_table (token_of (text "b")) (text "b")
              reachable_sample (token_of_holds_word _ text_nonzero_b))
    as (st & whtab' & Heq & _).
  exists st, whtab'. split; [exact Heq|vm_compute; reflexivity].
Defined.

(** The pool and the allocator responses after a successful expansion of
    the table. *)
Lemma WordHashTable_expand_pool whtab heap whtab' heap' :
  wf whtab ->
  WordHashTable_expand whtab heap = Some (SUCCESS, whtab', heap') ->
  let memp := WordHashTable.stringsPool whtab in
  let memp' := WordHashTable.stringsPool whtab' in
  MemoryPool.nextChar memp' = MemoryPool.nextChar memp
  ∧ MemoryPool.capacity memp'
    = (if MemoryPool_size_below memp 80 then MemoryPool.capacity memp
       else 2 * MemoryPool.capacity memp)
  ∧ heap' = drop (if MemoryPool_size_below memp 80 then 2 else 3) heap.
Proof.
  intros H. unfold WordHashTable_expand.
  destruct heap as [|[b1|] heap]; [discriminate| |discriminate].
  destruct heap as [|[b2|] heap]; [discriminate| |discriminate].
  set (x := map (fun k => Z.to_nat (block_junk b2 k))
              (seq (WordHashTable.capacity whtab)
                   (WordHashTable.capacity whtab * 2 - WordHashTable.capacity whtab))).
  fold (expanding whtab x).
  assert (Hx : length x = WordHashTable.capacity whtab).
  { unfold x. rewrite length_map, length_seq. lia. }
  assert (Hsz : WordHashTable.size whtab <= length (WordHashTable.alphOrderArray whtab)).
  { rewrite (wf_order _ H). apply (wf_size _ H). }
  change (WordHashTable.stringsPool (expanding whtab x))
    with (WordHashTable.stringsPool whtab).
  destruct (MemoryPool_size_below (WordHashTable.stringsPool whtab) 80); cbn [negb].
  - destruct (WordHashTable_migrate_spec whtab x H Hx)
      as (whtab3 & ext & -> & _ & _ & _ & _ & Hpool).
    intros Hres. inversion Hres; subst. cbv zeta.
    change (WordHashTable.stringsPool (set_entries whtab3 ext))
      with (WordHashTable.stringsPool whtab3).
    rewrite Hpool. auto.
  - destruct heap as [|a heap]; [discriminate|].
    rewrite WordHashTable_MemoryPool_expand_expanding by exact Hsz.
    destruct a as [b|]; [|cbn; discriminate].
    destruct (WordHashTable_MemoryPool_expand_spec whtab b H)
      as (whtabp & -> & Hwfp & _ & _ & _ & Hcapp & _ & _ & _ & _ & Hnextp & Hpcap & _).
    cbn [fst snd].
    destruct (WordHashTable_migrate_spec whtabp x Hwfp)
      as (whtab3 & ext & Hm & _ & _ & _ & _ & Hpool); [lia|].
    rewrite Hcapp in Hm. rewrite Hm.
    intros Hres. inversion Hres; subst. cbv zeta.
    change (WordHashTable.stringsPool (set_entries whtab3 ext))
      with (WordHashTable.stringsPool whtab3).
    rewrite Hpool. auto.
Qed.

(** X16: the outcomes of [WordHashTable_expand] on a reachable
    table.  Success doubles the capacity and changes nothing a user can
    see: the printed rows and the size are the same, the pool keeps its
    fill level and is doubled exactly when it was at least 80% full.  When
    the allocation of the new entries or of the order array fails, the
    table is returned untouched.  When the pool cannot be enlarged, the
    table comes back with the capacity field already doubled while the
    entries are still the old array. *)
Theorem WordHashTable_expand_outcomes whtab :
  reachable whtab ->
  (∀ heap whtab' heap',
     WordHashTable_expand whtab heap = Some (SUCCESS, whtab', heap') ->
     reachable whtab'
     ∧ WordHashTable_count_print whtab' = WordHashTable_count_print whtab
     ∧ WordHashTable.capacity whtab' = 2 * WordHashTable.capacity whtab
     ∧ WordHashTable.size whtab' = WordHashTable.size whtab
     ∧ MemoryPool.nextChar (WordHashTable.stringsPool whtab')
       = MemoryPool.nextChar (WordHashTable.stringsPool whtab)
     ∧ MemoryPool.capacity (WordHashTable.stringsPool whtab')
       = (if MemoryPool_size_below (WordHashTable.stringsPool whtab) 80
          then MemoryPool.capacity (WordHashTable.stringsPool whtab)
          else 2 * MemoryPool.capacity (WordHashTable.stringsPool whtab)))
  ∧ (∀ heap, WordHashTable_expand whtab (None :: heap) = Some (GEN_FAIL, whtab, heap))
  ∧ (∀ b heap,
       WordHashTable_expand whtab (Some b :: None :: heap) = Some (GEN_FAIL, whtab, heap))
  ∧ (∀ b1 b2 heap,
       MemoryPool_size_below (WordHashTable.stringsPool whtab) 80 = false ->
       ∃ whtab',
         WordHashTable_expand whtab (Some b1 :: Some b2 :: None :: heap)
         = Some (GEN_FAIL, whtab', heap)
         ∧ WordHashTable.capacity whtab' = 2 * WordHashTable.capacity whtab
         ∧ WordHashTable.entries whtab' = WordHashTable.entries whtab
         ∧ length (WordHashTable.entries whtab') < WordHashTable.capacity whtab').
Proof.
  intros Hr. pose proof (reachable_wf _ Hr) as H. split_and!.
  - intros heap whtab' heap' Hexp.
    destruct (WordHashTable_expand_spec _ _ _ _ H Hexp) as (Hwf & Hrep & Hcap & Hsize).
    destruct (WordHashTable_expand_pool _ _ _ _ H Hexp) as (Hnext & Hpcap & _).
    split_and!; try assumption; try lia.
    + eapply reach_expand; eassumption.
    + rewrite (wf_count_print _ H), (wf_count_print _ Hwf). exact Hrep.
  - reflexivity.
  - reflexivity.
  - intros b1 b2 heap Hfull. unfold WordHashTable_expand.
    change (WordHashTable.stringsPool
              (set_alphOrderArray (set_capacity whtab (WordHashTable.capacity whtab * 2)) _))
      with (WordHashTable.stringsPool whtab).
    rewrite Hfull. cbn [negb].
    unfold WordHashTable_MemoryPool_expand, MemoryPool_expand.
    eexists. split; [reflexivity|]. ht_unfold.
    split_and!; [lia|reflexivity|].
    rewrite (wf_entries _ H). pose proof (wf_capacity _ H). lia.
Qed.

Lemma WordHashTable_expand_outcomes_witness :
  ∃ whtab' heap',
    WordHashTable_expand sample_table (plenty 3) = Some (SUCCESS, whtab', heap')
    ∧ WordHashTable_count_print whtab' = [(text "a", 1); (text "b", 1)]
    ∧ WordHashTable.capacity whtab' = 8.
Proof.
  destruct (WordHashTable_expand sample_table (plenty 3)) as [[[st whtab'] heap']|] eqn:Hexp;
    [|vm_compute in Hexp; discriminate].
  destruct st; try (vm_compute in Hexp; discriminate).
  destruct (proj1 (WordHashTable_expand_outcomes sample_table reachable_sample)
              _ _ _ Hexp) as (_ & Hrows & Hcap & _).
  exists whtab', heap'. split; [reflexivity|].
  split; [rewrite Hrows; vm_compute; reflexivity|rewrite Hcap; vm_compute; reflexivity].
Defined.

Lemma pool_use_insert (rows : list (list Z * nat)) pos w n :
  pool_use (take pos rows ++ (w, n) :: drop pos rows) = pool_use rows + S (length w).
Proof.
  unfold pool_use. rewrite map_app. cbn [map fst].
  rewrite sum_list_insert_middle, <- map_app, take_drop. lia.
Qed.

Lemma add_effect_pool_use whtab buf w st whtab' :
  wf whtab -> holds_word buf w -> add_effect whtab buf w st whtab' ->
  MemoryPool.nextChar (WordHashTable.stringsPool whtab) = pool_use (report whtab) ->
  MemoryPool.nextChar (WordHashTable.stringsPool whtab') = pool_use (report whtab').
Proof.
  intros H (_ & Hcur & _) Heff Hinv.
  destruct Heff as [whtab' pos Hwf Hrep _ _ Hnext _
                   |whtab' k Hwf Hk Hrep _ _ Hpool
                   |whtab' Hwf Hsame _ _].
  - rewrite Hrep, pool_use_insert, Hnext, Hinv, Hcur. lia.
  - rewrite Hpool, Hinv, Hrep. unfold pool_use, report. rewrite !map_map.
    apply f_equal, map_ext. intros i. reflexivity.
  - rewrite (same_observable_report _ _ H Hsame).
    destruct Hsame as (_ & _ & _ & -> & _). exact Hinv.
Qed.

Lemma reachable_pool_use whtab :
  reachable whtab ->
  MemoryPool.nextChar (WordHashTable.stringsPool whtab) = pool_use (report whtab).
Proof.
  induction 1 as [c heap whtab heap' Hc Hcreate
                 |whtab buf w st whtab' Hr IH Hbuf Hadd
                 |whtab a whtab' Hr IH Hexp
                 |whtab heap whtab' heap' Hr IH Hexp].
  - destruct (WordHashTable_create_wf _ _ _ _ Hc Hcreate) as (_ & -> & _).
    revert Hcreate. unfold WordHashTable_create, calloc, MemoryPool_init.
    destruct heap as [|[b1|] heap]; try discriminate.
    destruct heap as [|[b2|] heap]; try discriminate.
    destruct heap as [|[b3|] heap]; try discriminate.
    destruct heap as [|[b4|] heap]; try discriminate.
    intros Heq. inversion Heq; subst. reflexivity.
  - pose proof (reachable_wf _ Hr) as H.
    destruct (WordHashTable_add_word_effect whtab buf w H Hbuf)
      as (st' & whtab'' & Heq & [Heff|(_ & -> & _)]);
      rewrite Hadd in Heq; inversion Heq; subst.
    + eapply add_effect_pool_use; eassumption.
    + exact IH.
  - pose proof (reachable_wf _ Hr) as H.
    destruct a as [b|]; [|discriminate].
    destruct (WordHashTable_MemoryPool_expand_spec whtab b H)
      as (whtab'' & Heq & _ & Hrep & _ & _ & _ & _ & _ & _ & _ & Hnext & _).
    rewrite Hexp in Heq. inversion Heq; subst. rewrite Hnext, Hrep. exact IH.
  - pose proof (reachable_wf _ Hr) as H.
    destruct (WordHashTable_expand_spec _ _ _ _ H Hexp) as (_ & Hrep & _).
    destruct (WordHashTable_expand_pool _ _ _ _ H Hexp) as (Hnext & _).
    rewrite Hnext, Hrep. exact IH.
Qed.

(** X17: the strings pool of a reachable table holds the
    printed words and nothing else: the number of bytes handed out is the
    sum of the lengths of the printed words plus one terminator each.  No
    call leaks pool space, whatever it returns, and the used part never
    exceeds the capacity. *)
Theorem pool_holds_the_rows whtab :
  reachable whtab ->
  MemoryPool.nextChar (WordHashTable.stringsPool whtab)
  = sum_list (map (fun row => S (length (fst row))) (WordHashTable_count_print whtab))
  ∧ MemoryPool.nextChar (WordHashTable.stringsPool whtab)
    <= MemoryPool.capacity (WordHashTable.stringsPool whtab)
  ∧ length (MemoryPool.memory (WordHashTable.stringsPool whtab))
    = MemoryPool.capacity (WordHashTable.stringsPool whtab).
Proof.
  intros Hr. pose proof (reachable_wf _ Hr) as H.
  rewrite (wf_count_print _ H).
  destruct (wf_pool _ H) as (Hmem & Hnext & _).
  split_and!; [apply (reachable_pool_use _ Hr)|exact Hnext|exact Hmem].
Qed.

Lemma pool_holds_the_rows_witness :
  MemoryPool.nextChar (WordHashTable.stringsPool sample_table) = 4.
Proof.
  rewrite (proj1 (pool_holds_the_rows sample_table reachable_sample)).
  vm_compute. reflexivity.
Defined.

(** ** The counting loop of main *)

Lemma add_effect_size whtab buf w st whtab' :
  add_effect whtab buf w st whtab' ->
  WordHashTable.capacity whtab' = WordHashTable.capacity whtab
  ∧ WordHashTable.size whtab <= WordHashTable.size whtab'
  ∧ WordHashTable.size whtab' <= S (WordHashTable.size whtab).
Proof.
  destruct 1 as [whtab' pos _ _ Hcap Hsize _ _
                |whtab' k _ _ _ Hcap Hsize _
                |whtab' _ Hsame _ _].
  - lia.
  - lia.
  - destruct Hsame as (_ & Hcap & Hsize & _). lia.
Qed.

(** The retry loop of [main] on a table with a free slot: it ends with
    [SUCCESS], or fails because the allocator returned NULL. *)
Lemma add_word_retry_outcome buf w :
  holds_word buf w ->
  ∀ heap whtab,
    reachable whtab ->
    WordHashTable.size whtab < WordHashTable.capacity whtab ->
    match add_word_retry heap whtab buf with
    | Finished (st, whtab', heap') =>
        st = SUCCESS ∧ reachable whtab' ∧ heap' `suffix_of` heap
        ∧ WordHashTable.capacity whtab' = WordHashTable.capacity whtab
        ∧ WordHashTable.size whtab <= WordHashTable.size whtab'
        ∧ WordHashTable.size whtab' <= S (WordHashTable.size whtab)
    | Failure => None ∈ heap
    | Pending => True
    end.
Proof.
  intros Hbuf.
  induction heap as [|a heap IH]; intros whtab Hr Hfree;
    destruct (reachable_add_word whtab buf w Hr Hbuf)
      as (st & whtab1 & Hadd & Hr1 & _ & Hcases);
    cbn [add_word_retry]; rewrite Hadd;
    (destruct Hcases as [Heff|(-> & _ & Hfull)]; [|lia]);
    pose proof (add_effect_size _ _ _ _ _ Heff) as (Hcap & Hlo & Hhi);
    destruct Heff as [whtab1 pos _ _ _ _ _ _|whtab1 k _ _ _ _ _ _
                     |whtab1 Hwf1 Hsame _ _];
    try (split_and!; auto; reflexivity).
  - exact I.
  - destruct a as [b|];
      [|rewrite WordHashTable_MemoryPool_expand_fail; left].
    destruct (WordHashTable_MemoryPool_expand_spec whtab1 b Hwf1)
      as (whtab2 & Hexp & _ & _ & _ & _ & Hcap2 & Hsize2 & _).
    rewrite Hexp.
    assert (Hr2 : reachable whtab2) by (eapply reach_pool_expand; eassumption).
    destruct Hsame as (_ & Hc & Hs & _).
    specialize (IH whtab2 Hr2 ltac:(lia)).
    destruct (add_word_retry heap whtab2 buf) as [[[st' whtab'] heap']| |].
    + destruct IH as (-> & Hr' & Hsuf & Hc' & Hl & Hh).
      split_and!; [reflexivity|exact Hr'| |lia|lia|lia].
      apply suffix_cons_r, Hsuf.
    + right. exact IH.
    + exact I.
Qed.

(** [WordHashTable_expand] fails only on a NULL response. *)
Lemma WordHashTable_expand_failure whtab heap st whtab' heap' :
  wf whtab ->
  WordHashTable_expand whtab heap = Some (st, whtab', heap') ->
  st = SUCCESS ∨ (st = GEN_FAIL ∧ None ∈ heap).
Proof.
  intros H. unfold WordHashTable_expand.
  destruct heap as [|[b1|] heap]; [discriminate| |].
  2: { intros Heq. inversion Heq. right. split; [reflexivity|left]. }
  destruct heap as [|[b2|] heap]; [discriminate| |].
  2: { intros Heq. inversion Heq. right. split; [reflexivity|right; left]. }
  destruct (negb _).
  - destruct heap as [|a heap]; [discriminate|].
    destruct a as [b|].
    + destruct (WordHashTable_MemoryPool_expand _ (Some b)) as [[| |] whtabp] eqn:Hp.
      * destruct (WordHashTable_migrate _ _) as [[whtab1 ext]|]; [|discriminate].
        intros Heq. inversion Heq. left. reflexivity.
      * unfold WordHashTable_MemoryPool_expand, MemoryPool_expand in Hp. discriminate.
      * unfold WordHashTable_MemoryPool_expand, MemoryPool_expand in Hp. discriminate.
    + rewrite WordHashTable_MemoryPool_expand_fail.
      intros Heq. inversion Heq. right. split; [reflexivity|do 2 right; left].
  - destruct (WordHashTable_migrate _ _) as [[whtab1 ext]|]; [|discriminate].
    intros Heq. inversion Heq. left. reflexivity.
Qed.

Lemma load_ok_start whtab :
  0 < WordHashTable.capacity whtab -> WordHashTable.size whtab = 0 -> load_ok whtab.
Proof. unfold load_ok. lia. Qed.

Lemma load_ok_below whtab :
  WordHashTable_size_below whtab 70 = true -> load_ok whtab.
Proof.
  unfold WordHashTable_size_below, load_ok. intros Hb. apply Nat.ltb_lt in Hb.
  pose proof (Nat.Div0.mul_div_le (WordHashTable.capacity whtab * 70) 100). lia.
Qed.

Lemma load_ok_expand whtab0 whtab1 whtab2 :
  load_ok whtab0 ->
  WordHashTable.capacity whtab1 = WordHashTable.capacity whtab0 ->
  WordHashTable.size whtab1 <= S (WordHashTable.size whtab0) ->
  WordHashTable.capacity whtab2 = WordHashTable.capacity whtab1 * 2 ->
  WordHashTable.size whtab2 = WordHashTable.size whtab1 ->
  load_ok whtab2.
Proof. unfold load_ok. lia. Qed.

(** The [for] loop of [main] from a reachable table that satisfies
    [load_ok]. *)
Lemma count_words_outcome :
  ∀ inputVector heap whtab,
    reachable whtab -> load_ok whtab ->
    Forall (fun buf => ∃ w, holds_word buf w) inputVector ->
    match count_words inputVector heap whtab with
    | Finished (whtab', heap') =>
        reachable whtab' ∧ load_ok whtab' ∧ heap' `suffix_of` heap
        ∧ WordHashTable.size whtab <= WordHashTable.size whtab'
        ∧ WordHashTable.size whtab' <= WordHashTable.size whtab + length inputVector
        ∧ ∃ j, WordHashTable.capacity whtab' = WordHashTable.capacity whtab * 2 ^ j
               ∧ (j = 0 ∨ WordHashTable.capacity whtab' / 2 * 70 / 100
                          <= WordHashTable.size whtab')
    | Failure => None ∈ heap
    | Pending => True
    end.
Proof.
  induction inputVector as [|buf inputVector IH]; intros heap whtab Hr Hload Hbufs;
    cbn [count_words].
  - split_and!; [exact Hr|exact Hload|reflexivity|lia|cbn; lia|].
    exists 0. cbn. split; [lia|left; reflexivity].
  - apply Forall_cons in Hbufs as [[w Hbuf] Hbufs].
    pose proof (add_word_retry_outcome buf w Hbuf heap whtab Hr (proj1 Hload)) as Hretry.
    destruct (add_word_retry heap whtab buf) as [[[st whtab1] heap1]| |];
      [|exact Hretry|exact I].
    destruct Hretry as (-> & Hr1 & Hsuf1 & Hcap1 & Hlo1 & Hhi1).
    destruct (WordHashTable_size_below whtab1 70) eqn:Hbelow; cbn [negb].
    + specialize (IH heap1 whtab1 Hr1 (load_ok_below whtab1 Hbelow) Hbufs).
      destruct (count_words inputVector heap1 whtab1) as [[whtab' heap']| |];
        [|eapply elem_of_suffix; eassumption|exact I].
      destruct IH as (Hr' & Hload' & Hsuf' & Hlo' & Hhi' & j & Hj & Hsparse).
      split_and!; [exact Hr'|exact Hload'|etransitivity; eassumption|lia|cbn [length]; lia|].
      exists j. split; [rewrite Hj, Hcap1; reflexivity|exact Hsparse].
    + destruct (WordHashTable_expand whtab1 heap1) as [[[st2 whtab2] heap2]|] eqn:Hexp;
        [|exact I].
      pose proof (reachable_wf _ Hr1) as H1.
      destruct (WordHashTable_expand_failure _ _ _ _ _ H1 Hexp) as [->|[-> Hnull]];
        [|eapply elem_of_suffix; eassumption].
      destruct (WordHashTable_expand_spec _ _ _ _ H1 Hexp) as (_ & _ & Hcap2 & Hsize2).
      destruct (WordHashTable_expand_pool _ _ _ _ H1 Hexp) as (_ & _ & Hheap2).
      assert (Hr2 : reachable whtab2) by (eapply reach_expand; eassumption).
      assert (Hsuf2 : heap2 `suffix_of` heap1) by (rewrite Hheap2; apply suffix_drop).
      specialize (IH heap2 whtab2 Hr2
                    (load_ok_expand whtab whtab1 whtab2 Hload Hcap1 Hhi1 Hcap2 Hsize2) Hbufs).
      destruct (count_words inputVector heap2 whtab2) as [[whtab' heap']| |];
        [|eapply elem_of_suffix; [eassumption|etransitivity; eassumption]|exact I].
      destruct IH as (Hr' & Hload' & Hsuf' & Hlo' & Hhi' & j & Hj & Hsparse).
      split_and!; [exact Hr'|exact Hload'| |lia|cbn [length]; lia|].
      { etransitivity; [exact Hsuf'|]. etransitivity; eassumption. }
      exists (S j). split; [rewrite Hj, Hcap2, Hcap1, Nat.pow_succ_r'; lia|right].
      destruct Hsparse as [->|Hsparse]; [|exact Hsparse].
      rewrite Hj, Hcap2, Nat.pow_0_r, Nat.mul_1_r, Nat.div_mul by lia.
      unfold WordHashTable_size_below in Hbelow. apply Nat.ltb_ge in Hbelow. lia.
Qed.

(** [main] up to the end of the counting loop. *)
Lemma main_outcome fp heap :
  (Z.of_nat (length (snd (tokenize fp))) <= 2 ^ 63)%Z ->
  let n := length (snd (tokenize fp)) in
  match main fp heap with
  | Finished (whtab, rows) =>
      reachable whtab ∧ load_ok whtab ∧ rows = report whtab
      ∧ WordHashTable.size whtab <= n
      ∧ ∃ j, WordHashTable.capacity whtab = wtabInitSize n * 2 ^ j
             ∧ (j = 0 ∨ WordHashTable.capacity whtab / 2 * 70 / 100
                        <= WordHashTable.size whtab)
  | Failure => None ∈ heap
  | Pending => True
  end.
Proof.
  unfold main, tokenize.
  destruct (get_input_holds fp) as (vec & ws & -> & Hvec & Hws).
  cbn [snd]. rewrite (WordBufferVector_at_tokens _ _ Hvec).
  rewrite (vec_holds_tokens _ _ Hvec).
  intros Hbound.
  assert (Hsize : WordBufferVector_get_size vec = length (map token_of ws)).
  { destruct Hvec as (_ & Hcur & _). unfold WordBufferVector_get_size.
    rewrite Hcur, length_map. reflexivity. }
  rewrite Hsize. cbv zeta.
  set (n := length (map token_of ws)) in *.
  pose proof (wtabInitSize_pos n Hbound) as Hpos.
  destruct (WordHashTable_create (wtabInitSize n) heap) as [[whtab0 heap0]| |] eqn:Hcreate.
  - assert (Hr0 : reachable whtab0) by (eapply reach_create; eassumption).
    destruct (WordHashTable_create_wf _ _ _ _ Hpos Hcreate) as (Hwf0 & Hrep0 & Hcap0).
    assert (Hsize0 : WordHashTable.size whtab0 = 0).
    { rewrite <- (live_length _ Hwf0).
      apply (f_equal length) in Hrep0. unfold report in Hrep0.
      rewrite length_map in Hrep0. exact Hrep0. }
    assert (Hsuf0 : heap0 `suffix_of` heap).
    { revert Hcreate. unfold WordHashTable_create, calloc, MemoryPool_init.
      destruct heap as [|[b1|] heap]; try discriminate.
      destruct heap as [|[b2|] heap]; try discriminate.
      destruct heap as [|[b3|] heap]; try discriminate.
      destruct heap as [|[b4|] heap]; try discriminate.
      intros Heq. inversion Heq; subst.
      exists [Some b1; Some b2; Some b3; Some b4]. reflexivity. }
    assert (Hbufs : Forall (fun buf => ∃ w, holds_word buf w) (map token_of ws)).
    { apply Forall_forall. intros buf Hin.
      apply list_elem_of_fmap in Hin as (w & -> & Hw).
      rewrite Forall_forall in Hws. exists w.
      apply token_of_holds_word, (Hws w Hw). }
    pose proof (count_words_outcome (map token_of ws) heap0 whtab0 Hr0
                  (load_ok_start whtab0 ltac:(lia) Hsize0) Hbufs) as Hcount.
    destruct (count_words (map token_of ws) heap0 whtab0) as [[whtab1 heap1]| |];
      [|eapply elem_of_suffix; eassumption|exact I].
    destruct Hcount as (Hr1 & Hload1 & _ & _ & Hhi & j & Hj & Hsparse).
    split_and!; [exact Hr1|exact Hload1| |fold n in Hhi; lia|].
    + apply wf_count_print, reachable_wf, Hr1.
    + exists j. rewrite <- Hcap0. auto.
  - revert Hcreate. unfold WordHashTable_create, calloc, MemoryPool_init.
    destruct heap as [|[b1|] heap]; [discriminate| |intros _; left].
    destruct heap as [|[b2|] heap]; [discriminate| |intros _; right; left].
    destruct heap as [|[b3|] heap]; [discriminate| |intros _; do 2 right; left].
    destruct heap as [|[b4|] heap]; [discriminate|discriminate|intros _; do 3 right; left].
  - exact I.
Qed.

(** X18: the table [main] ends with.  Its capacity is the
    initial capacity doubled some number of times, hence a power of two;
    it has a free slot and its load is below 70% but for at most one entry;
    if it was expanded at all, it is at least as full as 70% of half its
    capacity.  The report has one row per occupied slot, and no more rows
    than there are tokens. *)
Theorem main_final_table fp heap whtab rows :
  (Z.of_nat (length (snd (tokenize fp))) <= 2 ^ 63)%Z ->
  main fp heap = Finished (whtab, rows) ->
  let n := length (snd (tokenize fp)) in
  (∃ j, WordHashTable.capacity whtab = wtabInitSize n * 2 ^ j
        ∧ (j = 0 ∨ WordHashTable.capacity whtab / 2 * 70 / 100
                   <= WordHashTable.size whtab))
  ∧ WordHashTable.size whtab < WordHashTable.capacity whtab
  ∧ 100 * WordHashTable.size whtab < 70 * WordHashTable.capacity whtab + 100
  ∧ length rows = WordHashTable.size whtab
  ∧ WordHashTable.size whtab <= n.
Proof.
  intros Hbound Hmain. pose proof (main_outcome fp heap Hbound) as Hout.
  rewrite Hmain in Hout. cbv zeta in *.
  destruct Hout as (Hr & [Hfree Hload] & -> & Hn & Hj).
  split_and!; try assumption.
  unfold report. rewrite length_map. apply live_length, reachable_wf, Hr.
Qed.

Lemma main_final_table_witness :
  ∃ whtab rows,
    main (text "b a b") (plenty 34) = Finished (whtab, rows)
    ∧ WordHashTable.size whtab < WordHashTable.capacity whtab
    ∧ length rows = WordHashTable.size whtab.
Proof.
  destruct (main (text "b a b") (plenty 34)) as [[whtab rows]| |] eqn:Hmain;
    try (vm_compute in Hmain; discriminate).
  destruct (main_final_table (text "b a b") (plenty 34) whtab rows)
    as (_ & Hfree & _ & Hlen & _); [vm_compute; discriminate|exact Hmain|].
  exists whtab, rows. auto.
Defined.

(** X19: [main] exits with failure only when an allocation
    failed: with an allocator that never returns NULL no call of
    [WordHashTable_add_word] reports [GEN_FAIL], no expansion fails, and
    the program does not take an error exit. *)
Theorem main_fails_on_null_only fp heap :
  (Z.of_nat (length (snd (tokenize fp))) <= 2 ^ 63)%Z ->
  (main fp heap = Failure -> None ∈ heap)
  ∧ (Forall is_Some heap -> main fp heap ≠ Failure).
Proof.
  intros Hbound. pose proof (main_outcome fp heap Hbound) as Hout.
  assert (Hfail : main fp heap = Failure -> None ∈ heap).
  { intros Hmain. rewrite Hmain in Hout. exact Hout. }
  split; [exact Hfail|].
  intros Hsome Hmain. apply Hfail in Hmain.
  rewrite Forall_forall in Hsome. destruct (Hsome None Hmain) as [b Hb]. discriminate.
Qed.

Lemma main_fails_on_null_only_witness :
  main (text "b a b") [Some (mkBlock 4096 (fun _ => 0%Z)); None] = Failure
  ∧ None ∈ [Some (mkBlock 4096 (fun _ => 0%Z)); None].
Proof.
  assert (H : main (text "b a b") [Some (mkBlock 4096 (fun _ => 0%Z)); None] = Failure)
    by (vm_compute; reflexivity).
  split; [exact H|].
  apply (proj1 (main_fails_on_null_only (text "b a b") _ ltac:(vm_compute; discriminate))).
  exact H.
Defined.

(** X20: an input without letters and digits.  [main] makes
    the four allocations of a one-slot table, adds nothing, prints no row
    and succeeds; it fails when one of the four allocations fails. *)
Theorem main_on_wordless_input fp heap :
  Forall (fun ch => is_letter ch = false ∧ is_number ch = false) fp ->
  4 <= length heap ->
  (Forall is_Some (take 4 heap) ->
   ∃ whtab, main fp heap = Finished (whtab, [])
            ∧ WordHashTable.capacity whtab = 1 ∧ WordHashTable.size whtab = 0)
  ∧ (None ∈ take 4 heap -> main fp heap = Failure).
Proof.
  intros Hfp Hlen. unfold main, get_input.
  destruct WordBuffer_create_holds as (wbuf & -> & _).
  rewrite (get_input_loop_between _ _ _ Hfp).
  change (WordBufferVector_get_size (WordBufferVector_create INITIAL_WORD_VECTOR_LENGTH))
    with 0.
  change (wtabInitSize 0) with 1. cbn [seq map].
  destruct heap as [|a1 [|a2 [|a3 [|a4 heap]]]]; cbn [length] in Hlen; try lia.
  cbn [take]. split.
  - intros Hsome.
    apply Forall_cons in Hsome as [[b1 ->] Hsome].
    apply Forall_cons in Hsome as [[b2 ->] Hsome].
    apply Forall_cons in Hsome as [[b3 ->] Hsome].
    apply Forall_cons in Hsome as [[b4 ->] _].
    eexists. split_and!; reflexivity.
  - intros Hin. unfold WordHashTable_create, calloc, MemoryPool_init.
    destruct a1 as [b1|]; [|reflexivity].
    destruct a2 as [b2|]; [|reflexivity].
    destruct a3 as [b3|]; [|reflexivity].
    destruct a4 as [b4|]; [|reflexivity].
    exfalso. repeat (apply elem_of_cons in Hin as [Hin|Hin]; [discriminate|]).
    apply elem_of_nil in Hin. exact Hin.
Qed.

Lemma main_on_wordless_input_witness :
  ∃ whtab, main (text "?! ... --") (plenty 4) = Finished (whtab, [])
           ∧ WordHashTable.capacity whtab = 1.
Proof.
  destruct (proj1 (main_on_wordless_input (text "?! ... --") (plenty 4)
                     ltac:(repeat constructor) ltac:(cbn; lia)))
    as (whtab & Hmain & Hcap & _).
  - apply Forall_take, plenty_is_Some.
  - exists whtab. auto.
Defined.

(** ** Where the entries sit *)

Lemma add_word_at_shape whtab buf curIndex displ newDispl st whtab' :
  wf whtab -> curIndex < WordHashTable.capacity whtab ->
  add_word_at whtab buf curIndex displ newDispl = Some (st, whtab') ->
  add_shape whtab buf curIndex displ newDispl st whtab'.
Proof.
  intros H Hk. unfold add_word_at.
  set (curEntry := entry_at whtab curIndex).
  destruct (Nat.eqb_spec (WordHashTabEntry.count curEntry) 0) as [Hfree|Hused].
  - unfold MemoryPool_alloc_block.
    set (memp := WordHashTable.stringsPool whtab).
    destruct (Nat.ltb_spec (MemoryPool.nextChar memp + (WordBuffer.curPosition buf + 1))
                           (MemoryPool.capacity memp)) as [Hroom|Hfull].
    + set (p := (MemoryPool.memSpace memp + Z.of_nat (MemoryPool.nextChar memp))%Z).
      set (memp1 := MemoryPool.mk _ _ _ _).
      assert (Hpw : store memp1 p
                (snd (string_copy (deref memp1 p) (WordBuffer.letters buf)
                        (WordBuffer.curPosition buf + 1)))
              = pool_with_word memp buf).
      { unfold pool_with_word, MemoryPool_alloc_block.
        destruct (Nat.ltb_spec (MemoryPool.nextChar memp + (WordBuffer.curPosition buf + 1))
                    (MemoryPool.capacity memp)); [reflexivity|lia]. }
      destruct (string_copy (deref memp1 p) (WordBuffer.letters buf)
                  (WordBuffer.curPosition buf + 1)) as [ok bytes] eqn:Hcopy.
      assert (ok = true) as ->.
      { unfold string_copy in Hcopy.
        destruct (Nat.eqb_spec (WordBuffer.curPosition buf + 1) 0); [lia|].
        inversion Hcopy. reflexivity. }
      cbn [snd] in Hpw. rewrite Hpw. clear Hcopy Hpw bytes.
      set (memp' := pool_with_word memp buf) in *.
      set (e := WordHashTabEntry.mk p (WordHashTabEntry.count curEntry + 1)
                  (WordBuffer.curPosition buf + 1) displ).
      set (whtab1 := set_stringsPool (set_entries whtab _) memp').
      assert (Hsz := wf_free_slot_size _ _ H Hk Hfree).
      destruct (orderArray_insert_spec whtab1 p curIndex)
        as (arr & pos & -> & Harr & Hpos & Htake & _ & _).
      { change (WordHashTable.size whtab
                < length (WordHashTable.alphOrderArray whtab)).
        rewrite (wf_order _ H). exact Hsz. }
      change (live whtab1) with (live whtab) in *.
      change (WordHashTable.size whtab1) with (WordHashTable.size whtab) in *.
      intros Hres.
      assert (He : e = WordHashTabEntry.mk p 1 (WordBuffer.curPosition buf + 1) displ).
      { unfold e. rewrite Hfree. reflexivity. }
      assert (Hshape : ∃ pf,
        whtab' = WordHashTable.mk (<[curIndex := e]> (WordHashTable.entries whtab)) arr
                   (WordHashTable.capacity whtab) (S (WordHashTable.size whtab))
                   memp'
                   (HashStats.mk
                      (S (HashStats.totalInsertions (WordHashTable.hstats whtab)))
                      (HashStats.totalCollisions (WordHashTable.hstats whtab) + newDispl))
                   pf
        ∧ st = SUCCESS
        ∧ pf = (if WordHashTable.size whtab =? 0
                then PrintFormatStats.mk curIndex curIndex
                else if WordHashTabEntry.length
                          (<[curIndex := e]> (WordHashTable.entries whtab)
                             !!! PrintFormatStats.maxLengthWordIndex
                                   (WordHashTable.pfstats whtab))
                        <? WordHashTabEntry.length e
                     then PrintFormatStats.mk curIndex
                            (PrintFormatStats.maxCountWordIndex (WordHashTable.pfstats whtab))
                     else WordHashTable.pfstats whtab)).
      { revert Hres. unfold whtab1. ht_unfold. unfold entry_at. ht_simpl.
        replace (if 0 <? newDispl
                 then HashStats.totalCollisions (WordHashTable.hstats whtab) + newDispl
                 else HashStats.totalCollisions (WordHashTable.hstats whtab))
          with (HashStats.totalCollisions (WordHashTable.hstats whtab) + newDispl)
          by (destruct (Nat.ltb_spec 0 newDispl); lia).
        rewrite !Nat.add_1_r.
        destruct (WordHashTable.size whtab =? 0);
          [|destruct (_ <? _)]; ht_simpl; intros Hres; inversion Hres; subst;
          eexists; split_and!; reflexivity. }
      destruct Hshape as (pf & -> & -> & ->).
      apply (shape_inserted _ _ _ _ _ _ pos); ht_simpl; try reflexivity.
      * exact Hfree.
      * exact Hroom.
      * rewrite He. reflexivity.
      * exact Htake.
    + intros Hres. inversion Hres; subst st whtab'.
      apply shape_full; [exact Hfree|exact Hfull].
  - destruct (entry_matches whtab curEntry buf displ) eqn:Hm; [|discriminate].
    intros Hres.
    assert (Hshape :
      whtab' = WordHashTable.mk
                 (<[curIndex := WordHashTabEntry.mk
                       (WordHashTabEntry.letters curEntry)
                       (S (WordHashTabEntry.count curEntry))
                       (WordHashTabEntry.length curEntry)
                       (WordHashTabEntry.displacement curEntry)]>
                    (WordHashTable.entries whtab))
                 (WordHashTable.alphOrderArray whtab) (WordHashTable.capacity whtab)
                 (WordHashTable.size whtab) (WordHashTable.stringsPool whtab)
                 (WordHashTable.hstats whtab)
                 (if WordHashTabEntry.count
                       (<[curIndex := WordHashTabEntry.mk
                             (WordHashTabEntry.letters curEntry)
                             (S (WordHashTabEntry.count curEntry))
                             (WordHashTabEntry.length curEntry)
                             (WordHashTabEntry.displacement curEntry)]>
                          (WordHashTable.entries whtab)
                        !!! PrintFormatStats.maxCountWordIndex (WordHashTable.pfstats whtab))
                     <? S (WordHashTabEntry.count curEntry)
                  then PrintFormatStats.mk
                         (PrintFormatStats.maxLengthWordIndex (WordHashTable.pfstats whtab))
                         curIndex
                  else WordHashTable.pfstats whtab)
      ∧ st = SUCCESS).
    { revert Hres. ht_unfold. unfold entry_at. ht_simpl. rewrite !Nat.add_1_r.
      destruct (_ <? _); intros Hres; inversion Hres; subst; split; reflexivity. }
    destruct Hshape as [-> ->].
    apply shape_counted; ht_simpl; try reflexivity; assumption.
Qed.

Lemma add_word_at_None whtab buf curIndex displ newDispl :
  add_word_at whtab buf curIndex displ newDispl = None ->
  WordHashTabEntry.count (entry_at whtab curIndex) ≠ 0
  ∧ entry_matches whtab (entry_at whtab curIndex) buf displ = false.
Proof.
  intros Hnone. split.
  - intros Hfree. exact (add_word_at_free whtab buf curIndex displ newDispl Hfree Hnone).
  - revert Hnone. unfold add_word_at.
    destruct (_ =? 0).
    + destruct (MemoryPool_alloc_block _ _) as [[p|] memp]; [|discriminate].
      destruct (string_copy _ _ _) as [[|] bytes]; discriminate.
    + destruct (entry_matches _ _ _ _); [discriminate|reflexivity].
Qed.

Lemma hash_slot_word w rest capacity :
  hash_slot (w ++ 0%Z :: rest) (S (length w)) capacity = word_slot w capacity.
Proof.
  unfold word_slot, hash_slot, fnvhash.
  replace (w ++ 0%Z :: rest) with ((w ++ [0%Z]) ++ rest)
    by (rewrite <- app_assoc; reflexivity).
  rewrite take_app_length' by (rewrite length_app; cbn; lia).
  rewrite take_ge by (rewrite length_app; cbn; lia). reflexivity.
Qed.

Lemma add_word_hashIndex_word whtab buf w :
  holds_word buf w ->
  add_word_hashIndex whtab buf = word_slot w (WordHashTable.capacity whtab).
Proof.
  intros ([rest Hl] & Hcur & _). unfold add_word_hashIndex.
  rewrite Hl, Hcur, Nat.add_1_r. apply hash_slot_word.
Qed.

Lemma hash_slot_stored whtab e w capacity :
  stored (WordHashTable.stringsPool whtab) e w ->
  hash_slot (entry_string whtab e) (WordHashTabEntry.length e) capacity
  = word_slot w capacity.
Proof.
  intros Hst. unfold entry_string.
  destruct (stored_string _ _ _ Hst) as [rest ->].
  destruct Hst as (_ & _ & -> & _). apply hash_slot_word.
Qed.

Lemma add_word_body_cases whtab buf h d r :
  add_word_body whtab buf h d = Some r ->
  (h + d < WordHashTable.capacity whtab
   ∧ add_word_at whtab buf (h + d) (Z.of_nat d) d = Some r)
  ∨ ((h + d < WordHashTable.capacity whtab ->
      add_word_at whtab buf (h + d) (Z.of_nat d) d = None)
     ∧ d <= h ∧ 0 < d
     ∧ add_word_at whtab buf (h - d) (- Z.of_nat d) d = Some r).
Proof.
  unfold add_word_body.
  destruct (Nat.ltb_spec (h + d) (WordHashTable.capacity whtab)) as [Hin|Hout].
  - destruct (add_word_at whtab buf (h + d) _ _) as [r'|] eqn:Hfirst.
    + intros Hr. inversion Hr; subst. left. auto.
    + destruct (Nat.leb_spec d h); [|discriminate].
      destruct (Nat.ltb_spec 0 d); [|discriminate]. cbn [andb].
      intros Hr. right. auto.
  - destruct (Nat.leb_spec d h); [|discriminate].
    destruct (Nat.ltb_spec 0 d); [|discriminate]. cbn [andb].
    intros Hr. right. split_and!; [lia|assumption|assumption|exact Hr].
Qed.

Lemma add_word_body_None whtab buf h d :
  add_word_body whtab buf h d = None ->
  (h + d < WordHashTable.capacity whtab ->
   add_word_at whtab buf (h + d) (Z.of_nat d) d = None)
  ∧ (d <= h -> 0 < d -> add_word_at whtab buf (h - d) (- Z.of_nat d) d = None).
Proof.
  unfold add_word_body.
  destruct (Nat.ltb_spec (h + d) (WordHashTable.capacity whtab)) as [Hin|Hout].
  - destruct (add_word_at whtab buf (h + d) _ _) as [r'|] eqn:Hfirst; [discriminate|].
    intros Hn. split; [reflexivity|]. intros Hle Hpos.
    destruct (Nat.leb_spec d h); [|lia].
    destruct (Nat.ltb_spec 0 d); [|lia]. exact Hn.
  - intros Hn. split; [lia|]. intros Hle Hpos.
    destruct (Nat.leb_spec d h); [|lia].
    destruct (Nat.ltb_spec 0 d); [|lia]. exact Hn.
Qed.

(** The slots probed before signed displacement [z] from [h] are taken
    when the loop body returned nothing at the smaller distances and, for
    a slot below [h], nothing at the slot above. *)
Lemma probed_before_taken (taken : nat -> Prop) (capacity h : nat) (z : Z) :
  (∀ k, k < Z.to_nat (Z.abs z) ->
     (h + k < capacity -> taken (h + k)) ∧ (k <= h -> 0 < k -> taken (h - k))) ->
  ((z < 0)%Z -> h + Z.to_nat (Z.abs z) < capacity -> taken (h + Z.to_nat (Z.abs z))) ->
  ∀ z', probed_before z' z ->
    (0 <= Z.of_nat h + z' < Z.of_nat capacity)%Z ->
    taken (Z.to_nat (Z.of_nat h + z')).
Proof.
  intros Hless Hup z' [Hlt|[Hpos ->]] Hrange.
  - destruct (Hless (Z.to_nat (Z.abs z')) ltac:(lia)) as [Hplus Hminus].
    destruct (Z.le_gt_cases 0 z').
    + replace (Z.to_nat (Z.of_nat h + z')) with (h + Z.to_nat (Z.abs z')) by lia.
      apply Hplus. lia.
    + replace (Z.to_nat (Z.of_nat h + z')) with (h - Z.to_nat (Z.abs z')) by lia.
      apply Hminus; lia.
  - replace (Z.to_nat (Z.of_nat h + z')) with (h + Z.to_nat (Z.abs (- z'))) by lia.
    apply Hup; lia.
Qed.

(** How a call of [WordHashTable_add_word] ends: without a slot, or at
    the first probe at which a step returned, with the table that step
    leaves. *)
Lemma add_word_result whtab buf st whtab' :
  wf whtab ->
  WordHashTable_add_word whtab buf = Some (st, whtab') ->
  let h := add_word_hashIndex whtab buf in
  (st = GEN_FAIL ∧ whtab' = whtab
   ∧ ∀ d, probed (WordHashTable.capacity whtab) h 0 d ->
          add_word_body whtab buf h d = None)
  ∨ ∃ d curIndex displ,
      (∀ k, k < d -> add_word_body whtab buf h k = None)
      ∧ curIndex < WordHashTable.capacity whtab
      ∧ Z.of_nat curIndex = (Z.of_nat h + displ)%Z
      ∧ Z.abs displ = Z.of_nat d
      ∧ ((displ < 0)%Z -> h + d < WordHashTable.capacity whtab ->
         add_word_at whtab buf (h + d) (Z.of_nat d) d = None)
      ∧ add_word_at whtab buf curIndex displ d = Some (st, whtab')
      ∧ add_shape whtab buf curIndex displ d st whtab'.
Proof.
  intros H Hadd h.
  unfold WordHashTable_add_word in Hadd. fold (add_word_hashIndex whtab buf) in Hadd.
  fold h in Hadd. rewrite add_word_loop_probe in Hadd.
  destruct (probe_result (add_word_body whtab buf h) (WordHashTable.capacity whtab)
              h (GEN_FAIL, whtab) (WordHashTable.capacity whtab + h + 1) 0)
    as [(d & r & Hp & _ & Hb & Hbefore)|[Hp Hnone]]; [lia|lia| |].
  - right. rewrite Hp in Hadd. inversion Hadd; subst r. clear Hadd.
    exists d.
    destruct (add_word_body_cases _ _ _ _ _ Hb) as [[Hin Hat]|(Hup & Hle & Hpos & Hat)].
    + exists (h + d), (Z.of_nat d).
      split_and!; [intros k Hk; apply Hbefore; lia|exact Hin|lia|lia|lia|exact Hat|].
      apply (add_word_at_shape _ _ _ _ _ _ _ H Hin Hat).
    + assert (Hh : h < WordHashTable.capacity whtab) by apply hash_slot_lt, (wf_capacity _ H).
      exists (h - d), (- Z.of_nat d).
      split_and!; [intros k Hk; apply Hbefore; lia|lia|lia|lia|intros _; exact Hup|exact Hat|].
      assert (Hlt : h - d < WordHashTable.capacity whtab) by lia.
      apply (add_word_at_shape _ _ _ _ _ _ _ H Hlt Hat).
  - left. rewrite Hp in Hadd. inversion Hadd; subst. auto.
Qed.

Lemma placed_at_frame whtab whtab' s :
  WordHashTable.capacity whtab' = WordHashTable.capacity whtab ->
  word_of whtab' s = word_of whtab s ->
  WordHashTabEntry.displacement (entry_at whtab' s)
  = WordHashTabEntry.displacement (entry_at whtab s) ->
  (∀ k, k < WordHashTable.capacity whtab ->
     WordHashTabEntry.count (entry_at whtab k) ≠ 0 ->
     WordHashTabEntry.count (entry_at whtab' k) ≠ 0) ->
  placed_at whtab s -> placed_at whtab' s.
Proof.
  unfold placed_at. intros -> -> -> Hcount [Hs Htaken].
  split; [exact Hs|]. intros z' Hz' Hrange.
  apply Hcount; [lia|]. apply Htaken; assumption.
Qed.

Lemma entry_at_insert whtab whtab' k e :
  WordHashTable.entries whtab' = <[k := e]> (WordHashTable.entries whtab) ->
  ∀ i, entry_at whtab' i
       = if decide (i = k ∧ k < length (WordHashTable.entries whtab)) then e
         else entry_at whtab i.
Proof.
  intros He i. unfold entry_at. rewrite He.
  destruct (decide (i = k ∧ k < length (WordHashTable.entries whtab))) as [[-> Hk]|Hn].
  - apply list_lookup_total_insert_eq, Hk.
  - destruct (decide (i = k)) as [->|Hne].
    + rewrite list_insert_ge by lia. reflexivity.
    + apply list_lookup_total_insert_ne. congruence.
Qed.

(** The words of the live entries after a new word went into the pool. *)
Lemma inserted_words whtab buf w whtab' curIndex e :
  wf whtab -> holds_word buf w -> curIndex < WordHashTable.capacity whtab ->
  WordHashTabEntry.count (entry_at whtab curIndex) = 0 ->
  MemoryPool.nextChar (WordHashTable.stringsPool whtab) + (WordBuffer.curPosition buf + 1)
  < MemoryPool.capacity (WordHashTable.stringsPool whtab) ->
  WordHashTable.entries whtab' = <[curIndex := e]> (WordHashTable.entries whtab) ->
  WordHashTabEntry.letters e
  = (MemoryPool.memSpace (WordHashTable.stringsPool whtab)
     + Z.of_nat (MemoryPool.nextChar (WordHashTable.stringsPool whtab)))%Z ->
  WordHashTabEntry.length e = WordBuffer.curPosition buf + 1 ->
  WordHashTable.stringsPool whtab' = pool_with_word (WordHashTable.stringsPool whtab) buf ->
  word_of whtab' curIndex = w
  ∧ ∀ s, s ∈ live whtab -> word_of whtab' s = word_of whtab s.
Proof.
  intros H Hbuf Hk Hfree Hroom He Hp Hlen Hpool.
  destruct (pool_with_word_spec _ buf w (wf_pool _ H) Hbuf Hroom)
    as (Hbase & Hnext & Hpcap & Hpool' & Hnew & Hframe).
  pose proof (entry_at_insert _ _ _ _ He) as Hat.
  destruct Hbuf as (_ & Hcur & Hnz).
  split.
  - apply stored_word_of. rewrite Hpool, (Hat curIndex).
    destruct (decide _) as [_|Hn]; [|rewrite (wf_entries _ H) in Hn; tauto].
    exists (MemoryPool.nextChar (WordHashTable.stringsPool whtab)).
    rewrite Hbase, Hnext, Hp, Hlen, Hcur.
    replace (length w + 1) with (S (length w)) by lia.
    split_and!; [reflexivity|reflexivity|lia|exact Hnew|exact Hnz].
  - intros s Hs.
    assert (Hne : s ≠ curIndex).
    { intros ->. apply (wf_live _ H) in Hs. tauto. }
    destruct (wf_stored _ H s Hs) as [w' Hw'].
    rewrite (stored_word_of _ _ _ Hw').
    apply stored_word_of. rewrite Hpool, (Hat s).
    destruct (decide _) as [[? _]|_]; [contradiction|].
    eapply stored_frame; [exact Hbase|lia|exact Hframe|exact Hw'].
Qed.

Lemma word_of_same_block whtab whtab' s :
  WordHashTable.stringsPool whtab' = WordHashTable.stringsPool whtab ->
  WordHashTabEntry.letters (entry_at whtab' s) = WordHashTabEntry.letters (entry_at whtab s) ->
  word_of whtab' s = word_of whtab s.
Proof. unfold word_of, entry_string. intros -> ->. reflexivity. Qed.

Lemma add_word_placed whtab buf w st whtab' :
  wf whtab -> placed whtab -> holds_word buf w ->
  WordHashTable_add_word whtab buf = Some (st, whtab') ->
  placed whtab'.
Proof.
  intros H Hpl Hbuf Hadd.
  destruct (add_word_result _ _ _ _ H Hadd)
    as [(_ & -> & _)|(d & curIndex & displ & Hbefore & Hk & Hslot & Hd & Hup & _ & Hshape)];
    [exact Hpl|].
  rewrite (add_word_hashIndex_word _ _ _ Hbuf) in *.
  set (h := word_slot w (WordHashTable.capacity whtab)) in *.
  assert (Hh : h < WordHashTable.capacity whtab) by apply hash_slot_lt, (wf_capacity _ H).
  assert (Hlen : length (WordHashTable.entries whtab) = WordHashTable.capacity whtab)
    by apply (wf_entries _ H).
  destruct Hshape as [whtab' pos Hfree Hroom He Hlive Hcap Hsize Hpool _ _
                     |whtab' Hused Hm He Horder Hcap Hsize Hpool _ _
                     |Hfree Hfull].
  - (* a new entry *)
    pose proof (entry_at_insert _ _ _ _ He) as Hat.
    destruct (inserted_words whtab buf w whtab' curIndex _ H Hbuf Hk Hfree Hroom He
                eq_refl eq_refl Hpool) as [Hw Hwords].
    assert (Hcount : ∀ k, k < WordHashTable.capacity whtab ->
              WordHashTabEntry.count (entry_at whtab k) ≠ 0 ->
              WordHashTabEntry.count (entry_at whtab' k) ≠ 0).
    { intros k _ Hc. rewrite (Hat k).
      destruct (decide _) as [[-> _]|_]; [contradiction|exact Hc]. }
    intros s Hs. rewrite Hlive in Hs.
    assert (Hcases : s = curIndex ∨ s ∈ live whtab).
    { rewrite middle_Permutation in Hs. apply elem_of_cons in Hs. exact Hs. }
    destruct Hcases as [->|Hs'].
    + unfold placed_at. rewrite Hw, Hcap, (Hat curIndex).
      destruct (decide _) as [_|Hn]; [|rewrite Hlen in Hn; tauto].
      cbn [WordHashTabEntry.displacement]. fold h.
      split; [exact Hslot|].
      apply (probed_before_taken
               (fun k => WordHashTabEntry.count (entry_at whtab' k) ≠ 0)).
      * intros k Hkd.
        destruct (add_word_body_None _ _ _ _ (Hbefore k ltac:(lia))) as [Hplus Hminus].
        split.
        -- intros Hin. apply Hcount; [exact Hin|].
           apply (add_word_at_None _ _ _ _ _ (Hplus Hin)).
        -- intros Hle Hpos. apply Hcount; [lia|].
           apply (add_word_at_None _ _ _ _ _ (Hminus Hle Hpos)).
      * intros Hneg Hin. rewrite Hd, Nat2Z.id in *.
        apply Hcount; [exact Hin|].
        apply (add_word_at_None _ _ _ _ _ (Hup Hneg Hin)).
    + assert (Hne : s ≠ curIndex).
      { intros ->. apply (wf_live _ H) in Hs'. tauto. }
      apply (placed_at_frame whtab); [exact Hcap|apply Hwords, Hs'| |exact Hcount|apply Hpl, Hs'].
      rewrite (Hat s). destruct (decide _) as [[? _]|_]; [contradiction|reflexivity].
  - (* the count of an entry went up *)
    pose proof (entry_at_insert _ _ _ _ He) as Hat.
    assert (Hlive : live whtab' = live whtab) by (unfold live; rewrite Horder, Hsize; reflexivity).
    intros s Hs. rewrite Hlive in Hs.
    apply (placed_at_frame whtab); [exact Hcap| | | |apply Hpl, Hs].
    + apply word_of_same_block; [exact Hpool|].
      rewrite (Hat s). destruct (decide _) as [[-> _]|_]; reflexivity.
    + rewrite (Hat s). destruct (decide _) as [[-> _]|_]; reflexivity.
    + intros k _ Hc. rewrite (Hat k).
      destruct (decide _) as [[-> _]|_]; [cbn; lia|exact Hc].
  - (* the pool is full *)
    set (whtab' := set_entries whtab _).
    assert (He : WordHashTable.entries whtab'
                 = <[curIndex := set_letters (entry_at whtab curIndex) NULL]>
                     (WordHashTable.entries whtab)) by reflexivity.
    pose proof (entry_at_insert _ _ _ _ He) as Hat.
    intros s Hs. change (live whtab') with (live whtab) in Hs.
    assert (Hne : s ≠ curIndex).
    { intros ->. apply (wf_live _ H) in Hs. tauto. }
    apply (placed_at_frame whtab); [reflexivity| | | |apply Hpl, Hs].
    + apply word_of_same_block; [reflexivity|].
      rewrite (Hat s). destruct (decide _) as [[? _]|_]; [contradiction|reflexivity].
    + rewrite (Hat s). destruct (decide _) as [[? _]|_]; [contradiction|reflexivity].
    + intros k _ Hc. rewrite (Hat k).
      destruct (decide _) as [[-> _]|_]; [contradiction|exact Hc].
Qed.

Lemma migrate_at_None whtab ext i oldIndex oldEntry curIndex displ newDispl :
  migrate_at whtab ext i oldIndex oldEntry curIndex displ newDispl = None ->
  WordHashTabEntry.count (ext !!! curIndex) ≠ 0.
Proof.
  intros Hnone Hfree.
  exact (migrate_at_free whtab ext i oldIndex oldEntry curIndex displ newDispl Hfree Hnone).
Qed.

Lemma migrate_body_cases whtab ext i oldIndex oldEntry h d r :
  migrate_body whtab ext i oldIndex oldEntry h d = Some r ->
  (h + d < WordHashTable.capacity whtab
   ∧ migrate_at whtab ext i oldIndex oldEntry (h + d) (Z.of_nat d) d = Some r)
  ∨ ((h + d < WordHashTable.capacity whtab ->
      migrate_at whtab ext i oldIndex oldEntry (h + d) (Z.of_nat d) d = None)
     ∧ d <= h ∧ 0 < d
     ∧ migrate_at whtab ext i oldIndex oldEntry (h - d) (- Z.of_nat d) d = Some r).
Proof.
  unfold migrate_body.
  destruct (Nat.ltb_spec (h + d) (WordHashTable.capacity whtab)) as [Hin|Hout].
  - destruct (migrate_at whtab ext i oldIndex oldEntry (h + d) _ _) as [r'|] eqn:Hfirst.
    + intros Hr. inversion Hr; subst. left. auto.
    + destruct (Nat.leb_spec d h); [|discriminate].
      destruct (Nat.ltb_spec 0 d); [|discriminate]. cbn [andb].
      intros Hr. right. auto.
  - destruct (Nat.leb_spec d h); [|discriminate].
    destruct (Nat.ltb_spec 0 d); [|discriminate]. cbn [andb].
    intros Hr. right. split_and!; [lia|assumption|assumption|exact Hr].
Qed.

Lemma migrate_body_None whtab ext i oldIndex oldEntry h d :
  migrate_body whtab ext i oldIndex oldEntry h d = None ->
  (h + d < WordHashTable.capacity whtab -> WordHashTabEntry.count (ext !!! (h + d)) ≠ 0)
  ∧ (d <= h -> 0 < d -> WordHashTabEntry.count (ext !!! (h - d)) ≠ 0).
Proof.
  unfold migrate_body.
  destruct (Nat.ltb_spec (h + d) (WordHashTable.capacity whtab)) as [Hin|Hout].
  - destruct (migrate_at whtab ext i oldIndex oldEntry (h + d) _ _) as [r'|] eqn:Hfirst;
      [discriminate|].
    intros Hn. split; [intros _; eapply migrate_at_None, Hfirst|].
    intros Hle Hpos.
    destruct (Nat.leb_spec d h); [|lia].
    destruct (Nat.ltb_spec 0 d); [|lia]. eapply migrate_at_None, Hn.
  - intros Hn. split; [lia|]. intros Hle Hpos.
    destruct (Nat.leb_spec d h); [|lia].
    destruct (Nat.ltb_spec 0 d); [|lia]. eapply migrate_at_None, Hn.
Qed.

(** A step of the rehash finds a free slot. *)
Lemma migrate_step_found whtab0 i whtab ext whtab' ext' :
  migrating whtab0 i whtab ext ->
  i < WordHashTable.size whtab0 ->
  WordHashTable.size whtab0 < WordHashTable.capacity whtab0 ->
  WordHashTable.size whtab0 <= length (WordHashTable.alphOrderArray whtab0) ->
  let oldIndex := WordHashTable.alphOrderArray whtab !!! i in
  let oldEntry := entry_at whtab oldIndex in
  let hashIndex :=
    hash_slot (entry_string whtab oldEntry) (WordHashTabEntry.length oldEntry)
              (WordHashTable.capacity whtab) in
  migrate_loop (WordHashTable.capacity whtab + hashIndex + 1)
    whtab ext i oldIndex oldEntry hashIndex 0 = Some (whtab', ext') ->
  ∃ d curIndex displ, migrate_found whtab ext i d curIndex displ whtab' ext'.
Proof.
  intros M Hi Hsz Horder oldIndex oldEntry hashIndex.
  set (C := WordHashTable.capacity whtab0) in *.
  assert (HC : WordHashTable.capacity whtab = C) by apply (mg_capacity _ _ _ _ M).
  assert (Hh : hashIndex < WordHashTable.capacity whtab).
  { apply hash_slot_lt. lia. }
  set (used := take i (WordHashTable.alphOrderArray whtab)) in *.
  assert (Hilen : i < length (WordHashTable.alphOrderArray whtab)).
  { rewrite (mg_order_length _ _ _ _ M). lia. }
  assert (Hused_len : length used = i) by (apply length_take_le; lia).
  assert (Hused_lt : ∀ x, x ∈ used -> x < C).
  { intros x Hx. apply list_elem_of_lookup in Hx as [j Hj].
    assert (Hji : j < i).
    { pose proof (lookup_lt_Some _ _ _ Hj) as Hlt. lia. }
    unfold used in Hj. rewrite lookup_take_lt in Hj by exact Hji.
    destruct (mg_moved _ _ _ _ M j Hji) as [Hlt _].
    rewrite (list_lookup_total_correct _ _ _ Hj) in Hlt. exact Hlt. }
  destruct (free_slot used C (mg_nodup _ _ _ _ M) Hused_lt) as (k & Hk & Hknot);
    [lia|].
  assert (Hkfree : WordHashTabEntry.count (ext !!! k) = 0).
  { destruct (decide (WordHashTabEntry.count (ext !!! k) = 0)) as [|Hne];
      [assumption|].
    exfalso. apply Hknot, (mg_used _ _ _ _ M k Hk), Hne. }
  rewrite migrate_loop_probe.
  destruct (probe_result (migrate_body whtab ext i oldIndex oldEntry hashIndex)
              (WordHashTable.capacity whtab) hashIndex (whtab, ext)
              (WordHashTable.capacity whtab + hashIndex + 1) 0)
    as [(d & r & Hp & _ & Hb & Hbefore)|[_ Hnone]]; [lia|lia| |].
  - rewrite Hp. intros Hr. inversion Hr; subst r. clear Hr.
    exists d.
    assert (Hless : ∀ k0, k0 < d ->
      (hashIndex + k0 < WordHashTable.capacity whtab ->
       WordHashTabEntry.count (ext !!! (hashIndex + k0)) ≠ 0)
      ∧ (k0 <= hashIndex -> 0 < k0 ->
         WordHashTabEntry.count (ext !!! (hashIndex - k0)) ≠ 0)).
    { intros k0 Hk0. apply (migrate_body_None whtab ext i oldIndex oldEntry).
      apply Hbefore. lia. }
    destruct (migrate_body_cases _ _ _ _ _ _ _ _ Hb) as [[Hin Hat]|(Hup & Hle & Hpos & Hat)].
    + exists (hashIndex + d), (Z.of_nat d). unfold migrate_found.
      fold oldIndex. fold oldEntry. fold hashIndex.
      split_and!; [exact Hless|exact Hin|lia|lia|lia|exact Hat].
    + exists (hashIndex - d), (- Z.of_nat d). unfold migrate_found.
      fold oldIndex. fold oldEntry. fold hashIndex.
      split_and!; [exact Hless|lia|lia|lia| |exact Hat].
      intros _ Hin. eapply migrate_at_None, Hup, Hin.
  - exfalso.
    apply (migrate_body_free whtab ext i oldIndex oldEntry hashIndex k);
      [lia|exact Hkfree|].
    apply Hnone, probed_slot; lia.
Qed.

(** Induction over the steps of the rehash: a property that holds at the
    start and survives every step in which a free slot is found holds at
    the end. *)
Lemma migrate_entries_ind whtab0
    (P : nat -> WordHashTable -> list WordHashTabEntry -> Prop) :
  WordHashTable.size whtab0 < WordHashTable.capacity whtab0 ->
  WordHashTable.size whtab0 <= length (WordHashTable.alphOrderArray whtab0) ->
  (∀ j, j < WordHashTable.size whtab0 ->
     WordHashTabEntry.count
       (entry_at whtab0 (WordHashTable.alphOrderArray whtab0 !!! j)) ≠ 0) ->
  (∀ i whtab ext whtab' ext' d curIndex displ,
     i < WordHashTable.size whtab0 ->
     migrating whtab0 i whtab ext -> P i whtab ext ->
     migrating whtab0 (S i) whtab' ext' ->
     migrate_found whtab ext i d curIndex displ whtab' ext' ->
     P (S i) whtab' ext') ->
  ∀ m i whtab ext,
    i + m = WordHashTable.size whtab0 ->
    migrating whtab0 i whtab ext -> P i whtab ext ->
    ∃ whtab' ext',
      migrate_entries (seq i m) whtab ext = Some (whtab', ext')
      ∧ migrating whtab0 (WordHashTable.size whtab0) whtab' ext'
      ∧ P (WordHashTable.size whtab0) whtab' ext'.
Proof.
  intros Hsz Horder Hlive Hstep.
  induction m as [|m IH]; intros i whtab ext Him M HP; cbn [seq migrate_entries].
  - replace (WordHashTable.size whtab0) with i by lia. eauto.
  - destruct (migrate_step whtab0 i whtab ext M) as (whtab1 & ext1 & Hloop & M1);
      [lia|exact Hsz|exact Horder|apply Hlive; lia|].
    destruct (migrate_step_found whtab0 i whtab ext whtab1 ext1 M ltac:(lia) Hsz Horder Hloop)
      as (d & curIndex & displ & Hfound).
    rewrite Hloop.
    apply IH; [lia|exact M1|].
    eapply Hstep; [|exact M|exact HP|exact M1|exact Hfound]. lia.
Qed.

(** The rehash of a well-formed table, with a property carried along. *)
Lemma WordHashTable_migrate_ind whtab0 x
    (P : nat -> WordHashTable -> list WordHashTabEntry -> Prop) :
  wf whtab0 -> length x = WordHashTable.capacity whtab0 ->
  let whtab2 := expanding whtab0 x in
  let C := WordHashTable.capacity whtab0 * 2 in
  P 0 whtab2 (repeat WordHashTabEntry_zero C) ->
  (∀ i whtab ext whtab' ext' d curIndex displ,
     i < WordHashTable.size whtab0 ->
     migrating whtab2 i whtab ext -> P i whtab ext ->
     migrating whtab2 (S i) whtab' ext' ->
     migrate_found whtab ext i d curIndex displ whtab' ext' ->
     P (S i) whtab' ext') ->
  ∃ whtab3 ext,
    WordHashTable_migrate whtab2 (repeat WordHashTabEntry_zero C) = Some (whtab3, ext)
    ∧ migrating whtab2 (WordHashTable.size whtab0) whtab3 ext
    ∧ P (WordHashTable.size whtab0) whtab3 ext.
Proof.
  intros H Hx whtab2 C HP0 Hstep.
  set (n := WordHashTable.size whtab0).
  pose proof (wf_capacity _ H) as Hc0.
  pose proof (wf_size _ H) as Hn0. fold n in Hn0.
  pose proof (wf_order _ H) as Ho0.
  assert (Hold : ∀ j, j < n ->
            WordHashTable.alphOrderArray whtab2 !!! j
            = WordHashTable.alphOrderArray whtab0 !!! j).
  { intros j Hj. unfold whtab2, expanding. ht_unfold.
    apply lookup_total_app_l. lia. }
  assert (Hlive0 : ∀ j, j < n ->
            WordHashTable.alphOrderArray whtab0 !!! j ∈ live whtab0).
  { intros j Hj. apply list_elem_of_lookup. exists j. unfold live. fold n.
    rewrite lookup_take_lt by exact Hj.
    apply list_lookup_lookup_total_lt. lia. }
  assert (M0 : migrating whtab2 0 whtab2 (repeat WordHashTabEntry_zero C)).
  { constructor; try reflexivity.
    - rewrite repeat_length. reflexivity.
    - rewrite take_0. constructor.
    - intros k Hk. rewrite take_0.
      rewrite lookup_total_repeat by exact Hk. cbn. split; [congruence|].
      intros Hin. inversion Hin.
    - intros j Hj. lia. }
  unfold WordHashTable_migrate.
  apply (migrate_entries_ind whtab2 P) with (m := n) (i := 0).
  - change (n < C). unfold C. lia.
  - change (n <= length (WordHashTable.alphOrderArray whtab0 ++ x)).
    rewrite length_app. lia.
  - intros j Hj. change (WordHashTable.size whtab2) with n in Hj.
    rewrite (Hold j Hj). apply (wf_live _ H), Hlive0, Hj.
  - exact Hstep.
  - reflexivity.
  - exact M0.
  - exact HP0.
Qed.

(** A successful expansion is a rehash of the table, or of the table
    with its pool doubled. *)
Lemma WordHashTable_expand_via whtab heap whtab' heap' :
  wf whtab ->
  WordHashTable_expand whtab heap = Some (SUCCESS, whtab', heap') ->
  ∃ whtabp x whtab3 ext,
    wf whtabp
    ∧ (whtabp = whtab
       ∨ ∃ b, WordHashTable_MemoryPool_expand whtab (Some b) = (SUCCESS, whtabp))
    ∧ length x = WordHashTable.capacity whtabp
    ∧ WordHashTable_migrate (expanding whtabp x)
        (repeat WordHashTabEntry_zero (WordHashTable.capacity whtabp * 2))
      = Some (whtab3, ext)
    ∧ whtab' = set_entries whtab3 ext.
Proof.
  intros H. unfold WordHashTable_expand.
  destruct heap as [|[b1|] heap]; [discriminate| |discriminate].
  destruct heap as [|[b2|] heap]; [discriminate| |discriminate].
  set (x := map (fun k => Z.to_nat (block_junk b2 k))
              (seq (WordHashTable.capacity whtab)
                   (WordHashTable.capacity whtab * 2 - WordHashTable.capacity whtab))).
  fold (expanding whtab x).
  assert (Hx : length x = WordHashTable.capacity whtab).
  { unfold x. rewrite length_map, length_seq. lia. }
  assert (Hsz : WordHashTable.size whtab <= length (WordHashTable.alphOrderArray whtab)).
  { rewrite (wf_order _ H). apply (wf_size _ H). }
  change (WordHashTable.stringsPool (expanding whtab x))
    with (WordHashTable.stringsPool whtab).
  destruct (MemoryPool_size_below (WordHashTable.stringsPool whtab) 80); cbn [negb].
  - destruct (WordHashTable_migrate _ _) as [[whtab3 ext]|] eqn:Hm; [|discriminate].
    intros Hres. inversion Hres; subst.
    exists whtab, x, whtab3, ext. split_and!; auto.
  - destruct heap as [|a heap]; [discriminate|].
    rewrite WordHashTable_MemoryPool_expand_expanding by exact Hsz.
    destruct a as [b|]; [|cbn; discriminate].
    destruct (WordHashTable_MemoryPool_expand_spec whtab b H)
      as (whtabp & Hexp & Hwfp & _ & _ & _ & Hcapp & _).
    rewrite Hexp. cbn [fst snd]. rewrite <- Hcapp.
    destruct (WordHashTable_migrate _ _) as [[whtab3 ext]|] eqn:Hm; [|discriminate].
    intros Hres. inversion Hres; subst.
    exists whtabp, x, whtab3, ext. split_and!; eauto. lia.
Qed.

Lemma WordHashTable_migrate_placed whtab0 x :
  wf whtab0 -> length x = WordHashTable.capacity whtab0 ->
  ∀ whtab3 ext,
    WordHashTable_migrate (expanding whtab0 x)
      (repeat WordHashTabEntry_zero (WordHashTable.capacity whtab0 * 2))
    = Some (whtab3, ext) ->
    placed (set_entries whtab3 ext).
Proof.
  intros H Hx whtab3 ext Hmig.
  set (whtab2 := expanding whtab0 x) in *.
  set (C := WordHashTable.capacity whtab0 * 2) in *.
  set (memp := WordHashTable.stringsPool whtab0).
  destruct (WordHashTable_migrate_ind whtab0 x
              (fun i whtab ext =>
                 ∀ j, j < i ->
                   placed_in memp C ext (WordHashTable.alphOrderArray whtab !!! j)) H Hx)
    as (whtab3' & ext' & Hmig' & M & HP).
  { intros j Hj. lia. }
  { intros i whtab ext0 whtab' ext1 d curIndex displ Hi M0 HP0 M1
           (Hless & Hc & Hslot & Hd & Hup & Hat) j Hj.
    apply migrate_at_spec in Hat as (Hcfree & -> & _ & Ha & _ & _ & _).
    assert (HextC : length ext0 = C) by apply (mg_ext_length _ _ _ _ M0).
    assert (HcapC : WordHashTable.capacity whtab = C) by apply (mg_capacity _ _ _ _ M0).
    assert (Hpool0 : WordHashTable.stringsPool whtab = memp) by apply (mg_pool _ _ _ _ M0).
    assert (Hilen : i < length (WordHashTable.alphOrderArray whtab)).
    { rewrite (mg_order_length _ _ _ _ M0).
      change (i < length (WordHashTable.alphOrderArray whtab0 ++ x)).
      rewrite length_app. pose proof (wf_size _ H). pose proof (wf_order _ H). lia. }
    assert (Hkeep : ∀ k, WordHashTabEntry.count (ext0 !!! k) ≠ 0 ->
              <[curIndex := WordHashTabEntry.mk
                   (WordHashTabEntry.letters
                      (entry_at whtab (WordHashTable.alphOrderArray whtab !!! i)))
                   (WordHashTabEntry.count
                      (entry_at whtab (WordHashTable.alphOrderArray whtab !!! i)))
                   (WordHashTabEntry.length
                      (entry_at whtab (WordHashTable.alphOrderArray whtab !!! i)))
                   displ]> ext0 !!! k = ext0 !!! k).
    { intros k Hk. apply list_lookup_total_insert_ne. intros ->. contradiction. }
    rewrite Ha.
    destruct (decide (j = i)) as [->|Hne].
    - rewrite list_lookup_total_insert_eq by exact Hilen.
      unfold placed_in.
      rewrite list_lookup_total_insert_eq by (rewrite HextC; lia).
      ht_simpl. unfold entry_string in *. rewrite Hpool0, HcapC in *.
      split; [exact Hslot|].
      apply (probed_before_taken
               (fun k => WordHashTabEntry.count (_ !!! k) ≠ 0)).
      + intros k Hk. destruct (Hless k ltac:(lia)) as [Hplus Hminus].
        split.
        * intros Hin. rewrite Hkeep; apply Hplus, Hin.
        * intros Hle Hpos. rewrite Hkeep; apply Hminus; assumption.
      + intros Hneg Hin. rewrite Hd, Nat2Z.id in *.
        rewrite Hkeep; apply Hup; assumption.
    - rewrite list_lookup_total_insert_ne by congruence.
      destruct (HP0 j ltac:(lia)) as [Hs Htaken].
      destruct (mg_moved _ _ _ _ M0 j ltac:(lia)) as [Hlt _].
      assert (Hused : WordHashTabEntry.count
                        (ext0 !!! (WordHashTable.alphOrderArray whtab !!! j)) ≠ 0).
      { apply (mg_used _ _ _ _ M0); [exact Hlt|].
        apply list_elem_of_lookup. exists j. rewrite lookup_take_lt by lia.
        apply list_lookup_lookup_total_lt. lia. }
      unfold placed_in. rewrite (Hkeep _ Hused).
      split; [exact Hs|]. intros z' Hz' Hrange.
      rewrite Hkeep; apply Htaken; assumption. }
  fold whtab2 C in Hmig'. rewrite Hmig in Hmig'. inversion Hmig'; subst whtab3' ext'.
  destruct (WordHashTable_migrate_spec whtab0 x H Hx)
    as (whtab3'' & ext'' & Hmig'' & Hwf & _ & Hcap3 & Hsize3 & Hpool3).
  fold whtab2 C in Hmig''. rewrite Hmig in Hmig''. inversion Hmig''; subst whtab3'' ext''.
  set (whtab' := set_entries whtab3 ext) in *.
  intros s Hs.
  assert (Hj : ∃ j, j < WordHashTable.size whtab0
                    ∧ s = WordHashTable.alphOrderArray whtab3 !!! j).
  { apply list_elem_of_lookup in Hs as [j Hj].
    unfold live, whtab' in Hj. ht_unfold. rewrite Hsize3 in Hj.
    assert (j < WordHashTable.size whtab0).
    { pose proof (lookup_lt_Some _ _ _ Hj) as Hlt.
      rewrite length_take in Hlt. lia. }
    rewrite lookup_take_lt in Hj by lia.
    exists j. split; [lia|]. symmetry. apply list_lookup_total_correct, Hj. }
  destruct Hj as (j & Hj & ->).
  destruct (HP j Hj) as [Hslot Htaken].
  destruct (wf_stored _ Hwf _ Hs) as [w Hw].
  unfold placed_at.
  rewrite (stored_word_of _ _ _ Hw).
  change (WordHashTable.capacity whtab') with (WordHashTable.capacity whtab3).
  change (entry_at whtab' (WordHashTable.alphOrderArray whtab3 !!! j))
    with (ext !!! (WordHashTable.alphOrderArray whtab3 !!! j)) in *.
  rewrite Hcap3. fold C.
  pose proof (hash_slot_stored whtab' _ w C Hw) as Hhash.
  unfold entry_string in Hhash.
  change (WordHashTable.stringsPool whtab') with (WordHashTable.stringsPool whtab3) in Hhash.
  rewrite Hpool3 in Hhash. fold memp in Hhash.
  rewrite Hhash in Hslot, Htaken.
  split; [exact Hslot|]. intros z' Hz' Hrange.
  change (entry_at whtab' ?k) with (ext !!! k).
  apply Htaken; assumption.
Qed.

Lemma WordHashTable_MemoryPool_expand_placed whtab b whtab' :
  wf whtab -> placed whtab ->
  WordHashTable_MemoryPool_expand whtab (Some b) = (SUCCESS, whtab') ->
  placed whtab'.
Proof.
  intros H Hpl Hexp.
  destruct (WordHashTable_MemoryPool_expand_spec whtab b H)
    as (whtab'' & Heq & Hwf & _ & Hlive & _ & Hcap & _ & _ & _ & _ & _ & _ & Hent & Hst).
  rewrite Hexp in Heq. inversion Heq; subst whtab''. clear Heq.
  assert (Hcount : ∀ k, WordHashTabEntry.count (entry_at whtab' k)
                        = WordHashTabEntry.count (entry_at whtab k)).
  { intros k. rewrite Hent. destruct (decide _); reflexivity. }
  assert (Hdispl : ∀ k, WordHashTabEntry.displacement (entry_at whtab' k)
                        = WordHashTabEntry.displacement (entry_at whtab k)).
  { intros k. rewrite Hent. destruct (decide _); reflexivity. }
  intros s Hs. rewrite Hlive in Hs.
  destruct (wf_stored _ H _ Hs) as [w Hw].
  pose proof (Hst s w Hs Hw) as Hw'.
  destruct (Hpl s Hs) as [Hslot Htaken]. unfold placed_at.
  rewrite (stored_word_of _ _ _ Hw) in Hslot, Htaken.
  rewrite (stored_word_of _ _ _ Hw'), Hcap, Hdispl.
  split; [exact Hslot|]. intros z' Hz' Hrange. rewrite Hcount.
  apply Htaken; assumption.
Qed.

Lemma reachable_placed whtab : reachable whtab -> placed whtab.
Proof.
  induction 1 as [c heap whtab heap' Hc Hcreate
                 |whtab buf w st whtab' Hr IH Hbuf Hadd
                 |whtab a whtab' Hr IH Hexp
                 |whtab heap whtab' heap' Hr IH Hexp].
  - destruct (WordHashTable_create_wf _ _ _ _ Hc Hcreate) as (_ & Hrep & _).
    intros s Hs. unfold report in Hrep. apply map_eq_nil in Hrep.
    rewrite Hrep in Hs. inversion Hs.
  - apply (add_word_placed _ _ _ _ _ (reachable_wf _ Hr) IH Hbuf Hadd).
  - destruct a as [b|]; [|discriminate].
    apply (WordHashTable_MemoryPool_expand_placed _ _ _ (reachable_wf _ Hr) IH Hexp).
  - destruct (WordHashTable_expand_via _ _ _ _ (reachable_wf _ Hr) Hexp)
      as (whtabp & x & whtab3 & ext & Hwfp & _ & Hx & Hmig & ->).
    apply (WordHashTable_migrate_placed whtabp x Hwfp Hx _ _ Hmig).
Qed.

(** The entry that stores the word of the buffer at the displacement of
    the probe passes the comparison of [WordHashTable_add_word]. *)
Lemma entry_matches_stored whtab e buf w :
  w ≠ [] -> holds_word buf w ->
  stored (WordHashTable.stringsPool whtab) e w ->
  entry_matches whtab e buf (WordHashTabEntry.displacement e) = true.
Proof.
  intros Hne ([rest Hl] & Hcur & _) Hst.
  destruct (stored_string _ _ _ Hst) as [rest' Hs].
  destruct Hst as (off & _ & Hlen & _).
  unfold entry_matches, entry_string. rewrite Hs, Hl, Hlen, Hcur.
  assert (Hchar : ∀ r i, (0 <= i < Z.of_nat (length w))%Z ->
            char_at (w ++ 0%Z :: r) i = nth (Z.to_nat i) w 0%Z).
  { intros r i Hi. unfold char_at.
    destruct (Z.ltb_spec i 0); [lia|]. apply app_nth1. lia. }
  assert (0 < length w) by (destruct w; [congruence|cbn; lia]).
  rewrite !Hchar by lia.
  replace (Z.to_nat (Z.of_nat (S (length w)) - 2)) with (Z.to_nat (Z.of_nat (length w) - 1))
    by lia.
  rewrite !andb_true_iff. split_and!.
  - apply Nat.eqb_eq. lia.
  - apply Z.eqb_eq. reflexivity.
  - apply Z.eqb_eq. reflexivity.
  - apply Z.eqb_eq. reflexivity.
Qed.

(** A call for a word that has a row stops at an occupied slot. *)
Lemma add_word_known whtab buf w s :
  wf whtab -> placed whtab -> w ≠ [] -> holds_word buf w ->
  s ∈ live whtab -> word_of whtab s = w ->
  ∃ whtab' curIndex displ d,
    WordHashTable_add_word whtab buf = Some (SUCCESS, whtab')
    ∧ curIndex ∈ live whtab
    ∧ add_shape whtab buf curIndex displ d SUCCESS whtab'
    ∧ WordHashTabEntry.count (entry_at whtab curIndex) ≠ 0.
Proof.
  intros H Hpl Hne Hbuf Hs Hw.
  destruct (WordHashTable_add_word_effect whtab buf w H Hbuf)
    as (st & whtab' & Hadd & _).
  destruct (wf_stored _ H _ Hs) as [w' Hst].
  rewrite (stored_word_of _ _ _ Hst) in Hw. subst w'.
  pose proof (entry_matches_stored _ _ _ _ Hne Hbuf Hst) as Hmatch.
  destruct (Hpl s Hs) as [Hslot Htaken].
  rewrite (stored_word_of _ _ _ Hst) in Hslot, Htaken.
  set (z := WordHashTabEntry.displacement (entry_at whtab s)) in *.
  apply (wf_live _ H) in Hs as Hs'. destruct Hs' as [Hslt Hcount].
  assert (Hat : ∀ n, add_word_at whtab buf s z n ≠ None).
  { intros n Hn. apply add_word_at_None in Hn as [_ Hn]. congruence. }
  pose proof (add_word_result _ _ _ _ H Hadd) as Hres. cbn zeta in Hres.
  rewrite (add_word_hashIndex_word _ _ _ Hbuf) in Hres.
  set (h := word_slot w (WordHashTable.capacity whtab)) in *.
  assert (Hh : h < WordHashTable.capacity whtab) by apply hash_slot_lt, (wf_capacity _ H).
  assert (Hbody : ∀ k, Z.of_nat k = Z.abs z -> add_word_body whtab buf h k ≠ None).
  { intros k Hk Hnone. apply add_word_body_None in Hnone as [Hup Hdown].
    destruct (Z.le_ge_cases 0 z) as [Hz|Hz].
    - assert (s = h + k) by lia. subst s.
      replace z with (Z.of_nat k) in Hat by lia.
      apply (Hat k), Hup. lia.
    - destruct (decide (z = 0%Z)) as [Hz0|Hz0].
      + assert (s = h + k) by lia. subst s.
        replace z with (Z.of_nat k) in Hat by lia.
        apply (Hat k), Hup. lia.
      + assert (s = h - k) by lia. subst s.
        replace z with (- Z.of_nat k)%Z in Hat by lia.
        apply (Hat k), Hdown; lia. }
  destruct Hres as [(_ & _ & Hall)
                   |(d & curIndex & displ & Hbefore & Hk & Hcur & Hd & Hup & Hsome & Hshape)].
  - exfalso. apply (Hbody (Z.to_nat (Z.abs z))); [lia|]. apply Hall.
    unfold probed. rewrite probe_more_true. lia.
  - assert (Hocc : WordHashTabEntry.count (entry_at whtab curIndex) ≠ 0).
    { destruct (decide (displ = z)) as [->|Hdz].
      { replace curIndex with s by lia. exact Hcount. }
      assert (Hpb : probed_before displ z).
      { unfold probed_before.
        destruct (Z.lt_trichotomy (Z.abs displ) (Z.abs z)) as [Hlt|[Heq|Hgt]].
        - left. exact Hlt.
        - destruct (Z.lt_ge_cases 0 displ) as [Hpos|Hneg].
          + right. lia.
          + exfalso. assert (Hdn : (displ < 0)%Z) by lia.
            assert (Hsd : s = h + d) by lia.
            specialize (Hup Hdn ltac:(lia)).
            rewrite <- Hsd in Hup. replace (Z.of_nat d) with z in Hup by lia.
            exact (Hat d Hup).
        - exfalso. apply (Hbody (Z.to_nat (Z.abs z))); [lia|].
          apply Hbefore. lia. }
      replace curIndex with (Z.to_nat (Z.of_nat h + displ)) by lia.
      apply Htaken; [exact Hpb|]. lia. }
    inversion Hshape; subst; try contradiction.
    exists whtab', curIndex, displ, d. split_and!; auto.
    apply (wf_live _ H). split; assumption.
Qed.

(** ** Properties carried through the counting loop *)

(** [Q done whtab]: a property of the table after the words [done] were
    counted.  It passes through the retry loop of [main] when the calls
    and the pool expansion keep it. *)
Lemma add_word_retry_trace (Q : list (list Z) -> WordHashTable -> Prop) buf w done :
  holds_word buf w ->
  (∀ whtab whtab', reachable whtab -> Q done whtab ->
     WordHashTable_add_word whtab buf = Some (SUCCESS, whtab') ->
     Q (done ++ [w]) whtab') ->
  (∀ whtab whtab', reachable whtab -> Q done whtab ->
     WordHashTable_add_word whtab buf = Some (DATA_STRUCT_FULL, whtab') ->
     Q done whtab') ->
  (∀ whtab a whtab', reachable whtab -> Q done whtab ->
     WordHashTable_MemoryPool_expand whtab a = (SUCCESS, whtab') -> Q done whtab') ->
  ∀ heap whtab whtab' heap',
    reachable whtab -> Q done whtab ->
    add_word_retry heap whtab buf = Finished (SUCCESS, whtab', heap') ->
    reachable whtab' ∧ Q (done ++ [w]) whtab'.
Proof.
  intros Hbuf Hadd Hfull Hpool.
  induction heap as [|a heap IH]; intros whtab whtab' heap' Hr HQ;
    cbn [add_word_retry];
    destruct (WordHashTable_add_word whtab buf) as [[st1 whtab1]|] eqn:Heq;
    try discriminate;
    pose proof (reach_add_word _ _ _ _ _ Hr Hbuf Heq) as Hr1;
    destruct st1; try discriminate;
    try (intros Hfin; inversion Hfin; subst; split;
         [exact Hr1|apply (Hadd _ _ Hr HQ Heq)]).
  destruct (WordHashTable_MemoryPool_expand whtab1 a) as [[| |] whtab2] eqn:Hexp;
    try discriminate.
  apply IH.
  - eapply reach_pool_expand; eassumption.
  - apply (Hpool _ _ _ Hr1 (Hfull _ _ Hr HQ Heq) Hexp).
Qed.

Lemma count_words_trace (Q : list (list Z) -> WordHashTable -> Prop)
    (ok : list Z -> Prop) :
  (∀ done whtab w whtab', reachable whtab -> Q done whtab -> ok w ->
     WordHashTable_add_word whtab (token_of w) = Some (SUCCESS, whtab') ->
     Q (done ++ [w]) whtab') ->
  (∀ done whtab w whtab', reachable whtab -> Q done whtab -> ok w ->
     WordHashTable_add_word whtab (token_of w) = Some (DATA_STRUCT_FULL, whtab') ->
     Q done whtab') ->
  (∀ done whtab a whtab', reachable whtab -> Q done whtab ->
     WordHashTable_MemoryPool_expand whtab a = (SUCCESS, whtab') -> Q done whtab') ->
  (∀ done whtab heap whtab' heap', reachable whtab -> Q done whtab ->
     WordHashTable_expand whtab heap = Some (SUCCESS, whtab', heap') -> Q done whtab') ->
  ∀ ws done heap whtab whtab' heap',
    reachable whtab -> Q done whtab ->
    Forall (fun w => Forall (fun c => c ≠ 0%Z) w ∧ ok w) ws ->
    count_words (map token_of ws) heap whtab = Finished (whtab', heap') ->
    reachable whtab' ∧ Q (done ++ ws) whtab'.
Proof.
  intros Hadd Hfull Hpool Hexp.
  induction ws as [|w ws IH];
    intros done heap whtab whtab' heap' Hr HQ Hall; cbn [count_words map].
  - intros Hfin. inversion Hfin; subst. rewrite app_nil_r. split; assumption.
  - inversion Hall as [|? ? (Hnz & Hok) Hall']; subst.
    destruct (add_word_retry heap whtab (token_of w)) as [[[st whtab1] heap1]| |] eqn:Hretry;
      try discriminate.
    destruct st; try discriminate.
    destruct (add_word_retry_trace Q (token_of w) w done (token_of_holds_word w Hnz)
                (fun t t' Hr0 HQ0 => Hadd done t w t' Hr0 HQ0 Hok)
                (fun t t' Hr0 HQ0 => Hfull done t w t' Hr0 HQ0 Hok)
                (Hpool done) _ _ _ _ Hr HQ Hretry) as [Hr1 HQ1].
    replace (done ++ w :: ws) with ((done ++ [w]) ++ ws)
      by (rewrite <- app_assoc; reflexivity).
    destruct (negb (WordHashTable_size_below whtab1 70)).
    + destruct (WordHashTable_expand whtab1 heap1) as [[[st2 whtab2] heap2]|] eqn:Hx;
        try discriminate.
      destruct st2; try discriminate.
      apply IH; [|eapply Hexp; eassumption|exact Hall'].
      eapply reach_expand; eassumption.
    + apply IH; assumption.
Qed.

(** ** No word has two rows *)

Lemma strcmp_zero (a b : list Z) :
  Forall (fun c => c ≠ 0%Z) a -> Forall (fun c => c ≠ 0%Z) b ->
  strcmp a b = 0%Z -> a = b.
Proof.
  intros Ha. revert b.
  induction Ha as [|c1 r1 Hc1 _ IH]; intros b Hb; destruct Hb as [|c2 r2 Hc2 Hb];
    cbn [strcmp]; try lia; try reflexivity.
  destruct (Z.eqb_spec c1 c2) as [->|Hne]; [|lia].
  destruct (Z.eqb_spec c2 0); [contradiction|].
  intros Hs. f_equal. apply IH; assumption.
Qed.

Lemma report_words whtab : map fst (report whtab) = map (word_of whtab) (live whtab).
Proof. unfold report. rewrite map_map. reflexivity. Qed.

Lemma elem_of_report_words whtab w :
  w ∈ map fst (report whtab) <-> ∃ s, s ∈ live whtab ∧ word_of whtab s = w.
Proof.
  rewrite report_words. split.
  - intros Hin. apply list_elem_of_fmap in Hin as (s & -> & Hs). eauto.
  - intros (s & Hs & <-). apply list_elem_of_fmap. eauto.
Qed.

(** A call for a word that has a row bumps one count and adds no row. *)
Lemma add_word_known_rows whtab buf w :
  wf whtab -> placed whtab -> w ≠ [] -> holds_word buf w ->
  w ∈ map fst (report whtab) ->
  ∃ whtab' j word n,
    WordHashTable_add_word whtab buf = Some (SUCCESS, whtab')
    ∧ report whtab !! j = Some (word, n)
    ∧ report whtab' = <[j := (word, S n)]> (report whtab)
    ∧ WordHashTable.size whtab' = WordHashTable.size whtab
    ∧ WordHashTable.capacity whtab' = WordHashTable.capacity whtab
    ∧ WordHashTable.stringsPool whtab' = WordHashTable.stringsPool whtab
    ∧ WordHashTable.hstats whtab' = WordHashTable.hstats whtab.
Proof.
  intros H Hpl Hne Hbuf Hin.
  apply elem_of_report_words in Hin as (s & Hs & <-).
  destruct (add_word_known _ _ _ _ H Hpl Hne Hbuf Hs eq_refl)
    as (whtab' & curIndex & displ & d & Hadd & Hlive & Hshape & Hocc).
  inversion Hshape as [? ? Hfree|? _ _ _ _ Hcap Hsize Hpool Hhs _|Hfree]; subst;
    try contradiction.
  destruct (WordHashTable_add_word_effect whtab buf _ H Hbuf)
    as (st & whtab'' & Heq & [Heff|(Hst & _)]);
    rewrite Hadd in Heq; inversion Heq; subst; [|discriminate].
  pose proof (add_effect_rows _ _ _ _ _ H Heff) as Hrows. cbn in Hrows.
  destruct Hrows as [(pos & _ & Hsz)|(j & word & n & Hj & Hrep & _)]; [lia|].
  exists whtab'', j, word, n. split_and!; auto.
Qed.

Lemma add_word_distinct whtab buf w st whtab' :
  wf whtab -> placed whtab -> w ≠ [] -> holds_word buf w ->
  NoDup (map fst (report whtab)) ->
  WordHashTable_add_word whtab buf = Some (st, whtab') ->
  NoDup (map fst (report whtab')).
Proof.
  intros H Hpl Hne Hbuf Hnd Hadd.
  destruct (WordHashTable_add_word_effect whtab buf w H Hbuf)
    as (st' & whtab'' & Heq & [Heff|(_ & -> & _)]);
    rewrite Hadd in Heq; inversion Heq; subst; [|exact Hnd].
  pose proof (add_effect_rows _ _ _ _ _ H Heff) as Hrows.
  destruct st'.
  - destruct Hrows as [(pos & Hrep & Hsz)|(j & word & n & Hj & Hrep & _)].
    + assert (Hperm : take pos (report whtab) ++ (w, 1) :: drop pos (report whtab)
                      ≡ₚ (w, 1) :: report whtab).
      { rewrite <- Permutation_middle, take_drop. reflexivity. }
      rewrite Hrep, (Permutation_map fst Hperm). cbn [map fst].
      apply NoDup_cons. split; [|exact Hnd].
      intros Hin.
      destruct (add_word_known_rows _ _ _ H Hpl Hne Hbuf Hin)
        as (t & _ & _ & _ & Hadd' & _ & _ & Hsz' & _).
      rewrite Hadd in Hadd'. inversion Hadd'; subst. lia.
    + rewrite Hrep.
      replace (map fst (<[j := (word, S n)]> (report whtab))) with (map fst (report whtab));
        [exact Hnd|].
      change (map fst) with (fmap (M := list) (fst (A := list Z) (B := nat))).
      rewrite list_fmap_insert. cbn [fst]. symmetry. apply list_insert_id.
      rewrite list_lookup_fmap, Hj. reflexivity.
  - destruct Hrows as [-> _]. exact Hnd.
  - destruct Hrows as [-> _]. exact Hnd.
Qed.

Lemma count_words_distinct ws heap whtab whtab' heap' :
  reachable whtab -> NoDup (map fst (report whtab)) ->
  Forall word_ok ws ->
  count_words (map token_of ws) heap whtab = Finished (whtab', heap') ->
  reachable whtab' ∧ NoDup (map fst (report whtab')).
Proof.
  intros Hr Hnd Hws Hcount.
  assert (Hstep : ∀ t w st t', reachable t -> NoDup (map fst (report t)) -> word_ok w ->
            WordHashTable_add_word t (token_of w) = Some (st, t') ->
            NoDup (map fst (report t'))).
  { intros t w st t' Hr0 Hnd0 [Hne Hnz] Hadd.
    apply (add_word_distinct t (token_of w) w st t' (reachable_wf _ Hr0)
             (reachable_placed _ Hr0) Hne (token_of_holds_word w Hnz) Hnd0 Hadd). }
  apply (count_words_trace (fun _ t => NoDup (map fst (report t))) word_ok)
    with (ws := ws) (done := []) (heap := heap) (whtab := whtab) (heap' := heap');
    try assumption.
  - intros _ t w t'. apply Hstep.
  - intros _ t w t'. apply Hstep.
  - intros _ t a t' Hr0 Hnd0 Hx. destruct a as [b|]; [|discriminate].
    destruct (WordHashTable_MemoryPool_expand_spec t b (reachable_wf _ Hr0))
      as (t'' & Heq & _ & Hrep & _).
    rewrite Hx in Heq. inversion Heq; subst. rewrite Hrep. exact Hnd0.
  - intros _ t heap0 t' heap0' Hr0 Hnd0 Hx.
    destruct (WordHashTable_expand_spec _ _ _ _ (reachable_wf _ Hr0) Hx) as (_ & Hrep & _).
    rewrite Hrep. exact Hnd0.
  - apply Forall_forall. intros w Hw. rewrite Forall_forall in Hws.
    split; [apply (Hws w Hw)|apply (Hws w Hw)].
Qed.

(** ** The row a call counts on *)

(** Two words with a common terminator position that agree at one index
    of their buffers agree there as lists. *)
Lemma char_at_word (w rest : list Z) (i : nat) :
  i < length w -> char_at (w ++ 0%Z :: rest) (Z.of_nat i) = nth i w 0%Z.
Proof.
  intros Hi. unfold char_at. destruct (Z.ltb_spec (Z.of_nat i) 0); [lia|].
  rewrite Nat2Z.id. apply app_nth1, Hi.
Qed.

Lemma counted_row whtab buf w whtab' :
  wf whtab -> placed whtab -> holds_word buf w ->
  WordHashTable_add_word whtab buf = Some (SUCCESS, whtab') ->
  WordHashTable.size whtab' = WordHashTable.size whtab ->
  ∃ j s,
    live whtab !! j = Some s
    ∧ report whtab'
      = <[j := (word_of whtab s, S (WordHashTabEntry.count (entry_at whtab s)))]>
          (report whtab)
    ∧ length (word_of whtab s) = length w
    ∧ head (word_of whtab s) = head w
    ∧ last (word_of whtab s) = last w
    ∧ word_slot (word_of whtab s) (WordHashTable.capacity whtab)
      = word_slot w (WordHashTable.capacity whtab).
Proof.
  intros H Hpl Hbuf Hadd Hsize.
  pose proof (add_word_result _ _ _ _ H Hadd) as Hres. cbn zeta in Hres.
  rewrite (add_word_hashIndex_word _ _ _ Hbuf) in Hres.
  destruct Hres as [(Hst & _)
                   |(d & s & displ & _ & Hk & Hcur & _ & _ & _ & Hshape)];
    [discriminate|].
  inversion Hshape as [? ? _ _ _ _ _ Hsz|? Hocc Hmatch Hent Hord Hcap _ Hpool _ _|];
    subst; [lia|].
  assert (Hs : s ∈ live whtab) by (apply (wf_live _ H); split; assumption).
  destruct (wf_stored _ H _ Hs) as [word Hst].
  pose proof (stored_word_of _ _ _ Hst) as Hword.
  apply list_elem_of_lookup in Hs as Hj. destruct Hj as [j Hj].
  exists j, s. split; [exact Hj|].
  assert (Hlen : length (WordHashTable.entries whtab) = WordHashTable.capacity whtab)
    by apply (wf_entries _ H).
  split.
  { unfold report at 2. rewrite <- (map_bump_insert
                 (fun i => (word_of whtab i, WordHashTabEntry.count (entry_at whtab i)))
                 (fun i => (word_of whtab i, S (WordHashTabEntry.count (entry_at whtab i))))
                 (live whtab) j s (wf_nodup _ H) Hj).
    unfold report.
    replace (live whtab') with (live whtab) by (unfold live; rewrite Hord, Hsize; reflexivity).
    apply map_ext. intros i.
    pose proof (entry_at_insert _ _ _ _ Hent i) as Hi.
    destruct (decide (i = s)) as [->|Hne].
    - rewrite decide_True in Hi by (split; [reflexivity|lia]).
      rewrite (word_of_same_block whtab whtab' s Hpool) by (rewrite Hi; reflexivity).
      rewrite Hi. reflexivity.
    - rewrite decide_False in Hi by (intros [? _]; contradiction).
      rewrite (word_of_same_block whtab whtab' i Hpool) by (rewrite Hi; reflexivity).
      rewrite Hi. reflexivity. }
  rewrite Hword.
  destruct (stored_string _ _ _ Hst) as [rest' Hstr].
  destruct Hst as (off & _ & Hlene & _).
  destruct Hbuf as ([rest Hl] & Hcurp & _).
  unfold entry_matches, entry_string in Hmatch.
  rewrite Hstr, Hl, Hlene, Hcurp, !andb_true_iff in Hmatch.
  destruct Hmatch as (((Hm1 & Hm2) & Hm3) & Hm4).
  apply Nat.eqb_eq in Hm1. apply Z.eqb_eq in Hm2, Hm3, Hm4.
  assert (Hlw : length word = length w) by lia.
  split; [exact Hlw|].
  assert (Hslot : word_slot word (WordHashTable.capacity whtab)
                  = word_slot w (WordHashTable.capacity whtab)).
  { destruct (Hpl s ltac:(apply list_elem_of_lookup; eauto)) as [Hps _].
    rewrite Hword in Hps. lia. }
  destruct w as [|c w].
  { destruct word; [|discriminate]. auto. }
  destruct word as [|c' word]; [discriminate|].
  split_and!; [| |exact Hslot].
  - pose proof (char_at_word (c' :: word) rest' 0 ltac:(cbn; lia)) as Hc'.
    pose proof (char_at_word (c :: w) rest 0 ltac:(cbn; lia)) as Hc.
    change (Z.of_nat 0) with 0%Z in Hc, Hc'. rewrite Hc, Hc' in Hm3.
    cbn in Hm3. cbn. congruence.
  - replace (Z.of_nat (S (length (c' :: word))) - 2)%Z
      with (Z.of_nat (length word)) in Hm4 by (cbn [length]; lia).
    replace (Z.of_nat (length (c :: w)) - 1)%Z
      with (Z.of_nat (length w)) in Hm4 by (cbn [length]; lia).
    rewrite !char_at_word in Hm4 by (cbn [length]; lia).
    rewrite !last_lookup. cbn [length Nat.pred].
    rewrite !nth_lookup in Hm4.
    cbn [length] in Hlw.
    destruct (lookup_lt_is_Some_2 (c' :: word) (length word) ltac:(cbn; lia)) as [x Hx].
    destruct (lookup_lt_is_Some_2 (c :: w) (length w) ltac:(cbn; lia)) as [y Hy].
    rewrite Hx, Hy in *. cbn in Hm4. congruence.
Qed.

(** ** Exact counts *)

Lemma occurrences_snoc w ws x :
  occurrences w (ws ++ [x]) = occurrences w ws + (if decide (x = w) then 1 else 0).
Proof.
  unfold occurrences. rewrite filter_app, length_app. f_equal.
  rewrite filter_cons, filter_nil. destruct (decide (x = w)); reflexivity.
Qed.

Lemma occurrences_pos w ws : 0 < occurrences w ws <-> w ∈ ws.
Proof.
  unfold occurrences. split.
  - intros Hpos. destruct (filter (fun x => x = w) ws) as [|y l] eqn:Hf; [cbn in Hpos; lia|].
    assert (Hy : y ∈ filter (fun x => x = w) ws) by (rewrite Hf; left).
    apply list_elem_of_filter in Hy as [-> Hin]. exact Hin.
  - intros Hin.
    assert (Hw : w ∈ filter (fun x => x = w) ws) by (apply list_elem_of_filter; auto).
    destruct (filter (fun x => x = w) ws); [inversion Hw|cbn; lia].
Qed.

Lemma count_for_insert_row x (a : list Z * nat) rows pos :
  count_for x (take pos rows ++ a :: drop pos rows)
  = count_for x rows + (if decide (fst a = x) then snd a else 0).
Proof.
  unfold count_for. revert pos.
  induction rows as [|r rows IH]; intros [|pos]; cbn; try lia.
  rewrite <- Nat.add_assoc. f_equal. exact (IH pos).
Qed.

Lemma count_for_bump x a n rows j :
  rows !! j = Some (a, n) ->
  count_for x (<[j := (a, S n)]> rows)
  = count_for x rows + (if decide (a = x) then 1 else 0).
Proof.
  unfold count_for. revert j.
  induction rows as [|r rows IH]; intros [|j] Hj; try discriminate; cbn in *.
  - inversion Hj; subst. cbn. destruct (decide (a = x)); lia.
  - rewrite <- Nat.add_assoc. f_equal. exact (IH j Hj).
Qed.

Lemma count_for_row a n rows : (a, n) ∈ rows -> n <= count_for a rows.
Proof.
  unfold count_for. induction rows as [|r rows IH]; intros Hin; [inversion Hin|].
  cbn [map sum_list sum_list_with].
  apply elem_of_cons in Hin as [<-|Hin].
  - cbn [fst snd]. rewrite decide_True by reflexivity. unfold id. lia.
  - etrans; [exact (IH Hin)|]. unfold id. apply Nat.le_add_l.
Qed.

Lemma count_for_absent a rows : a ∉ map fst rows -> count_for a rows = 0.
Proof.
  unfold count_for. induction rows as [|r rows IH]; cbn; [reflexivity|].
  intros Hnin. rewrite not_elem_of_cons in Hnin. destruct Hnin as [Hne Hnin].
  rewrite decide_False by congruence. rewrite IH by exact Hnin. reflexivity.
Qed.

Lemma count_for_single a n rows :
  NoDup (map fst rows) -> (a, n) ∈ rows -> count_for a rows = n.
Proof.
  induction rows as [|r rows IH]; intros Hnd Hin; [inversion Hin|].
  cbn in Hnd. apply NoDup_cons in Hnd as [Hnin Hnd].
  apply elem_of_cons in Hin as [<-|Hin].
  - change (count_for a ((a, n) :: rows)) with
      ((if decide (a = a) then n else 0) + count_for a rows).
    rewrite decide_True by reflexivity.
    rewrite (count_for_absent a rows Hnin). lia.
  - assert (fst r ≠ a).
    { intros <-. apply Hnin. apply list_elem_of_fmap. exists (fst r, n). auto. }
    change (count_for a (r :: rows)) with
      ((if decide (fst r = a) then snd r else 0) + count_for a rows).
    rewrite decide_False by assumption. rewrite IH by assumption. reflexivity.
Qed.

Lemma add_word_tallied all done whtab w whtab' :
  (∀ a b, a ∈ all -> b ∈ all ->
     length a = length b -> head a = head b -> last a = last b -> a = b) ->
  reachable whtab -> tallied all done whtab ->
  Forall (fun c => c ≠ 0%Z) w -> w ∈ all ->
  WordHashTable_add_word whtab (token_of w) = Some (SUCCESS, whtab') ->
  tallied all (done ++ [w]) whtab'.
Proof.
  intros Hinj Hr [Hsub Htally] Hnz Hw Hadd.
  pose proof (reachable_wf _ Hr) as H.
  pose proof (token_of_holds_word w Hnz) as Hbuf.
  split.
  { intros x Hx. apply elem_of_app in Hx as [Hx|Hx]; [auto|].
    apply list_elem_of_singleton in Hx as ->. exact Hw. }
  intros x. rewrite occurrences_snoc, <- Htally.
  destruct (WordHashTable_add_word_effect whtab _ w H Hbuf)
    as (st & whtab'' & Heq & [Heff|(Hst & _)]);
    rewrite Hadd in Heq; inversion Heq; subst; [|discriminate].
  pose proof (add_effect_rows _ _ _ _ _ H Heff) as Hrows. cbn in Hrows.
  destruct Hrows as [(pos & Hrep & _)|(_ & _ & _ & _ & _ & Hsize)].
  - rewrite Hrep, count_for_insert_row. reflexivity.
  - destruct (counted_row _ _ _ _ H (reachable_placed _ Hr) Hbuf Hadd Hsize)
      as (j & s & Hj & Hrep & Hlen & Hhead & Hlast & _).
    assert (Hrow : report whtab !! j
                   = Some (word_of whtab s, WordHashTabEntry.count (entry_at whtab s))).
    { unfold report. rewrite list_lookup_fmap, Hj. reflexivity. }
    assert (Hin : word_of whtab s ∈ all).
    { apply Hsub, occurrences_pos. rewrite <- Htally.
      pose proof (count_for_row _ _ _ (list_elem_of_lookup_2 _ _ _ Hrow)) as Hle.
      assert (WordHashTabEntry.count (entry_at whtab s) ≠ 0).
      { apply (wf_live _ H). apply list_elem_of_lookup. eauto. }
      lia. }
    rewrite Hrep, (count_for_bump _ _ _ _ _ Hrow).
    rewrite (Hinj _ _ Hin Hw Hlen Hhead Hlast). reflexivity.
Qed.

Lemma count_words_tallied all ws heap whtab whtab' heap' :
  (∀ a b, a ∈ all -> b ∈ all ->
     length a = length b -> head a = head b -> last a = last b -> a = b) ->
  reachable whtab -> tallied all [] whtab ->
  Forall (fun w => Forall (fun c => c ≠ 0%Z) w ∧ w ∈ all) ws ->
  count_words (map token_of ws) heap whtab = Finished (whtab', heap') ->
  tallied all ws whtab'.
Proof.
  intros Hinj Hr Ht Hws Hcount.
  refine (proj2 (count_words_trace (tallied all)
                   (fun w => Forall (fun c => c ≠ 0%Z) w ∧ w ∈ all)
                   _ _ _ _ ws [] heap whtab whtab' heap' Hr Ht _ Hcount)).
  - intros done t w t' Hr0 Ht0 [Hnz Hw] Hadd.
    apply (add_word_tallied all done t w t' Hinj Hr0 Ht0 Hnz Hw Hadd).
  - intros done t w t' Hr0 [Hsub Ht0] [Hnz Hw] Hadd.
    pose proof (reachable_wf _ Hr0) as H.
    destruct (WordHashTable_add_word_effect t _ w H (token_of_holds_word w Hnz))
      as (st & t'' & Heq & [Heff|(Hst & _)]);
      rewrite Hadd in Heq; inversion Heq; subst; [|discriminate].
    pose proof (add_effect_rows _ _ _ _ _ H Heff) as [Hrep _].
    split; [exact Hsub|]. intros x. rewrite Hrep. apply Ht0.
  - intros done t a t' Hr0 [Hsub Ht0] Hx. destruct a as [b|]; [|discriminate].
    destruct (WordHashTable_MemoryPool_expand_spec t b (reachable_wf _ Hr0))
      as (t'' & Heq & _ & Hrep & _).
    rewrite Hx in Heq. inversion Heq; subst.
    split; [exact Hsub|]. intros x. rewrite Hrep. apply Ht0.
  - intros done t heap0 t' heap0' Hr0 [Hsub Ht0] Hx.
    destruct (WordHashTable_expand_spec _ _ _ _ (reachable_wf _ Hr0) Hx) as (_ & Hrep & _).
    split; [exact Hsub|]. intros x. rewrite Hrep. apply Ht0.
  - apply Forall_forall. intros w Hin. rewrite Forall_forall in Hws.
    destruct (Hws w Hin) as [Hnz Hall]. auto.
Qed.

(** ** The report as a function of the words *)

Lemma strcmp_refl (a : list Z) : strcmp a a = 0%Z.
Proof. pose proof (strcmp_antisym a a). lia. Qed.

Lemma strcmp_trans (a b c : list Z) :
  Forall (fun x => x ≠ 0%Z) a -> Forall (fun x => x ≠ 0%Z) b ->
  Forall (fun x => x ≠ 0%Z) c ->
  (strcmp a b < 0)%Z -> (strcmp b c < 0)%Z -> (strcmp a c < 0)%Z.
Proof.
  intros Ha. revert b c.
  induction Ha as [|x a Hx _ IH]; intros b c Hb Hc;
    destruct Hb as [|y b Hy Hb]; destruct Hc as [|z c Hz Hc];
    cbn [strcmp];
    repeat (match goal with
            | |- context [(?u =? ?v)%Z] => destruct (Z.eqb_spec u v); subst
            end);
    try lia; try contradiction.
  apply IH; assumption.
Qed.

Lemma ascending_tail x ws : ascending (x :: ws) -> ascending ws.
Proof. intros Hasc i a b Ha Hb. apply (Hasc (S i) a b); assumption. Qed.

Lemma ascending_head x ws :
  Forall (Forall (fun c => c ≠ 0%Z)) (x :: ws) -> ascending (x :: ws) ->
  ∀ y, y ∈ ws -> (strcmp x y < 0)%Z.
Proof.
  revert x. induction ws as [|z ws IH]; intros x Hnz Hasc y Hy; [inversion Hy|].
  assert (Hxz : (strcmp x z < 0)%Z) by (apply (Hasc 0 x z); reflexivity).
  apply elem_of_cons in Hy as [->|Hy]; [exact Hxz|].
  inversion Hnz as [|? ? Hx Hnz']; subst.
  pose proof (IH z Hnz' (ascending_tail _ _ Hasc) y Hy) as Hzy.
  inversion Hnz' as [|? ? Hz Hnz'']; subst.
  rewrite Forall_forall in Hnz''.
  apply (strcmp_trans x z y Hx Hz (Hnz'' y Hy) Hxz Hzy).
Qed.

Lemma ascending_unique (l1 l2 : list (list Z)) :
  Forall (Forall (fun c => c ≠ 0%Z)) l1 -> Forall (Forall (fun c => c ≠ 0%Z)) l2 ->
  ascending l1 -> ascending l2 ->
  (∀ x, x ∈ l1 <-> x ∈ l2) -> l1 = l2.
Proof.
  revert l2. induction l1 as [|x1 l1 IH]; intros [|x2 l2] Hn1 Hn2 Ha1 Ha2 Hsame.
  - reflexivity.
  - exfalso. assert (Hin : x2 ∈ []) by (apply Hsame; left). inversion Hin.
  - exfalso. assert (Hin : x1 ∈ []) by (apply Hsame; left). inversion Hin.
  - pose proof (ascending_head _ _ Hn1 Ha1) as Hh1.
    pose proof (ascending_head _ _ Hn2 Ha2) as Hh2.
    assert (Hx : x1 = x2).
    { assert (H1 : x1 ∈ x2 :: l2) by (apply Hsame; left).
      assert (H2 : x2 ∈ x1 :: l1) by (apply Hsame; left).
      apply elem_of_cons in H1 as [H1|H1]; [exact H1|].
      apply elem_of_cons in H2 as [H2|H2]; [congruence|].
      pose proof (Hh1 _ H2). pose proof (Hh2 _ H1).
      pose proof (strcmp_antisym x1 x2). lia. }
    subst x2. f_equal.
    inversion Hn1; inversion Hn2; subst.
    apply IH; try assumption; try (eapply ascending_tail; eassumption).
    intros y. split; intros Hy.
    + assert (Hy' : y ∈ x1 :: l2) by (apply Hsame; right; exact Hy).
      apply elem_of_cons in Hy' as [->|Hy']; [|exact Hy'].
      pose proof (Hh1 _ Hy). rewrite strcmp_refl in *. lia.
    + assert (Hy' : y ∈ x1 :: l1) by (apply Hsame; right; exact Hy).
      apply elem_of_cons in Hy' as [->|Hy']; [|exact Hy'].
      pose proof (Hh2 _ Hy). rewrite strcmp_refl in *. lia.
Qed.

Lemma report_nonzero whtab :
  wf whtab -> Forall (Forall (fun c => c ≠ 0%Z)) (map fst (report whtab)).
Proof.
  intros H. rewrite report_words. apply Forall_forall. intros x Hx.
  apply list_elem_of_fmap in Hx as (s & -> & Hs).
  destruct (wf_stored _ H s Hs) as [w Hw].
  rewrite (stored_word_of _ _ _ Hw).
  destruct Hw as (off & _ & _ & _ & _ & Hnz). exact Hnz.
Qed.

Lemma report_ascending whtab :
  wf whtab -> NoDup (map fst (report whtab)) -> ascending (map fst (report whtab)).
Proof.
  intros H Hnd i a b Ha Hb.
  pose proof (wf_sorted _ H) as Hsorted. rewrite <- report_words in Hsorted.
  pose proof (Hsorted i a b Ha Hb) as Hle.
  pose proof (report_nonzero _ H) as Hnz. rewrite Forall_forall in Hnz.
  destruct (Z.eq_dec (strcmp a b) 0%Z) as [Hz|Hz]; [|lia].
  exfalso.
  apply (strcmp_zero a b (Hnz _ (list_elem_of_lookup_2 _ _ _ Ha))
           (Hnz _ (list_elem_of_lookup_2 _ _ _ Hb))) in Hz. subst b.
  pose proof (NoDup_lookup _ _ _ _ Hnd Ha Hb). lia.
Qed.

Lemma rows_from_words (f : list Z -> nat) (rows : list (list Z * nat)) :
  (∀ w n, (w, n) ∈ rows -> n = f w) ->
  rows = map (fun w => (w, f w)) (map fst rows).
Proof.
  induction rows as [|[w n] rows IH]; intros Hf; [reflexivity|].
  cbn [map fst]. rewrite <- (Hf w n) by left.
  f_equal. apply IH. intros w' n' Hin. apply Hf. right. exact Hin.
Qed.

(** The table after the counting loop ran over the words [ws], when the
    comparison of add_word tells the words of [ws] apart. *)
Lemma count_words_report ws heap0 whtab0 whtab heap1 :
  Forall word_ok ws ->
  (∀ a b, a ∈ ws -> b ∈ ws ->
     length a = length b -> head a = head b -> last a = last b -> a = b) ->
  reachable whtab0 -> report whtab0 = [] ->
  count_words (map token_of ws) heap0 whtab0 = Finished (whtab, heap1) ->
  reachable whtab ∧ NoDup (map fst (report whtab)) ∧ tallied ws ws whtab.
Proof.
  intros Hws Hinj Hr0 Hrep0 Hcount.
  destruct (count_words_distinct _ _ _ _ _ Hr0 ltac:(rewrite Hrep0; constructor)
              Hws Hcount) as [Hr Hnd].
  split_and!; [exact Hr|exact Hnd|].
  apply (count_words_tallied ws ws heap0 whtab0 whtab heap1 Hinj Hr0); [| |exact Hcount].
  - split; [intros x Hx; inversion Hx|]. intros x. rewrite Hrep0. reflexivity.
  - apply Forall_forall. intros w Hw. rewrite Forall_forall in Hws.
    split; [apply (Hws w Hw)|exact Hw].
Qed.

Lemma tallied_rows ws whtab w n :
  wf whtab -> NoDup (map fst (report whtab)) -> tallied ws ws whtab ->
  (w, n) ∈ report whtab <-> w ∈ ws ∧ n = occurrences w ws.
Proof.
  intros H Hnd [_ Htally]. split.
  - intros Hin.
    pose proof (count_for_single _ _ _ Hnd Hin) as Hn. rewrite Htally in Hn.
    split; [|congruence].
    apply occurrences_pos. rewrite Hn.
    unfold report in Hin.
    apply list_elem_of_fmap in Hin as (s & Heq & Hs). inversion Heq; subst.
    assert (WordHashTabEntry.count (entry_at whtab s) ≠ 0) by apply (wf_live _ H), Hs.
    lia.
  - intros [Hw ->]. apply occurrences_pos in Hw. rewrite <- Htally in Hw.
    destruct (decide (w ∈ map fst (report whtab))) as [Hin|Hnin];
      [|rewrite (count_for_absent _ _ Hnin) in Hw; lia].
    apply list_elem_of_fmap in Hin as ([w' n] & -> & Hin). cbn [fst] in *.
    rewrite <- Htally, (count_for_single _ _ _ Hnd Hin). exact Hin.
Qed.

Lemma tallied_report_unique ws whtab1 whtab2 :
  wf whtab1 -> wf whtab2 ->
  NoDup (map fst (report whtab1)) -> NoDup (map fst (report whtab2)) ->
  tallied ws ws whtab1 -> tallied ws ws whtab2 ->
  report whtab1 = report whtab2.
Proof.
  intros H1 H2 Hnd1 Hnd2 Ht1 Ht2.
  assert (Hwords : map fst (report whtab1) = map fst (report whtab2)).
  { apply ascending_unique; try (apply report_nonzero; assumption);
      try (apply report_ascending; assumption).
    intros x. split; intros Hx;
      apply list_elem_of_fmap in Hx as ([w n] & -> & Hin); cbn [fst].
    - apply (tallied_rows ws whtab1 w n H1 Hnd1 Ht1) in Hin.
      apply list_elem_of_fmap. exists (w, n). split; [reflexivity|].
      apply (tallied_rows ws whtab2 w n H2 Hnd2 Ht2). exact Hin.
    - apply (tallied_rows ws whtab2 w n H2 Hnd2 Ht2) in Hin.
      apply list_elem_of_fmap. exists (w, n). split; [reflexivity|].
      apply (tallied_rows ws whtab1 w n H1 Hnd1 Ht1). exact Hin. }
  rewrite (rows_from_words (fun w => occurrences w ws) (report whtab1)),
          (rows_from_words (fun w => occurrences w ws) (report whtab2)).
  - rewrite Hwords. reflexivity.
  - intros w n Hin. apply (tallied_rows ws whtab2 w n H2 Hnd2 Ht2) in Hin. apply Hin.
  - intros w n Hin. apply (tallied_rows ws whtab1 w n H1 Hnd1 Ht1) in Hin. apply Hin.
Qed.

(** ** Rows of the final table of main *)

Lemma main_count_words fp heap whtab rows :
  (Z.of_nat (length (snd (tokenize fp))) <= 2 ^ 63)%Z ->
  main fp heap = Finished (whtab, rows) ->
  ∃ ws whtab0 heap0 heap1,
    snd (tokenize fp) = map token_of ws
    ∧ Forall word_ok ws
    ∧ reachable whtab0 ∧ report whtab0 = []
    ∧ count_words (map token_of ws) heap0 whtab0 = Finished (whtab, heap1)
    ∧ rows = WordHashTable_count_print whtab.
Proof.
  unfold main, tokenize.
  destruct (get_input_holds fp) as (vec & ws & -> & Hvec & Hws).
  cbn [snd]. rewrite (WordBufferVector_at_tokens _ _ Hvec).
  rewrite (vec_holds_tokens _ _ Hvec).
  intros Hbound.
  assert (Hsize : WordBufferVector_get_size vec = length (map token_of ws)).
  { destruct Hvec as (_ & Hcur & _). unfold WordBufferVector_get_size.
    rewrite Hcur, length_map. reflexivity. }
  rewrite Hsize.
  set (n := length (map token_of ws)) in *.
  pose proof (wtabInitSize_pos n Hbound) as Hpos.
  destruct (WordHashTable_create (wtabInitSize n) heap) as [[whtab0 heap0]| |] eqn:Hcreate;
    try discriminate.
  assert (Hr0 : reachable whtab0) by (eapply reach_create; eassumption).
  destruct (WordHashTable_create_wf _ _ _ _ Hpos Hcreate) as (_ & Hrep0 & _).
  destruct (count_words (map token_of ws) heap0 whtab0) as [[whtab1 heap1]| |] eqn:Hcount;
    try discriminate.
  intros Hfin. inversion Hfin; subst.
  exists ws, whtab0, heap0, heap1. split_and!; auto.
Qed.

Lemma main_rows fp heap whtab rows :
  (Z.of_nat (length (snd (tokenize fp))) <= 2 ^ 63)%Z ->
  main fp heap = Finished (whtab, rows) ->
  reachable whtab ∧ rows = report whtab ∧ NoDup (map fst rows).
Proof.
  intros Hbound Hmain.
  destruct (main_count_words _ _ _ _ Hbound Hmain)
    as (ws & whtab0 & heap0 & heap1 & _ & Hws & Hr0 & Hrep0 & Hcount & ->).
  destruct (count_words_distinct _ _ _ _ _ Hr0 ltac:(rewrite Hrep0; constructor)
              Hws Hcount) as [Hr1 Hnd].
  rewrite (wf_count_print _ (reachable_wf _ Hr1)). auto.
Qed.

(** X21: entries sit where a lookup finds them.  In every table
    built with create, add_word and the two expansions, the row in slot [s]
    carries the displacement [z] with [s] = hash slot of its word (the
    hash covers the terminator) plus [z], the displacement stays inside
    the table, and every slot the probing loop visits before it reaches
    displacement [z] is occupied. *)
Theorem entries_lie_on_probe_path whtab s :
  reachable whtab -> s ∈ live whtab ->
  let h := Z.of_nat (word_slot (word_of whtab s) (WordHashTable.capacity whtab)) in
  let z := WordHashTabEntry.displacement (entry_at whtab s) in
  Z.of_nat s = (h + z)%Z
  ∧ (Z.abs z < Z.of_nat (WordHashTable.capacity whtab))%Z
  ∧ ∀ z', probed_before z' z ->
      (0 <= h + z' < Z.of_nat (WordHashTable.capacity whtab))%Z ->
      WordHashTabEntry.count (entry_at whtab (Z.to_nat (h + z'))) ≠ 0.
Proof.
  intros Hr Hs h z.
  pose proof (reachable_wf _ Hr) as H.
  destruct (reachable_placed _ Hr s Hs) as [Hslot Htaken].
  fold h z in Hslot, Htaken.
  assert (Hh : word_slot (word_of whtab s) (WordHashTable.capacity whtab)
               < WordHashTable.capacity whtab)
    by apply hash_slot_lt, (wf_capacity _ H).
  fold h in Hh.
  apply (wf_live _ H) in Hs as [Hlt _].
  split_and!; [exact Hslot|lia|exact Htaken].
Qed.

Lemma entries_lie_on_probe_path_witness :
  let whtab := after_add_word sample_table (text "f") in
  word_of whtab 2 = text "f"
  ∧ word_slot (text "f") 4 = 3
  ∧ WordHashTabEntry.displacement (entry_at whtab 2) = (-1)%Z
  ∧ WordHashTabEntry.count (entry_at whtab 3) ≠ 0.
Proof.
  set (whtab := after_add_word sample_table (text "f")).
  assert (Hr : reachable whtab).
  { eapply reach_add_word;
      [exact reachable_sample
      |apply (token_of_holds_word (text "f")); vm_compute; repeat constructor; discriminate
      |vm_compute; reflexivity]. }
  assert (Hs : 2 ∈ live whtab) by (vm_compute; do 2 apply list_elem_of_further; left).
  destruct (entries_lie_on_probe_path whtab 2 Hr Hs) as (_ & _ & Htaken).
  split_and!; try (vm_compute; reflexivity).
  apply (Htaken 0%Z); [left; vm_compute; reflexivity|vm_compute; split; [discriminate|reflexivity]].
Defined.

(** X22: the row a call counts on.  When add_word returns
    SUCCESS without adding a row, it has raised the count of exactly one
    row by one, and the word of that row agrees with the word of the call
    in length, first character, last character and hash slot; nothing
    else of the stored word is compared. *)
Theorem counted_row_shares_fingerprint whtab buf w whtab' :
  reachable whtab -> holds_word buf w ->
  WordHashTable_add_word whtab buf = Some (SUCCESS, whtab') ->
  WordHashTable.size whtab' = WordHashTable.size whtab ->
  ∃ j word n,
    WordHashTable_count_print whtab !! j = Some (word, n)
    ∧ WordHashTable_count_print whtab'
      = <[j := (word, S n)]> (WordHashTable_count_print whtab)
    ∧ length word = length w
    ∧ head word = head w
    ∧ last word = last w
    ∧ word_slot word (WordHashTable.capacity whtab)
      = word_slot w (WordHashTable.capacity whtab).
Proof.
  intros Hr Hbuf Hadd Hsize.
  pose proof (reachable_wf _ Hr) as H.
  destruct (counted_row _ _ _ _ H (reachable_placed _ Hr) Hbuf Hadd Hsize)
    as (j & s & Hj & Hrep & Hlen & Hhead & Hlast & Hslot).
  assert (Hr' : reachable whtab') by (eapply reach_add_word; eassumption).
  rewrite (wf_count_print _ H), (wf_count_print _ (reachable_wf _ Hr')).
  exists j, (word_of whtab s), (WordHashTabEntry.count (entry_at whtab s)).
  split_and!; try assumption.
  unfold report. rewrite list_lookup_fmap, Hj. reflexivity.
Qed.

Lemma counted_row_shares_fingerprint_witness :
  ∃ j word n,
    WordHashTable_count_print sample_table !! j = Some (word, n)
    ∧ length word = 1 ∧ head word = Some (chr "b").
Proof.
  destruct (counted_row_shares_fingerprint sample_table (token_of (text "b")) (text "b")
              (after_add_word sample_table (text "b")) reachable_sample
              (token_of_holds_word _ text_nonzero_b))
    as (j & word & n & Hj & _ & Hlen & Hhead & _);
    [vm_compute; reflexivity|vm_compute; reflexivity|].
  exists j, word, n. split_and!; assumption.
Defined.

(** X23: a word that has a row never gets a second one.  For a
    non-empty word that the report already lists, add_word returns SUCCESS,
    raises the count of one row by one and changes neither the number of
    rows, the capacity, the string pool nor the insertion statistics. *)
Theorem known_word_adds_no_row whtab buf w :
  reachable whtab -> holds_word buf w -> w ≠ [] ->
  w ∈ map fst (WordHashTable_count_print whtab) ->
  ∃ whtab' j word n,
    WordHashTable_add_word whtab buf = Some (SUCCESS, whtab')
    ∧ WordHashTable_count_print whtab !! j = Some (word, n)
    ∧ WordHashTable_count_print whtab'
      = <[j := (word, S n)]> (WordHashTable_count_print whtab)
    ∧ WordHashTable.size whtab' = WordHashTable.size whtab
    ∧ WordHashTable.capacity whtab' = WordHashTable.capacity whtab
    ∧ WordHashTable.stringsPool whtab' = WordHashTable.stringsPool whtab
    ∧ WordHashTable.hstats whtab' = WordHashTable.hstats whtab.
Proof.
  intros Hr Hbuf Hne Hin.
  pose proof (reachable_wf _ Hr) as H.
  rewrite (wf_count_print _ H) in *.
  destruct (add_word_known_rows _ _ _ H (reachable_placed _ Hr) Hne Hbuf Hin)
    as (whtab' & j & word & n & Hadd & Hj & Hrep & Hrest).
  assert (Hr' : reachable whtab') by (eapply reach_add_word; eassumption).
  rewrite <- (wf_count_print _ (reachable_wf _ Hr')) in Hrep.
  exists whtab', j, word, n. auto.
Qed.

Lemma known_word_adds_no_row_witness :
  ∃ whtab',
    WordHashTable_add_word sample_table (token_of (text "b")) = Some (SUCCESS, whtab')
    ∧ WordHashTable.size whtab' = 2.
Proof.
  destruct (known_word_adds_no_row sample_table (token_of (text "b")) (text "b")
              reachable_sample (token_of_holds_word _ text_nonzero_b))
    as (whtab' & _ & _ & _ & Hadd & _ & _ & Hsize & _);
    [vm_compute; discriminate|vm_compute; right; left|].
  exists whtab'. split; [exact Hadd|]. rewrite Hsize. vm_compute. reflexivity.
Defined.

(** X24: the report of main lists every word once and in
    strictly ascending order: no two rows carry the same word, and each
    word compares below the next one under strcmp. *)
Theorem main_rows_strictly_sorted fp heap whtab rows :
  (Z.of_nat (length (snd (tokenize fp))) <= 2 ^ 63)%Z ->
  main fp heap = Finished (whtab, rows) ->
  NoDup (map fst rows)
  ∧ ∀ i a b, map fst rows !! i = Some a -> map fst rows !! S i = Some b ->
             (strcmp a b < 0)%Z.
Proof.
  intros Hbound Hmain.
  destruct (main_rows _ _ _ _ Hbound Hmain) as (Hr & -> & Hnd).
  split; [exact Hnd|].
  exact (report_ascending _ (reachable_wf _ Hr) Hnd).
Qed.

Lemma main_rows_strictly_sorted_witness :
  ∃ whtab rows,
    main (text "b a b") (plenty 34) = Finished (whtab, rows)
    ∧ NoDup (map fst rows).
Proof.
  destruct (main (text "b a b") (plenty 34)) as [[whtab rows]| |] eqn:Hmain;
    try (vm_compute in Hmain; discriminate).
  destruct (main_rows_strictly_sorted (text "b a b") (plenty 34) whtab rows)
    as (Hnd & _); [vm_compute; discriminate|exact Hmain|].
  exists whtab, rows. auto.
Defined.

(** X25: when no two different words of the input agree in
    length, first character and last character, the report of main is
    exact: every word of the input has a row, every row carries a word of
    the input, and the count of a row is the number of tokens equal to
    its word. *)
Theorem main_counts_exact fp heap whtab rows :
  (Z.of_nat (length (snd (tokenize fp))) <= 2 ^ 63)%Z ->
  main fp heap = Finished (whtab, rows) ->
  let words := map token_word (snd (tokenize fp)) in
  (∀ a b, a ∈ words -> b ∈ words ->
     length a = length b -> head a = head b -> last a = last b -> a = b) ->
  ∀ w, (w ∈ words -> (w, occurrences w words) ∈ rows)
       ∧ (∀ n, (w, n) ∈ rows -> n = occurrences w words ∧ w ∈ words).
Proof.
  intros Hbound Hmain words Hinj.
  destruct (main_count_words _ _ _ _ Hbound Hmain)
    as (ws & whtab0 & heap0 & heap1 & Htok & Hws & Hr0 & Hrep0 & Hcount & ->).
  assert (Hwords : words = ws).
  { unfold words. rewrite Htok, map_map.
    rewrite (map_ext _ id) by (intros x; apply token_word_token_of).
    apply map_id. }
  rewrite Hwords in *. clear Hwords words.
  destruct (count_words_report _ _ _ _ _ Hws Hinj Hr0 Hrep0 Hcount) as (Hr & Hnd & Ht).
  pose proof (reachable_wf _ Hr) as H.
  rewrite (wf_count_print _ H).
  intros w. split.
  - intros Hw. apply (tallied_rows ws whtab w _ H Hnd Ht). auto.
  - intros n Hin. apply (tallied_rows ws whtab w n H Hnd Ht) in Hin as [Hw ->]. auto.
Qed.

Lemma main_counts_exact_witness :
  ∃ whtab rows,
    main (text "b a b") (plenty 34) = Finished (whtab, rows)
    ∧ (text "b", 2) ∈ rows.
Proof.
  destruct (main (text "b a b") (plenty 34)) as [[whtab rows]| |] eqn:Hmain;
    try (vm_compute in Hmain; discriminate).
  exists whtab, rows. split; [reflexivity|].
  apply (main_counts_exact (text "b a b") (plenty 34) whtab rows
           ltac:(vm_compute; discriminate) Hmain).
  - intros a b Ha Hb _ Hhead _.
    vm_compute in Ha, Hb.
    repeat (apply elem_of_cons in Ha as [->|Ha]); try (inversion Ha; fail);
      repeat (apply elem_of_cons in Hb as [->|Hb]); try (inversion Hb; fail);
      try reflexivity; discriminate Hhead.
  - vm_compute. left.
Defined.

(** X26: when no two different words of the input agree
    in length, first character and last character, the rows main prints
    depend on the input alone: a run of the counting loop on a table
    created with any other capacity, with any allocator responses, prints
    the same rows. *)
Theorem report_determined_by_input fp heap whtab rows c heap' whtab' rows' :
  (Z.of_nat (length (snd (tokenize fp))) <= 2 ^ 63)%Z ->
  (∀ a b, a ∈ map token_word (snd (tokenize fp)) ->
          b ∈ map token_word (snd (tokenize fp)) ->
     length a = length b -> head a = head b -> last a = last b -> a = b) ->
  main fp heap = Finished (whtab, rows) ->
  0 < c ->
  run_with_capacity c fp heap' = Finished (whtab', rows') ->
  rows' = rows.
Proof.
  intros Hbound Hinj Hmain Hc Hrun.
  destruct (main_count_words _ _ _ _ Hbound Hmain)
    as (ws & whtab0 & heap0 & heap1 & Htok & Hws & Hr0 & Hrep0 & Hcount & ->).
  assert (Hwords : map token_word (snd (tokenize fp)) = ws).
  { rewrite Htok, map_map.
    rewrite (map_ext _ id) by (intros x; apply token_word_token_of).
    apply map_id. }
  rewrite Hwords in Hinj.
  destruct (count_words_report _ _ _ _ _ Hws Hinj Hr0 Hrep0 Hcount) as (Hr & Hnd & Ht).
  revert Hrun. unfold run_with_capacity. rewrite Htok.
  destruct (WordHashTable_create c heap') as [[whtab0' heap0']| |] eqn:Hcreate;
    try discriminate.
  destruct (count_words (map token_of ws) heap0' whtab0') as [[whtab1' heap1']| |] eqn:Hcount';
    try discriminate.
  intros Hfin. injection Hfin as <- <-.
  destruct (WordHashTable_create_wf _ _ _ _ Hc Hcreate) as (_ & Hrep0' & _).
  destruct (count_words_report _ _ _ _ _ Hws Hinj
              (reach_create _ _ _ _ Hc Hcreate) Hrep0' Hcount') as (Hr' & Hnd' & Ht').
  rewrite !wf_count_print by (apply reachable_wf; assumption).
  apply (tallied_report_unique ws); try assumption; apply reachable_wf; assumption.
Qed.

Lemma report_determined_by_input_witness :
  ∃ whtab rows whtab' rows',
    main (text "b a b") (plenty 34) = Finished (whtab, rows)
    ∧ run_with_capacity 32 (text "b a b") (plenty 8) = Finished (whtab', rows')
    ∧ rows' = rows.
Proof.
  remember (main (text "b a b") (plenty 34)) as r eqn:Hmain.
  remember (run_with_capacity 32 (text "b a b") (plenty 8)) as r' eqn:Hrun.
  destruct r as [[whtab rows]| |]; try (vm_compute in Hmain; discriminate Hmain).
  destruct r' as [[whtab' rows']| |]; try (vm_compute in Hrun; discriminate Hrun).
  symmetry in Hmain, Hrun.
  exists whtab, rows, whtab', rows'. split_and!; try reflexivity.
  apply (report_determined_by_input (text "b a b") (plenty 34) whtab rows
           32 (plenty 8) whtab' rows');
    [vm_compute; discriminate| |exact Hmain|lia|exact Hrun].
  intros a b Ha Hb _ Hhead _.
  vm_compute in Ha, Hb.
  repeat (apply elem_of_cons in Ha as [->|Ha]); try (inversion Ha; fail);
    repeat (apply elem_of_cons in Hb as [->|Hb]); try (inversion Hb; fail);
    try reflexivity; discriminate Hhead.
Defined.

(** ** The two entries the report takes its column widths from *)

Lemma migrate_at_pfstats whtab ext i oldIndex oldEntry curIndex displ newDispl whtab' ext' :
  migrate_at whtab ext i oldIndex oldEntry curIndex displ newDispl = Some (whtab', ext') ->
  let pf := WordHashTable.pfstats whtab in
  PrintFormatStats.maxCountWordIndex (WordHashTable.pfstats whtab')
  = (if oldIndex =? PrintFormatStats.maxCountWordIndex pf then curIndex
     else PrintFormatStats.maxCountWordIndex pf)
  ∧ PrintFormatStats.maxLengthWordIndex (WordHashTable.pfstats whtab')
    = (if oldIndex =? PrintFormatStats.maxLengthWordIndex pf then curIndex
       else PrintFormatStats.maxLengthWordIndex pf).
Proof.
  unfold migrate_at.
  destruct (WordHashTabEntry.count (ext !!! curIndex) =? 0); [|discriminate].
  intros Hres. inversion Hres; subst. clear Hres.
  ht_unfold.
  destruct (oldIndex =? PrintFormatStats.maxCountWordIndex _); ht_simpl;
    cbn [PrintFormatStats.maxCountWordIndex PrintFormatStats.maxLengthWordIndex];
    destruct (oldIndex =? PrintFormatStats.maxLengthWordIndex _); ht_simpl;
    cbn [PrintFormatStats.maxCountWordIndex PrintFormatStats.maxLengthWordIndex];
    split; reflexivity.
Qed.

Lemma WordHashTable_migrate_pfstats_live whtab0 x whtab3 ext :
  wf whtab0 -> length x = WordHashTable.capacity whtab0 -> pfstats_live whtab0 ->
  WordHashTable_migrate (expanding whtab0 x)
    (repeat WordHashTabEntry_zero (WordHashTable.capacity whtab0 * 2))
  = Some (whtab3, ext) ->
  pfstats_live (set_entries whtab3 ext).
Proof.
  intros H Hx Hlive0 Hmig Hpos.
  set (whtab2 := expanding whtab0 x) in *.
  destruct (WordHashTable_migrate_spec whtab0 x H Hx)
    as (whtab3' & ext' & Hmig' & _ & _ & _ & Hsize3 & _).
  fold whtab2 in Hmig'. rewrite Hmig in Hmig'. inversion Hmig'; subst whtab3' ext'.
  change (WordHashTable.size (set_entries whtab3 ext))
    with (WordHashTable.size whtab3) in Hpos.
  rewrite Hsize3 in Hpos.
  pose proof (wf_size _ H) as Hsz. pose proof (wf_order _ H) as Hord.
  set (named := fun (i : nat) (whtab : WordHashTable) (idx : nat) =>
         (∃ k, i <= k < WordHashTable.size whtab0
               ∧ WordHashTable.alphOrderArray whtab2 !! k = Some idx)
         ∨ (∃ j, j < i ∧ WordHashTable.alphOrderArray whtab !! j = Some idx)).
  destruct (WordHashTable_migrate_ind whtab0 x
              (fun i whtab _ =>
                 named i whtab
                   (PrintFormatStats.maxLengthWordIndex (WordHashTable.pfstats whtab))
                 ∧ named i whtab
                     (PrintFormatStats.maxCountWordIndex (WordHashTable.pfstats whtab)))
              H Hx)
    as (whtab3' & ext' & Hmig'' & M & HL & HC).
  { destruct (Hlive0 Hpos) as [HL HC].
    assert (Hold : ∀ idx, idx ∈ live whtab0 -> named 0 whtab2 idx).
    { intros idx Hin. left.
      apply list_elem_of_lookup in Hin as [k Hk]. unfold live in Hk.
      assert (k < WordHashTable.size whtab0).
      { pose proof (lookup_lt_Some _ _ _ Hk) as Hlt. rewrite length_take in Hlt. lia. }
      rewrite lookup_take_lt in Hk by lia.
      exists k. split; [lia|].
      unfold whtab2, expanding. ht_unfold.
      rewrite lookup_app_l by lia. exact Hk. }
    split; apply Hold; assumption. }
  { intros i whtab ext0 whtab' ext1 d curIndex displ Hi M0 [HL HC] M1
           (_ & _ & _ & _ & _ & Hat).
    destruct (migrate_at_pfstats _ _ _ _ _ _ _ _ _ _ Hat) as [HpC HpL].
    apply migrate_at_spec in Hat as (_ & _ & _ & Ha & _ & _ & _).
    assert (Hilen : i < length (WordHashTable.alphOrderArray whtab)).
    { rewrite (mg_order_length _ _ _ _ M0).
      change (i < length (WordHashTable.alphOrderArray whtab0 ++ x)).
      rewrite length_app. lia. }
    assert (Hold : WordHashTable.alphOrderArray whtab2 !! i
                   = Some (WordHashTable.alphOrderArray whtab !!! i)).
    { unfold whtab2. rewrite <- (mg_order_rest _ _ _ _ M0 i (le_n i)).
      apply list_lookup_lookup_total_lt, Hilen. }
    assert (Hstep : ∀ idx,
              named i whtab idx ->
              named (S i) whtab'
                (if WordHashTable.alphOrderArray whtab !!! i =? idx then curIndex else idx)).
    { intros idx Hn.
      destruct (Nat.eqb_spec (WordHashTable.alphOrderArray whtab !!! i) idx) as [Heq|Hne].
      - right. exists i. split; [lia|]. rewrite Ha.
        apply list_lookup_insert_eq, Hilen.
      - destruct Hn as [(k & Hk & Hidx)|(j & Hj & Hidx)].
        + left. exists k. split; [|exact Hidx].
          destruct (decide (k = i)) as [->|]; [|lia].
          rewrite Hold in Hidx. congruence.
        + right. exists j. split; [lia|]. rewrite Ha.
          rewrite list_lookup_insert_ne by lia. exact Hidx. }
    rewrite HpC, HpL. split; apply Hstep; assumption. }
  fold whtab2 in Hmig''. rewrite Hmig in Hmig''. inversion Hmig''; subst whtab3' ext'.
  assert (Hfin : ∀ idx, named (WordHashTable.size whtab0) whtab3 idx ->
            idx ∈ live (set_entries whtab3 ext)).
  { intros idx [(k & Hk & _)|(j & Hj & Hidx)]; [lia|].
    apply list_elem_of_lookup. exists j. unfold live. ht_unfold.
    rewrite Hsize3, lookup_take_lt by lia. exact Hidx. }
  split; apply Hfin; assumption.
Qed.

Lemma add_shape_pfstats_live whtab buf curIndex displ d st whtab' :
  wf whtab -> curIndex < WordHashTable.capacity whtab -> pfstats_live whtab ->
  add_shape whtab buf curIndex displ d st whtab' -> pfstats_live whtab'.
Proof.
  intros H Hk Hlive Hshape.
  destruct Hshape as [whtab' pos _ _ _ Hl _ Hsize _ _ Hpf
                     |whtab' Hocc _ _ Hord _ Hsize _ _ Hpf
                     |_ _].
  - intros _.
    assert (Hcur : curIndex ∈ live whtab').
    { rewrite Hl. apply elem_of_app. right. left. }
    assert (Hkeep : ∀ idx, idx ∈ live whtab -> idx ∈ live whtab').
    { intros idx Hin. rewrite Hl.
      rewrite <- (take_drop pos (live whtab)) in Hin.
      apply elem_of_app in Hin as [Hin|Hin]; apply elem_of_app; [left|right; right];
        exact Hin. }
    rewrite Hpf.
    destruct (Nat.eqb_spec (WordHashTable.size whtab) 0) as [Hz|Hnz]; [split; exact Hcur|].
    destruct (Hlive ltac:(lia)) as [HL HC].
    destruct (_ <? _); cbn [PrintFormatStats.maxLengthWordIndex
                             PrintFormatStats.maxCountWordIndex]; auto.
  - intros Hpos. rewrite Hsize in Hpos.
    destruct (Hlive Hpos) as [HL HC].
    replace (live whtab') with (live whtab)
      by (unfold live; rewrite Hord, Hsize; reflexivity).
    rewrite Hpf.
    destruct (_ <? _); cbn [PrintFormatStats.maxLengthWordIndex
                             PrintFormatStats.maxCountWordIndex]; [|auto].
    split; [exact HL|]. apply (wf_live _ H). auto.
  - exact Hlive.
Qed.

Lemma reachable_pfstats_live whtab : reachable whtab -> pfstats_live whtab.
Proof.
  induction 1 as [c heap whtab heap' Hc Hcreate
                 |whtab buf w st whtab' Hr IH Hbuf Hadd
                 |whtab a whtab' Hr IH Hexp
                 |whtab heap whtab' heap' Hr IH Hexp].
  - destruct (WordHashTable_create_wf _ _ _ _ Hc Hcreate) as (Hwf & Hrep & _).
    intros Hpos. exfalso.
    rewrite <- (live_length _ Hwf) in Hpos.
    unfold report in Hrep. apply map_eq_nil in Hrep. rewrite Hrep in Hpos.
    cbn in Hpos. lia.
  - pose proof (reachable_wf _ Hr) as H.
    destruct (add_word_result _ _ _ _ H Hadd)
      as [(_ & -> & _)|(d & curIndex & displ & _ & Hk & _ & _ & _ & _ & Hshape)];
      [exact IH|].
    apply (add_shape_pfstats_live _ _ _ _ _ _ _ H Hk IH Hshape).
  - destruct a as [b|]; [|discriminate].
    destruct (WordHashTable_MemoryPool_expand_spec whtab b (reachable_wf _ Hr))
      as (whtab'' & Heq & _ & _ & Hlive & _ & _ & Hsize & _ & Hpf & _).
    rewrite Hexp in Heq. inversion Heq; subst whtab''.
    intros Hpos. rewrite Hsize in Hpos. rewrite Hlive, Hpf. apply IH, Hpos.
  - pose proof (reachable_wf _ Hr) as H.
    destruct (WordHashTable_expand_via _ _ _ _ H Hexp)
      as (whtabp & x & whtab3 & ext & Hwfp & Hp & Hx & Hmig & ->).
    apply (WordHashTable_migrate_pfstats_live whtabp x whtab3 ext Hwfp Hx); [|exact Hmig].
    destruct Hp as [->|(b & Hpool)]; [exact IH|].
    destruct (WordHashTable_MemoryPool_expand_spec whtab b H)
      as (whtab'' & Heq & _ & _ & Hlive & _ & _ & Hsize & _ & Hpf & _).
    rewrite Hpool in Heq. inversion Heq; subst whtab''.
    intros Hpos. rewrite Hsize in Hpos. rewrite Hlive, Hpf. apply IH, Hpos.
Qed.

(** X27: the column widths of the report are read from rows of
    the report.  In every table built with create, add_word and the two
    expansions, also after a rehash, [maxLengthWordIndex] and
    [maxCountWordIndex] name occupied slots of a non-empty table, so the
    width of the word column is the stored length (characters and
    terminator) of a printed word and the width of the count column comes
    from the count of a printed row. *)
Theorem count_print_widths_from_rows whtab len cnt :
  reachable whtab ->
  count_print_widths whtab = Some (len, cnt) ->
  (∃ w n, (w, n) ∈ WordHashTable_count_print whtab ∧ len = S (length w))
  ∧ (∃ w, (w, cnt) ∈ WordHashTable_count_print whtab)
  ∧ PrintFormatStats.maxLengthWordIndex (WordHashTable.pfstats whtab)
    < WordHashTable.capacity whtab
  ∧ PrintFormatStats.maxCountWordIndex (WordHashTable.pfstats whtab)
    < WordHashTable.capacity whtab.
Proof.
  intros Hr. pose proof (reachable_wf _ Hr) as H.
  unfold count_print_widths.
  destruct (Nat.eqb_spec (WordHashTable.size whtab) 0) as [|Hnz]; [discriminate|].
  intros Heq. inversion Heq; subst. clear Heq.
  destruct (reachable_pfstats_live _ Hr ltac:(lia)) as [HL HC].
  rewrite (wf_count_print _ H).
  split_and!.
  - destruct (wf_stored _ H _ HL) as [w Hw].
    exists w, (WordHashTabEntry.count
                 (entry_at whtab
                    (PrintFormatStats.maxLengthWordIndex (WordHashTable.pfstats whtab)))).
    split.
    + unfold report. apply list_elem_of_fmap. eexists. split; [|exact HL].
      rewrite (stored_word_of _ _ _ Hw). reflexivity.
    + destruct Hw as (off & _ & Hlen & _). exact Hlen.
  - exists (word_of whtab
              (PrintFormatStats.maxCountWordIndex (WordHashTable.pfstats whtab))).
    unfold report. apply list_elem_of_fmap. eexists. split; [|exact HC]. reflexivity.
  - apply (wf_live _ H), HL.
  - apply (wf_live _ H), HC.
Qed.

Lemma count_print_widths_from_rows_witness :
  count_print_widths sample_table = Some (2, 1)
  ∧ ∃ w, (w, 1) ∈ WordHashTable_count_print sample_table.
Proof.
  assert (Hw : count_print_widths sample_table = Some (2, 1)) by (vm_compute; reflexivity).
  split; [exact Hw|].
  apply (count_print_widths_from_rows sample_table 2 1 reachable_sample Hw).
Defined.

Lemma add_shape_extremes whtab buf curIndex displ d st whtab' :
  wf whtab -> curIndex < WordHashTable.capacity whtab ->
  pfstats_live whtab -> extremes_exact whtab ->
  add_shape whtab buf curIndex displ d st whtab' -> extremes_exact whtab'.
Proof.
  intros H Hk Hlive Hex Hshape.
  assert (Hlen : length (WordHashTable.entries whtab) = WordHashTable.capacity whtab)
    by apply (wf_entries _ H).
  destruct Hshape as [whtab' pos Hfree _ Hent Hl _ _ _ _ Hpf
                     |whtab' Hocc _ Hent Hord _ Hsize _ _ Hpf
                     |Hfree _].
  - pose proof (entry_at_insert _ _ _ _ Hent) as Hat.
    assert (Hcur : entry_at whtab' curIndex
                   = WordHashTabEntry.mk
                       (MemoryPool.memSpace (WordHashTable.stringsPool whtab)
                        + Z.of_nat (MemoryPool.nextChar (WordHashTable.stringsPool whtab)))%Z
                       1 (WordBuffer.curPosition buf + 1) displ).
    { rewrite Hat. rewrite decide_True by (split; [reflexivity|lia]). reflexivity. }
    assert (Hother : ∀ s, s ∈ live whtab -> entry_at whtab' s = entry_at whtab s).
    { intros s Hs. rewrite Hat. rewrite decide_False; [reflexivity|].
      intros [-> _]. apply (wf_live _ H) in Hs as [_ Hs]. contradiction. }
    assert (Hcases : ∀ s, s ∈ live whtab' -> s = curIndex ∨ s ∈ live whtab).
    { intros s Hs. rewrite Hl in Hs.
      assert (Hsplit : ∀ y, y ∈ take pos (live whtab) ∨ y ∈ drop pos (live whtab)
                            -> y ∈ live whtab).
      { intros y Hy. rewrite <- (take_drop pos (live whtab)). apply elem_of_app, Hy. }
      apply elem_of_app in Hs as [Hs|Hs].
      - right. apply Hsplit. left. exact Hs.
      - apply elem_of_cons in Hs as [->|Hs]; [left; reflexivity|].
        right. apply Hsplit. right. exact Hs. }
    assert (Hge : ∀ s, s ∈ live whtab -> 1 <= WordHashTabEntry.count (entry_at whtab s)).
    { intros s Hs. apply (wf_live _ H) in Hs as [_ Hs]. lia. }
    intros s Hs. rewrite Hpf.
    destruct (Nat.eqb_spec (WordHashTable.size whtab) 0) as [Hz|Hnz].
    { assert (Hnil : live whtab = []).
      { apply length_zero_iff_nil. rewrite (live_length _ H). exact Hz. }
      destruct (Hcases s Hs) as [->|Hin]; [|rewrite Hnil in Hin; inversion Hin].
      cbn [PrintFormatStats.maxLengthWordIndex PrintFormatStats.maxCountWordIndex].
      split; reflexivity. }
    destruct (Hlive ltac:(lia)) as [HL HC].
    rewrite (Hother _ HL).
    destruct (Nat.ltb_spec
                (WordHashTabEntry.length
                   (entry_at whtab
                      (PrintFormatStats.maxLengthWordIndex (WordHashTable.pfstats whtab))))
                (WordBuffer.curPosition buf + 1)) as [Hlt|Hgeq];
      cbn [PrintFormatStats.maxLengthWordIndex PrintFormatStats.maxCountWordIndex];
      rewrite ?(Hother _ HC), ?(Hother _ HL), ?Hcur;
      cbn [WordHashTabEntry.count WordHashTabEntry.length];
      (destruct (Hcases s Hs) as [->|Hin];
       [rewrite Hcur; cbn [WordHashTabEntry.count WordHashTabEntry.length];
        pose proof (Hge _ HC); lia
       |rewrite (Hother _ Hin); destruct (Hex s Hin); lia]).
  - pose proof (entry_at_insert _ _ _ _ Hent) as Hat.
    assert (Hlive' : live whtab' = live whtab)
      by (unfold live; rewrite Hord, Hsize; reflexivity).
    assert (Hlength : ∀ s, WordHashTabEntry.length (entry_at whtab' s)
                           = WordHashTabEntry.length (entry_at whtab s)).
    { intros s. rewrite Hat. destruct (decide _) as [[-> _]|]; reflexivity. }
    assert (Hcount : ∀ s, WordHashTabEntry.count (entry_at whtab' s)
                          = if decide (s = curIndex)
                            then S (WordHashTabEntry.count (entry_at whtab curIndex))
                            else WordHashTabEntry.count (entry_at whtab s)).
    { intros s. rewrite Hat.
      destruct (decide (s = curIndex)) as [->|Hne].
      - rewrite decide_True by (split; [reflexivity|lia]). reflexivity.
      - rewrite decide_False by (intros [? _]; contradiction). reflexivity. }
    intros s Hs. rewrite Hlive' in Hs. destruct (Hex s Hs) as [Hc Hl].
    rewrite Hpf.
    destruct (Nat.ltb_spec
                (WordHashTabEntry.count
                   (entry_at whtab'
                      (PrintFormatStats.maxCountWordIndex (WordHashTable.pfstats whtab))))
                (S (WordHashTabEntry.count (entry_at whtab curIndex)))) as [Hlt|Hgeq];
      cbn [PrintFormatStats.maxLengthWordIndex PrintFormatStats.maxCountWordIndex];
      rewrite !Hlength; (split; [|exact Hl]).
    + rewrite Hcount in Hlt. rewrite !Hcount.
      rewrite (decide_True (P := curIndex = curIndex)) by reflexivity.
      repeat destruct (decide _); subst; lia.
    + rewrite Hcount in Hgeq. rewrite !Hcount.
      repeat destruct (decide _); subst; lia.
  - assert (Hat : ∀ s, WordHashTabEntry.count
                         (entry_at (set_entries whtab
                            (<[curIndex := set_letters (entry_at whtab curIndex) NULL]>
                               (WordHashTable.entries whtab))) s)
                       = WordHashTabEntry.count (entry_at whtab s)
                       ∧ WordHashTabEntry.length
                           (entry_at (set_entries whtab
                              (<[curIndex := set_letters (entry_at whtab curIndex) NULL]>
                                 (WordHashTable.entries whtab))) s)
                         = WordHashTabEntry.length (entry_at whtab s)).
    { intros s.
      rewrite (entry_at_insert whtab
                 (set_entries whtab
                    (<[curIndex := set_letters (entry_at whtab curIndex) NULL]>
                       (WordHashTable.entries whtab)))
                 curIndex (set_letters (entry_at whtab curIndex) NULL) eq_refl s).
      destruct (decide _) as [[-> _]|]; split; reflexivity. }
    intros s Hs.
    change (live (set_entries whtab _)) with (live whtab) in Hs.
    change (WordHashTable.pfstats (set_entries whtab _)) with (WordHashTable.pfstats whtab).
    rewrite !(proj1 (Hat _)), !(proj2 (Hat _)). apply Hex, Hs.
Qed.

Lemma WordHashTable_MemoryPool_expand_extremes whtab b whtab' :
  wf whtab -> extremes_exact whtab ->
  WordHashTable_MemoryPool_expand whtab (Some b) = (SUCCESS, whtab') ->
  extremes_exact whtab'.
Proof.
  intros H Hex Hexp.
  destruct (WordHashTable_MemoryPool_expand_spec whtab b H)
    as (whtab'' & Heq & _ & _ & Hlive & _ & _ & _ & _ & Hpf & _ & _ & _ & Hent & _).
  rewrite Hexp in Heq. inversion Heq; subst whtab''. clear Heq.
  assert (Hcount : ∀ k, WordHashTabEntry.count (entry_at whtab' k)
                        = WordHashTabEntry.count (entry_at whtab k)).
  { intros k. rewrite Hent. destruct (decide _); reflexivity. }
  assert (Hlength : ∀ k, WordHashTabEntry.length (entry_at whtab' k)
                         = WordHashTabEntry.length (entry_at whtab k)).
  { intros k. rewrite Hent. destruct (decide _); reflexivity. }
  intros s Hs. rewrite Hlive in Hs. rewrite Hpf, !Hcount, !Hlength. apply Hex, Hs.
Qed.

(** X28: without a rehash the print statistics stay
    exact.  A new table has them exact; if the entries named by
    [maxCountWordIndex] and [maxLengthWordIndex] carry the largest count
    and the largest length before a call of add_word or an expansion of
    the pool, they do so afterwards; and then every printed word and count
    fits the column widths of the report. *)
Theorem extremes_kept_in_place :
  (∀ initCapacity heap whtab heap',
     0 < initCapacity ->
     WordHashTable_create initCapacity heap = Finished (whtab, heap') ->
     extremes_exact whtab)
  ∧ (∀ whtab buf w st whtab',
       reachable whtab -> holds_word buf w -> extremes_exact whtab ->
       WordHashTable_add_word whtab buf = Some (st, whtab') ->
       extremes_exact whtab')
  ∧ (∀ whtab a whtab',
       reachable whtab -> extremes_exact whtab ->
       WordHashTable_MemoryPool_expand whtab a = (SUCCESS, whtab') ->
       extremes_exact whtab')
  ∧ (∀ whtab len cnt w n,
       reachable whtab -> extremes_exact whtab ->
       count_print_widths whtab = Some (len, cnt) ->
       (w, n) ∈ WordHashTable_count_print whtab ->
       S (length w) <= len ∧ n <= cnt).
Proof.
  split_and!.
  - intros c heap whtab heap' Hc Hcreate.
    destruct (WordHashTable_create_wf _ _ _ _ Hc Hcreate) as (_ & Hrep & _).
    unfold report in Hrep. apply map_eq_nil in Hrep.
    intros s Hs. rewrite Hrep in Hs. inversion Hs.
  - intros whtab buf w st whtab' Hr Hbuf Hex Hadd.
    pose proof (reachable_wf _ Hr) as H.
    destruct (add_word_result _ _ _ _ H Hadd)
      as [(_ & -> & _)|(d & curIndex & displ & _ & Hk & _ & _ & _ & _ & Hshape)];
      [exact Hex|].
    apply (add_shape_extremes _ _ _ _ _ _ _ H Hk (reachable_pfstats_live _ Hr) Hex Hshape).
  - intros whtab a whtab' Hr Hex Hexp. destruct a as [b|]; [|discriminate].
    apply (WordHashTable_MemoryPool_expand_extremes _ _ _ (reachable_wf _ Hr) Hex Hexp).
  - intros whtab len cnt w n Hr Hex. pose proof (reachable_wf _ Hr) as H.
    unfold count_print_widths.
    destruct (WordHashTable.size whtab =? 0); [discriminate|].
    intros Heq Hin. inversion Heq; subst. clear Heq.
    rewrite (wf_count_print _ H) in Hin. unfold report in Hin.
    apply list_elem_of_fmap in Hin as (s & Heq & Hs). inversion Heq; subst.
    destruct (Hex s Hs) as [Hc Hl].
    destruct (wf_stored _ H _ Hs) as [w Hw].
    rewrite (stored_word_of _ _ _ Hw).
    destruct Hw as (off & _ & Hlen & _). rewrite Hlen in Hl. auto.
Qed.

Lemma extremes_kept_in_place_witness :
  extremes_exact sample_table
  ∧ count_print_widths sample_table = Some (2, 1).
Proof.
  assert (H4 : extremes_exact (created 4)).
  { apply (proj1 extremes_kept_in_place 4 (plenty 4) _ (drop 4 (plenty 4)));
      [lia|vm_compute; reflexivity]. }
  assert (Hb : extremes_exact (after_add_word (created 4) (text "b"))).
  { apply (proj1 (proj2 extremes_kept_in_place) (created 4) (token_of (text "b"))
             (text "b") SUCCESS);
      [exact reachable_created_4|apply token_of_holds_word, text_nonzero_b|exact H4
      |vm_compute; reflexivity]. }
  split; [|vm_compute; reflexivity].
  apply (proj1 (proj2 extremes_kept_in_place)
           (after_add_word (created 4) (text "b")) (token_of (text "a"))
           (text "a") SUCCESS);
    [|apply token_of_holds_word, text_nonzero_a|exact Hb|vm_compute; reflexivity].
  eapply reach_add_word;
    [exact reachable_created_4|apply (token_of_holds_word (text "b")), text_nonzero_b
    |vm_compute; reflexivity].
Defined.

(** ** WordHashTable_hstats_update *)

Lemma descending_app l1 l2 :
  descending l1 -> descending l2 ->
  (∀ x y, x ∈ l1 -> y ∈ l2 -> y <= x) ->
  descending (l1 ++ l2).
Proof.
  induction l1 as [|x l1 IH]; intros H1 H2 H12; [exact H2|].
  destruct H1 as [Hx H1]. cbn. split.
  - apply Forall_app. split; [exact Hx|].
    apply Forall_forall. intros y Hy. apply (H12 x y); [left|exact Hy].
  - apply IH; try assumption. intros a b Ha Hb. apply H12; [right; exact Ha|exact Hb].
Qed.

Lemma descending_take l p : descending l -> descending (take p l).
Proof.
  revert p. induction l as [|x l IH]; intros [|p] Hl; cbn; auto.
  destruct Hl as [Hx Hl]. split; [|apply IH, Hl].
  apply Forall_take, Hx.
Qed.

Lemma descending_drop l p : descending l -> descending (drop p l).
Proof.
  revert p. induction l as [|x l IH]; intros [|p] Hl; cbn; auto.
  apply IH, Hl.
Qed.

Lemma descending_lookup l i j a b :
  descending l -> i < j -> l !! i = Some a -> l !! j = Some b -> b <= a.
Proof.
  revert i j. induction l as [|x l IH]; intros [|i] [|j] Hl Hij Ha Hb;
    try discriminate; try lia; destruct Hl as [Hx Hl]; cbn in *.
  - inversion Ha; subst. rewrite Forall_forall in Hx.
    apply Hx, (list_elem_of_lookup_2 _ _ _ Hb).
  - apply (IH i j Hl ltac:(lia) Ha Hb).
Qed.

(** Where the inner loop stops: at position [p], after shifting the
    smaller elements between [p] and [k] up by one. *)
Lemma displ_insert_eq arr k newAbsDispl :
  k < length arr ->
  ∃ p, p <= k
       ∧ displ_insert arr k newAbsDispl
         = take p arr ++ newAbsDispl :: drop p (take k arr) ++ drop (S k) arr
       ∧ Forall (fun x => x < newAbsDispl) (drop p (take k arr))
       ∧ (∀ q y, p = S q -> arr !! q = Some y -> newAbsDispl <= y).
Proof.
  revert arr. induction k as [|j IH]; intros arr Hk; cbn [displ_insert].
  - exists 0. split; [lia|]. split_and!.
    + destruct arr as [|x arr]; [cbn in Hk; lia|]. reflexivity.
    + constructor.
    + intros q y Hq. lia.
  - destruct (Nat.ltb_spec (arr !!! j) newAbsDispl) as [Hlt|Hge].
    + destruct (IH (<[S j := arr !!! j]> arr)) as (p & Hp & Heq & Hsmall & Hstop).
      { rewrite length_insert. lia. }
      exists p. split; [lia|].
      assert (Hj : arr !! j = Some (arr !!! j))
        by (apply list_lookup_lookup_total_lt; lia).
      rewrite !take_insert_ge in Heq by lia.
      rewrite take_insert_ge in Hsmall by lia.
      rewrite drop_insert_ge in Heq by lia.
      replace (S j - S j) with 0 in Heq by lia.
      assert (Hdrop : drop (S j) arr
                      = arr !!! S j :: drop (S (S j)) arr).
      { apply drop_S. apply list_lookup_lookup_total_lt. lia. }
      rewrite Hdrop in Heq. cbn [insert list_insert] in Heq.
      assert (Htake : take (S j) arr = take j arr ++ [arr !!! j])
        by (apply take_S_r, Hj).
      split_and!.
      * rewrite Heq, Htake, drop_app_le by (rewrite length_take; lia).
        rewrite <- !app_assoc. reflexivity.
      * rewrite Htake, drop_app_le by (rewrite length_take; lia).
        apply Forall_app. split; [exact Hsmall|]. repeat constructor. exact Hlt.
      * intros q y Hq Hy. apply (Hstop q y Hq).
        rewrite list_lookup_insert_ne by lia. exact Hy.
    + exists (S j). split; [lia|]. split_and!.
      * rewrite drop_ge by (rewrite length_take; lia). cbn [app].
        apply insert_take_drop. lia.
      * rewrite drop_ge by (rewrite length_take; lia). constructor.
      * intros q y Hq Hy. inversion Hq; subst q.
        rewrite (list_lookup_total_correct _ _ _ Hy) in Hge. exact Hge.
Qed.

Lemma displ_insert_sorted arr i newAbsDispl :
  i < length arr -> descending (take i arr) ->
  take (S i) (displ_insert arr i newAbsDispl) ≡ₚ newAbsDispl :: take i arr
  ∧ descending (take (S i) (displ_insert arr i newAbsDispl))
  ∧ length (displ_insert arr i newAbsDispl) = length arr.
Proof.
  intros Hi Hsorted.
  destruct (displ_insert_eq arr i newAbsDispl Hi) as (p & Hp & Heq & Hsmall & Hstop).
  set (A := take i arr) in *.
  assert (HA : length A = i) by (unfold A; rewrite length_take; lia).
  assert (Htp : take p arr = take p A).
  { unfold A. rewrite take_take. f_equal. lia. }
  rewrite Htp in Heq.
  assert (Hfront : take (S i) (displ_insert arr i newAbsDispl)
                   = take p A ++ newAbsDispl :: drop p A).
  { rewrite Heq.
    replace (take p A ++ newAbsDispl :: drop p A ++ drop (S i) arr)
      with ((take p A ++ newAbsDispl :: drop p A) ++ drop (S i) arr)
      by (rewrite <- app_assoc; reflexivity).
    apply take_app_length'.
    rewrite length_app, length_take. cbn [length]. rewrite length_drop. lia. }
  rewrite Hfront. split_and!.
  - rewrite <- Permutation_middle, take_drop. reflexivity.
  - apply descending_app.
    + apply descending_take, Hsorted.
    + cbn. split; [|apply descending_drop, Hsorted].
      eapply Forall_impl; [exact Hsmall|]. cbn. intros; lia.
    + intros x y Hx Hy.
      assert (Hxn : newAbsDispl <= x).
      { destruct p as [|q]; [rewrite take_0 in Hx; inversion Hx|].
        apply list_elem_of_lookup in Hx as [k Hk].
        assert (Hkq : k < S q).
        { pose proof (lookup_lt_Some _ _ _ Hk) as Hlt. rewrite length_take in Hlt. lia. }
        rewrite lookup_take_lt in Hk by lia.
        destruct (lookup_lt_is_Some_2 A q ltac:(lia)) as [z Hz].
        assert (Hz' : arr !! q = Some z).
        { unfold A in Hz. rewrite lookup_take_lt in Hz by lia. exact Hz. }
        pose proof (Hstop q z eq_refl Hz').
        destruct (decide (k = q)) as [->|Hne]; [congruence|].
        pose proof (descending_lookup A k q x z Hsorted ltac:(lia) Hk Hz). lia. }
      apply elem_of_cons in Hy as [->|Hy]; [exact Hxn|].
      rewrite Forall_forall in Hsmall. pose proof (Hsmall y Hy). lia.
  - rewrite Heq, !length_app. cbn [length]. rewrite length_app, length_take, !length_drop.
    lia.
Qed.

Lemma hstats_update_loop_spec whtab n :
  ∀ m i arr sum,
    i + m = n -> length arr = n ->
    take i arr ≡ₚ map (abs_displacement whtab) (seq 0 i) ->
    descending (take i arr) ->
    sum = sum_list (map (abs_displacement whtab) (seq 0 i)) ->
    let '(arr', sum') := hstats_update_loop whtab (seq i m) arr sum in
    arr' ≡ₚ map (abs_displacement whtab) (seq 0 n)
    ∧ descending arr'
    ∧ length arr' = n
    ∧ sum' = sum_list (map (abs_displacement whtab) (seq 0 n)).
Proof.
  induction m as [|m IH]; intros i arr sum Him Hlen Hperm Hsorted Hsum;
    cbn [seq hstats_update_loop].
  - assert (i = n) by lia. subst i.
    rewrite take_ge in Hperm, Hsorted by lia. auto.
  - destruct (displ_insert_sorted arr i (abs_displacement whtab i) ltac:(lia) Hsorted)
      as (Hperm' & Hsorted' & Hlen').
    apply IH; try assumption; try lia.
    + rewrite Hperm', Hperm, seq_S, map_app. cbn [map Nat.add].
      rewrite <- Permutation_cons_append. reflexivity.
    + rewrite seq_S, map_app, sum_list_with_app, Hsum. cbn. unfold id. lia.
Qed.

(** X29: the statistics WordHashTable_hstats_update stores.
    The insertion sort leaves the absolute displacements of the live
    entries in descending order, nothing lost and nothing added; the mean
    is their sum over the number of entries and the median is read from
    the middle of the sorted array: the middle element for an odd size,
    half the sum of the two middle elements for an even size. *)
Theorem hstats_update_sorts whtab :
  0 < WordHashTable.size whtab ->
  let size := WordHashTable.size whtab in
  let displs := map (abs_displacement whtab) (seq 0 size) in
  ∃ sorted,
    sorted ≡ₚ displs ∧ descending sorted
    ∧ WordHashTable_hstats_update whtab
      = Some ((sum_list displs, size),
              if size mod 2 =? 0
              then (sorted !!! (size / 2 - 1) + sorted !!! (size / 2), 2)
              else (sorted !!! (size / 2), 1)).
Proof.
  intros Hpos size displs. unfold WordHashTable_hstats_update. fold size.
  destruct (Nat.eqb_spec size 0) as [Hz|_]; [unfold size in Hz; lia|].
  pose proof (hstats_update_loop_spec whtab size size 0 (repeat 0 size) 0
                eq_refl (repeat_length _ _)) as Hloop.
  rewrite take_0 in Hloop.
  specialize (Hloop (Permutation_refl _) I eq_refl).
  destruct (hstats_update_loop whtab (seq 0 size) (repeat 0 size) 0) as [arr sum].
  destruct Hloop as (Hperm & Hsorted & _ & ->).
  exists arr. split_and!; [exact Hperm|exact Hsorted|reflexivity].
Qed.

Lemma hstats_update_sorts_witness :
  ∃ sorted,
    sorted ≡ₚ [0; 0; 1] ∧ descending sorted
    ∧ WordHashTable_hstats_update (after_add_word sample_table (text "f"))
      = Some ((1, 3), (0, 1)).
Proof.
  destruct (hstats_update_sorts (after_add_word sample_table (text "f")))
    as (sorted & Hperm & Hsorted & _); [vm_compute; lia|].
  vm_compute in Hperm.
  exists sorted. split_and!; [exact Hperm|exact Hsorted|vm_compute; reflexivity].
Defined.

(** ** The insertion and collision counters *)

Lemma displ_sum_live whtab :
  WordHashTable.size whtab <= length (WordHashTable.alphOrderArray whtab) ->
  displ_sum whtab
  = sum_list
      (map (fun s => Z.to_nat (Z.abs (WordHashTabEntry.displacement (entry_at whtab s))))
           (live whtab)).
Proof.
  intros Hsz. unfold displ_sum, live.
  rewrite <- (map_lookup_total_seq (WordHashTable.alphOrderArray whtab)) by exact Hsz.
  rewrite map_map. reflexivity.
Qed.

Lemma displ_sum_same whtab whtab' :
  WordHashTable.size whtab <= length (WordHashTable.alphOrderArray whtab) ->
  WordHashTable.size whtab' = WordHashTable.size whtab ->
  WordHashTable.alphOrderArray whtab' = WordHashTable.alphOrderArray whtab ->
  (∀ s, WordHashTabEntry.displacement (entry_at whtab' s)
        = WordHashTabEntry.displacement (entry_at whtab s)) ->
  displ_sum whtab' = displ_sum whtab.
Proof.
  intros Hsz Hsize Hord Hd.
  rewrite !displ_sum_live by (rewrite ?Hord, ?Hsize; exact Hsz).
  unfold live. rewrite Hord, Hsize. f_equal. apply map_ext. intros s. rewrite Hd.
  reflexivity.
Qed.

Lemma migrate_at_hstats whtab ext i oldIndex oldEntry curIndex displ newDispl whtab' ext' :
  migrate_at whtab ext i oldIndex oldEntry curIndex displ newDispl = Some (whtab', ext') ->
  WordHashTable.hstats whtab'
  = HashStats.mk (HashStats.totalInsertions (WordHashTable.hstats whtab) + 1)
      (HashStats.totalCollisions (WordHashTable.hstats whtab) + newDispl).
Proof.
  unfold migrate_at.
  destruct (WordHashTabEntry.count (ext !!! curIndex) =? 0); [|discriminate].
  intros Hres. inversion Hres; subst. clear Hres.
  ht_unfold.
  destruct (oldIndex =? PrintFormatStats.maxCountWordIndex _); ht_simpl;
    destruct (oldIndex =? PrintFormatStats.maxLengthWordIndex _); ht_simpl;
    (destruct (Nat.ltb_spec 0 newDispl);
     [reflexivity|replace newDispl with 0 by lia; rewrite Nat.add_0_r; reflexivity]).
Qed.

Lemma WordHashTable_migrate_hstats whtab0 x whtab3 ext :
  wf whtab0 -> length x = WordHashTable.capacity whtab0 ->
  WordHashTable_migrate (expanding whtab0 x)
    (repeat WordHashTabEntry_zero (WordHashTable.capacity whtab0 * 2))
  = Some (whtab3, ext) ->
  HashStats.totalInsertions (WordHashTable.hstats whtab3)
  = HashStats.totalInsertions (WordHashTable.hstats whtab0) + WordHashTable.size whtab0
  ∧ HashStats.totalCollisions (WordHashTable.hstats whtab3)
    = HashStats.totalCollisions (WordHashTable.hstats whtab0)
      + displ_sum (set_entries whtab3 ext).
Proof.
  intros H Hx Hmig.
  set (whtab2 := expanding whtab0 x) in *.
  set (C := WordHashTable.capacity whtab0 * 2) in *.
  set (absd := fun (whtab : WordHashTable) (ext : list WordHashTabEntry) (j : nat) =>
         Z.to_nat (Z.abs (WordHashTabEntry.displacement
                            (ext !!! (WordHashTable.alphOrderArray whtab !!! j))))).
  destruct (WordHashTable_migrate_ind whtab0 x
              (fun i whtab ext =>
                 HashStats.totalInsertions (WordHashTable.hstats whtab)
                 = HashStats.totalInsertions (WordHashTable.hstats whtab0) + i
                 ∧ HashStats.totalCollisions (WordHashTable.hstats whtab)
                   = HashStats.totalCollisions (WordHashTable.hstats whtab0)
                     + sum_list (map (absd whtab ext) (seq 0 i))) H Hx)
    as (whtab3' & ext' & Hmig' & M & Hins & Hcoll).
  { cbn. split; lia. }
  { intros i whtab ext0 whtab' ext1 d curIndex displ Hi M0 [Hins Hcoll] M1
           (_ & Hcur & _ & Hd & _ & Hat).
    pose proof (migrate_at_hstats _ _ _ _ _ _ _ _ _ _ Hat) as Hhs.
    apply migrate_at_spec in Hat as (Hcfree & -> & _ & Ha & _ & _ & _).
    assert (HextC : length ext0 = C) by apply (mg_ext_length _ _ _ _ M0).
    assert (HcapC : WordHashTable.capacity whtab = C) by apply (mg_capacity _ _ _ _ M0).
    assert (Hilen : i < length (WordHashTable.alphOrderArray whtab)).
    { rewrite (mg_order_length _ _ _ _ M0).
      change (i < length (WordHashTable.alphOrderArray whtab0 ++ x)).
      rewrite length_app. pose proof (wf_size _ H). pose proof (wf_order _ H). lia. }
    rewrite Hhs. cbn [HashStats.totalInsertions HashStats.totalCollisions].
    split; [lia|].
    rewrite seq_S, map_app, sum_list_with_app. cbn [Nat.add map sum_list_with].
    set (e := WordHashTabEntry.mk
                (WordHashTabEntry.letters
                   (entry_at whtab (WordHashTable.alphOrderArray whtab !!! i)))
                (WordHashTabEntry.count
                   (entry_at whtab (WordHashTable.alphOrderArray whtab !!! i)))
                (WordHashTabEntry.length
                   (entry_at whtab (WordHashTable.alphOrderArray whtab !!! i)))
                displ) in *.
    assert (Hnew : absd whtab' (<[curIndex := e]> ext0) i = d).
    { unfold absd. rewrite Ha, list_lookup_total_insert_eq by exact Hilen.
      rewrite list_lookup_total_insert_eq by (rewrite HextC, <- HcapC; exact Hcur).
      unfold e. cbn [WordHashTabEntry.displacement]. lia. }
    rewrite Hnew.
    assert (Hold : map (absd whtab' (<[curIndex := e]> ext0)) (seq 0 i)
                   = map (absd whtab ext0) (seq 0 i)).
    { apply map_ext_in. intros j Hj. apply in_seq in Hj.
      unfold absd. rewrite Ha.
      rewrite (list_lookup_total_insert_ne (WordHashTable.alphOrderArray whtab) i j curIndex)
        by lia.
      rewrite list_lookup_total_insert_ne; [reflexivity|].
      intros Heq.
      destruct (mg_moved _ _ _ _ M0 j ltac:(lia)) as [Hlt _].
      assert (Hused : WordHashTabEntry.count
                        (ext0 !!! (WordHashTable.alphOrderArray whtab !!! j)) ≠ 0).
      { apply (mg_used _ _ _ _ M0); [exact Hlt|].
        apply list_elem_of_lookup. exists j. rewrite lookup_take_lt by lia.
        apply list_lookup_lookup_total_lt. lia. }
      rewrite <- Heq in Hused. contradiction. }
    rewrite Hold, Hcoll. unfold id. lia. }
  fold whtab2 C in Hmig'. rewrite Hmig in Hmig'. inversion Hmig'; subst whtab3' ext'.
  split; [exact Hins|]. rewrite Hcoll. f_equal.
  unfold displ_sum. change (WordHashTable.size (set_entries whtab3 ext))
    with (WordHashTable.size whtab3).
  rewrite (mg_size _ _ _ _ M). reflexivity.
Qed.

Lemma add_shape_hstats whtab buf curIndex displ d st whtab' :
  wf whtab -> wf whtab' -> curIndex < WordHashTable.capacity whtab ->
  Z.abs displ = Z.of_nat d ->
  add_shape whtab buf curIndex displ d st whtab' ->
  HashStats.totalInsertions (WordHashTable.hstats whtab') + WordHashTable.size whtab
  = HashStats.totalInsertions (WordHashTable.hstats whtab) + WordHashTable.size whtab'
  ∧ HashStats.totalCollisions (WordHashTable.hstats whtab') + displ_sum whtab
    = HashStats.totalCollisions (WordHashTable.hstats whtab) + displ_sum whtab'.
Proof.
  intros H H' Hk Hd Hshape.
  assert (Hlen : length (WordHashTable.entries whtab) = WordHashTable.capacity whtab)
    by apply (wf_entries _ H).
  assert (Hsz : WordHashTable.size whtab <= length (WordHashTable.alphOrderArray whtab)).
  { rewrite (wf_order _ H). apply (wf_size _ H). }
  destruct Hshape as [whtab' pos Hfree _ Hent Hl _ Hsize _ Hhs _
                     |whtab' Hocc _ Hent Hord _ Hsize _ Hhs _
                     |Hfree _].
  - rewrite Hhs, Hsize. cbn [HashStats.totalInsertions HashStats.totalCollisions].
    split; [lia|].
    rewrite (displ_sum_live whtab) by exact Hsz.
    rewrite (displ_sum_live whtab')
      by (rewrite (wf_order _ H'); apply (wf_size _ H')).
    pose proof (entry_at_insert _ _ _ _ Hent) as Hat.
    rewrite Hl, map_app, map_cons, sum_list_insert_middle, <- map_app.
    rewrite (Hat curIndex), decide_True by (split; [reflexivity|lia]).
    cbn [WordHashTabEntry.displacement].
    assert (Hsame : map (fun s => Z.to_nat (Z.abs (WordHashTabEntry.displacement
                                                     (entry_at whtab' s))))
                        (take pos (live whtab) ++ drop pos (live whtab))
                    = map (fun s => Z.to_nat (Z.abs (WordHashTabEntry.displacement
                                                       (entry_at whtab s))))
                          (live whtab)).
    { rewrite take_drop. apply map_ext_in. intros s Hs.
      rewrite Hat, decide_False; [reflexivity|].
      intros [-> _]. apply list_elem_of_In in Hs.
      apply (wf_live _ H) in Hs as [_ Hs]. contradiction. }
    rewrite Hsame. lia.
  - rewrite Hhs, Hsize. split; [lia|].
    rewrite (displ_sum_same whtab whtab' Hsz Hsize Hord); [lia|].
    intros s. rewrite (entry_at_insert _ _ _ _ Hent s).
    destruct (decide _) as [[-> _]|]; reflexivity.
  - change (WordHashTable.hstats (set_entries whtab _)) with (WordHashTable.hstats whtab).
    change (WordHashTable.size (set_entries whtab _)) with (WordHashTable.size whtab).
    split; [lia|].
    rewrite (displ_sum_same whtab (set_entries whtab _) Hsz eq_refl eq_refl); [lia|].
    intros s.
    rewrite (entry_at_insert whtab
               (set_entries whtab
                  (<[curIndex := set_letters (entry_at whtab curIndex) NULL]>
                     (WordHashTable.entries whtab)))
               curIndex (set_letters (entry_at whtab curIndex) NULL) eq_refl s).
    destruct (decide _) as [[-> _]|]; reflexivity.
Qed.

(** X30: what the two counters of the hash statistics
    count.  A call of add_word raises [totalInsertions] by the number of
    rows it adds (one or none) and [totalCollisions] by the absolute
    displacement of the row it adds; an expansion of the pool changes
    neither; a rehash counts every live entry again: [totalInsertions]
    grows by the number of entries and [totalCollisions] by the sum of
    their new absolute displacements. *)
Theorem hstats_count_placements :
  (∀ whtab buf w st whtab',
     reachable whtab -> holds_word buf w ->
     WordHashTable_add_word whtab buf = Some (st, whtab') ->
     HashStats.totalInsertions (WordHashTable.hstats whtab') + WordHashTable.size whtab
     = HashStats.totalInsertions (WordHashTable.hstats whtab) + WordHashTable.size whtab'
     ∧ HashStats.totalCollisions (WordHashTable.hstats whtab') + displ_sum whtab
       = HashStats.totalCollisions (WordHashTable.hstats whtab) + displ_sum whtab')
  ∧ (∀ whtab a whtab',
       reachable whtab ->
       WordHashTable_MemoryPool_expand whtab a = (SUCCESS, whtab') ->
       WordHashTable.hstats whtab' = WordHashTable.hstats whtab
       ∧ displ_sum whtab' = displ_sum whtab)
  ∧ (∀ whtab heap whtab' heap',
       reachable whtab ->
       WordHashTable_expand whtab heap = Some (SUCCESS, whtab', heap') ->
       HashStats.totalInsertions (WordHashTable.hstats whtab')
       = HashStats.totalInsertions (WordHashTable.hstats whtab) + WordHashTable.size whtab
       ∧ HashStats.totalCollisions (WordHashTable.hstats whtab')
         = HashStats.totalCollisions (WordHashTable.hstats whtab) + displ_sum whtab').
Proof.
  assert (Hpool : ∀ whtab b whtab',
            wf whtab ->
            WordHashTable_MemoryPool_expand whtab (Some b) = (SUCCESS, whtab') ->
            WordHashTable.hstats whtab' = WordHashTable.hstats whtab
            ∧ WordHashTable.size whtab' = WordHashTable.size whtab
            ∧ displ_sum whtab' = displ_sum whtab).
  { intros whtab b whtab' H Hexp.
    destruct (WordHashTable_MemoryPool_expand_spec whtab b H)
      as (whtab'' & Heq & _ & _ & _ & Hord & _ & Hsize & Hhs & _ & _ & _ & _ & Hent & _).
    rewrite Hexp in Heq. inversion Heq; subst whtab''. clear Heq.
    split_and!; [exact Hhs|exact Hsize|].
    apply displ_sum_same; try assumption.
    - rewrite (wf_order _ H). apply (wf_size _ H).
    - intros s. rewrite Hent. destruct (decide _); reflexivity. }
  split_and!.
  - intros whtab buf w st whtab' Hr Hbuf Hadd.
    pose proof (reachable_wf _ Hr) as H.
    pose proof (reachable_wf _ (reach_add_word _ _ _ _ _ Hr Hbuf Hadd)) as H'.
    destruct (add_word_result _ _ _ _ H Hadd)
      as [(_ & -> & _)|(d & curIndex & displ & _ & Hk & _ & Hd & _ & _ & Hshape)];
      [split; lia|].
    apply (add_shape_hstats _ _ _ _ _ _ _ H H' Hk Hd Hshape).
  - intros whtab a whtab' Hr Hexp. destruct a as [b|]; [|discriminate].
    destruct (Hpool _ _ _ (reachable_wf _ Hr) Hexp) as (Hhs & _ & Hsum). auto.
  - intros whtab heap whtab' heap' Hr Hexp.
    pose proof (reachable_wf _ Hr) as H.
    destruct (WordHashTable_expand_via _ _ _ _ H Hexp)
      as (whtabp & x & whtab3 & ext & Hwfp & Hp & Hx & Hmig & ->).
    destruct (WordHashTable_migrate_hstats whtabp x whtab3 ext Hwfp Hx Hmig)
      as [Hins Hcoll].
    change (WordHashTable.hstats (set_entries whtab3 ext))
      with (WordHashTable.hstats whtab3).
    destruct Hp as [->|(b & Hpl)]; [auto|].
    destruct (Hpool _ _ _ H Hpl) as (Hhs & Hsize & _).
    rewrite Hhs, Hsize in *. auto.
Qed.

Lemma hstats_count_placements_witness :
  let whtab' := after_add_word sample_table (text "f") in
  HashStats.totalInsertions (WordHashTable.hstats whtab') + 2 = 2 + 3
  ∧ HashStats.totalCollisions (WordHashTable.hstats whtab') + 0 = 0 + displ_sum whtab'.
Proof.
  apply (proj1 hstats_count_placements sample_table (token_of (text "f")) (text "f")
           SUCCESS (after_add_word sample_table (text "f")) reachable_sample);
    [apply token_of_holds_word; vm_compute; repeat constructor; discriminate
    |vm_compute; reflexivity].
Defined.

